(** * The fastText-style vocabulary dictionary of readable_w2v

    A shallow embedding of [src/dictionary.cc] (the words-only dictionary,
    module [WordsOnly]) and of its label-aware twin (module [LabelAware]),
    together with the properties of the hash index, the corpus reader, the
    builder, the subsampling table, pruning and the binary format. *)

From Stdlib Require Import ZArith Lia Bool String Ascii List SpecFloat.
From Stdlib Require Import Permutation Sorted.
From stdpp Require Import base option list gmap.
Import ListNotations.

Local Open Scope string_scope.
Local Open Scope list_scope.
Local Open Scope Z_scope.

(** ** Outcomes of a call

    Every C++ call either returns or leaves the defined behaviour of the
    program; the model keeps the reason. *)

Inductive fault : Type :=
| Diverges          (* a loop that never exits *)
| OutOfBounds       (* operator[] outside a vector: undefined behaviour *)
| AssertionFailed   (* an assert of the source fails *)
| ExitFailure       (* exit(EXIT_FAILURE) *)
| Throws            (* a C++ exception leaves the call *)
| Malformed         (* a read past the end of a persisted image *).

Inductive Result (A : Type) : Type :=
| Ok (a : A)
| Err (f : fault).
Arguments Ok {A} a.
Arguments Err {A} f.

#[global] Instance Result_ret : MRet Result := fun _ a => Ok a.
#[global] Instance Result_bind : MBind Result := fun _ _ k r =>
  match r with
  | Ok a => k a
  | Err f => Err f
  end.

Definition assert (b : bool) : Result unit :=
  if b then Ok tt else Err AssertionFailed.

(** [v[i]] on a [std::vector] held as a list, for a signed index. *)
Definition vec_at {A} (v : list A) (i : Z) : Result A :=
  if i <? 0 then Err OutOfBounds
  else match v !! Z.to_nat i with
       | Some a => Ok a
       | None => Err OutOfBounds
       end.

(** ** While loops

    [body] runs one iteration: [inl s'] goes round again, [inr r] leaves the
    loop with [r].  [loop_n] bounds the number of iterations by a unary
    number.  [loop_pow2 k] allows [2 ^ k] iterations and evaluates only the
    iterations the loop takes, so the bound of a 30,000,000-slot probe costs
    nothing on a short probe. *)

Section Loop.
Context {S R : Type}.
Variable body : S -> Result (S + R).

Fixpoint loop_n (n : nat) (s : S) : Result (S + R) :=
  match n with
  | O => Ok (inl s)
  | Datatypes.S n' =>
      x ← body s;
      match x with
      | inl s' => loop_n n' s'
      | inr r => Ok (inr r)
      end
  end.

Fixpoint loop_pow2 (k : nat) (s : S) : Result (S + R) :=
  match k with
  | O => body s
  | Datatypes.S k' =>
      x ← loop_pow2 k' s;
      match x with
      | inl s' => loop_pow2 k' s'
      | inr r => Ok (inr r)
      end
  end.

(** The loop proper: running out of the bound is reported as divergence. *)
Definition while (k : nat) (s : S) : Result R :=
  x ← loop_pow2 k s;
  match x with
  | inl _ => Err Diverges
  | inr r => Ok r
  end.
End Loop.

(** ** Characters

    [char] is the signed 8-bit type of the x86-64 targets.  The reader's exit
    test [c != EOF] can only ever succeed for a signed [char]. *)

Definition EOF : Z := -1.

(** The conversion of an [int] to [char]. *)
Definition to_char (x : Z) : Z := (x + 128) mod 256 - 128.

(** The value an [int32_t] holds for the integer [x]: two's-complement
    wrap-around. *)
Definition to_int32 (x : Z) : Z := (x + 2 ^ 31) mod 2 ^ 32 - 2 ^ 31.

(** A [char] stored in a [std::string]. *)
Definition char_ascii (c : Z) : ascii := ascii_of_N (Z.to_N (c mod 256)).

(** The byte held by a string position, as the [unsigned char] value that
    [sbumpc] and [get] return. *)
Definition byte_val (a : ascii) : Z := Z.of_N (N_of_ascii a).

(** [uint32_t(str[i])]: the signed [char] sign-extends. *)
Definition char_to_uint32 (a : ascii) : Z := to_char (byte_val a) mod 2 ^ 32.

Definition push_back (w : string) (c : Z) : string :=
  (w ++ String (char_ascii c) EmptyString)%string.

Definition is_separator (c : Z) : bool :=
  (c =? 32) || (c =? 10) || (c =? 13) || (c =? 9) || (c =? 11) || (c =? 12)
  || (c =? 0).

Definition EOS : string := "</s>".

(** ** Dictionary::hash *)

Fixpoint hash_from (h : Z) (str : string) : Z :=
  match str with
  | EmptyString => h
  | String a rest =>
      let h1 := Z.lxor h (char_to_uint32 a) in
      let h2 := (h1 * 16777619) mod 2 ^ 32 in
      hash_from h2 rest
  end.

Definition hash (str : string) : Z := hash_from 2166136261 str.

(** ** Input streams

    A [std::istream] over a fixed byte sequence: [content] is the whole
    file, [unread] what the stream buffer has not handed out yet, and the two
    state bits the code reads or sets. *)

Record istream : Type := mkIstream {
  content : list ascii;
  unread : list ascii;
  eofbit : bool;
  failbit : bool
}.

Definition open_stream (bytes : string) : istream :=
  {| content := list_ascii_of_string bytes;
     unread := list_ascii_of_string bytes;
     eofbit := false; failbit := false |}.

Definition good (s : istream) : bool := negb (eofbit s) && negb (failbit s).

(** [in.get()] with its result dropped, as [readWord] calls it: a stream
    that is not good only gains [failbit]; a good one extracts one byte, or
    sets [eofbit] and [failbit] at the end of the buffer. *)
Definition istream_get (s : istream) : istream :=
  if good s then
    match unread s with
    | [] => {| content := content s; unread := []; eofbit := true; failbit := true |}
    | _ :: rest => {| content := content s; unread := rest;
                      eofbit := eofbit s; failbit := failbit s |}
    end
  else {| content := content s; unread := unread s;
          eofbit := eofbit s; failbit := true |}.

Definition set_unread (s : istream) (rest : list ascii) : istream :=
  {| content := content s; unread := rest;
     eofbit := eofbit s; failbit := failbit s |}.

(** Dictionary::reset *)
Definition reset (s : istream) : istream :=
  if eofbit s then
    {| content := content s; unread := content s;
       eofbit := false; failbit := false |}
  else s.

(** ** Dictionary::readWord

    The loop over [sb.sbumpc()].  It leaves through [return true] inside the
    body ([inr]) or through the exit test ([inl], with the bytes left in the
    buffer and the word so far). *)

Fixpoint readWord_loop (rest : list ascii) (word : string)
  : (list ascii * string) + (list ascii * string) :=
  match rest with
  | [] => inl ([], word)                        (* sbumpc gives EOF *)
  | a :: rest' =>
      let c := to_char (byte_val a) in
      if c =? EOF then inl (rest', word)
      else if is_separator c then
        if String.eqb word EmptyString then
          if c =? 10 then inr (rest', (word ++ EOS)%string)
          else readWord_loop rest' word         (* continue *)
        else
          if c =? 10 then inr (a :: rest', word) (* sungetc *)
          else inr (rest', word)
      else readWord_loop rest' (push_back word c)
  end.

Definition readWord (s : istream) : bool * string * istream :=
  match readWord_loop (unread s) EmptyString with
  | inr (rest, word) => (true, word, set_unread s rest)
  | inl (rest, word) =>
      (negb (String.eqb word EmptyString), word,
       istream_get (set_unread s rest))
  end.

(** ** Floating point

    [real.h] and [args.h] are not among the sources.  [real] is taken as the
    IEEE-754 binary32 format and the subsampling target [t] of the options as
    a binary64 [double]; both are values of [spec_float] in the canonical
    form of their format, rounded to nearest even by the operations of the
    Standard Library's executable specification. *)

Definition real_prec : Z := 24.
Definition real_emax : Z := 128.
Definition double_prec : Z := 53.
Definition double_emax : Z := 1024.

(** A conversion between formats rounds the exact value to the new format. *)
Definition SFconv (prec emax : Z) (x : spec_float) : spec_float :=
  match x with
  | S754_finite s m e => binary_normalize prec emax (cond_Zopp s (Zpos m)) e s
  | _ => x
  end.

(** [real(n)] for an integer [n]. *)
Definition real_of_int (n : Z) : spec_float :=
  binary_normalize real_prec real_emax n 0 false.

Definition to_real : spec_float -> spec_float := SFconv real_prec real_emax.
Definition to_double : spec_float -> spec_float := SFconv double_prec double_emax.

(** The [real] nearest to [a / b], for integers [a] and [b]. *)
Definition real_of_ratio (a b : Z) : spec_float :=
  SFdiv real_prec real_emax (real_of_int a) (real_of_int b).

(** [a > b] on [real]s. *)
Definition real_gt (a b : spec_float) : bool := SFltb b a.

(** [std::sqrt(t / f) + t / f], computed in [double] from a [double] [t] and
    a [real] [f], and stored into a [real]. *)
Definition discard_probability (t f : spec_float) : spec_float :=
  let q := SFdiv double_prec double_emax t (to_double f) in
  to_real (SFadd double_prec double_emax (SFsqrt double_prec double_emax q) q).

(** ** The options record

    Modelled from the spec: [args.h] is absent; the dictionary reads the
    label marker, the two count thresholds, the subsampling target, the
    training mode and the verbosity. *)

Inductive model_name : Type := cbow | sg | sup.

Definition model_name_eqb (a b : model_name) : bool :=
  match a, b with
  | cbow, cbow | sg, sg | sup, sup => true
  | _, _ => false
  end.

Record Args : Type := mkArgs {
  label : string;
  minCount : Z;
  minCountLabel : Z;
  t : spec_float;
  model : model_name;
  verbose : Z
}.

(** ** The caller's random source

    [std::minstd_rand] under [std::uniform_real_distribution<>(0, 1)]: the
    sequence of [double]s it will hand out, and how many were taken. *)

Record minstd_rand : Type := mkRng {
  draws : nat -> spec_float;
  taken : nat
}.

Definition uniform (rng : minstd_rand) : spec_float * minstd_rand :=
  (draws rng (taken rng), {| draws := draws rng; taken := Datatypes.S (taken rng) |}).

(** ** std::sort

    The library sort is used through its contract only: the result is a
    permutation of the input, and for a strict weak ordering no element
    precedes one that must come before it.  The order of equivalent elements
    is left to the implementation. *)

Record strict_weak_order {A} (cmp : A -> A -> bool) : Prop := {
  swo_irrefl : forall a, cmp a a = false;
  swo_trans : forall a b c, cmp a b = true -> cmp b c = true -> cmp a c = true;
  swo_equiv : forall a b c,
      cmp a b = false -> cmp b a = false ->
      cmp b c = false -> cmp c b = false ->
      cmp a c = false /\ cmp c a = false
}.

Class StdSort : Type := {
  std_sort : forall {A : Type}, (A -> A -> bool) -> list A -> list A;
  std_sort_perm : forall A (cmp : A -> A -> bool) (l : list A),
      Permutation (std_sort cmp l) l;
  std_sort_sorted : forall A (cmp : A -> A -> bool) (l : list A),
      strict_weak_order cmp ->
      StronglySorted (fun a b => cmp b a = false) (std_sort cmp l)
}.

(** One implementation: insertion sort. *)
Fixpoint insert_sorted {A} (cmp : A -> A -> bool) (x : A) (l : list A) : list A :=
  match l with
  | [] => [x]
  | y :: l' => if cmp x y then x :: y :: l' else y :: insert_sorted cmp x l'
  end.

Fixpoint insertion_sort {A} (cmp : A -> A -> bool) (l : list A) : list A :=
  match l with
  | [] => []
  | x :: l' => insert_sorted cmp x (insertion_sort cmp l')
  end.

(** ** The hash index

    [word2int_] has [MAX_VOCAB_SIZE] slots, all [-1] at first; the model keeps
    the slots that were written. *)

Definition MAX_VOCAB_SIZE : Z := 30000000.
Definition MAX_LINE_SIZE : Z := 1024.

(** [2 ^ probe_bound] exceeds the number of slots: a probe that has not
    stopped by then has seen every slot and goes round for ever. *)
Definition probe_bound : nat := 25.

Definition slot_at (tbl : gmap Z Z) (id : Z) : Z := default (-1) (tbl !! id).

(** The probe of [find(w, h)], which both dictionaries share word for word:
    [stored i] stands for [words_[i].word].  One turn of
    [while (word2int_[id] != -1 && words_[word2int_[id]].word != w)
       id = (id + 1) % MAX_VOCAB_SIZE;] *)
Definition probe_body (tbl : gmap Z Z) (stored : Z -> Result string)
    (w : string) (id : Z) : Result (Z + Z) :=
  let v := slot_at tbl id in
  if v =? -1 then Ok (inr id)
  else
    w' ← stored v;
    if String.eqb w' w then Ok (inr id)
    else Ok (inl ((id + 1) mod MAX_VOCAB_SIZE)).

Definition probe (tbl : gmap Z Z) (stored : Z -> Result string)
    (w : string) (h : Z) : Result Z :=
  while (probe_body tbl stored w) probe_bound (h mod MAX_VOCAB_SIZE).

(** [words_[i].word] for either kind of entry. *)
Definition stored_word {A} (proj : A -> string) (ws : list A) (i : Z)
  : Result string :=
  e ← vec_at ws i;
  Ok (proj e).

(** The compaction loop of [prune], which both dictionaries share but for
    the test of its [if]: [keep ws i j] is that test on the current vector.
    [for (i = 0; i < words_.size(); i++) if (...) { words_[j] = words_[i];
    word2int_[find(words_[j].word)] = j; j++; }] *)
Section Compaction.
Context {E : Type}.
Variable proj : E -> string.
Variable keep : list E -> nat -> nat -> Result bool.

Fixpoint compact_loop (ixs : list nat) (j : nat) (ws : list E) (tbl : gmap Z Z)
  : Result (list E * gmap Z Z * nat) :=
  match ixs with
  | [] => Ok (ws, tbl, j)
  | i :: ixs' =>
      b ← keep ws i j;
      if (b : bool) then
        e ← vec_at ws (Z.of_nat i);
        let ws1 := <[j := e]> ws in
        h ← probe tbl (stored_word proj ws1) (proj e) (hash (proj e));
        compact_loop ixs' (Datatypes.S j) ws1 (<[h := Z.of_nat j]> tbl)
      else compact_loop ixs' j ws tbl
  end.
End Compaction.

(** 0.75 * MAX_VOCAB_SIZE, which is exact in [double]. *)
Definition load_cap : Z := 22500000.

(** ** Little-endian fixed-width integers of the binary format *)

Fixpoint le_bytes (n : nat) (z : Z) : list ascii :=
  match n with
  | O => []
  | Datatypes.S n' => ascii_of_N (Z.to_N (z mod 256)) :: le_bytes n' (z / 256)
  end.

Fixpoint le_unsigned (bytes : list ascii) : Z :=
  match bytes with
  | [] => 0
  | b :: rest => byte_val b + 256 * le_unsigned rest
  end.

(** The signed value of [n] bytes. *)
Definition le_signed (bytes : list ascii) : Z :=
  let w := 8 * Z.of_nat (length bytes) in
  let u := le_unsigned bytes in
  if u <? 2 ^ (w - 1) then u else u - 2 ^ w.

(** [in.read(p, n)] on a good stream whose buffer still holds [n] bytes; what
    a short read leaves behind is not modelled. *)
Definition istream_read (n : nat) (s : istream) : Result (list ascii * istream) :=
  if good s && (n <=? length (unread s))%nat
  then Ok (take n (unread s), set_unread s (drop n (unread s)))
  else Err Malformed.

Definition read_int (n : nat) (s : istream) : Result (Z * istream) :=
  '(bytes, s') ← istream_read n s;
  Ok (le_signed bytes, s').

(** The loop [while ((c = in.get()) != 0) e.word.push_back(c)] of [load]: at
    the end of the buffer [get] yields [EOF] for ever. *)
Fixpoint load_word (rest : list ascii) (w : string) : Result (string * list ascii) :=
  match rest with
  | [] => Err Diverges
  | a :: rest' =>
      let c := to_char (byte_val a) in
      if c =? 0 then Ok (w, rest') else load_word rest' (push_back w c)
  end.

(** The loop that reads the prune map. *)
Fixpoint load_pruneidx (n : nat) (m : gmap Z Z) (s : istream)
  : Result (gmap Z Z * istream) :=
  match n with
  | O => Ok (m, s)
  | Datatypes.S n' =>
      '(first, s1) ← read_int 4 s;
      '(second, s2) ← read_int 4 s1;
      load_pruneidx n' (<[first := second]> m) s2
  end.

Definition save_pruneidx (m : gmap Z Z) : list ascii :=
  flat_map (fun p => le_bytes 4 (fst p) ++ le_bytes 4 (snd p)) (map_to_list m).

(** * The words-only dictionary ([src/dictionary.cc])

    Counters are unbounded integers: signed overflow is undefined in C++ and
    out of reach of any corpus that fits a file. *)

Module WordsOnly.

Record entry : Type := mkEntry {
  word : string;
  count : Z
}.

Record Dictionary : Type := mkDict {
  args_ : Args;
  word2int_ : gmap Z Z;
  words_ : list entry;
  pdiscard_ : list spec_float;
  nwords_ : Z;
  ntokens_ : Z;
  pruneidx_size_ : Z;
  pruneidx_ : gmap Z Z
}.

(** Dictionary::Dictionary *)
Definition new (args : Args) : Dictionary :=
  {| args_ := args; word2int_ := ∅; words_ := []; pdiscard_ := [];
     nwords_ := 0; ntokens_ := 0; pruneidx_size_ := -1; pruneidx_ := ∅ |}.

Definition set_word2int (d : Dictionary) (tbl : gmap Z Z) : Dictionary :=
  mkDict (args_ d) tbl (words_ d) (pdiscard_ d) (nwords_ d) (ntokens_ d)
         (pruneidx_size_ d) (pruneidx_ d).
Definition set_words (d : Dictionary) (ws : list entry) : Dictionary :=
  mkDict (args_ d) (word2int_ d) ws (pdiscard_ d) (nwords_ d) (ntokens_ d)
         (pruneidx_size_ d) (pruneidx_ d).
Definition set_pdiscard (d : Dictionary) (p : list spec_float) : Dictionary :=
  mkDict (args_ d) (word2int_ d) (words_ d) p (nwords_ d) (ntokens_ d)
         (pruneidx_size_ d) (pruneidx_ d).
Definition set_nwords (d : Dictionary) (n : Z) : Dictionary :=
  mkDict (args_ d) (word2int_ d) (words_ d) (pdiscard_ d) n (ntokens_ d)
         (pruneidx_size_ d) (pruneidx_ d).
Definition set_ntokens (d : Dictionary) (n : Z) : Dictionary :=
  mkDict (args_ d) (word2int_ d) (words_ d) (pdiscard_ d) (nwords_ d) n
         (pruneidx_size_ d) (pruneidx_ d).
Definition set_pruneidx_size (d : Dictionary) (n : Z) : Dictionary :=
  mkDict (args_ d) (word2int_ d) (words_ d) (pdiscard_ d) (nwords_ d)
         (ntokens_ d) n (pruneidx_ d).
Definition set_pruneidx (d : Dictionary) (m : gmap Z Z) : Dictionary :=
  mkDict (args_ d) (word2int_ d) (words_ d) (pdiscard_ d) (nwords_ d)
         (ntokens_ d) (pruneidx_size_ d) m.

(** [words_[i].word] *)
Definition word_at (d : Dictionary) (i : Z) : Result string :=
  e ← vec_at (words_ d) i;
  Ok (word e).

(** Dictionary::find(const std::string&, uint32_t) *)
Definition find_h (d : Dictionary) (w : string) (h : Z) : Result Z :=
  probe (word2int_ d) (word_at d) w h.

(** Dictionary::find(const std::string&) *)
Definition find (d : Dictionary) (w : string) : Result Z :=
  find_h d w (hash w).

(** Dictionary::add *)
Definition add (w : string) (d : Dictionary) : Result Dictionary :=
  h ← find d w;
  let d1 := set_ntokens d (ntokens_ d + 1) in
  if slot_at (word2int_ d1) h =? -1 then
    let e := {| word := w; count := 1 |} in
    let d2 := set_words d1 (words_ d1 ++ [e]) in
    Ok (set_nwords (set_word2int d2 (<[h := nwords_ d2]> (word2int_ d2)))
                   (nwords_ d2 + 1))
  else
    let i := slot_at (word2int_ d1) h in
    e ← vec_at (words_ d1) i;
    Ok (set_words d1
          (<[Z.to_nat i := {| word := word e; count := count e + 1 |}]> (words_ d1))).

Definition nwords (d : Dictionary) : Z := nwords_ d.
Definition ntokens (d : Dictionary) : Z := ntokens_ d.

(** Dictionary::discard *)
Definition discard (d : Dictionary) (id : Z) (rand : spec_float) : Result bool :=
  _ ← assert (0 <=? id);
  _ ← assert (id <? nwords_ d);
  if model_name_eqb (model (args_ d)) sup then Ok false
  else
    p ← vec_at (pdiscard_ d) id;
    Ok (real_gt rand p).

(** Dictionary::getId(const std::string&, uint32_t) *)
Definition getId_h (d : Dictionary) (w : string) (h : Z) : Result Z :=
  id ← find_h d w h;
  Ok (slot_at (word2int_ d) id).

(** Dictionary::getId(const std::string&) *)
Definition getId (d : Dictionary) (w : string) : Result Z :=
  h ← find d w;
  Ok (slot_at (word2int_ d) h).

(** Dictionary::getWord *)
Definition getWord (d : Dictionary) (id : Z) : Result string :=
  _ ← assert (0 <=? id);
  _ ← assert (id <? nwords_ d);
  e ← vec_at (words_ d) id;
  Ok (word e).

(** The comparator of [threshold]. *)
Definition threshold_cmp (e1 e2 : entry) : bool := count e2 <? count e1.

(** The rebuilding loop that ends [threshold]. *)
Fixpoint threshold_loop (es : list entry) (d : Dictionary) : Result Dictionary :=
  match es with
  | [] => Ok d
  | e :: es' =>
      h ← find d (word e);
      threshold_loop es'
        (set_nwords (set_word2int d (<[h := nwords_ d]> (word2int_ d)))
                    (nwords_ d + 1))
  end.

(** Dictionary::threshold *)
Definition threshold `{StdSort} (t : Z) (d : Dictionary) : Result Dictionary :=
  let sorted := std_sort threshold_cmp (words_ d) in
  let kept := List.filter (fun e => negb (count e <? t)) sorted in
  threshold_loop kept (set_word2int (set_nwords (set_words d kept) 0) ∅).

(** Dictionary::initTableDiscard *)
Definition initTableDiscard (d : Dictionary) : Result Dictionary :=
  if nwords_ d <? 0 then Err Throws               (* resize to a huge size *)
  else
    tbl ← mapM (fun i =>
                  e ← vec_at (words_ d) i;
                  let f := SFdiv real_prec real_emax
                             (real_of_int (count e)) (real_of_int (ntokens_ d)) in
                  Ok (discard_probability (t (args_ d)) f))
               (seqZ 0 (nwords_ d));
    Ok (set_pdiscard d tbl).

(** The reading loop of [readFromFile]; every turn takes at least one byte
    off the stream, which bounds the turns. *)
Fixpoint readFromFile_loop `{StdSort} (fuel : nat) (s : istream)
    (minThreshold : Z) (d : Dictionary) : Result (Dictionary * istream) :=
  match fuel with
  | O => Err Diverges
  | Datatypes.S fuel' =>
      let '(more, w, s1) := readWord s in
      if more then
        d1 ← add w d;
        if load_cap <? nwords_ d1 then
          d2 ← threshold (minThreshold + 1) d1;
          readFromFile_loop fuel' s1 (minThreshold + 1) d2
        else readFromFile_loop fuel' s1 minThreshold d1
      else Ok (d, s1)
  end.

(** Dictionary::readFromFile *)
Definition readFromFile `{StdSort} (s : istream) (d : Dictionary)
  : Result (Dictionary * istream) :=
  '(d1, s1) ← readFromFile_loop (Datatypes.S (length (unread s))) s 1 d;
  d2 ← threshold (minCount (args_ d1)) d1;
  d3 ← initTableDiscard d2;
  if nwords_ d3 =? 0 then Err ExitFailure else Ok (d3, s1).

(** What a call of [getLine] leaves behind: the value returned, the ids
    pushed, the stream and the random source; [consumed] records, for the
    statements below only, the tokens that [readWord] handed out. *)
Record line : Type := mkLine {
  returned : Z;
  words : list Z;
  rest_in : istream;
  rest_rng : minstd_rand;
  consumed : list string
}.

(** The loop of [getLine]; every turn takes at least one byte off the
    stream. *)
Fixpoint getLine_loop (fuel : nat) (d : Dictionary) (s : istream)
    (rng : minstd_rand) (ws : list Z) (ntok : Z) (seen : list string)
  : Result line :=
  match fuel with
  | O => Err Diverges
  | Datatypes.S fuel' =>
      let '(more, token, s1) := readWord s in
      if more then
        let seen1 := seen ++ [token] in
        h ← find d token;
        let wid := slot_at (word2int_ d) h in
        if wid <? 0 then getLine_loop fuel' d s1 rng ws ntok seen1   (* continue *)
        else
          let ntok1 := ntok + 1 in
          let '(r, rng1) := uniform rng in
          gone ← discard d wid (to_real r);
          let ws1 := if (gone : bool) then ws else ws ++ [wid] in
          if (MAX_LINE_SIZE <? ntok1) || String.eqb token EOS
          then Ok (mkLine ntok1 ws1 s1 rng1 seen1)                    (* break *)
          else getLine_loop fuel' d s1 rng1 ws1 ntok1 seen1
      else Ok (mkLine ntok ws s1 rng seen)
  end.

(** Dictionary::getLine *)
Definition getLine (d : Dictionary) (s : istream) (rng : minstd_rand)
  : Result line :=
  let s0 := reset s in
  getLine_loop (Datatypes.S (length (unread s0))) d s0 rng [] 0 [].

(** The test [j < words.size() && words[j] == static_cast<int32_t>(i)] of
    the loop of [prune]; [kept] is the local vector [words]. *)
Definition prune_keep (kept : list Z) (ws : list entry) (i j : nat) : Result bool :=
  Ok (bool_decide (kept !! j = Some (Z.of_nat i))).

(** Dictionary::prune; the second component is [idx] after the call. *)
Definition prune `{StdSort} (idx : list Z) (d : Dictionary)
  : Result (Dictionary * list Z) :=
  let kept := std_sort Z.ltb (List.filter (fun x => x <? nwords_ d) idx) in
  let d0 := set_word2int (set_pruneidx_size d (Z.of_nat (size (pruneidx_ d)))) ∅ in
  '(ws, tbl, _) ← compact_loop word (prune_keep kept)
                     (seq 0 (length (words_ d0))) 0%nat (words_ d0) (word2int_ d0);
  Ok (set_nwords (set_word2int (set_words d0 ws) tbl) (Z.of_nat (length kept)), kept).

(** Dictionary::getCounts *)
Definition getCounts (d : Dictionary) : list Z := map count (words_ d).

(** One entry of the binary format. *)
Definition save_entry (e : entry) : list ascii :=
  list_ascii_of_string (word e) ++ [Ascii.zero] ++ le_bytes 8 (count e).

(** Dictionary::save: the bytes written. *)
Definition save (d : Dictionary) : Result (list ascii) :=
  es ← mapM (vec_at (words_ d)) (seqZ 0 (nwords_ d));
  Ok (le_bytes 4 (nwords_ d) ++ le_bytes 8 (ntokens_ d)
      ++ le_bytes 8 (pruneidx_size_ d)
      ++ flat_map save_entry es ++ save_pruneidx (pruneidx_ d)).

(** The loop of [load] over the entries. *)
Fixpoint load_entries (n : nat) (i : Z) (s : istream) (d : Dictionary)
  : Result (Dictionary * istream) :=
  match n with
  | O => Ok (d, s)
  | Datatypes.S n' =>
      _ ← (if good s then Ok tt else Err Diverges);
      '(w, rest) ← load_word (unread s) EmptyString;
      '(c, s1) ← read_int 8 (set_unread s rest);
      let d1 := set_words d (words_ d ++ [{| word := w; count := c |}]) in
      h ← find d1 w;
      load_entries n' (i + 1) s1 (set_word2int d1 (<[h := i]> (word2int_ d1)))
  end.

(** Dictionary::load *)
Definition load (s : istream) (d : Dictionary) : Result (Dictionary * istream) :=
  let d0 := set_word2int (set_words d []) ∅ in
  '(nw, s1) ← read_int 4 s;
  '(nt, s2) ← read_int 8 s1;
  '(ps, s3) ← read_int 8 s2;
  let d1 := set_pruneidx_size (set_ntokens (set_nwords d0 nw) nt) ps in
  '(d2, s4) ← load_entries (Z.to_nat nw) 0 s3 d1;
  '(m, s5) ← load_pruneidx (Z.to_nat ps) ∅ s4;
  d3 ← initTableDiscard (set_pruneidx d2 m);
  Ok (d3, s5).

(** Dictionary::pushHash; the result is [hashes] after the call.  The sum
    [nwords_ + id] is one of two [int32_t] stored in an [int32_t]: it wraps
    around. *)
Definition pushHash (d : Dictionary) (hashes : list Z) (id : Z) : list Z :=
  if (pruneidx_size_ d =? 0) || (id <? 0) then hashes
  else if 0 <? pruneidx_size_ d then
    match pruneidx_ d !! id with
    | Some id' => hashes ++ [to_int32 (nwords_ d + id')]
    | None => hashes
    end
  else hashes ++ [to_int32 (nwords_ d + id)].

(** Dictionary::isPruned *)
Definition isPruned (d : Dictionary) : bool := 0 <=? pruneidx_size_ d.

End WordsOnly.

(** * The label-aware dictionary

    Its header is not among the sources.  Modelled from the spec: an entry
    carries a type tag, words sort before labels, the tag is one byte (the
    enum ordinal) in the binary format, and [size_] counts every entry. *)

Module entry_type.
Inductive t : Type := word | label.

Definition eqb (a b : t) : bool :=
  match a, b with
  | word, word | label, label => true
  | _, _ => false
  end.

(** The ordinal, and [<] on it. *)
Definition ordinal (a : t) : Z := match a with word => 0 | label => 1 end.
Definition ltb (a b : t) : bool := ordinal a <? ordinal b.

Definition of_byte (b : Z) : option t :=
  if b =? 0 then Some word else if b =? 1 then Some label else None.
End entry_type.

Module LabelAware.

Record entry : Type := mkEntry {
  word : string;
  count : Z;
  type : entry_type.t
}.

Record Dictionary : Type := mkDict {
  args_ : Args;
  word2int_ : gmap Z Z;
  words_ : list entry;
  pdiscard_ : list spec_float;
  size_ : Z;
  nwords_ : Z;
  nlabels_ : Z;
  ntokens_ : Z;
  pruneidx_size_ : Z;
  pruneidx_ : gmap Z Z
}.

(** Dictionary::Dictionary.  The initialiser list names [args_],
    [word2int_], [nwords_], [nlabels_], [ntokens_] and [pruneidx_size_];
    [size_] is not in it, so the value it holds after construction is
    indeterminate: it is the parameter [size0]. *)
Definition new (args : Args) (size0 : Z) : Dictionary :=
  {| args_ := args; word2int_ := ∅; words_ := []; pdiscard_ := [];
     size_ := size0; nwords_ := 0; nlabels_ := 0; ntokens_ := 0;
     pruneidx_size_ := -1; pruneidx_ := ∅ |}.

Definition set_word2int (d : Dictionary) (tbl : gmap Z Z) : Dictionary :=
  mkDict (args_ d) tbl (words_ d) (pdiscard_ d) (size_ d) (nwords_ d)
         (nlabels_ d) (ntokens_ d) (pruneidx_size_ d) (pruneidx_ d).
Definition set_words (d : Dictionary) (ws : list entry) : Dictionary :=
  mkDict (args_ d) (word2int_ d) ws (pdiscard_ d) (size_ d) (nwords_ d)
         (nlabels_ d) (ntokens_ d) (pruneidx_size_ d) (pruneidx_ d).
Definition set_pdiscard (d : Dictionary) (p : list spec_float) : Dictionary :=
  mkDict (args_ d) (word2int_ d) (words_ d) p (size_ d) (nwords_ d)
         (nlabels_ d) (ntokens_ d) (pruneidx_size_ d) (pruneidx_ d).
Definition set_size (d : Dictionary) (n : Z) : Dictionary :=
  mkDict (args_ d) (word2int_ d) (words_ d) (pdiscard_ d) n (nwords_ d)
         (nlabels_ d) (ntokens_ d) (pruneidx_size_ d) (pruneidx_ d).
Definition set_nwords (d : Dictionary) (n : Z) : Dictionary :=
  mkDict (args_ d) (word2int_ d) (words_ d) (pdiscard_ d) (size_ d) n
         (nlabels_ d) (ntokens_ d) (pruneidx_size_ d) (pruneidx_ d).
Definition set_nlabels (d : Dictionary) (n : Z) : Dictionary :=
  mkDict (args_ d) (word2int_ d) (words_ d) (pdiscard_ d) (size_ d) (nwords_ d)
         n (ntokens_ d) (pruneidx_size_ d) (pruneidx_ d).
Definition set_ntokens (d : Dictionary) (n : Z) : Dictionary :=
  mkDict (args_ d) (word2int_ d) (words_ d) (pdiscard_ d) (size_ d) (nwords_ d)
         (nlabels_ d) n (pruneidx_size_ d) (pruneidx_ d).
Definition set_pruneidx_size (d : Dictionary) (n : Z) : Dictionary :=
  mkDict (args_ d) (word2int_ d) (words_ d) (pdiscard_ d) (size_ d) (nwords_ d)
         (nlabels_ d) (ntokens_ d) n (pruneidx_ d).
Definition set_pruneidx (d : Dictionary) (m : gmap Z Z) : Dictionary :=
  mkDict (args_ d) (word2int_ d) (words_ d) (pdiscard_ d) (size_ d) (nwords_ d)
         (nlabels_ d) (ntokens_ d) (pruneidx_size_ d) m.

(** [words_[i].word] *)
Definition word_at (d : Dictionary) (i : Z) : Result string :=
  e ← vec_at (words_ d) i;
  Ok (word e).

(** Dictionary::find(const std::string&, uint32_t) *)
Definition find_h (d : Dictionary) (w : string) (h : Z) : Result Z :=
  probe (word2int_ d) (word_at d) w h.

(** Dictionary::find(const std::string&) *)
Definition find (d : Dictionary) (w : string) : Result Z :=
  find_h d w (hash w).

(** Dictionary::getType(const std::string&): a label starts with the
    marker. *)
Definition getType_word (d : Dictionary) (w : string) : entry_type.t :=
  if String.prefix (label (args_ d)) w then entry_type.label else entry_type.word.

(** Dictionary::getType(id_t) *)
Definition getType (d : Dictionary) (id : Z) : Result entry_type.t :=
  _ ← assert (0 <=? id);
  _ ← assert (id <? size_ d);
  e ← vec_at (words_ d) id;
  Ok (type e).

(** Dictionary::add *)
Definition add (w : string) (d : Dictionary) : Result Dictionary :=
  h ← find d w;
  let d1 := set_ntokens d (ntokens_ d + 1) in
  if slot_at (word2int_ d1) h =? -1 then
    let e := {| word := w; count := 1; type := getType_word d1 w |} in
    let d2 := set_words d1 (words_ d1 ++ [e]) in
    Ok (set_size (set_word2int d2 (<[h := size_ d2]> (word2int_ d2)))
                 (size_ d2 + 1))
  else
    let i := slot_at (word2int_ d1) h in
    e ← vec_at (words_ d1) i;
    Ok (set_words d1
          (<[Z.to_nat i := {| word := word e; count := count e + 1; type := type e |}]>
             (words_ d1))).

Definition nwords (d : Dictionary) : Z := nwords_ d.
Definition nlabels (d : Dictionary) : Z := nlabels_ d.
Definition ntokens (d : Dictionary) : Z := ntokens_ d.

(** Dictionary::discard *)
Definition discard (d : Dictionary) (id : Z) (rand : spec_float) : Result bool :=
  _ ← assert (0 <=? id);
  _ ← assert (id <? nwords_ d);
  if model_name_eqb (model (args_ d)) sup then Ok false
  else
    p ← vec_at (pdiscard_ d) id;
    Ok (real_gt rand p).

(** Dictionary::getId(const std::string&, uint32_t) *)
Definition getId_h (d : Dictionary) (w : string) (h : Z) : Result Z :=
  id ← find_h d w h;
  Ok (slot_at (word2int_ d) id).

(** Dictionary::getId(const std::string&) *)
Definition getId (d : Dictionary) (w : string) : Result Z :=
  h ← find d w;
  Ok (slot_at (word2int_ d) h).

(** Dictionary::getWord *)
Definition getWord (d : Dictionary) (id : Z) : Result string :=
  _ ← assert (0 <=? id);
  _ ← assert (id <? size_ d);
  e ← vec_at (words_ d) id;
  Ok (word e).

(** The comparator of [threshold]. *)
Definition threshold_cmp (e1 e2 : entry) : bool :=
  if negb (entry_type.eqb (type e1) (type e2))
  then entry_type.ltb (type e1) (type e2)
  else count e2 <? count e1.

(** The predicate of [remove_if] in [threshold]. *)
Definition below_cutoff (t tl : Z) (e : entry) : bool :=
  (entry_type.eqb (type e) entry_type.word && (count e <? t))
  || (entry_type.eqb (type e) entry_type.label && (count e <? tl)).

(** The rebuilding loop that ends [threshold]. *)
Fixpoint threshold_loop (es : list entry) (d : Dictionary) : Result Dictionary :=
  match es with
  | [] => Ok d
  | e :: es' =>
      h ← find d (word e);
      let d1 := set_size (set_word2int d (<[h := size_ d]> (word2int_ d)))
                         (size_ d + 1) in
      let d2 := if entry_type.eqb (type e) entry_type.word
                then set_nwords d1 (nwords_ d1 + 1) else d1 in
      let d3 := if entry_type.eqb (type e) entry_type.label
                then set_nlabels d2 (nlabels_ d2 + 1) else d2 in
      threshold_loop es' d3
  end.

(** Dictionary::threshold *)
Definition threshold `{StdSort} (t tl : Z) (d : Dictionary) : Result Dictionary :=
  let sorted := std_sort threshold_cmp (words_ d) in
  let kept := List.filter (fun e => negb (below_cutoff t tl e)) sorted in
  threshold_loop kept
    (set_word2int (set_nlabels (set_nwords (set_size (set_words d kept) 0) 0) 0) ∅).

(** Dictionary::initTableDiscard *)
Definition initTableDiscard (d : Dictionary) : Result Dictionary :=
  if size_ d <? 0 then Err Throws                 (* resize to a huge size *)
  else
    tbl ← mapM (fun i =>
                  e ← vec_at (words_ d) i;
                  let f := SFdiv real_prec real_emax
                             (real_of_int (count e)) (real_of_int (ntokens_ d)) in
                  Ok (discard_probability (t (args_ d)) f))
               (seqZ 0 (size_ d));
    Ok (set_pdiscard d tbl).

(** The reading loop of [readFromFile]. *)
Fixpoint readFromFile_loop `{StdSort} (fuel : nat) (s : istream)
    (minThreshold : Z) (d : Dictionary) : Result (Dictionary * istream) :=
  match fuel with
  | O => Err Diverges
  | Datatypes.S fuel' =>
      let '(more, w, s1) := readWord s in
      if more then
        d1 ← add w d;
        if load_cap <? size_ d1 then
          d2 ← threshold (minThreshold + 1) (minThreshold + 1) d1;
          readFromFile_loop fuel' s1 (minThreshold + 1) d2
        else readFromFile_loop fuel' s1 minThreshold d1
      else Ok (d, s1)
  end.

(** Dictionary::readFromFile *)
Definition readFromFile `{StdSort} (s : istream) (d : Dictionary)
  : Result (Dictionary * istream) :=
  '(d1, s1) ← readFromFile_loop (Datatypes.S (length (unread s))) s 1 d;
  d2 ← threshold (minCount (args_ d1)) (minCountLabel (args_ d1)) d1;
  d3 ← initTableDiscard d2;
  if size_ d3 =? 0 then Err ExitFailure else Ok (d3, s1).

(** What a call of either [getLine] leaves behind; [consumed] records, for
    the statements below only, the tokens that [readWord] handed out. *)
Record line : Type := mkLine {
  returned : Z;
  words : list Z;
  labels : list Z;
  rest_in : istream;
  rest_rng : minstd_rand;
  consumed : list string
}.

(** The loop of [getLine(in, words, rng)]. *)
Fixpoint getLine_loop (fuel : nat) (d : Dictionary) (s : istream)
    (rng : minstd_rand) (ws : list Z) (ntok : Z) (seen : list string)
  : Result line :=
  match fuel with
  | O => Err Diverges
  | Datatypes.S fuel' =>
      let '(more, token, s1) := readWord s in
      if more then
        let seen1 := seen ++ [token] in
        h ← find d token;
        let wid := slot_at (word2int_ d) h in
        if wid <? 0 then getLine_loop fuel' d s1 rng ws ntok seen1   (* continue *)
        else
          let ntok1 := ntok + 1 in
          ty ← getType d wid;
          '(ws1, rng1) ←
            (if entry_type.eqb ty entry_type.word then
               let '(r, rng1) := uniform rng in
               gone ← discard d wid (to_real r);
               Ok (if (gone : bool) then ws else ws ++ [wid], rng1)
             else Ok (ws, rng));
          if (MAX_LINE_SIZE <? ntok1) || String.eqb token EOS
          then Ok (mkLine ntok1 ws1 [] s1 rng1 seen1)                 (* break *)
          else getLine_loop fuel' d s1 rng1 ws1 ntok1 seen1
      else Ok (mkLine ntok ws [] s1 rng seen)
  end.

(** Dictionary::getLine(in, words, rng) *)
Definition getLine (d : Dictionary) (s : istream) (rng : minstd_rand)
  : Result line :=
  let s0 := reset s in
  getLine_loop (Datatypes.S (length (unread s0))) d s0 rng [] 0 [].

(** The loop of [getLine(in, words, labels, rng)]. *)
Fixpoint getLine_labels_loop (fuel : nat) (d : Dictionary) (s : istream)
    (ws ls : list Z) (ntok : Z) (seen : list string)
  : Result (Z * list Z * list Z * istream * list string) :=
  match fuel with
  | O => Err Diverges
  | Datatypes.S fuel' =>
      let '(more, token, s1) := readWord s in
      if more then
        let seen1 := seen ++ [token] in
        let h := hash token in
        wid ← getId_h d token h;
        ty ← (if wid <? 0 then Ok (getType_word d token) else getType d wid);
        let ntok1 := ntok + 1 in
        let '(ws1, ls1) :=
          if entry_type.eqb ty entry_type.word then (ws ++ [wid], ls)
          else if entry_type.eqb ty entry_type.label && (0 <=? wid)
               then (ws, ls ++ [wid - nwords_ d])
               else (ws, ls) in
        if String.eqb token EOS
        then Ok (ntok1, ws1, ls1, s1, seen1)                          (* break *)
        else getLine_labels_loop fuel' d s1 ws1 ls1 ntok1 seen1
      else Ok (ntok, ws, ls, s1, seen)
  end.

(** Dictionary::getLine(in, words, labels, rng); the random source is not
    touched. *)
Definition getLine_labels (d : Dictionary) (s : istream) (rng : minstd_rand)
  : Result line :=
  let s0 := reset s in
  '(n, ws, ls, s1, seen) ←
    getLine_labels_loop (Datatypes.S (length (unread s0))) d s0 [] [] 0 [];
  Ok (mkLine n ws ls s1 rng seen).

(** Dictionary::getLabel *)
Definition getLabel (d : Dictionary) (lid : Z) : Result string :=
  if (lid <? 0) || (nlabels_ d <=? lid) then Err Throws
  else
    e ← vec_at (words_ d) (lid + nwords_ d);
    Ok (word e).

(** The test [getType(i) == entry_type::label ||
    (j < words.size() && words[j] == static_cast<int32_t>(i))] of the loop of
    [prune]; [kept] is the local vector [words]. *)
Definition prune_keep (d : Dictionary) (kept : list Z) (ws : list entry)
    (i j : nat) : Result bool :=
  ty ← getType (set_words d ws) (Z.of_nat i);
  Ok (entry_type.eqb ty entry_type.label
      || bool_decide (kept !! j = Some (Z.of_nat i))).

(** Dictionary::prune; the second component is [idx] after the call. *)
Definition prune `{StdSort} (idx : list Z) (d : Dictionary)
  : Result (Dictionary * list Z) :=
  let kept := std_sort Z.ltb (List.filter (fun x => x <? nwords_ d) idx) in
  let d0 := set_word2int (set_pruneidx_size d (Z.of_nat (size (pruneidx_ d)))) ∅ in
  '(ws, tbl, _) ← compact_loop word (prune_keep d0 kept)
                     (seq 0 (length (words_ d0))) 0%nat (words_ d0) (word2int_ d0);
  let d1 := set_nwords (set_word2int (set_words d0 ws) tbl) (Z.of_nat (length kept)) in
  Ok (set_size d1 (nwords_ d1 + nlabels_ d1), kept).

(** Dictionary::getCounts *)
Definition getCounts (d : Dictionary) (ty : entry_type.t) : list Z :=
  map count (List.filter (fun e => entry_type.eqb (type e) ty) (words_ d)).

(** One entry of the binary format. *)
Definition save_entry (e : entry) : list ascii :=
  list_ascii_of_string (word e) ++ [Ascii.zero] ++ le_bytes 8 (count e)
  ++ le_bytes 1 (entry_type.ordinal (type e)).

(** Dictionary::save: the bytes written. *)
Definition save (d : Dictionary) : Result (list ascii) :=
  es ← mapM (vec_at (words_ d)) (seqZ 0 (size_ d));
  Ok (le_bytes 4 (size_ d) ++ le_bytes 4 (nwords_ d) ++ le_bytes 4 (nlabels_ d)
      ++ le_bytes 8 (ntokens_ d) ++ le_bytes 8 (pruneidx_size_ d)
      ++ flat_map save_entry es ++ save_pruneidx (pruneidx_ d)).

(** The loop of [load] over the entries. *)
Fixpoint load_entries (n : nat) (i : Z) (s : istream) (d : Dictionary)
  : Result (Dictionary * istream) :=
  match n with
  | O => Ok (d, s)
  | Datatypes.S n' =>
      _ ← (if good s then Ok tt else Err Diverges);
      '(w, rest) ← load_word (unread s) EmptyString;
      '(c, s1) ← read_int 8 (set_unread s rest);
      '(tb, s2) ← read_int 1 s1;
      ty ← (match entry_type.of_byte tb with
            | Some ty => Ok ty
            | None => Err Malformed
            end);
      let d1 := set_words d (words_ d ++ [{| word := w; count := c; type := ty |}]) in
      h ← find d1 w;
      load_entries n' (i + 1) s2 (set_word2int d1 (<[h := i]> (word2int_ d1)))
  end.

(** Dictionary::load *)
Definition load (s : istream) (d : Dictionary) : Result (Dictionary * istream) :=
  let d0 := set_word2int (set_words d []) ∅ in
  '(sz, s0) ← read_int 4 s;
  '(nw, s1) ← read_int 4 s0;
  '(nl, s1') ← read_int 4 s1;
  '(nt, s2) ← read_int 8 s1';
  '(ps, s3) ← read_int 8 s2;
  let d1 := set_pruneidx_size
              (set_ntokens (set_nlabels (set_nwords (set_size d0 sz) nw) nl) nt) ps in
  '(d2, s4) ← load_entries (Z.to_nat sz) 0 s3 d1;
  '(m, s5) ← load_pruneidx (Z.to_nat ps) ∅ s4;
  d3 ← initTableDiscard (set_pruneidx d2 m);
  Ok (d3, s5).

(** Dictionary::pushHash; the result is [hashes] after the call.  The sum
    [nwords_ + id] is one of two [int32_t] stored in an [int32_t]: it wraps
    around. *)
Definition pushHash (d : Dictionary) (hashes : list Z) (id : Z) : list Z :=
  if (pruneidx_size_ d =? 0) || (id <? 0) then hashes
  else if 0 <? pruneidx_size_ d then
    match pruneidx_ d !! id with
    | Some id' => hashes ++ [to_int32 (nwords_ d + id')]
    | None => hashes
    end
  else hashes ++ [to_int32 (nwords_ d + id)].

End LabelAware.

(** * Facts about the monad *)

Lemma bind_Ok {A B} (a : A) (f : A -> Result B) : (Ok a ≫= f) = f a.
Proof. reflexivity. Qed.

Lemma bind_Err {A B} (e : fault) (f : A -> Result B) : (Err e ≫= f) = Err e.
Proof. reflexivity. Qed.

(** * Facts about the loops *)

Section LoopFacts.
Context {S R : Type}.
Variable body : S -> Result (S + R).

Lemma loop_n_add (a b : nat) (s : S) :
  loop_n body (a + b) s =
  x ← loop_n body a s;
  match x with
  | inl s' => loop_n body b s'
  | inr r => Ok (inr r)
  end.
Proof.
  revert s. induction a as [|a IH]; intros s; simpl.
  - reflexivity.
  - destruct (body s) as [[s'|r]|f]; simpl; auto.
Qed.

Lemma loop_pow2_n (k : nat) (s : S) :
  loop_pow2 body k s = loop_n body (2 ^ k) s.
Proof.
  revert s. induction k as [|k IH]; intros s.
  - simpl. destruct (body s) as [[s'|r]|f]; reflexivity.
  - cbn [loop_pow2]. replace (2 ^ Datatypes.S k)%nat with (2 ^ k + 2 ^ k)%nat
      by (rewrite Nat.pow_succ_r'; lia).
    rewrite loop_n_add, IH.
    destruct (loop_n body (2 ^ k) s) as [[s'|r]|f]; simpl; auto.
Qed.

(** A loop that has left stays left when more turns are allowed. *)
Lemma loop_n_mono (n m : nat) (s : S) (r : R) :
  (n <= m)%nat -> loop_n body n s = Ok (inr r) -> loop_n body m s = Ok (inr r).
Proof.
  intros Hle Hn. replace m with (n + (m - n))%nat by lia.
  rewrite loop_n_add, Hn. reflexivity.
Qed.

Lemma while_of_loop_n (k n : nat) (s : S) (r : R) :
  (n <= 2 ^ k)%nat -> loop_n body n s = Ok (inr r) -> while body k s = Ok r.
Proof.
  intros Hle Hn. unfold while. rewrite loop_pow2_n.
  rewrite (loop_n_mono n _ s r Hle Hn). reflexivity.
Qed.
End LoopFacts.

Lemma probe_bound_covers : (Z.to_nat MAX_VOCAB_SIZE <= 2 ^ probe_bound)%nat.
Proof.
  apply Nat2Z.inj_le. rewrite Nat2Z.inj_pow.
  rewrite Z2Nat.id by (unfold MAX_VOCAB_SIZE; lia).
  unfold MAX_VOCAB_SIZE, probe_bound. simpl Z.of_nat. lia.
Qed.

(** * The probe stops

    [stops_at tbl stored w id]: the exit condition of the probe holds at
    slot [id]. *)

Definition stops_at (tbl : gmap Z Z) (stored : Z -> Result string)
    (w : string) (id : Z) : Prop :=
  slot_at tbl id = -1 \/ stored (slot_at tbl id) = Ok w.

Section ProbeFacts.
Variable tbl : gmap Z Z.
Variable stored : Z -> Result string.
Variable w : string.

(** Every occupied slot names an entry that can be read. *)
Hypothesis readable :
  forall id, slot_at tbl id <> -1 -> exists w', stored (slot_at tbl id) = Ok w'.

Variable e : Z.
Hypothesis e_range : 0 <= e < MAX_VOCAB_SIZE.
Hypothesis e_empty : slot_at tbl e = -1.

Lemma probe_body_empty (id : Z) :
  slot_at tbl id = -1 -> probe_body tbl stored w id = Ok (inr id).
Proof. intros Hv. unfold probe_body. rewrite Hv. reflexivity. Qed.

Lemma probe_body_match (id : Z) :
  slot_at tbl id <> -1 -> stored (slot_at tbl id) = Ok w ->
  probe_body tbl stored w id = Ok (inr id).
Proof.
  intros Hv Hw. unfold probe_body.
  destruct (Z.eqb_spec (slot_at tbl id) (-1)); [contradiction|].
  rewrite Hw. simpl. rewrite String.eqb_refl. reflexivity.
Qed.

Lemma probe_body_skip (id : Z) (w' : string) :
  slot_at tbl id <> -1 -> stored (slot_at tbl id) = Ok w' -> w' <> w ->
  probe_body tbl stored w id = Ok (inl ((id + 1) mod MAX_VOCAB_SIZE)).
Proof.
  intros Hv Hw Hne. unfold probe_body.
  destruct (Z.eqb_spec (slot_at tbl id) (-1)); [contradiction|].
  rewrite Hw. simpl. destruct (String.eqb_spec w' w); [contradiction|].
  reflexivity.
Qed.

Lemma probe_steps (n : nat) (id : Z) :
  0 <= id < MAX_VOCAB_SIZE ->
  (e - id) mod MAX_VOCAB_SIZE < Z.of_nat n ->
  exists id', loop_n (probe_body tbl stored w) n id = Ok (inr id')
              /\ 0 <= id' < MAX_VOCAB_SIZE /\ stops_at tbl stored w id'.
Proof.
  revert id. induction n as [|n IH]; intros id Hid Hd.
  - exfalso. pose proof (Z.mod_pos_bound (e - id) MAX_VOCAB_SIZE).
    unfold MAX_VOCAB_SIZE in *. lia.
  - cbn [loop_n].
    destruct (Z.eq_dec (slot_at tbl id) (-1)) as [Hv|Hv].
    + rewrite (probe_body_empty id Hv). simpl.
      exists id. split; [reflexivity | split; [lia | left; exact Hv]].
    + destruct (readable id Hv) as [w' Hw'].
      destruct (String.eqb_spec w' w) as [->|Hne].
      * rewrite (probe_body_match id Hv Hw'). simpl.
        exists id. split; [reflexivity | split; [lia | right; exact Hw']].
      * rewrite (probe_body_skip id w' Hv Hw' Hne). simpl.
        assert (id <> e) by (intros ->; contradiction).
        apply IH.
        -- apply Z.mod_pos_bound. unfold MAX_VOCAB_SIZE; lia.
        -- unfold MAX_VOCAB_SIZE in *.
           revert Hd. Z.div_mod_to_equations. lia.
Qed.

Lemma probe_stops (h : Z) :
  exists id, probe tbl stored w h = Ok id
             /\ 0 <= id < MAX_VOCAB_SIZE /\ stops_at tbl stored w id.
Proof.
  assert (Hr : 0 <= h mod MAX_VOCAB_SIZE < MAX_VOCAB_SIZE)
    by (apply Z.mod_pos_bound; unfold MAX_VOCAB_SIZE; lia).
  destruct (probe_steps (Z.to_nat MAX_VOCAB_SIZE) (h mod MAX_VOCAB_SIZE) Hr)
    as (id & Hl & Hid & Hs).
  { rewrite Z2Nat.id by (unfold MAX_VOCAB_SIZE; lia).
    apply Z.mod_pos_bound. unfold MAX_VOCAB_SIZE; lia. }
  exists id. split; [|split; assumption].
  unfold probe. eapply while_of_loop_n; [apply probe_bound_covers | exact Hl].
Qed.
End ProbeFacts.

(** ** Tables that are not full *)

(** Every value written to the index names a position below [n]. *)
Definition index_valid (tbl : gmap Z Z) (n : nat) : Prop :=
  map_Forall (fun _ v => v = -1 \/ 0 <= v < Z.of_nat n) tbl.

Lemma slot_at_lookup (tbl : gmap Z Z) (id : Z) :
  slot_at tbl id <> -1 -> tbl !! id = Some (slot_at tbl id).
Proof.
  unfold slot_at. destruct (tbl !! id) as [v|]; simpl; [reflexivity | congruence].
Qed.

Lemma index_valid_slot (tbl : gmap Z Z) (n : nat) (id : Z) :
  index_valid tbl n -> slot_at tbl id <> -1 ->
  0 <= slot_at tbl id < Z.of_nat n.
Proof.
  intros Hv Hne. pose proof (slot_at_lookup tbl id Hne) as Hl.
  destruct (Hv _ _ Hl) as [?|?]; [contradiction | assumption].
Qed.

Lemma index_valid_empty (n : nat) : index_valid ∅ n.
Proof. apply map_Forall_empty. Qed.

Lemma index_valid_insert (tbl : gmap Z Z) (n : nat) (h v : Z) :
  index_valid tbl n -> 0 <= v < Z.of_nat n -> index_valid (<[h := v]> tbl) n.
Proof. intros Hv Hr. apply map_Forall_insert_2; [right; exact Hr | exact Hv]. Qed.

Lemma index_valid_mono (tbl : gmap Z Z) (n m : nat) :
  (n <= m)%nat -> index_valid tbl n -> index_valid tbl m.
Proof.
  intros Hle Hv id v Hl. destruct (Hv id v Hl) as [?|?]; [left | right]; lia.
Qed.

(** A table with fewer live slots than [MAX_VOCAB_SIZE] has an empty one. *)
Lemma free_slot (tbl : gmap Z Z) :
  Z.of_nat (size tbl) < MAX_VOCAB_SIZE ->
  exists e, 0 <= e < MAX_VOCAB_SIZE /\ slot_at tbl e = -1.
Proof.
  intros Hsz.
  destruct (decide (Exists (fun e => tbl !! e = None) (seqZ 0 MAX_VOCAB_SIZE)))
    as [Hex|Hno].
  - apply Exists_exists in Hex. destruct Hex as (e & Hin & Hnone).
    apply elem_of_seqZ in Hin.
    exists e. split; [lia|]. unfold slot_at. rewrite Hnone. reflexivity.
  - exfalso. apply not_Exists_Forall in Hno; [|intros x; apply _].
    assert (Hsub : (list_to_set (seqZ 0 MAX_VOCAB_SIZE) : gset Z) ⊆ dom tbl).
    { intros x Hx. apply elem_of_list_to_set in Hx.
      rewrite Forall_forall in Hno. specialize (Hno x Hx). simpl in Hno.
      apply elem_of_dom. destruct (tbl !! x); [eauto | congruence]. }
    apply subseteq_size in Hsub.
    rewrite size_dom, size_list_to_set, length_seqZ in Hsub by apply NoDup_seqZ.
    apply Nat2Z.inj_le in Hsub. rewrite Z2Nat.id in Hsub; [lia|].
    unfold MAX_VOCAB_SIZE. lia.
Qed.

Lemma vec_at_Ok {A} (v : list A) (i : Z) (a : A) :
  vec_at v i = Ok a <-> 0 <= i /\ v !! Z.to_nat i = Some a.
Proof.
  unfold vec_at. destruct (Z.ltb_spec i 0).
  - split; [discriminate | lia].
  - destruct (v !! Z.to_nat i) as [b|]; split; intros H1.
    + inversion H1; subst; split; [lia | reflexivity].
    + destruct H1 as [_ H1]. congruence.
    + discriminate.
    + destruct H1 as [_ H1]. discriminate.
Qed.

Lemma vec_at_in_range {A} (v : list A) (i : Z) :
  0 <= i < Z.of_nat (length v) -> exists a, vec_at v i = Ok a.
Proof.
  intros Hr. destruct (lookup_lt_is_Some_2 v (Z.to_nat i)) as [a Ha]; [lia|].
  exists a. apply vec_at_Ok. split; [lia | exact Ha].
Qed.

Section ProbeOnEntries.
Context {A : Type}.
Variable proj : A -> string.
Variable ws : list A.
Variable tbl : gmap Z Z.

Lemma probe_on_entries (w : string) (h : Z) :
  index_valid tbl (length ws) ->
  (exists e, 0 <= e < MAX_VOCAB_SIZE /\ slot_at tbl e = -1) ->
  exists id, probe tbl (stored_word proj ws) w h = Ok id
             /\ 0 <= id < MAX_VOCAB_SIZE
             /\ stops_at tbl (stored_word proj ws) w id.
Proof.
  intros Hv (e & He & Hempty).
  apply (probe_stops tbl (stored_word proj ws) w) with (e := e); auto.
  intros id Hne.
  destruct (vec_at_in_range ws (slot_at tbl id)) as [a Ha].
  { eapply index_valid_slot; eauto. }
  exists (proj a). unfold stored_word. rewrite Ha. reflexivity.
Qed.

Lemma probe_on_sparse (w : string) (h : Z) :
  index_valid tbl (length ws) ->
  Z.of_nat (size tbl) < MAX_VOCAB_SIZE ->
  exists id, probe tbl (stored_word proj ws) w h = Ok id
             /\ 0 <= id < MAX_VOCAB_SIZE
             /\ stops_at tbl (stored_word proj ws) w id.
Proof. intros Hv Hsz. apply probe_on_entries; [exact Hv | apply free_slot, Hsz]. Qed.
End ProbeOnEntries.

(** * Insertion sort meets the contract of std::sort *)

Section InsertionSort.
Context {A : Type}.
Variable cmp : A -> A -> bool.

Lemma insert_sorted_perm (x : A) (l : list A) :
  Permutation (insert_sorted cmp x l) (x :: l).
Proof.
  induction l as [|y l IH]; simpl.
  - reflexivity.
  - destruct (cmp x y); [reflexivity|].
    rewrite IH. apply perm_swap.
Qed.

Lemma insertion_sort_perm (l : list A) : Permutation (insertion_sort cmp l) l.
Proof.
  induction l as [|x l IH]; simpl.
  - reflexivity.
  - rewrite insert_sorted_perm, IH. reflexivity.
Qed.

Hypothesis swo : strict_weak_order cmp.

Lemma swo_asym (a b : A) : cmp a b = true -> cmp b a = false.
Proof.
  intros Hab. destruct (cmp b a) eqn:Hba; [|reflexivity].
  pose proof (swo_trans cmp swo a b a Hab Hba) as Haa.
  rewrite (swo_irrefl cmp swo) in Haa. discriminate.
Qed.

Lemma insert_sorted_sorted (x : A) (l : list A) :
  StronglySorted (fun a b => cmp b a = false) l ->
  StronglySorted (fun a b => cmp b a = false) (insert_sorted cmp x l).
Proof.
  induction l as [|y l IH]; intros Hs; simpl.
  - repeat constructor.
  - inversion Hs as [|? ? Hl Hy]; subst.
    destruct (cmp x y) eqn:Hxy.
    + constructor; [exact Hs|]. constructor; [apply swo_asym, Hxy|].
      rewrite Forall_forall in Hy |- *. intros z Hz. specialize (Hy z Hz).
      simpl in Hy. destruct (cmp z x) eqn:Hzx; [|reflexivity].
      rewrite (swo_trans cmp swo z x y Hzx Hxy) in Hy. discriminate.
    + constructor; [apply IH, Hl|].
      eapply Permutation_Forall;
        [symmetry; apply insert_sorted_perm | constructor; assumption].
Qed.

Lemma insertion_sort_sorted (l : list A) :
  StronglySorted (fun a b => cmp b a = false) (insertion_sort cmp l).
Proof.
  induction l as [|x l IH]; simpl.
  - constructor.
  - apply insert_sorted_sorted, IH.
Qed.
End InsertionSort.

Definition insertion_StdSort : StdSort := {|
  std_sort := @insertion_sort;
  std_sort_perm := @insertion_sort_perm;
  std_sort_sorted := fun A cmp l swo => insertion_sort_sorted cmp swo l
|}.

(** * Facts about lists and the monad *)

Lemma filter_Permutation_bool {A} (f : A -> bool) (l l' : list A) :
  Permutation l l' -> Permutation (List.filter f l) (List.filter f l').
Proof.
  induction 1 as [|x l l' Hp IH|x y l|l l' l'' H1 IH1 H2 IH2]; simpl.
  - constructor.
  - destruct (f x); [constructor|]; exact IH.
  - destruct (f x), (f y); try reflexivity. apply perm_swap.
  - etransitivity; eassumption.
Qed.

Lemma StronglySorted_filter_bool {A} (R : A -> A -> Prop) (f : A -> bool)
    (l : list A) :
  StronglySorted R l -> StronglySorted R (List.filter f l).
Proof.
  induction 1 as [|x l Hs IH Hf]; simpl.
  - constructor.
  - destruct (f x); [|exact IH]. constructor; [exact IH|].
    rewrite Forall_forall in Hf |- *. intros y Hy.
    apply Hf. apply list_elem_of_In. apply list_elem_of_In in Hy.
    apply filter_In in Hy. tauto.
Qed.

Lemma length_filter_le {A} (f : A -> bool) (l : list A) :
  (length (List.filter f l) <= length l)%nat.
Proof. induction l as [|x l IH]; simpl; [lia|]. destruct (f x); simpl; lia. Qed.

Lemma filter_length_lt {A : Type} (f : A -> bool) (l : list A) :
  List.Exists (fun x => f x = false) l ->
  (length (List.filter f l) < length l)%nat.
Proof.
  induction 1 as [x l Hx|x l _ IH]; cbn [List.filter length].
  - rewrite Hx. pose proof (length_filter_le f l). lia.
  - destruct (f x); cbn [length]; lia.
Qed.

(** Reading positions [m .. m + k - 1] of a vector one after the other. *)
Lemma mapM_seqZ_vec_at {A B} (g : A -> B) (v : list A) (k m : nat) :
  (m + k <= length v)%nat ->
  mapM (fun i => e ← vec_at v i; Ok (g e)) (seqZ (Z.of_nat m) (Z.of_nat k))
  = Ok (map g (take k (drop m v))).
Proof.
  revert m. induction k as [|k IH]; intros m Hle.
  - reflexivity.
  - rewrite seqZ_cons by lia.
    replace (Z.pred (Z.of_nat (Datatypes.S k))) with (Z.of_nat k) by lia.
    replace (Z.succ (Z.of_nat m)) with (Z.of_nat (Datatypes.S m)) by lia.
    destruct (lookup_lt_is_Some_2 v m) as [a Ha]; [lia|].
    assert (Hat : vec_at v (Z.of_nat m) = Ok a).
    { apply vec_at_Ok. rewrite Nat2Z.id. split; [lia | exact Ha]. }
    cbn [mapM]. rewrite Hat. cbn [mbind Result_bind].
    rewrite IH by lia. cbn [mbind Result_bind mret Result_ret].
    rewrite (drop_S v a m Ha). reflexivity.
Qed.

Lemma mapM_seqZ_prefix {A B} (g : A -> B) (v : list A) (n : Z) :
  0 <= n <= Z.of_nat (length v) ->
  mapM (fun i => e ← vec_at v i; Ok (g e)) (seqZ 0 n)
  = Ok (map g (take (Z.to_nat n) v)).
Proof.
  intros Hn. pose proof (mapM_seqZ_vec_at g v (Z.to_nat n) 0) as H.
  rewrite Z2Nat.id in H by lia. apply H. lia.
Qed.

Lemma mapM_Result_ext {A B} (f g : A -> Result B) (l : list A) :
  (forall x, f x = g x) -> mapM f l = mapM g l.
Proof.
  intros Hfg. induction l as [|x l IH]; [reflexivity|].
  cbn [mapM]. rewrite Hfg, IH. reflexivity.
Qed.

Lemma mapM_vec_at_prefix {A} (v : list A) (n : Z) :
  0 <= n <= Z.of_nat (length v) ->
  mapM (vec_at v) (seqZ 0 n) = Ok (take (Z.to_nat n) v).
Proof.
  intros Hn. pose proof (mapM_seqZ_prefix (fun a => a) v n Hn) as H.
  rewrite map_id in H. rewrite <- H. apply mapM_Result_ext.
  intros i. destruct (vec_at v i); reflexivity.
Qed.

(** * Signs of the floating-point results *)

(** A value strictly below zero: a negative number or minus infinity. *)
Definition is_negative (x : spec_float) : bool :=
  match x with
  | S754_infinity true | S754_finite true _ _ => true
  | _ => false
  end.

Section Signs.
Variables prec emax : Z.

Lemma binary_round_aux_sign (mx ex : Z) (lx : location) :
  is_negative (binary_round_aux prec emax false mx ex lx) = false.
Proof.
  unfold binary_round_aux.
  destruct (shr_fexp prec emax mx ex lx) as [mrs' e'].
  destruct (shr_fexp prec emax _ e' loc_Exact) as [mrs'' e''].
  destruct (shr_m mrs''); try reflexivity.
  destruct (Z.leb e'' (Z.sub emax prec)); reflexivity.
Qed.

Lemma binary_round_sign (mx : positive) (ex : Z) :
  is_negative (binary_round prec emax false mx ex) = false.
Proof.
  unfold binary_round. destruct (shl_align _ _ _) as [mz ez].
  apply binary_round_aux_sign.
Qed.

(** [sqrt q + q] is never below zero: a negative [q] makes it a NaN. *)
Lemma SFsqrt_plus_sign (q : spec_float) :
  is_negative (SFadd prec emax (SFsqrt prec emax q) q) = false.
Proof.
  destruct q as [s|s| |s m e]; try destruct s; try reflexivity.
  unfold SFsqrt.
  destruct (SFsqrt_core_binary prec emax (Z.pos m) e) as [[mz ez] lz].
  pose proof (binary_round_aux_sign mz ez lz) as Hs.
  destruct (binary_round_aux prec emax false mz ez lz) as [s|s| |s m' e'];
    try reflexivity.
  - destruct s; [discriminate Hs | reflexivity].
  - destruct s; [discriminate Hs|].
    unfold SFadd. cbn [cond_Zopp]. simpl Z.add.
    unfold binary_normalize. apply binary_round_sign.
Qed.

Lemma SFconv_sign (x : spec_float) :
  is_negative x = false -> is_negative (SFconv prec emax x) = false.
Proof.
  destruct x as [s|s| |s m e]; try (intros; assumption).
  destruct s; [discriminate|]. intros _.
  unfold SFconv, binary_normalize. cbn [cond_Zopp]. apply binary_round_sign.
Qed.
End Signs.

Lemma not_negative_not_below (p : spec_float) (s : bool) :
  is_negative p = false -> SFltb p (S754_zero s) = false.
Proof.
  destruct p as [s'|s'| |s' m e]; try destruct s'; try discriminate; reflexivity.
Qed.

Lemma discard_probability_sign (t f : spec_float) :
  is_negative (discard_probability t f) = false.
Proof.
  unfold discard_probability, to_real. cbv zeta.
  apply SFconv_sign, SFsqrt_plus_sign.
Qed.

(** What [mapM] returns, element by element. *)
Lemma mapM_Result_Forall {A B} (f : A -> Result B) (P : B -> Prop)
    (l : list A) (out : list B) :
  (forall x y, f x = Ok y -> P y) ->
  mapM f l = Ok out -> Forall P out /\ length out = length l.
Proof.
  intros HP. revert out. induction l as [|x l IH]; intros out Hm.
  - inversion Hm; subst. split; [constructor | reflexivity].
  - cbn [mapM] in Hm. destruct (f x) as [y|] eqn:Hfx; [|discriminate].
    cbn [mbind Result_bind] in Hm.
    destruct (mapM f l) as [ys|] eqn:Hl; [|discriminate].
    inversion Hm; subst. destruct (IH ys eq_refl) as [HF Hlen].
    split; [constructor; eauto | simpl; lia].
Qed.


(** * The compaction loop of prune

    [K] lists, in increasing order, the positions the loop keeps; the test of
    the loop is assumed to pick exactly them while the invariant holds. *)

Section CompactionFacts.
Context {E : Type}.
Variable proj : E -> string.
Variable keep : list E -> nat -> nat -> Result bool.
Variable W0 : list E.
Variable K : list nat.

Hypothesis W0_fits : Z.of_nat (length W0) <= MAX_VOCAB_SIZE.
Hypothesis K_increasing :
  forall k1 k2 p1 p2, (k1 < k2)%nat ->
    K !! k1 = Some p1 -> K !! k2 = Some p2 -> (p1 < p2)%nat.
Hypothesis K_bounded : forall k p, K !! k = Some p -> (p < length W0)%nat.

(** The state before position [i] is looked at, with [j] entries kept. *)
Record compact_inv (i j : nat) (ws : list E) (tbl : gmap Z Z) : Prop := {
  inv_length : length ws = length W0;
  inv_j_le : (j <= i)%nat;
  inv_j_K : (j <= length K)%nat;
  inv_done : forall k p, (k < j)%nat -> K !! k = Some p ->
                         (p < i)%nat /\ ws !! k = W0 !! p;
  inv_todo : forall k p, (j <= k)%nat -> K !! k = Some p -> (i <= p)%nat;
  inv_rest : forall p, (i <= p)%nat -> ws !! p = W0 !! p;
  inv_valid : index_valid tbl (length W0);
  inv_size : (size tbl <= j)%nat
}.

Hypothesis keep_spec :
  forall i j ws tbl, (i < length W0)%nat -> compact_inv i j ws tbl ->
    keep ws i j = Ok (bool_decide (K !! j = Some i)).

Lemma compact_inv_skip (i j : nat) (ws : list E) (tbl : gmap Z Z) :
  compact_inv i j ws tbl -> K !! j <> Some i ->
  compact_inv (Datatypes.S i) j ws tbl.
Proof.
  intros [Hl Hji HjK Hd Ht Hr Hv Hs] Hno. split; auto.
  - intros k p Hk HK. destruct (Hd k p Hk HK). split; [lia | assumption].
  - intros k p Hk HK. pose proof (Ht k p Hk HK) as Hip.
    destruct (decide (k = j)) as [->|Hne].
    + assert (p <> i) by congruence. lia.
    + destruct (lookup_lt_is_Some_2 K j) as [pj Hpj].
      { apply lookup_lt_Some in HK. lia. }
      pose proof (Ht j pj (le_n j) Hpj).
      pose proof (K_increasing j k pj p ltac:(lia) Hpj HK). lia.
  - intros p Hp. apply Hr. lia.
Qed.

Lemma compact_inv_keep (i j : nat) (ws : list E) (tbl : gmap Z Z) (e : E) (h : Z) :
  compact_inv i j ws tbl -> K !! j = Some i -> ws !! i = Some e ->
  compact_inv (Datatypes.S i) (Datatypes.S j) (<[j := e]> ws)
              (<[h := Z.of_nat j]> tbl).
Proof.
  intros [Hl Hji HjK Hd Ht Hr Hv Hs] HKj He.
  assert (Hi : (i < length W0)%nat) by (eapply K_bounded; eauto).
  split.
  - rewrite length_insert. exact Hl.
  - lia.
  - apply lookup_lt_Some in HKj. lia.
  - intros k p Hk HK. destruct (decide (k = j)) as [->|Hne].
    + assert (p = i) by congruence. subst p. split; [lia|].
      rewrite list_lookup_insert_eq by lia. rewrite <- (Hr i (le_n i)). auto.
    + destruct (Hd k p ltac:(lia) HK). split; [lia|].
      rewrite list_lookup_insert_ne by auto. assumption.
  - intros k p Hk HK.
    pose proof (K_increasing j k i p ltac:(lia) HKj HK). lia.
  - intros p Hp. rewrite list_lookup_insert_ne by lia. apply Hr. lia.
  - apply index_valid_insert; [exact Hv | lia].
  - pose proof (map_size_insert h (Z.of_nat j) tbl) as Hsz.
    destruct (tbl !! h); unfold id in Hsz; lia.
Qed.

Lemma compact_loop_cons (i : nat) (ixs : list nat) (j : nat) (ws : list E)
    (tbl : gmap Z Z) :
  compact_loop proj keep (i :: ixs) j ws tbl =
  b ← keep ws i j;
  if (b : bool) then
    e ← vec_at ws (Z.of_nat i);
    h ← probe tbl (stored_word proj (<[j := e]> ws)) (proj e) (hash (proj e));
    compact_loop proj keep ixs (Datatypes.S j) (<[j := e]> ws)
                 (<[h := Z.of_nat j]> tbl)
  else compact_loop proj keep ixs j ws tbl.
Proof. reflexivity. Qed.

Lemma compact_loop_inv (m i j : nat) (ws : list E) (tbl : gmap Z Z) :
  (i + m)%nat = length W0 -> compact_inv i j ws tbl ->
  exists ws' tbl' j',
    compact_loop proj keep (seq i m) j ws tbl = Ok (ws', tbl', j')
    /\ compact_inv (length W0) j' ws' tbl'.
Proof.
  revert i j ws tbl. induction m as [|m IH]; intros i j ws tbl Him Hinv.
  - replace (length W0) with i by lia. exists ws, tbl, j. split; [reflexivity | exact Hinv].
  - rewrite <- cons_seq, compact_loop_cons.
    rewrite (keep_spec i j ws tbl ltac:(lia) Hinv), bind_Ok.
    destruct (bool_decide_reflect (K !! j = Some i)) as [HKj|HKj].
    + destruct (lookup_lt_is_Some_2 ws i) as [e He].
      { rewrite (inv_length _ _ _ _ Hinv). lia. }
      assert (Hat : vec_at ws (Z.of_nat i) = Ok e).
      { apply vec_at_Ok. rewrite Nat2Z.id. split; [lia | exact He]. }
      rewrite Hat, bind_Ok.
      destruct (probe_on_sparse proj (<[j := e]> ws) tbl (proj e) (hash (proj e)))
        as (h & Hh & _).
      { rewrite length_insert, (inv_length _ _ _ _ Hinv).
        exact (inv_valid _ _ _ _ Hinv). }
      { pose proof (inv_size _ _ _ _ Hinv). pose proof (inv_j_le _ _ _ _ Hinv). lia. }
      rewrite Hh, bind_Ok.
      apply IH; [lia|]. apply compact_inv_keep; assumption.
    + apply IH; [lia|]. apply compact_inv_skip; assumption.
Qed.

(** The whole loop: the kept positions end up, in order, at the front. *)
Lemma compact_loop_spec :
  exists ws' tbl',
    compact_loop proj keep (seq 0 (length W0)) 0 W0 ∅ = Ok (ws', tbl', length K)
    /\ length ws' = length W0
    /\ (forall k p, K !! k = Some p -> ws' !! k = W0 !! p)
    /\ index_valid tbl' (length W0).
Proof.
  destruct (compact_loop_inv (length W0) 0 0 W0 ∅ eq_refl) as (ws' & tbl' & j' & Hl & Hinv).
  { split.
    - reflexivity.
    - lia.
    - lia.
    - intros k p Hk. lia.
    - intros k p _ _. lia.
    - reflexivity.
    - apply index_valid_empty.
    - rewrite map_size_empty. lia. }
  assert (Hj : j' = length K).
  { pose proof (inv_j_K _ _ _ _ Hinv).
    destruct (decide (j' = length K)) as [?|Hne]; [assumption|].
    destruct (lookup_lt_is_Some_2 K j') as [p Hp]; [lia|].
    pose proof (inv_todo _ _ _ _ Hinv j' p (le_n j') Hp).
    pose proof (K_bounded j' p Hp). lia. }
  subst j'. exists ws', tbl'. split; [exact Hl|].
  split; [exact (inv_length _ _ _ _ Hinv)|]. split; [|exact (inv_valid _ _ _ _ Hinv)].
  intros k p Hp. apply (inv_done _ _ _ _ Hinv k p); [|exact Hp].
  apply lookup_lt_Some in Hp. exact Hp.
Qed.
End CompactionFacts.


(** * The sorted list of kept ids *)

Lemma Zltb_swo : strict_weak_order Z.ltb.
Proof.
  split.
  - intros a. apply Z.ltb_irrefl.
  - intros a b c H1 H2. apply Z.ltb_lt in H1, H2. apply Z.ltb_lt. lia.
  - intros a b c H1 H2 H3 H4. apply Z.ltb_ge in H1, H2, H3, H4.
    split; apply Z.ltb_ge; lia.
Qed.

Lemma StronglySorted_lookup {A} (R : A -> A -> Prop) (l : list A)
    (k1 k2 : nat) (a b : A) :
  StronglySorted R l -> (k1 < k2)%nat ->
  l !! k1 = Some a -> l !! k2 = Some b -> R a b.
Proof.
  intros Hs. revert k1 k2. induction Hs as [|x l Hs IH Hf]; intros k1 k2 Hlt H1 H2.
  - discriminate.
  - destruct k2 as [|k2]; [lia|]. destruct k1 as [|k1].
    + inversion H1; subst. rewrite Forall_forall in Hf. apply Hf.
      eapply list_elem_of_lookup_2, H2.
    + apply (IH k1 k2); [lia | exact H1 | exact H2].
Qed.

Section KeptIds.
Context `{StdSort}.
Variable idx : list Z.
Variable n : Z.

(** The local vector [words] of [prune] once sorted. *)
Definition kept_ids : list Z :=
  std_sort Z.ltb (List.filter (fun x => x <? n) idx).

Lemma kept_ids_elem (x : Z) : x ∈ kept_ids <-> x ∈ idx /\ x < n.
Proof.
  unfold kept_ids. rewrite (std_sort_perm _ Z.ltb _).
  rewrite !list_elem_of_In, filter_In, Z.ltb_lt. reflexivity.
Qed.

Lemma kept_ids_length :
  length kept_ids = length (List.filter (fun x => x <? n) idx).
Proof. apply Permutation_length, std_sort_perm. Qed.

Hypothesis nonneg : Forall (fun x => 0 <= x) (List.filter (fun x => x <? n) idx).
Hypothesis distinct : NoDup (List.filter (fun x => x <? n) idx).

Lemma kept_ids_range (k : nat) (z : Z) : kept_ids !! k = Some z -> 0 <= z < n.
Proof.
  intros Hk. apply list_elem_of_lookup_2 in Hk.
  assert (Hin : z ∈ List.filter (fun x => x <? n) idx).
  { unfold kept_ids in Hk. rewrite (std_sort_perm _ Z.ltb _) in Hk. exact Hk. }
  split.
  - rewrite Forall_forall in nonneg. apply nonneg, Hin.
  - apply list_elem_of_In, filter_In in Hin. apply Z.ltb_lt. tauto.
Qed.

Lemma kept_ids_increasing (k1 k2 : nat) (z1 z2 : Z) :
  (k1 < k2)%nat -> kept_ids !! k1 = Some z1 -> kept_ids !! k2 = Some z2 -> z1 < z2.
Proof.
  intros Hlt H1 H2.
  pose proof (std_sort_sorted _ Z.ltb (List.filter (fun x => x <? n) idx) Zltb_swo)
    as Hs.
  pose proof (StronglySorted_lookup _ _ k1 k2 z1 z2 Hs Hlt H1 H2) as Hle.
  simpl in Hle. apply Z.ltb_ge in Hle.
  assert (Hnd : NoDup kept_ids).
  { unfold kept_ids. rewrite (std_sort_perm _ Z.ltb _). exact distinct. }
  assert (z1 <> z2).
  { intros ->. pose proof (NoDup_lookup _ _ _ _ Hnd H1 H2). lia. }
  lia.
Qed.

(** The kept ids as positions of the entry vector. *)
Definition kept_positions : list nat := Z.to_nat <$> kept_ids.

Lemma kept_positions_lookup (k p : nat) :
  kept_positions !! k = Some p <-> kept_ids !! k = Some (Z.of_nat p).
Proof.
  unfold kept_positions. rewrite list_lookup_fmap.
  destruct (kept_ids !! k) as [z|] eqn:Hk; simpl; [|split; discriminate].
  pose proof (kept_ids_range k z Hk). split; intros Hp; inversion Hp; subst.
  - rewrite Z2Nat.id by lia. reflexivity.
  - rewrite Nat2Z.id. reflexivity.
Qed.

Lemma kept_positions_increasing (k1 k2 p1 p2 : nat) :
  (k1 < k2)%nat -> kept_positions !! k1 = Some p1 ->
  kept_positions !! k2 = Some p2 -> (p1 < p2)%nat.
Proof.
  intros Hlt H1 H2. apply kept_positions_lookup in H1, H2.
  pose proof (kept_ids_increasing k1 k2 _ _ Hlt H1 H2). lia.
Qed.

Lemma kept_positions_bounded (k p : nat) :
  kept_positions !! k = Some p -> Z.of_nat p < n.
Proof.
  intros H1. apply kept_positions_lookup in H1.
  pose proof (kept_ids_range k _ H1). lia.
Qed.

Lemma kept_positions_length : length kept_positions = length kept_ids.
Proof. unfold kept_positions. apply length_fmap. Qed.
End KeptIds.


(** * The corpus reader *)

(** A byte other than 0xFF, the one that [char c] turns into [EOF]. *)
Definition plain (a : ascii) : Prop := to_char (byte_val a) <> EOF.

(** A separator that is skipped in front of a token: any but the newline. *)
Definition skipped (a : ascii) : Prop :=
  is_separator (to_char (byte_val a)) = true /\ to_char (byte_val a) <> 10.

Definition newline : ascii := "010"%char.

Lemma push_back_nonempty (w : string) (c : Z) : push_back w c <> EmptyString.
Proof. unfold push_back. destruct w; discriminate. Qed.

(** A separator other than the newline in front of a token is skipped. *)
Lemma readWord_loop_skip (a : ascii) (rest : list ascii) :
  skipped a ->
  readWord_loop (a :: rest) EmptyString = readWord_loop rest EmptyString.
Proof.
  intros [Hs Hn]. cbn [readWord_loop]. cbv zeta.
  destruct (Z.eqb_spec (to_char (byte_val a)) EOF) as [He|_].
  { rewrite He in Hs. discriminate Hs. }
  rewrite Hs. cbn [String.eqb].
  destruct (Z.eqb_spec (to_char (byte_val a)) 10); [contradiction | reflexivity].
Qed.

(** A newline with no character read yet yields the sentinel. *)
Lemma readWord_loop_bare_newline (rest : list ascii) :
  readWord_loop (newline :: rest) EmptyString = inr (rest, EOS).
Proof. reflexivity. Qed.

(** A newline that ends a token stays in the buffer. *)
Lemma readWord_loop_pushback (rest : list ascii) (w : string) :
  w <> EmptyString ->
  readWord_loop (newline :: rest) w = inr (newline :: rest, w).
Proof.
  intros Hw. cbn [readWord_loop]. cbv zeta.
  change (to_char (byte_val newline)) with 10. cbn [Z.eqb EOF is_separator orb].
  destruct (String.eqb_spec w EmptyString); [contradiction | reflexivity].
Qed.

(** On a buffer without the byte 0xFF the loop is left through its exit test
    only at the end of the buffer, and with an empty word only if nothing
    but skipped separators was seen. *)
Lemma readWord_loop_exit (rest r : list ascii) (w w' : string) :
  Forall plain rest -> readWord_loop rest w = inl (r, w') ->
  r = [] /\ (w' = EmptyString <-> w = EmptyString /\ Forall skipped rest).
Proof.
  intros Hp. revert w. induction Hp as [|a rest Ha Hp IH]; intros w Hl.
  - inversion Hl; subst. split; [reflexivity|]. split; [auto | tauto].
  - cbn [readWord_loop] in Hl. cbv zeta in Hl.
    destruct (Z.eqb_spec (to_char (byte_val a)) EOF) as [He|_]; [contradiction|].
    destruct (is_separator (to_char (byte_val a))) eqn:Hs.
    + destruct (String.eqb_spec w EmptyString) as [->|Hw].
      * destruct (Z.eqb_spec (to_char (byte_val a)) 10) as [|Hn]; [discriminate|].
        destruct (IH _ Hl) as [Hr Hiff]. split; [exact Hr|].
        rewrite Hiff. split.
        -- intros [_ HF]. split; [reflexivity|]. constructor; [split|]; assumption.
        -- intros [_ HF]. inversion HF; subst. split; [reflexivity | assumption].
      * destruct (Z.eqb_spec (to_char (byte_val a)) 10); discriminate.
    + destruct (IH _ Hl) as [Hr Hiff]. split; [exact Hr|].
      rewrite Hiff. split.
      * intros [Hpb _]. exfalso. exact (push_back_nonempty _ _ Hpb).
      * intros [_ HF]. inversion HF as [|? ? [Hsep _] _]; subst. congruence.
Qed.

(** Without the byte 0xFF, [readWord] returns false exactly when the buffer
    ran out with no character read into the token. *)
Lemma readWord_false_iff (s : istream) :
  Forall plain (unread s) ->
  ((readWord s).1.1 = false <-> Forall skipped (unread s)).
Proof.
  intros Hp. unfold readWord.
  destruct (readWord_loop (unread s) EmptyString) as [[r w]|[r w]] eqn:Hl.
  - destruct (readWord_loop_exit _ _ _ _ Hp Hl) as [_ Hiff]. cbn [fst].
    rewrite negb_false_iff. rewrite <- (reflect_iff _ _ (String.eqb_spec w EmptyString)).
    rewrite Hiff. tauto.
  - cbn [fst]. split; [discriminate|]. intros HF. exfalso.
    clear Hp. revert Hl. generalize (unread s) HF. clear.
    intros l HF. induction HF as [|a l Ha HF IH]; [discriminate|].
    rewrite (readWord_loop_skip a l Ha). exact IH.
Qed.

(** A token that ends at a separator at the very end of the stream is still
    reported. *)
Lemma readWord_last_token (s : istream) (a : ascii) :
  Forall plain (unread s) -> a ∈ unread s -> ~ skipped a ->
  (readWord s).1.1 = true.
Proof.
  intros Hp Hin Hns. destruct ((readWord s).1.1) eqn:Hr; [reflexivity|].
  apply readWord_false_iff in Hr; [|exact Hp].
  rewrite Forall_forall in Hr. elim Hns. apply Hr, Hin.
Qed.


(** Every successful call takes at least one byte off the buffer. *)
Lemma readWord_loop_inr_shrinks (rest rest' : list ascii) (w w' : string) :
  readWord_loop rest w = inr (rest', w') ->
  (length rest' < length rest)%nat
  \/ (w <> EmptyString /\ (length rest' <= length rest)%nat).
Proof.
  revert w. induction rest as [|a rest IH]; intros w Hl; [discriminate|].
  cbn [readWord_loop] in Hl. cbv zeta in Hl.
  destruct (to_char (byte_val a) =? EOF); [discriminate|].
  destruct (is_separator (to_char (byte_val a))).
  - destruct (String.eqb_spec w EmptyString) as [Hw|Hw].
    + destruct (to_char (byte_val a) =? 10).
      * inversion Hl; subst. left. simpl. lia.
      * destruct (IH _ Hl) as [?|[Hne _]]; [left; simpl; lia | contradiction].
    + destruct (to_char (byte_val a) =? 10); inversion Hl; subst.
      * right. split; [assumption | lia].
      * left. simpl. lia.
  - destruct (IH _ Hl) as [?|[_ ?]]; left; simpl; lia.
Qed.

Lemma readWord_loop_inl_shrinks (rest rest' : list ascii) (w w' : string) :
  readWord_loop rest w = inl (rest', w') ->
  (length rest' <= length rest)%nat
  /\ (w = EmptyString -> w' <> EmptyString -> (length rest' < length rest)%nat).
Proof.
  revert w. induction rest as [|a rest IH]; intros w Hl.
  - inversion Hl; subst. split; [lia | congruence].
  - cbn [readWord_loop] in Hl. cbv zeta in Hl.
    destruct (to_char (byte_val a) =? EOF).
    { inversion Hl; subst. split; [simpl; lia|]. congruence. }
    destruct (is_separator (to_char (byte_val a))).
    + destruct (String.eqb_spec w EmptyString) as [Hw|Hw].
      * destruct (to_char (byte_val a) =? 10); [discriminate|].
        destruct (IH _ Hl) as [H1 H2]. split; [simpl; lia|].
        intros _ Hw'. specialize (H2 Hw Hw'). simpl. lia.
      * destruct (to_char (byte_val a) =? 10); discriminate.
    + destruct (IH _ Hl) as [H1 _]. split; simpl; lia.
Qed.

Lemma istream_get_unread (s : istream) :
  (length (unread (istream_get s)) <= length (unread s))%nat.
Proof.
  unfold istream_get. destruct (good s); [|cbn; lia].
  destruct (unread s); cbn; lia.
Qed.

Lemma readWord_progress (s : istream) :
  (readWord s).1.1 = true ->
  (length (unread (readWord s).2) < length (unread s))%nat.
Proof.
  unfold readWord.
  destruct (readWord_loop (unread s) EmptyString) as [[r w]|[r w]] eqn:Hl;
    cbn [fst snd].
  - intros Hw. apply negb_true_iff in Hw.
    destruct (String.eqb_spec w EmptyString) as [|Hne]; [discriminate|].
    destruct (readWord_loop_inl_shrinks _ _ _ _ Hl) as [_ H2].
    specialize (H2 eq_refl Hne).
    pose proof (istream_get_unread (set_unread s r)) as H3. cbn in H3. lia.
  - intros _. destruct (readWord_loop_inr_shrinks _ _ _ _ Hl) as [?|[? _]];
      [cbn; assumption | congruence].
Qed.


(** * The binary format *)

Lemma byte_val_range (a : ascii) : 0 <= byte_val a < 256.
Proof.
  unfold byte_val. pose proof (N_ascii_bounded a). lia.
Qed.

Lemma byte_val_of_N (z : Z) :
  0 <= z < 256 -> byte_val (ascii_of_N (Z.to_N z)) = z.
Proof.
  intros Hz. unfold byte_val. rewrite N_ascii_embedding by lia. lia.
Qed.

Lemma ascii_of_byte_val (a : ascii) : ascii_of_N (Z.to_N (byte_val a)) = a.
Proof. unfold byte_val. rewrite N2Z.id. apply ascii_N_embedding. Qed.

(** A byte survives the passage through a signed [char]. *)
Lemma char_ascii_to_char (a : ascii) : char_ascii (to_char (byte_val a)) = a.
Proof.
  unfold char_ascii, to_char. pose proof (byte_val_range a) as Hr.
  replace (((byte_val a + 128) mod 256 - 128) mod 256) with (byte_val a).
  - apply ascii_of_byte_val.
  - revert Hr. generalize (byte_val a). intros z Hz.
    Z.div_mod_to_equations. lia.
Qed.

Lemma to_char_zero (a : ascii) : to_char (byte_val a) = 0 <-> a = Ascii.zero.
Proof.
  split.
  - intros H0. rewrite <- (char_ascii_to_char a), H0. reflexivity.
  - intros ->. reflexivity.
Qed.

Lemma le_bytes_length (n : nat) (z : Z) : length (le_bytes n z) = n.
Proof. revert z. induction n as [|n IH]; intros z; simpl; [|rewrite IH]; reflexivity. Qed.

Lemma le_unsigned_le_bytes (n : nat) (z : Z) :
  le_unsigned (le_bytes n z) = z mod 2 ^ (8 * Z.of_nat n).
Proof.
  revert z. induction n as [|n IH]; intros z.
  - simpl. rewrite Z.mod_1_r. reflexivity.
  - cbn [le_bytes le_unsigned]. rewrite IH.
    rewrite byte_val_of_N by (apply Z.mod_pos_bound; lia).
    replace (8 * Z.of_nat (Datatypes.S n)) with (8 + 8 * Z.of_nat n) by lia.
    rewrite Z.pow_add_r by lia. change (2 ^ 8) with 256.
    rewrite Z.rem_mul_r by (try apply Z.pow_pos_nonneg; lia). lia.
Qed.

Lemma le_signed_le_bytes (n : nat) (z : Z) :
  (0 < n)%nat ->
  - 2 ^ (8 * Z.of_nat n - 1) <= z < 2 ^ (8 * Z.of_nat n - 1) ->
  le_signed (le_bytes n z) = z.
Proof.
  intros Hn Hz. unfold le_signed. rewrite le_bytes_length, le_unsigned_le_bytes.
  set (w := 8 * Z.of_nat n) in *.
  assert (Hw : 2 ^ w = 2 * 2 ^ (w - 1)).
  { replace w with (1 + (w - 1)) at 1 by lia. rewrite Z.pow_add_r by lia. reflexivity. }
  assert (Hp : 0 < 2 ^ (w - 1)) by (apply Z.pow_pos_nonneg; lia).
  destruct (Z.ltb_spec (z mod 2 ^ w) (2 ^ (w - 1))) as [Hlt|Hge].
  - destruct (Z.le_gt_cases 0 z) as [Hnn|Hneg].
    + apply Z.mod_small. lia.
    + exfalso. assert (z mod 2 ^ w = z + 2 ^ w); [|lia].
      symmetry. apply (Z.mod_unique _ _ (-1)); lia.
  - destruct (Z.le_gt_cases 0 z) as [Hnn|Hneg].
    + rewrite Z.mod_small in Hge by lia. lia.
    + assert (z mod 2 ^ w = z + 2 ^ w); [|lia].
      symmetry. apply (Z.mod_unique _ _ (-1)); lia.
Qed.

(** ** Reading back what was written *)

(** A freshly opened stream over the bytes of an image. *)
Definition stream_of_bytes (bytes : list ascii) : istream :=
  {| content := bytes; unread := bytes; eofbit := false; failbit := false |}.

Lemma good_set_unread (s : istream) (r : list ascii) :
  good (set_unread s r) = good s.
Proof. reflexivity. Qed.

Lemma set_unread_set_unread (s : istream) (r r' : list ascii) :
  set_unread (set_unread s r) r' = set_unread s r'.
Proof. reflexivity. Qed.

Lemma read_int_le_bytes (n : nat) (z : Z) (s : istream) (rest : list ascii) :
  (0 < n)%nat ->
  - 2 ^ (8 * Z.of_nat n - 1) <= z < 2 ^ (8 * Z.of_nat n - 1) ->
  good s = true -> unread s = le_bytes n z ++ rest ->
  read_int n s = Ok (z, set_unread s rest).
Proof.
  intros Hn Hz Hg Hu. unfold read_int, istream_read. rewrite Hg, Hu.
  rewrite length_app, le_bytes_length.
  destruct (Nat.leb_spec n (n + length rest)); [|lia].
  cbn [andb]. rewrite bind_Ok.
  rewrite take_app_length' by (symmetry; apply le_bytes_length).
  rewrite drop_app_length' by (symmetry; apply le_bytes_length).
  rewrite le_signed_le_bytes by assumption. reflexivity.
Qed.

Lemma string_app_nil_r (w : string) : (w ++ EmptyString)%string = w.
Proof.
  induction w as [|a w IH]; [reflexivity|].
  change (String a (w ++ EmptyString)%string = String a w). f_equal. exact IH.
Qed.

Lemma string_app_assoc (u v w : string) :
  ((u ++ v) ++ w)%string = (u ++ v ++ w)%string.
Proof.
  induction u as [|a u IH]; [reflexivity|].
  change (String a ((u ++ v) ++ w)%string = String a (u ++ v ++ w)%string).
  f_equal. exact IH.
Qed.

(** A word without NUL byte. *)
Definition nul_free (w : string) : Prop :=
  Forall (fun a => a <> Ascii.zero) (list_ascii_of_string w).

Lemma load_word_spec (w acc : string) (rest : list ascii) :
  nul_free w ->
  load_word (list_ascii_of_string w ++ Ascii.zero :: rest) acc
  = Ok ((acc ++ w)%string, rest).
Proof.
  unfold nul_free. revert acc. induction w as [|a w IH]; intros acc Hw.
  - cbn. rewrite string_app_nil_r. reflexivity.
  - cbn [list_ascii_of_string app load_word]. cbv zeta.
    inversion Hw as [|? ? Ha Hw']; subst.
    destruct (Z.eqb_spec (to_char (byte_val a)) 0) as [H0|_].
    { apply to_char_zero in H0. contradiction. }
    rewrite IH by exact Hw'. unfold push_back. rewrite char_ascii_to_char.
    rewrite string_app_assoc. reflexivity.
Qed.

Definition insert_pair (m : gmap Z Z) (p : Z * Z) : gmap Z Z := <[p.1 := p.2]> m.

Lemma foldl_insert_lookup (l : list (Z * Z)) (acc : gmap Z Z) (k : Z) :
  NoDup (l.*1) ->
  foldl insert_pair acc l !! k
  = match (list_to_map l : gmap Z Z) !! k with
    | Some v => Some v
    | None => acc !! k
    end.
Proof.
  revert acc. induction l as [|[k0 v0] l IH]; intros acc Hnd.
  - cbn. rewrite lookup_empty. reflexivity.
  - cbn [foldl fmap list_fmap fst] in *. apply NoDup_cons in Hnd.
    destruct Hnd as [Hk0 Hnd]. rewrite IH by exact Hnd.
    cbn [list_to_map foldr]. unfold insert_pair at 1. cbn [fst snd].
    destruct (decide (k = k0)) as [->|Hne].
    + rewrite lookup_insert_eq.
      rewrite (not_elem_of_list_to_map_1 l k0 Hk0), lookup_insert_eq. reflexivity.
    + rewrite !lookup_insert_ne by congruence. reflexivity.
Qed.

Lemma foldl_insert_map_to_list (m : gmap Z Z) :
  foldl insert_pair ∅ (map_to_list m) = m.
Proof.
  apply map_eq. intros k.
  rewrite foldl_insert_lookup by apply NoDup_fst_map_to_list.
  rewrite list_to_map_to_list, lookup_empty. destruct (m !! k); reflexivity.
Qed.

(** A 32-bit signed integer, and a 64-bit one. *)
Definition int32 (z : Z) : Prop := - 2 ^ 31 <= z < 2 ^ 31.
Definition int64 (z : Z) : Prop := - 2 ^ 63 <= z < 2 ^ 63.

Lemma load_pruneidx_list (l : list (Z * Z)) (acc : gmap Z Z) (s : istream)
    (rest : list ascii) :
  Forall (fun p => int32 p.1 /\ int32 p.2) l ->
  good s = true ->
  unread s = flat_map (fun p => le_bytes 4 p.1 ++ le_bytes 4 p.2) l ++ rest ->
  load_pruneidx (length l) acc s
  = Ok (foldl insert_pair acc l, set_unread s rest).
Proof.
  revert acc s. induction l as [|[k v] l IH]; intros acc s HF Hg Hu.
  - cbn in Hu. cbn. rewrite <- Hu. destruct s; reflexivity.
  - inversion HF as [|? ? [Hk Hv] HF']; subst. cbn [fst snd] in Hk, Hv.
    cbn [flat_map fst snd] in Hu. rewrite <- !app_assoc in Hu.
    cbn [length load_pruneidx].
    rewrite (read_int_le_bytes 4 k s _ ltac:(lia) Hk Hg Hu), bind_Ok.
    rewrite (read_int_le_bytes 4 v (set_unread s _) _ ltac:(lia) Hv Hg eq_refl), bind_Ok.
    rewrite set_unread_set_unread.
    rewrite (IH (<[k := v]> acc) (set_unread s (flat_map _ l ++ rest)) HF' Hg eq_refl).
    rewrite set_unread_set_unread. reflexivity.
Qed.

Lemma load_pruneidx_spec (m : gmap Z Z) (s : istream) (rest : list ascii) :
  map_Forall (fun k v => int32 k /\ int32 v) m ->
  good s = true -> unread s = save_pruneidx m ++ rest ->
  load_pruneidx (size m) ∅ s = Ok (m, set_unread s rest).
Proof.
  intros Hm Hg Hu. rewrite <- length_map_to_list.
  rewrite (load_pruneidx_list (map_to_list m) ∅ s rest); [| |exact Hg|exact Hu].
  - rewrite foldl_insert_map_to_list. reflexivity.
  - apply Forall_forall. intros [k v] Hin. apply elem_of_map_to_list in Hin.
    exact (Hm k v Hin).
Qed.


(** ** Tokens hold no NUL byte

    The NUL byte is a separator, so [readWord] never stores one; this is
    what lets [save] end a word with it. *)

Lemma list_ascii_of_string_app (u v : string) :
  list_ascii_of_string (u ++ v)%string
  = list_ascii_of_string u ++ list_ascii_of_string v.
Proof.
  induction u as [|a u IH]; [reflexivity|].
  change (a :: list_ascii_of_string (u ++ v)%string
          = a :: (list_ascii_of_string u ++ list_ascii_of_string v)).
  f_equal. exact IH.
Qed.

Lemma nul_free_app (u v : string) :
  nul_free u -> nul_free v -> nul_free (u ++ v)%string.
Proof.
  unfold nul_free. intros Hu Hv. rewrite list_ascii_of_string_app.
  apply Forall_app. split; assumption.
Qed.

Lemma nul_free_EOS : nul_free EOS.
Proof. unfold nul_free. cbn. repeat constructor; discriminate. Qed.

Lemma readWord_loop_nul_free (rest : list ascii) (w : string) :
  nul_free w ->
  match readWord_loop rest w with
  | inl (_, w') | inr (_, w') => nul_free w'
  end.
Proof.
  revert w. induction rest as [|a rest IH]; intros w Hw; [exact Hw|].
  cbn [readWord_loop]. cbv zeta.
  destruct (to_char (byte_val a) =? EOF); [exact Hw|].
  destruct (is_separator (to_char (byte_val a))) eqn:Hs.
  - destruct (String.eqb w EmptyString).
    + destruct (to_char (byte_val a) =? 10); [|apply IH, Hw].
      apply nul_free_app; [exact Hw | exact nul_free_EOS].
    + destruct (to_char (byte_val a) =? 10); exact Hw.
  - apply IH. unfold push_back. apply nul_free_app; [exact Hw|].
    unfold nul_free. cbn [list_ascii_of_string]. constructor; [|constructor].
    rewrite char_ascii_to_char. intros Ha. apply to_char_zero in Ha.
    unfold is_separator in Hs. rewrite Ha in Hs. discriminate Hs.
Qed.

Lemma readWord_nul_free (s : istream) : nul_free (readWord s).1.2.
Proof.
  unfold readWord.
  pose proof (readWord_loop_nul_free (unread s) EmptyString) as Hl.
  destruct (readWord_loop (unread s) EmptyString) as [[r w]|[r w]];
    cbn [fst snd]; apply Hl; constructor.
Qed.


(** * The hash index finds what it holds *)

Section LoopResult.
Context {S R : Type}.
Variable body : S -> Result (S + R).

Lemma while_loop_n (k : nat) (s : S) (r : R) :
  while body k s = Ok r <-> loop_n body (2 ^ k) s = Ok (inr r).
Proof.
  unfold while. rewrite loop_pow2_n.
  destruct (loop_n body (2 ^ k) s) as [[s'|r']|f]; rewrite ?bind_Ok, ?bind_Err;
    split; intros Hx; inversion Hx; reflexivity.
Qed.
End LoopResult.

Lemma probe_loop_n (tbl : gmap Z Z) (stored : Z -> Result string) (w : string)
    (h r : Z) :
  probe tbl stored w h = Ok r
  <-> loop_n (probe_body tbl stored w) (2 ^ probe_bound) (h mod MAX_VOCAB_SIZE)
      = Ok (inr r).
Proof. unfold probe. apply while_loop_n. Qed.

(** The probe follows a path of occupied slots that do not hold the word;
    a table that agrees with this one on the occupied slots sends the probe
    down the same path. *)
Section ProbeTransfer.
Variables tbl tbl' : gmap Z Z.
Variables stored stored' : Z -> Result string.
Variable w : string.

Hypothesis agree : forall id,
  slot_at tbl id <> -1 ->
  slot_at tbl' id = slot_at tbl id
  /\ stored' (slot_at tbl id) = stored (slot_at tbl id).

Lemma probe_body_inr (id r : Z) :
  probe_body tbl stored w id = Ok (inr r) -> r = id /\ stops_at tbl stored w id.
Proof.
  unfold probe_body, stops_at. cbv zeta.
  destruct (Z.eqb_spec (slot_at tbl id) (-1)) as [He|Hne].
  - intros Hx. inversion Hx; subst r. split; [reflexivity | left; exact He].
  - destruct (stored (slot_at tbl id)) as [w'|]; [|discriminate].
    rewrite bind_Ok. destruct (String.eqb_spec w' w) as [->|_]; [|discriminate].
    intros Hx. inversion Hx; subst r. split; [reflexivity | right; reflexivity].
Qed.

Lemma probe_body_inl (id id' : Z) :
  probe_body tbl stored w id = Ok (inl id') -> slot_at tbl id <> -1.
Proof.
  unfold probe_body. cbv zeta.
  destruct (Z.eqb_spec (slot_at tbl id) (-1)) as [He|Hne]; [discriminate|].
  intros _. exact Hne.
Qed.

Lemma probe_body_agree (id : Z) :
  slot_at tbl id <> -1 ->
  probe_body tbl' stored' w id = probe_body tbl stored w id.
Proof.
  intros Hne. destruct (agree id Hne) as [Hs Hw].
  unfold probe_body. cbv zeta. rewrite Hs, Hw. reflexivity.
Qed.

Lemma loop_n_result (n : nat) (id r : Z) :
  loop_n (probe_body tbl stored w) n id = Ok (inr r) ->
  probe_body tbl stored w r = Ok (inr r).
Proof.
  revert id. induction n as [|n IH]; intros id; [discriminate|].
  cbn [loop_n].
  destruct (probe_body tbl stored w id) as [[id'|r']|] eqn:Hb; [| |discriminate].
  - rewrite bind_Ok. apply IH.
  - rewrite bind_Ok. intros Hx. inversion Hx; subst r'.
    destruct (probe_body_inr _ _ Hb) as [-> _]. exact Hb.
Qed.

Lemma loop_n_transfer (n : nat) (id r : Z) :
  loop_n (probe_body tbl stored w) n id = Ok (inr r) ->
  probe_body tbl' stored' w r = Ok (inr r) ->
  loop_n (probe_body tbl' stored' w) n id = Ok (inr r).
Proof.
  intros Hl Hr. revert id Hl. induction n as [|n IH]; intros id; [discriminate|].
  cbn [loop_n].
  destruct (probe_body tbl stored w id) as [[id'|r']|] eqn:Hb; [| |discriminate].
  - rewrite bind_Ok. intros Hl.
    rewrite (probe_body_agree id (probe_body_inl _ _ Hb)), Hb, bind_Ok.
    apply IH, Hl.
  - rewrite bind_Ok. intros Hx. inversion Hx; subst r'.
    destruct (probe_body_inr _ _ Hb) as [-> _]. rewrite Hr, bind_Ok. reflexivity.
Qed.

Lemma probe_result (h r : Z) :
  probe tbl stored w h = Ok r -> stops_at tbl stored w r.
Proof.
  intros Hp. apply probe_loop_n in Hp.
  apply loop_n_result in Hp. apply (probe_body_inr _ _ Hp).
Qed.

Lemma probe_transfer (h r : Z) :
  probe tbl stored w h = Ok r ->
  probe_body tbl' stored' w r = Ok (inr r) ->
  probe tbl' stored' w h = Ok r.
Proof.
  intros Hp Hr. apply probe_loop_n. apply probe_loop_n in Hp.
  apply loop_n_transfer; assumption.
Qed.

(** A probe that ended on an occupied slot ends there in the other table
    too. *)
Lemma probe_transfer_hit (h r : Z) :
  probe tbl stored w h = Ok r -> slot_at tbl r <> -1 ->
  probe tbl' stored' w h = Ok r.
Proof.
  intros Hp Hne. apply probe_transfer; [exact Hp|].
  rewrite (probe_body_agree r Hne).
  apply probe_loop_n in Hp. apply (loop_n_result _ _ _ Hp).
Qed.
End ProbeTransfer.

Lemma slot_at_insert_ne (tbl : gmap Z Z) (h id v : Z) :
  id <> h -> slot_at (<[h := v]> tbl) id = slot_at tbl id.
Proof. intros Hne. unfold slot_at. rewrite lookup_insert_ne by congruence. reflexivity. Qed.

Lemma slot_at_insert (tbl : gmap Z Z) (h v : Z) : slot_at (<[h := v]> tbl) h = v.
Proof. unfold slot_at. rewrite lookup_insert_eq. reflexivity. Qed.

Lemma probe_same_words (tbl : gmap Z Z) (stored stored' : Z -> Result string)
    (w : string) (h r : Z) :
  (forall v, stored' v = stored v) ->
  probe tbl stored w h = Ok r -> probe tbl stored' w h = Ok r.
Proof.
  intros Hsame Hp.
  apply (probe_transfer tbl tbl stored stored' w); [|exact Hp|].
  - intros id _. split; [reflexivity | apply Hsame].
  - apply probe_loop_n in Hp. apply loop_n_result in Hp.
    unfold probe_body in *. cbv zeta in *. rewrite Hsame. exact Hp.
Qed.

Section Consistent.
Context {E : Type}.
Variable proj : E -> string.

(** [getId(w)] gives [i] on this table and this vector. *)
Definition found_at (tbl : gmap Z Z) (ws : list E) (w : string) (i : Z) : Prop :=
  exists h, probe tbl (stored_word proj ws) w (hash w) = Ok h /\ slot_at tbl h = i.

(** The first [n] entries are found where they stand. *)
Definition consistent (tbl : gmap Z Z) (ws : list E) (n : nat) : Prop :=
  forall i e, (i < n)%nat -> ws !! i = Some e ->
              found_at tbl ws (proj e) (Z.of_nat i).

Lemma stored_word_lookup (ws : list E) (i : nat) (e : E) :
  ws !! i = Some e -> stored_word proj ws (Z.of_nat i) = Ok (proj e).
Proof.
  intros He. unfold stored_word.
  assert (Hv : vec_at ws (Z.of_nat i) = Ok e).
  { apply vec_at_Ok. rewrite Nat2Z.id. split; [lia | exact He]. }
  rewrite Hv. reflexivity.
Qed.

Lemma stored_word_Ok (ws : list E) (v : Z) (w : string) :
  stored_word proj ws v = Ok w ->
  0 <= v /\ exists e, ws !! Z.to_nat v = Some e /\ proj e = w.
Proof.
  unfold stored_word. destruct (vec_at ws v) as [e|] eqn:He; [|discriminate].
  rewrite bind_Ok. intros Hw. inversion Hw; subst.
  apply vec_at_Ok in He. destruct He as [H0 He]. split; [exact H0|]. eauto.
Qed.

Lemma stored_word_agree (ws ws' : list E) (n : nat) (v : Z) :
  (forall i, (i < n)%nat -> ws' !! i = ws !! i) ->
  0 <= v < Z.of_nat n -> stored_word proj ws' v = stored_word proj ws v.
Proof.
  intros Hsame Hv. unfold stored_word, vec_at.
  destruct (Z.ltb_spec v 0); [lia|]. rewrite Hsame by lia. reflexivity.
Qed.

Lemma found_at_fun (tbl : gmap Z Z) (ws : list E) (w : string) (i j : Z) :
  found_at tbl ws w i -> found_at tbl ws w j -> i = j.
Proof. intros (h & Hp & Hs) (h' & Hp' & Hs'). congruence. Qed.

(** What the index finds is the word that was asked for. *)
Lemma found_at_sound (tbl : gmap Z Z) (ws : list E) (w : string) (i : Z) :
  found_at tbl ws w i -> i <> -1 ->
  0 <= i /\ exists e, ws !! Z.to_nat i = Some e /\ proj e = w.
Proof.
  intros (h & Hp & Hs) Hne. apply probe_result in Hp.
  destruct Hp as [Hempty|Hhit]; [congruence|].
  rewrite Hs in Hhit. apply stored_word_Ok in Hhit. exact Hhit.
Qed.

(** A word that is not stored is not found. *)
Lemma found_at_missing (tbl : gmap Z Z) (ws : list E) (w : string) :
  index_valid tbl (length ws) ->
  (exists e, 0 <= e < MAX_VOCAB_SIZE /\ slot_at tbl e = -1) ->
  (forall e, e ∈ ws -> proj e <> w) ->
  found_at tbl ws w (-1).
Proof.
  intros Hv Hfree Hnot.
  destruct (probe_on_entries proj ws tbl w (hash w) Hv Hfree) as (h & Hp & _ & Hstop).
  exists h. split; [exact Hp|].
  destruct Hstop as [Hempty|Hhit]; [exact Hempty|].
  apply stored_word_Ok in Hhit. destruct Hhit as (_ & e & He & Hw).
  elim (Hnot e); [eapply list_elem_of_lookup_2, He | exact Hw].
Qed.

Lemma consistent_distinct (tbl : gmap Z Z) (ws : list E) (n i j : nat) (e e' : E) :
  consistent tbl ws n -> (i < n)%nat -> (j < n)%nat ->
  ws !! i = Some e -> ws !! j = Some e' -> proj e = proj e' -> i = j.
Proof.
  intros Hc Hi Hj He He' Hw.
  pose proof (Hc i e Hi He) as Hfi. pose proof (Hc j e' Hj He') as Hfj.
  rewrite Hw in Hfi. pose proof (found_at_fun _ _ _ _ _ Hfi Hfj). lia.
Qed.

Lemma consistent_NoDup (tbl : gmap Z Z) (ws : list E) :
  consistent tbl ws (length ws) -> NoDup (map proj ws).
Proof.
  intros Hc. apply NoDup_alt. intros i j w Hi Hj.
  change (map proj ws) with (proj <$> ws) in Hi, Hj.
  rewrite list_lookup_fmap in Hi, Hj.
  destruct (ws !! i) as [e|] eqn:He; [|discriminate].
  destruct (ws !! j) as [e'|] eqn:He'; [|discriminate].
  cbn in Hi, Hj. inversion Hi. inversion Hj.
  eapply (consistent_distinct tbl ws (length ws) i j e e' Hc); try eassumption.
  - eapply lookup_lt_Some, He.
  - eapply lookup_lt_Some, He'.
  - congruence.
Qed.

Lemma consistent_same_words (tbl : gmap Z Z) (ws ws' : list E) (n : nat) :
  (forall v, stored_word proj ws' v = stored_word proj ws v) ->
  consistent tbl ws n -> consistent tbl ws' n.
Proof.
  intros Hsame Hc i e' Hi He'.
  pose proof (stored_word_lookup ws' i e' He') as Hw. rewrite Hsame in Hw.
  apply stored_word_Ok in Hw. rewrite Nat2Z.id in Hw.
  destruct Hw as (_ & e & He & Hpe).
  destruct (Hc i e Hi He) as (h & Hp & Hs).
  exists h. split; [|exact Hs]. rewrite <- Hpe.
  apply (probe_same_words tbl (stored_word proj ws)); [exact Hsame | exact Hp].
Qed.

(** Writing position [n] into the empty slot where the probe for the new
    word ended keeps every earlier entry where it was and makes the new one
    found. *)
Lemma consistent_insert (tbl : gmap Z Z) (ws ws0 ws' : list E) (n : nat)
    (h : Z) (e : E) :
  index_valid tbl n ->
  (forall i, (i < n)%nat -> ws' !! i = ws !! i) ->
  (forall i, (i < n)%nat -> ws0 !! i = ws !! i) ->
  ws' !! n = Some e ->
  consistent tbl ws n ->
  probe tbl (stored_word proj ws0) (proj e) (hash (proj e)) = Ok h ->
  slot_at tbl h = -1 ->
  consistent (<[h := Z.of_nat n]> tbl) ws' (Datatypes.S n).
Proof.
  intros Hv Hsame Hsame0 Hn Hc Hp Hempty.
  assert (Hagree : forall ws1, (forall i, (i < n)%nat -> ws1 !! i = ws !! i) ->
            forall id, slot_at tbl id <> -1 ->
            slot_at (<[h := Z.of_nat n]> tbl) id = slot_at tbl id
            /\ stored_word proj ws' (slot_at tbl id)
               = stored_word proj ws1 (slot_at tbl id)).
  { intros ws1 Hsame1 id Hne. split.
    - apply slot_at_insert_ne. congruence.
    - pose proof (index_valid_slot tbl n id Hv Hne) as Hr.
      rewrite (stored_word_agree ws ws' n) by assumption.
      rewrite (stored_word_agree ws ws1 n) by assumption. reflexivity. }
  intros i e' Hi He'.
  destruct (decide (i = n)) as [->|Hne].
  - rewrite Hn in He'. inversion He'; subst e'.
    exists h. split; [|apply slot_at_insert].
    apply (probe_transfer tbl _ (stored_word proj ws0) _ _ (Hagree ws0 Hsame0));
      [exact Hp|].
    unfold probe_body. cbv zeta. rewrite slot_at_insert.
    destruct (Z.eqb_spec (Z.of_nat n) (-1)); [lia|].
    rewrite (stored_word_lookup ws' n e Hn), bind_Ok, String.eqb_refl. reflexivity.
  - assert (Hlt : (i < n)%nat) by lia.
    rewrite Hsame in He' by exact Hlt.
    destruct (Hc i e' Hlt He') as (hi & Hpi & Hsi).
    assert (Hocc : slot_at tbl hi <> -1) by lia.
    exists hi. split.
    + apply (probe_transfer_hit tbl _ (stored_word proj ws) _ _
               (Hagree ws (fun _ _ => eq_refl))); assumption.
    + rewrite slot_at_insert_ne by congruence. exact Hsi.
Qed.

(** With distinct words, the probe for the word at position [n] ends on an
    empty slot. *)
Lemma probe_new_word (tbl : gmap Z Z) (ws : list E) (n : nat) (h : Z) (e : E) :
  index_valid tbl n -> NoDup (map proj ws) -> ws !! n = Some e ->
  probe tbl (stored_word proj ws) (proj e) (hash (proj e)) = Ok h ->
  slot_at tbl h = -1.
Proof.
  intros Hv Hnd Hn Hp. apply probe_result in Hp.
  destruct Hp as [Hempty|Hhit]; [exact Hempty|].
  destruct (Z.eq_dec (slot_at tbl h) (-1)) as [Heq|Hne]; [exact Heq|].
  pose proof (index_valid_slot tbl n h Hv Hne) as Hr.
  apply stored_word_Ok in Hhit. destruct Hhit as (_ & e' & He' & Hw).
  rewrite NoDup_alt in Hnd.
  assert (Z.to_nat (slot_at tbl h) = n); [|lia].
  apply (Hnd _ _ (proj e)); change (map proj ws) with (proj <$> ws);
    rewrite list_lookup_fmap.
  - rewrite He'. cbn. congruence.
  - rewrite Hn. reflexivity.
Qed.
End Consistent.

(** ** Distinct keys under [filter], [std::sort] and [drop] *)

Lemma NoDup_map_filter {A B} (g : A -> B) (f : A -> bool) (l : list A) :
  NoDup (map g l) -> NoDup (map g (List.filter f l)).
Proof.
  induction l as [|x l IH]; cbn [List.filter map]; intros Hnd; [exact Hnd|].
  apply NoDup_cons in Hnd. destruct Hnd as [Hx Hnd].
  destruct (f x); [|apply IH, Hnd].
  cbn [map]. apply NoDup_cons. split; [|apply IH, Hnd].
  intros Hin. apply Hx. apply list_elem_of_In in Hin. apply list_elem_of_In.
  apply List.in_map_iff in Hin. destruct Hin as (y & Hy & Hin).
  apply List.filter_In in Hin. apply List.in_map_iff. exists y. tauto.
Qed.

Lemma NoDup_map_sort_filter `{StdSort} {A B} (g : A -> B) (cmp : A -> A -> bool)
    (f : A -> bool) (l : list A) :
  NoDup (map g l) -> NoDup (map g (List.filter f (std_sort cmp l))).
Proof.
  intros Hnd. apply NoDup_map_filter.
  rewrite (Permutation_map g (std_sort_perm _ cmp l)). exact Hnd.
Qed.

Lemma drop_cons_lookup {A} (l : list A) (n : nat) (x : A) (r : list A) :
  drop n l = x :: r -> l !! n = Some x /\ drop (Datatypes.S n) l = r.
Proof.
  revert n. induction l as [|y l IH]; intros n Hd.
  - rewrite drop_nil in Hd. discriminate.
  - destruct n as [|n]; cbn in Hd.
    + inversion Hd; subst. split; [reflexivity | apply drop_0].
    + apply IH in Hd. exact Hd.
Qed.

(** ** The index that the compaction loop rebuilds *)

Section CompactionIndex.
Context {E : Type}.
Variable proj : E -> string.
Variable keep : list E -> nat -> nat -> Result bool.
Variable W0 : list E.
Variable K : list nat.

Hypothesis W0_fits : Z.of_nat (length W0) <= MAX_VOCAB_SIZE.
Hypothesis W0_distinct : NoDup (map proj W0).
Hypothesis K_increasing :
  forall k1 k2 p1 p2, (k1 < k2)%nat ->
    K !! k1 = Some p1 -> K !! k2 = Some p2 -> (p1 < p2)%nat.
Hypothesis K_bounded : forall k p, K !! k = Some p -> (p < length W0)%nat.
Hypothesis keep_spec :
  forall i j ws tbl, (i < length W0)%nat -> compact_inv W0 K i j ws tbl ->
    keep ws i j = Ok (bool_decide (K !! j = Some i)).

(** A probe that ends on an occupied slot has found the word there. *)
Lemma probe_fresh (tbl : gmap Z Z) (ws : list E) (n : nat) (w : string) (h : Z) :
  index_valid tbl n ->
  (forall k e, (k < n)%nat -> ws !! k = Some e -> proj e <> w) ->
  probe tbl (stored_word proj ws) w (hash w) = Ok h ->
  slot_at tbl h = -1.
Proof.
  intros Hv Hnew Hp. apply probe_result in Hp.
  destruct Hp as [Hempty|Hhit]; [exact Hempty|].
  destruct (Z.eq_dec (slot_at tbl h) (-1)) as [Heq|Hne]; [exact Heq|].
  pose proof (index_valid_slot tbl n h Hv Hne) as Hr.
  apply stored_word_Ok in Hhit. destruct Hhit as (_ & e & He & Hw).
  elim (Hnew (Z.to_nat (slot_at tbl h)) e); [lia | exact He | exact Hw].
Qed.

Lemma compact_loop_indexes (m i j : nat) (ws : list E) (tbl : gmap Z Z)
    (ws' : list E) (tbl' : gmap Z Z) (j' : nat) :
  (i + m)%nat = length W0 -> compact_inv W0 K i j ws tbl ->
  index_valid tbl j -> consistent proj tbl ws j ->
  compact_loop proj keep (seq i m) j ws tbl = Ok (ws', tbl', j') ->
  index_valid tbl' j' /\ consistent proj tbl' ws' j' /\ (size tbl' <= j')%nat.
Proof.
  revert i j ws tbl. induction m as [|m IH]; intros i j ws tbl Him Hinv Hv Hc Hl.
  - inversion Hl; subst. split; [exact Hv|]. split; [exact Hc|].
    exact (inv_size _ _ _ _ _ _ Hinv).
  - rewrite <- cons_seq, compact_loop_cons in Hl.
    rewrite (keep_spec i j ws tbl ltac:(lia) Hinv), bind_Ok in Hl.
    destruct (bool_decide_reflect (K !! j = Some i)) as [HKj|HKj].
    + destruct (vec_at ws (Z.of_nat i)) as [e|] eqn:Hat; [|discriminate].
      rewrite bind_Ok in Hl.
      apply vec_at_Ok in Hat. rewrite Nat2Z.id in Hat. destruct Hat as [_ He].
      destruct (probe tbl (stored_word proj (<[j := e]> ws)) (proj e) (hash (proj e)))
        as [h|] eqn:Hh; [|discriminate].
      rewrite bind_Ok in Hl.
      pose proof (inv_j_le _ _ _ _ _ _ Hinv) as Hji.
      assert (Hjlen : (j < length ws)%nat).
      { rewrite (inv_length _ _ _ _ _ _ Hinv). lia. }
      assert (Hempty : slot_at tbl h = -1).
      { apply (probe_fresh tbl (<[j := e]> ws) j (proj e) h Hv); [|exact Hh].
        intros k e' Hk He' Heq.
        rewrite list_lookup_insert_ne in He' by lia.
        destruct (lookup_lt_is_Some_2 K k) as [p Hp].
        { pose proof (inv_j_K _ _ _ _ _ _ Hinv). lia. }
        destruct (inv_done _ _ _ _ _ _ Hinv k p Hk Hp) as [Hpi Hkp].
        rewrite Hkp in He'.
        rewrite (inv_rest _ _ _ _ _ _ Hinv i (le_n i)) in He.
        rewrite NoDup_alt in W0_distinct.
        assert (p = i); [|lia].
        apply (W0_distinct _ _ (proj e)); change (map proj W0) with (proj <$> W0);
          rewrite list_lookup_fmap.
        - rewrite He'. cbn. congruence.
        - rewrite He. reflexivity. }
      apply IH in Hl; [exact Hl | lia | | |].
      * apply (compact_inv_keep W0 K K_increasing K_bounded); assumption.
      * apply index_valid_insert; [|lia]. eapply index_valid_mono; [|exact Hv]. lia.
      * apply (consistent_insert proj tbl ws (<[j := e]> ws) (<[j := e]> ws) j h e);
          try assumption.
        -- intros k Hk. apply list_lookup_insert_ne. lia.
        -- intros k Hk. apply list_lookup_insert_ne. lia.
        -- apply list_lookup_insert_eq. exact Hjlen.
    + apply IH in Hl; [exact Hl | lia | | exact Hv | exact Hc].
      apply (compact_inv_skip W0 K K_increasing); assumption.
Qed.

(** The whole loop: every kept entry is found at its new position. *)
Lemma compact_loop_consistent (ws' : list E) (tbl' : gmap Z Z) (j' : nat) :
  compact_loop proj keep (seq 0 (length W0)) 0 W0 ∅ = Ok (ws', tbl', j') ->
  index_valid tbl' j' /\ consistent proj tbl' ws' j' /\ (size tbl' <= j')%nat.
Proof.
  apply compact_loop_indexes.
  - reflexivity.
  - split.
    + reflexivity.
    + lia.
    + lia.
    + intros k p Hk. lia.
    + intros k p _ _. lia.
    + reflexivity.
    + apply index_valid_empty.
    + rewrite map_size_empty. lia.
  - apply index_valid_empty.
  - intros k e Hk. lia.
Qed.
End CompactionIndex.

(** * The tokens of a stream *)

(** The tokens that [readWord] hands out, call after call, until it first
    returns [false]. *)
Fixpoint tokens_from (fuel : nat) (s : istream) : list string :=
  match fuel with
  | O => []
  | Datatypes.S fuel' =>
      let '(more, w, s1) := readWord s in
      if more then w :: tokens_from fuel' s1 else []
  end.

Definition tokens (s : istream) : list string :=
  tokens_from (Datatypes.S (length (unread s))) s.

Lemma tokens_from_step (fuel : nat) (s : istream) :
  tokens_from (Datatypes.S fuel) s =
  if (readWord s).1.1 then (readWord s).1.2 :: tokens_from fuel (readWord s).2
  else [].
Proof. cbn [tokens_from]. destruct (readWord s) as [[more w] s1]. reflexivity. Qed.

(** The number of times [w] stands in [l]. *)
Definition occ (w : string) (l : list string) : Z :=
  Z.of_nat (count_occ string_dec l w).

Lemma occ_app (w : string) (l k : list string) : occ w (l ++ k) = occ w l + occ w k.
Proof. unfold occ. rewrite count_occ_app. lia. Qed.

Lemma occ_single_same (w : string) : occ w [w] = 1.
Proof. unfold occ. cbn. destruct (string_dec w w); [reflexivity | congruence]. Qed.

Lemma occ_single_other (w w' : string) : w' <> w -> occ w [w'] = 0.
Proof. intros Hne. unfold occ. cbn. destruct (string_dec w' w); [contradiction | reflexivity]. Qed.

Lemma occ_pos (w : string) (l : list string) : 1 <= occ w l <-> w ∈ l.
Proof.
  unfold occ. rewrite list_elem_of_In, (count_occ_In string_dec). lia.
Qed.

Lemma occ_nonneg (w : string) (l : list string) : 0 <= occ w l.
Proof. unfold occ. lia. Qed.

Lemma StronglySorted_weaken {A} (R R' : A -> A -> Prop) (l : list A) :
  (forall a b, R a b -> R' a b) -> StronglySorted R l -> StronglySorted R' l.
Proof.
  intros Himp. induction 1 as [|x l Hs IH Hf]; constructor; [exact IH|].
  eapply List.Forall_impl; [|exact Hf]. intros b. apply Himp.
Qed.

(** ** Lists of tokens that end at the sentinel *)

Lemma eos_last_cons (token : string) (new : list string) :
  token <> EOS ->
  (forall pre post, new = pre ++ EOS :: post -> post = []) ->
  forall pre post, token :: new = pre ++ EOS :: post -> post = [].
Proof.
  intros Hne IH pre post Heq. destruct pre as [|x pre].
  - inversion Heq. congruence.
  - inversion Heq; subst. eapply IH. reflexivity.
Qed.

Lemma eos_last_single (token : string) :
  forall pre post, [token] = pre ++ EOS :: post -> post = [].
Proof.
  intros pre post Heq. destruct pre as [|x pre].
  - inversion Heq. reflexivity.
  - inversion Heq as [[Hx Hnil]]. destruct pre; discriminate.
Qed.

(** * The shape of a token *)

(** A byte that [readWord] appends to the token: neither a separator nor
    the byte that converts to [EOF]. *)
Definition token_byte (a : ascii) : Prop :=
  is_separator (to_char (byte_val a)) = false /\ to_char (byte_val a) <> EOF.

Lemma to_char_newline (a : ascii) : to_char (byte_val a) = 10 <-> a = newline.
Proof.
  split.
  - intros H0. rewrite <- (char_ascii_to_char a), H0. reflexivity.
  - intros ->. reflexivity.
Qed.

Lemma push_back_byte (w : string) (a : ascii) :
  push_back w (to_char (byte_val a)) = (w ++ String a EmptyString)%string.
Proof. unfold push_back. rewrite char_ascii_to_char. reflexivity. Qed.

(** What ends a token that has begun. *)
Definition token_end (rest : list ascii) (w : string)
    (r : (list ascii * string) + (list ascii * string)) : Prop :=
  exists tok,
    Forall token_byte tok
    /\ ((exists sep tail,
            is_separator (to_char (byte_val sep)) = true
            /\ rest = tok ++ sep :: tail
            /\ r = inr (if Ascii.eqb sep newline then sep :: tail else tail,
                        (w ++ string_of_list_ascii tok)%string))
        \/ (exists tail,
               (rest = tok /\ tail = []
                \/ exists a, ~ plain a /\ rest = tok ++ a :: tail)
               /\ r = inl (tail, (w ++ string_of_list_ascii tok)%string))).

Lemma readWord_loop_token (rest : list ascii) (w : string) :
  w <> EmptyString -> token_end rest w (readWord_loop rest w).
Proof.
  revert w. induction rest as [|a rest IH]; intros w Hw.
  - exists []. split; [constructor|]. right. exists [].
    split; [left; split; reflexivity|]. cbn. rewrite string_app_nil_r. reflexivity.
  - cbn [readWord_loop]. cbv zeta.
    destruct (Z.eqb_spec (to_char (byte_val a)) EOF) as [He|Hne].
    { exists []. split; [constructor|]. right. exists rest. split.
      - right. exists a. split; [|reflexivity]. intros Hp. exact (Hp He).
      - cbn. rewrite string_app_nil_r. reflexivity. }
    destruct (is_separator (to_char (byte_val a))) eqn:Hs.
    + destruct (String.eqb_spec w EmptyString) as [|_]; [contradiction|].
      exists []. split; [constructor|]. left. exists a, rest.
      split; [exact Hs|]. split; [reflexivity|].
      cbn [string_of_list_ascii]. rewrite string_app_nil_r.
      destruct (Z.eqb_spec (to_char (byte_val a)) 10) as [Hn|Hn].
      * apply to_char_newline in Hn. subst a. reflexivity.
      * destruct (Ascii.eqb_spec a newline) as [->|_]; [|reflexivity].
        elim Hn. reflexivity.
    + rewrite push_back_byte.
      destruct (IH (w ++ String a EmptyString)%string) as (tok & Htok & Hcase).
      { destruct w; discriminate. }
      exists (a :: tok). split; [constructor; [split; assumption | exact Htok]|].
      cbn [string_of_list_ascii].
      replace (w ++ String a (string_of_list_ascii tok))%string
        with ((w ++ String a EmptyString) ++ string_of_list_ascii tok)%string
        by (rewrite string_app_assoc; reflexivity).
      destruct Hcase as [(sep & tail & Hsep & Hrest & Hr)|(tail & Hrest & Hr)].
      * left. exists sep, tail. split; [exact Hsep|]. split; [|exact Hr].
        rewrite Hrest. reflexivity.
      * right. exists tail. split; [|exact Hr].
        destruct Hrest as [[Hrest Ht]|(b & Hb & Hrest)].
        -- left. split; [rewrite Hrest; reflexivity | exact Ht].
        -- right. exists b. split; [exact Hb|]. rewrite Hrest. reflexivity.
Qed.

(** The loop from an empty token: separators other than the newline are
    skipped, a newline gives the sentinel, anything else starts a token. *)
Lemma readWord_loop_start (rest : list ascii) :
  exists pre rest1,
    Forall skipped pre /\ rest = pre ++ rest1
    /\ ((exists tail, rest1 = newline :: tail
                      /\ readWord_loop rest EmptyString = inr (tail, EOS))
        \/ ((forall a tail, rest1 = a :: tail ->
                            is_separator (to_char (byte_val a)) = false)
            /\ token_end rest1 EmptyString (readWord_loop rest EmptyString))).
Proof.
  induction rest as [|a rest IH].
  - exists [], []. split; [constructor|]. split; [reflexivity|]. right.
    split; [discriminate|].
    exists []. split; [constructor|]. right. exists [].
    split; [left; split; reflexivity | reflexivity].
  - destruct (Z.eqb_spec (to_char (byte_val a)) EOF) as [He|Hne].
    { exists [], (a :: rest). split; [constructor|]. split; [reflexivity|]. right.
      split.
      - intros b tl Heq. inversion Heq; subst. rewrite He. reflexivity.
      - cbn [readWord_loop]. cbv zeta. rewrite He. cbn [Z.eqb EOF].
        exists []. split; [constructor|]. right. exists rest. split; [|reflexivity].
        right. exists a. split; [|reflexivity]. intros Hp. exact (Hp He). }
    destruct (is_separator (to_char (byte_val a))) eqn:Hs.
    + destruct (Z.eqb_spec (to_char (byte_val a)) 10) as [Hn|Hn].
      * apply to_char_newline in Hn. subst a.
        exists [], (newline :: rest). split; [constructor|]. split; [reflexivity|].
        left. exists rest. split; reflexivity.
      * destruct IH as (pre & rest1 & Hpre & Hrest & Hcase).
        exists (a :: pre), rest1.
        split; [constructor; [split; assumption | exact Hpre]|].
        split; [rewrite Hrest; reflexivity|].
        rewrite (readWord_loop_skip a rest (conj Hs Hn)). exact Hcase.
    + exists [], (a :: rest). split; [constructor|]. split; [reflexivity|]. right.
      split.
      * intros b tl Heq. inversion Heq; subst. exact Hs.
      * cbn [readWord_loop]. cbv zeta.
        destruct (Z.eqb_spec (to_char (byte_val a)) EOF) as [|_]; [contradiction|].
        rewrite Hs, push_back_byte. cbn [String.append].
        destruct (readWord_loop_token rest (String a EmptyString))
          as (tok & Htok & Hcase); [discriminate|].
        exists (a :: tok). split; [constructor; [split; assumption | exact Htok]|].
        cbn [string_of_list_ascii String.append] in *.
        destruct Hcase as [(sep & tail & Hsep & Hrest & Hr)|(tail & Hrest & Hr)].
        -- left. exists sep, tail. split; [exact Hsep|]. split; [|exact Hr].
           rewrite Hrest. reflexivity.
        -- right. exists tail. split; [|exact Hr].
           destruct Hrest as [[Hrest Ht]|(b & Hb & Hrest)].
           ++ left. split; [rewrite Hrest; reflexivity | exact Ht].
           ++ right. exists b. split; [exact Hb|]. rewrite Hrest. reflexivity.
Qed.

(** * The stream at the end of the file *)

(** The stream has hit the end of its buffer. *)
Definition at_end (s : istream) : Prop := eofbit s = true /\ unread s = [].

(** A stream without the byte 0xFF that is good or at its end: what
    [readWord] keeps from call to call. *)
Definition text_stream (s : istream) : Prop :=
  Forall plain (unread s) /\ (good s = true \/ at_end s).

Lemma readWord_loop_inr_suffix (rest rest' : list ascii) (w w' : string) :
  readWord_loop rest w = inr (rest', w') -> exists pre, rest = pre ++ rest'.
Proof.
  revert w. induction rest as [|a rest IH]; intros w Hl; [discriminate|].
  cbn [readWord_loop] in Hl. cbv zeta in Hl.
  destruct (to_char (byte_val a) =? EOF); [discriminate|].
  destruct (is_separator (to_char (byte_val a))).
  - destruct (String.eqb w EmptyString).
    + destruct (to_char (byte_val a) =? 10).
      * inversion Hl; subst. exists [a]. reflexivity.
      * destruct (IH _ Hl) as [pre Hpre]. exists (a :: pre). rewrite Hpre. reflexivity.
    + destruct (to_char (byte_val a) =? 10); inversion Hl; subst.
      * exists []. reflexivity.
      * exists [a]. reflexivity.
  - destruct (IH _ Hl) as [pre Hpre]. exists (a :: pre). rewrite Hpre. reflexivity.
Qed.

(** [readWord] keeps the content and the shape of the stream, and when it
    returns false the stream is at its end with [eofbit] set. *)
Lemma readWord_text_stream (s : istream) :
  text_stream s ->
  content (readWord s).2 = content s
  /\ text_stream (readWord s).2
  /\ ((readWord s).1.1 = false -> at_end (readWord s).2).
Proof.
  intros [Hp Hstate]. unfold readWord.
  destruct (readWord_loop (unread s) EmptyString) as [[r w]|[r w]] eqn:Hl;
    cbn [fst snd].
  - destruct (readWord_loop_exit _ _ _ _ Hp Hl) as [-> _].
    assert (Hend : content (istream_get (set_unread s [])) = content s
                   /\ at_end (istream_get (set_unread s []))).
    { unfold istream_get. rewrite good_set_unread.
      destruct Hstate as [Hg|[He Hu]].
      - rewrite Hg. cbn. split; [reflexivity | split; reflexivity].
      - assert (Hg : good s = false) by (unfold good; rewrite He; reflexivity).
        rewrite Hg. cbn. split; [reflexivity | split; [exact He | reflexivity]]. }
    destruct Hend as [Hc He]. split; [exact Hc|]. split.
    + split; [rewrite (proj2 He); constructor | right; exact He].
    + intros _. exact He.
  - split; [reflexivity|]. split; [|discriminate].
    destruct (readWord_loop_inr_suffix _ _ _ _ Hl) as [pre Hpre].
    split.
    + cbn [set_unread unread]. rewrite Hpre in Hp.
      apply Forall_app in Hp. apply Hp.
    + destruct Hstate as [Hg|[_ Hu]].
      * left. rewrite good_set_unread. exact Hg.
      * rewrite Hu in Hl. discriminate Hl.
Qed.

(** [reset] of a stream at its end is the stream opened again. *)
Lemma reset_at_end (s : istream) :
  at_end s -> reset s = stream_of_bytes (content s).
Proof. intros [He _]. unfold reset. rewrite He. reflexivity. Qed.

(** * Sums of counts *)

Definition total (l : list Z) : Z := foldr Z.add 0 l.

Lemma total_map_add {A} (f g : A -> Z) (l : list A) :
  total (map (fun x => f x + g x) l) = total (map f l) + total (map g l).
Proof.
  induction l as [|x l IH]; [reflexivity|].
  unfold total in *. cbn [map fold_right]. lia.
Qed.

Lemma total_map_ext {A} (f g : A -> Z) (l : list A) :
  (forall x, x ∈ l -> f x = g x) -> total (map f l) = total (map g l).
Proof.
  intros Hext. f_equal. apply List.map_ext_in. intros x Hx.
  apply Hext, list_elem_of_In, Hx.
Qed.

Lemma total_app (l k : list Z) : total (l ++ k) = total l + total k.
Proof.
  induction l as [|x l IH]; [reflexivity|].
  unfold total in *. cbn [app fold_right]. lia.
Qed.

(** Among distinct words exactly one, or none, is the token [a]. *)
Lemma occ_single_total (W : list string) (a : string) :
  NoDup W ->
  total (map (fun w => occ w [a]) W) = if bool_decide (a ∈ W) then 1 else 0.
Proof.
  induction 1 as [|w0 W Hnotin Hnd IH]; [reflexivity|].
  unfold total in *. cbn [map fold_right]. rewrite IH.
  destruct (string_dec a w0) as [->|Hne].
  - rewrite occ_single_same.
    rewrite (bool_decide_eq_false_2 _ Hnotin).
    rewrite bool_decide_eq_true_2 by (left). reflexivity.
  - rewrite (occ_single_other w0 a Hne).
    destruct (decide (a ∈ W)) as [Hin|Hout].
    + rewrite (bool_decide_eq_true_2 _ Hin).
      rewrite bool_decide_eq_true_2 by (right; exact Hin). reflexivity.
    + rewrite (bool_decide_eq_false_2 _ Hout).
      rewrite bool_decide_eq_false_2; [reflexivity|].
      intros Hin. apply elem_of_cons in Hin. destruct Hin; [contradiction | contradiction].
Qed.

(** The occurrences of distinct words add up to the number of tokens that
    are one of them. *)
Lemma occ_total (W l : list string) :
  NoDup W ->
  total (map (fun w => occ w l) W)
  = Z.of_nat (length (List.filter (fun x => bool_decide (x ∈ W)) l)).
Proof.
  intros Hnd. induction l as [|a l IH].
  - cbn [List.filter length]. induction W as [|w W IHW]; [reflexivity|].
    unfold total in *. cbn [map fold_right]. inversion Hnd; subst.
    rewrite IHW by assumption. reflexivity.
  - rewrite (total_map_ext (fun w => occ w (a :: l))
               (fun w => occ w [a] + occ w l)).
    + rewrite total_map_add, IH, (occ_single_total W a Hnd).
      cbn [List.filter]. destruct (bool_decide (a ∈ W)); cbn [length]; lia.
    + intros w _. change (a :: l) with ([a] ++ l). apply occ_app.
Qed.

(** The counts of a vocabulary that holds distinct words, each with its
    number of occurrences, add up to the number of tokens it holds. *)
Lemma counts_total {E} (wd : E -> string) (ct : E -> Z) (ws : list E)
    (toks : list string) (keep : string -> bool) :
  NoDup (map wd ws) ->
  (forall e, e ∈ ws -> ct e = occ (wd e) toks) ->
  (forall w, w ∈ toks -> (w ∈ map wd ws <-> keep w = true)) ->
  total (map ct ws) = Z.of_nat (length (List.filter keep toks)).
Proof.
  intros Hnd Hct Hkeep.
  rewrite (total_map_ext ct (fun e => occ (wd e) toks) ws Hct).
  rewrite <- (List.map_map wd (fun w => occ w toks)).
  rewrite (occ_total _ toks Hnd). do 2 f_equal.
  apply List.filter_ext_in. intros w Hw. apply list_elem_of_In in Hw.
  destruct (keep w) eqn:Hk.
  - apply bool_decide_eq_true_2, (Hkeep w Hw), Hk.
  - apply bool_decide_eq_false_2. intros Hin. apply (Hkeep w Hw) in Hin. congruence.
Qed.

Lemma filter_all {A} (f : A -> bool) (l : list A) :
  (forall x, x ∈ l -> f x = true) -> List.filter f l = l.
Proof.
  induction l as [|x l IH]; intros Hall; [reflexivity|].
  cbn [List.filter]. rewrite (Hall x) by left. f_equal. apply IH.
  intros y Hy. apply Hall. right. exact Hy.
Qed.

Lemma StronglySorted_map {A B} (R : A -> A -> Prop) (R' : B -> B -> Prop)
    (f : A -> B) (l : list A) :
  (forall a b, R a b -> R' (f a) (f b)) ->
  StronglySorted R l -> StronglySorted R' (map f l).
Proof.
  intros Himp. induction 1 as [|x l Hs IH Hf]; cbn [map]; constructor; [exact IH|].
  apply List.Forall_map. eapply List.Forall_impl; [|exact Hf].
  intros b. apply Himp.
Qed.

(** A sorted list all of whose elements satisfy [P] is sorted for any
    relation that agrees on such elements. *)
Lemma StronglySorted_within {A} (R R' : A -> A -> Prop) (P : A -> Prop)
    (l : list A) :
  (forall a b, P a -> P b -> R a b -> R' a b) ->
  Forall P l -> StronglySorted R l -> StronglySorted R' l.
Proof.
  intros Himp HP. induction 1 as [|x l Hs IH Hf]; constructor.
  - apply IH. inversion HP; assumption.
  - inversion HP as [|? ? Hx Hl]; subst.
    rewrite Forall_forall in Hf, Hl |- *. intros b Hb.
    apply Himp; [exact Hx | apply Hl, Hb | apply Hf, Hb].
Qed.

(** * The count recorded for a word *)

(** The count that a list of entries holds for [w]: the sum over the
    entries whose word is [w] (there is at most one in a dictionary whose
    words are distinct). *)
Definition recorded {E} (wd : E -> string) (ct : E -> Z) (ws : list E)
    (w : string) : Z :=
  total (map ct (List.filter (fun e => String.eqb (wd e) w) ws)).

Lemma recorded_app {E} (wd : E -> string) (ct : E -> Z) (l k : list E) (w : string) :
  recorded wd ct (l ++ k) w = recorded wd ct l w + recorded wd ct k w.
Proof. unfold recorded. rewrite List.filter_app, map_app, total_app. reflexivity. Qed.

Lemma recorded_single {E} (wd : E -> string) (ct : E -> Z) (e : E) (w : string) :
  recorded wd ct [e] w = if String.eqb (wd e) w then ct e else 0.
Proof.
  unfold recorded. cbn [List.filter]. destruct (String.eqb (wd e) w); cbn; lia.
Qed.

Lemma recorded_absent {E} (wd : E -> string) (ct : E -> Z) (ws : list E) (w : string) :
  w ∉ map wd ws -> recorded wd ct ws w = 0.
Proof.
  intros Hnot. unfold recorded.
  replace (List.filter (fun e => String.eqb (wd e) w) ws) with (@nil E); [reflexivity|].
  symmetry. induction ws as [|e ws IH]; [reflexivity|].
  cbn [List.filter]. cbn [map] in Hnot. apply not_elem_of_cons in Hnot.
  destruct Hnot as [Hne Hnot].
  destruct (String.eqb_spec (wd e) w) as [Heq|_]; [congruence|]. apply IH, Hnot.
Qed.

(** Replacing one entry by another with the same word changes the count
    recorded for that word by the difference, and no other. *)
Lemma recorded_insert {E} (wd : E -> string) (ct : E -> Z) (ws : list E)
    (i : nat) (e e' : E) (w : string) :
  ws !! i = Some e -> wd e' = wd e ->
  recorded wd ct (<[i := e']> ws) w
  = recorded wd ct ws w + (if String.eqb (wd e) w then ct e' - ct e else 0).
Proof.
  intros He Hwd.
  rewrite (insert_take_drop ws i e') by (eapply lookup_lt_Some, He).
  rewrite <- (take_drop_middle ws i e He) at 3.
  rewrite !recorded_app.
  change (e' :: drop (Datatypes.S i) ws) with ([e'] ++ drop (Datatypes.S i) ws).
  change (e :: drop (Datatypes.S i) ws) with ([e] ++ drop (Datatypes.S i) ws).
  rewrite !recorded_app, !recorded_single, Hwd.
  destruct (String.eqb (wd e) w); lia.
Qed.

(** * The order of the probe *)

Section ProbePath.
Variable tbl : gmap Z Z.
Variable stored : Z -> Result string.
Variable w : string.

(** The slot is occupied by another word: the probe walks past it. *)
Definition passed (id : Z) : Prop :=
  slot_at tbl id <> -1
  /\ exists w', stored (slot_at tbl id) = Ok w' /\ w' <> w.

Lemma probe_body_step (id id' : Z) :
  probe_body tbl stored w id = Ok (inl id') ->
  id' = (id + 1) mod MAX_VOCAB_SIZE /\ passed id.
Proof.
  unfold probe_body, passed. cbv zeta.
  destruct (Z.eqb_spec (slot_at tbl id) (-1)) as [He|Hne]; [discriminate|].
  destruct (stored (slot_at tbl id)) as [w'|]; [|discriminate].
  rewrite bind_Ok. destruct (String.eqb_spec w' w) as [->|Hw]; [discriminate|].
  intros Hx. inversion Hx. split; [reflexivity|]. split; [exact Hne|]. eauto.
Qed.

Lemma loop_n_path (n : nat) (id r : Z) :
  loop_n (probe_body tbl stored w) n id = Ok (inr r) ->
  0 <= id < MAX_VOCAB_SIZE ->
  exists k : nat,
    r = (id + Z.of_nat k) mod MAX_VOCAB_SIZE
    /\ forall j : nat, (j < k)%nat -> passed ((id + Z.of_nat j) mod MAX_VOCAB_SIZE).
Proof.
  revert id. induction n as [|n IH]; intros id Hl Hid; [discriminate|].
  cbn [loop_n] in Hl.
  destruct (probe_body tbl stored w id) as [[id'|r']|] eqn:Hb; [| |discriminate].
  - rewrite bind_Ok in Hl. destruct (probe_body_step _ _ Hb) as [-> Hpass].
    destruct (IH _ Hl) as (k & Hr & Hpath).
    { apply Z.mod_pos_bound. unfold MAX_VOCAB_SIZE. lia. }
    exists (Datatypes.S k). split.
    + rewrite Hr, Zplus_mod_idemp_l. f_equal. lia.
    + intros [|j] Hj.
      * rewrite Z.add_0_r, Z.mod_small by exact Hid. exact Hpass.
      * specialize (Hpath j ltac:(lia)). rewrite Zplus_mod_idemp_l in Hpath.
        replace (id + Z.of_nat (Datatypes.S j)) with (id + 1 + Z.of_nat j) by lia.
        exact Hpath.
  - rewrite bind_Ok in Hl. inversion Hl; subst r'.
    destruct (probe_body_inr _ _ _ _ _ Hb) as [-> _].
    exists 0%nat. split.
    + rewrite Z.add_0_r, Z.mod_small by exact Hid. reflexivity.
    + intros j Hj. lia.
Qed.

(** The probe returns the first slot, counting from [h mod MAX_VOCAB_SIZE]
    and wrapping around, that is empty or holds [w]. *)
Lemma probe_first (h r : Z) :
  probe tbl stored w h = Ok r ->
  exists k,
    0 <= k < MAX_VOCAB_SIZE
    /\ r = (h + k) mod MAX_VOCAB_SIZE
    /\ stops_at tbl stored w r
    /\ forall j, 0 <= j < k -> passed ((h + j) mod MAX_VOCAB_SIZE).
Proof.
  intros Hp. pose proof (probe_result _ _ _ _ _ Hp) as Hstop.
  apply probe_loop_n in Hp.
  destruct (loop_n_path _ _ _ Hp) as (k & Hr & Hpath).
  { apply Z.mod_pos_bound. unfold MAX_VOCAB_SIZE. lia. }
  rewrite Zplus_mod_idemp_l in Hr.
  assert (Hpath' : forall j, 0 <= j < Z.of_nat k ->
                             passed ((h + j) mod MAX_VOCAB_SIZE)).
  { intros j Hj. specialize (Hpath (Z.to_nat j) ltac:(lia)).
    rewrite Zplus_mod_idemp_l, Z2Nat.id in Hpath by lia. exact Hpath. }
  assert (Hk : Z.of_nat k < MAX_VOCAB_SIZE).
  { destruct (Z.lt_ge_cases (Z.of_nat k) MAX_VOCAB_SIZE) as [|Hbig]; [assumption|].
    exfalso. specialize (Hpath' (Z.of_nat k - MAX_VOCAB_SIZE)).
    assert (Hpos : 0 < MAX_VOCAB_SIZE) by (unfold MAX_VOCAB_SIZE; lia).
    specialize (Hpath' ltac:(lia)).
    replace (h + (Z.of_nat k - MAX_VOCAB_SIZE))
      with (h + Z.of_nat k + (-1) * MAX_VOCAB_SIZE) in Hpath' by lia.
    rewrite Z.mod_add, <- Hr in Hpath' by lia.
    destruct Hpath' as [Hne (w' & Hw' & Hdiff)].
    destruct Hstop as [Hempty|Hhit]; [contradiction|].
    rewrite Hw' in Hhit. inversion Hhit. contradiction. }
  exists (Z.of_nat k). split; [lia|]. split; [exact Hr|]. split; [exact Hstop|].
  exact Hpath'.
Qed.
End ProbePath.

Lemma hash_from_range (str : string) (h : Z) :
  0 <= h < 2 ^ 32 -> 0 <= hash_from h str < 2 ^ 32.
Proof.
  revert h. induction str as [|a str IH]; intros h Hh; [exact Hh|].
  cbn [hash_from]. apply IH. apply Z.mod_pos_bound. lia.
Qed.

Lemma hash_range (str : string) : 0 <= hash str < 2 ^ 32.
Proof. unfold hash. apply hash_from_range. lia. Qed.

(** * The tokens of one line *)

(** The stream after [n] calls of [readWord]. *)
Fixpoint after_reads (n : nat) (s : istream) : istream :=
  match n with
  | O => s
  | Datatypes.S n' => after_reads n' (readWord s).2
  end.

(** [tokens] leaves no token out: once the stream has handed them out,
    [readWord] returns false. *)
Lemma tokens_from_complete (fuel : nat) (s : istream) :
  (length (unread s) < fuel)%nat ->
  (readWord (after_reads (length (tokens_from fuel s)) s)).1.1 = false.
Proof.
  revert s. induction fuel as [|fuel IH]; intros s Hf; [lia|].
  rewrite tokens_from_step. destruct ((readWord s).1.1) eqn:Hmore.
  - cbn [length after_reads]. apply IH.
    pose proof (readWord_progress s Hmore). lia.
  - exact Hmore.
Qed.

Lemma tokens_complete (s : istream) :
  (readWord (after_reads (length (tokens s)) s)).1.1 = false.
Proof. unfold tokens. apply tokens_from_complete. lia. Qed.

(** The tokens that one call of the three-argument [getLine] takes, out of
    the tokens [toks] that the stream would hand out: it goes on until a
    token of the vocabulary ([known]) is the sentinel or brings the count of
    such tokens, which starts at [ntok], above [MAX_LINE_SIZE]. *)
Fixpoint line_tokens (known : string -> bool) (ntok : Z) (toks : list string)
  : list string :=
  match toks with
  | [] => []
  | tok :: rest =>
      if known tok then
        if (MAX_LINE_SIZE <? ntok + 1) || String.eqb tok EOS then [tok]
        else tok :: line_tokens known (ntok + 1) rest
      else tok :: line_tokens known ntok rest
  end.

(** Whether that call leaves through [break], and not because [readWord]
    returned false. *)
Fixpoint line_breaks (known : string -> bool) (ntok : Z) (toks : list string)
  : bool :=
  match toks with
  | [] => false
  | tok :: rest =>
      if known tok then
        if (MAX_LINE_SIZE <? ntok + 1) || String.eqb tok EOS then true
        else line_breaks known (ntok + 1) rest
      else line_breaks known ntok rest
  end.

(** The tokens up to the first sentinel, which is included: what the
    four-argument [getLine] takes. *)
Fixpoint upto_eos (toks : list string) : list string :=
  match toks with
  | [] => []
  | tok :: rest => if String.eqb tok EOS then [tok] else tok :: upto_eos rest
  end.

Definition has_eos (toks : list string) : bool :=
  existsb (fun tok => String.eqb tok EOS) toks.


(** The tokens taken are the first tokens of the stream. *)
Lemma line_tokens_prefix (known : string -> bool) (ntok : Z) (toks : list string) :
  exists rest, toks = line_tokens known ntok toks ++ rest.
Proof.
  revert ntok. induction toks as [|tok rest IH]; intros ntok; [exists []; reflexivity|].
  cbn [line_tokens]. destruct (known tok).
  - destruct ((MAX_LINE_SIZE <? ntok + 1) || String.eqb tok EOS).
    + exists rest. reflexivity.
    + destruct (IH (ntok + 1)) as [r Hr]. exists r. cbn [app]. f_equal. exact Hr.
  - destruct (IH ntok) as [r Hr]. exists r. cbn [app]. f_equal. exact Hr.
Qed.

Lemma upto_eos_prefix (toks : list string) :
  exists rest, toks = upto_eos toks ++ rest.
Proof.
  induction toks as [|tok rest IH]; [exists []; reflexivity|].
  cbn [upto_eos]. destruct (String.eqb tok EOS).
  - exists rest. reflexivity.
  - destruct IH as [r Hr]. exists r. cbn [app]. f_equal. exact Hr.
Qed.

(** The four-argument call stops at the first sentinel, or takes every
    token when there is none. *)
Lemma upto_eos_stop (toks : list string) :
  (has_eos toks = true
   /\ exists pre, upto_eos toks = pre ++ [EOS] /\ EOS ∉ pre)
  \/ (has_eos toks = false /\ upto_eos toks = toks /\ EOS ∉ toks).
Proof.
  induction toks as [|tok rest IH].
  - right. split; [reflexivity|]. split; [reflexivity|]. apply not_elem_of_nil.
  - cbn [upto_eos has_eos existsb]. destruct (String.eqb_spec tok EOS) as [->|Hne].
    + left. split; [reflexivity|]. exists []. split; [reflexivity|].
      apply not_elem_of_nil.
    + cbn [orb]. fold (has_eos rest).
      destruct IH as [(Hh & pre & Hu & Hnot)|(Hh & Hu & Hnot)].
      * left. split; [exact Hh|]. exists (tok :: pre). split; [rewrite Hu; reflexivity|].
        apply not_elem_of_cons. split; [congruence | exact Hnot].
      * right. split; [exact Hh|]. split; [rewrite Hu; reflexivity|].
        apply not_elem_of_cons. split; [congruence | exact Hnot].
Qed.

(** * The words-only dictionary: the builder *)

Module WordsOnlyFacts.
Import WordsOnly.

(** The probability stored for an entry. *)
Definition pdiscard_of (d : Dictionary) (e : entry) : spec_float :=
  discard_probability (t (args_ d))
    (SFdiv real_prec real_emax (real_of_int (count e)) (real_of_int (ntokens_ d))).

Lemma initTableDiscard_Ok (d : Dictionary) :
  0 <= nwords_ d <= Z.of_nat (length (words_ d)) ->
  initTableDiscard d
  = Ok (set_pdiscard d (map (pdiscard_of d) (take (Z.to_nat (nwords_ d)) (words_ d)))).
Proof.
  intros Hn. unfold initTableDiscard.
  destruct (Z.ltb_spec (nwords_ d) 0); [lia|].
  pose proof (mapM_seqZ_prefix (pdiscard_of d) (words_ d) (nwords_ d) Hn) as Hm.
  unfold pdiscard_of in Hm. cbv zeta. rewrite Hm. reflexivity.
Qed.

Lemma threshold_cmp_swo : strict_weak_order threshold_cmp.
Proof.
  unfold threshold_cmp. split.
  - intros a. apply Z.ltb_irrefl.
  - intros a b c H1 H2. apply Z.ltb_lt in H1, H2. apply Z.ltb_lt. lia.
  - intros a b c H1 H2 H3 H4. apply Z.ltb_ge in H1, H2, H3, H4.
    split; apply Z.ltb_ge; lia.
Qed.

Lemma find_stops (d : Dictionary) (w : string) (h : Z) :
  index_valid (word2int_ d) (length (words_ d)) ->
  (exists e, 0 <= e < MAX_VOCAB_SIZE /\ slot_at (word2int_ d) e = -1) ->
  exists id, find_h d w h = Ok id /\ 0 <= id < MAX_VOCAB_SIZE
             /\ stops_at (word2int_ d) (word_at d) w id.
Proof.
  intros Hv He. unfold find_h.
  change (word_at d) with (stored_word word (words_ d)).
  apply probe_on_entries; assumption.
Qed.

(** ** The scenario of the specification *)

Definition scenario : string := "a a a b b c </s> a b".

Section Scenario.
Context `{StdSort}.
Variables (lbl : string) (mcl : Z) (tt : spec_float) (m : model_name) (v : Z).

Definition scenario_args : Args := mkArgs lbl 2 mcl tt m v.

Definition read_entries : list entry :=
  [mkEntry "a" 4; mkEntry "b" 3; mkEntry "c" 1; mkEntry "</s>" 1].

Lemma scenario_read :
  exists d s,
    readFromFile_loop (Datatypes.S (length (unread (open_stream scenario))))
                      (open_stream scenario) 1 (new scenario_args) = Ok (d, s)
    /\ words_ d = read_entries /\ ntokens_ d = 9 /\ args_ d = scenario_args
    /\ nwords_ d = 4.
Proof.
  do 2 eexists. split; [vm_compute; reflexivity|].
  split; [vm_compute; reflexivity|]. split; [vm_compute; reflexivity|].
  split; vm_compute; reflexivity.
Qed.

Lemma scenario_kept :
  List.filter (fun e => negb (count e <? 2)) (std_sort threshold_cmp read_entries)
  = [mkEntry "a" 4; mkEntry "b" 3].
Proof.
  pose proof (std_sort_perm _ threshold_cmp read_entries) as Hp.
  pose proof (std_sort_sorted _ threshold_cmp read_entries threshold_cmp_swo) as Hs.
  apply (filter_Permutation_bool (fun e => negb (count e <? 2))) in Hp.
  apply (StronglySorted_filter_bool _ (fun e => negb (count e <? 2))) in Hs.
  change (List.filter (fun e => negb (count e <? 2)) read_entries)
    with [mkEntry "a" 4; mkEntry "b" 3] in Hp.
  symmetry in Hp. apply Permutation_length_2_inv in Hp.
  destruct Hp as [Hp|Hp]; [exact Hp|].
  rewrite Hp in Hs. inversion Hs as [|? ? _ Hf]; subst.
  inversion Hf as [|? ? Hab _]; subst. discriminate Hab.
Qed.

Lemma scenario_result :
  exists d s,
    readFromFile (open_stream scenario) (new scenario_args) = Ok (d, s)
    /\ words_ d = [mkEntry "a" 4; mkEntry "b" 3]
    /\ nwords_ d = 2 /\ ntokens_ d = 9.
Proof.
  destruct scenario_read as (d1 & s1 & Hread & Hw & Hn & Ha & _).
  unfold readFromFile. rewrite Hread. cbn [mbind Result_bind].
  unfold threshold. rewrite Hw, Ha. cbn [minCount scenario_args].
  rewrite scenario_kept.
  set (kept := [mkEntry "a" 4; mkEntry "b" 3]).
  assert (Hloop : exists tbl,
             threshold_loop kept (set_word2int (set_nwords (set_words d1 kept) 0) ∅)
             = Ok (set_nwords (set_word2int (set_words d1 kept) tbl) 2)).
  { eexists. vm_compute. reflexivity. }
  destruct Hloop as [tbl Hloop]. rewrite Hloop. cbn [mbind Result_bind].
  rewrite initTableDiscard_Ok by (simpl; lia).
  cbn [mbind Result_bind]. do 2 eexists. split; [reflexivity|].
  repeat split. exact Hn.
Qed.
End Scenario.

(** ** A concrete dictionary: the scenario under the default options *)

(** The default subsampling target, the [double] nearest to [1e-4]. *)
Definition default_t : spec_float :=
  Eval vm_compute in
    SFdiv double_prec double_emax
      (binary_normalize double_prec double_emax 1 0 false)
      (binary_normalize double_prec double_emax 10000 0 false).

Definition example_args : Args :=
  {| label := "__label__"; minCount := 2; minCountLabel := 0;
     t := default_t; model := sg; verbose := 0 |}.

Definition example_dictionary : Dictionary :=
  Eval vm_compute in
    match @readFromFile insertion_StdSort (open_stream scenario) (new example_args) with
    | Ok (d, _) => d
    | Err _ => new example_args
    end.

Lemma example_dictionary_built :
  exists s, @readFromFile insertion_StdSort (open_stream scenario) (new example_args)
            = Ok (example_dictionary, s).
Proof. eexists. vm_compute. reflexivity. Qed.

(** ** discard *)

Lemma discard_eq (d : Dictionary) (id : Z) (r : spec_float) :
  0 <= id < nwords_ d ->
  discard d id r =
  if model_name_eqb (model (args_ d)) sup then Ok false
  else p ← vec_at (pdiscard_ d) id; Ok (real_gt r p).
Proof.
  intros [H0 H1]. unfold discard.
  destruct (Z.leb_spec 0 id); [|lia]. destruct (Z.ltb_spec id (nwords_ d)); [|lia].
  reflexivity.
Qed.

Lemma initTableDiscard_inv (d d' : Dictionary) :
  initTableDiscard d = Ok d' ->
  nwords_ d' = nwords_ d /\ args_ d' = args_ d /\ words_ d' = words_ d
  /\ ntokens_ d' = ntokens_ d
  /\ Z.of_nat (length (pdiscard_ d')) = nwords_ d
  /\ Forall (fun p => is_negative p = false) (pdiscard_ d').
Proof.
  unfold initTableDiscard. destruct (Z.ltb_spec (nwords_ d) 0); [discriminate|].
  destruct (mapM _ _) as [tbl|] eqn:Hm; [|discriminate].
  intros Hd. inversion Hd; subst; clear Hd. cbn.
  apply mapM_Result_Forall with (P := fun p => is_negative p = false) in Hm.
  - destruct Hm as [HF Hlen]. rewrite length_seqZ in Hlen.
    repeat split; try assumption. lia.
  - intros i p Hp. destruct (vec_at (words_ d) i); [|discriminate].
    inversion Hp; subst. apply discard_probability_sign.
Qed.

(** C8: [discard(id, r)] is a function of the mode, [r] and [pdiscard_[id]]
    alone: for a valid word id it returns false in the supervised mode and
    [r > pdiscard_[id]] otherwise; and once [initTableDiscard] has filled the
    table, [discard(id, 0)] is false for every valid word id. *)
Theorem discard_is_pure :
  (forall (d : Dictionary) (id : Z) (r : spec_float),
      0 <= id < nwords_ d ->
      discard d id r =
      if model_name_eqb (model (args_ d)) sup then Ok false
      else p ← vec_at (pdiscard_ d) id; Ok (real_gt r p))
  /\ (forall (d d' : Dictionary) (id : Z) (s : bool),
         initTableDiscard d = Ok d' ->
         0 <= id < nwords_ d' ->
         discard d' id (S754_zero s) = Ok false).
Proof.
  split; [exact discard_eq|].
  intros d d' id s Hinit Hid. rewrite discard_eq by exact Hid.
  destruct (model_name_eqb (model (args_ d')) sup); [reflexivity|].
  destruct (initTableDiscard_inv d d' Hinit) as (Hn & _ & _ & _ & Hlen & HF).
  destruct (vec_at_in_range (pdiscard_ d') id) as [p Hp]; [lia|].
  rewrite Hp. cbn [mbind Result_bind]. f_equal. unfold real_gt.
  apply not_negative_not_below.
  apply vec_at_Ok in Hp. destruct Hp as [_ Hp].
  rewrite Forall_forall in HF. apply HF. eapply list_elem_of_lookup_2, Hp.
Qed.

Lemma discard_is_pure_witness :
  initTableDiscard example_dictionary = Ok example_dictionary
  /\ 0 <= 1 < nwords_ example_dictionary
  /\ discard example_dictionary 1 (S754_zero false) = Ok false.
Proof.
  assert (Hi : initTableDiscard example_dictionary = Ok example_dictionary)
    by (vm_compute; reflexivity).
  assert (Hr : 0 <= 1 < nwords_ example_dictionary)
    by (change (nwords_ example_dictionary) with 2; lia).
  split; [exact Hi|]. split; [exact Hr|].
  exact (proj2 discard_is_pure example_dictionary example_dictionary 1 false Hi Hr).
Defined.


(** ** The index of the example *)

Lemma example_dictionary_valid :
  index_valid (word2int_ example_dictionary) (length (words_ example_dictionary)).
Proof. apply (bool_decide_unpack _). vm_compute. exact I. Qed.



(** ** prune *)

Section Prune.
Context `{StdSort}.

Lemma prune_unfold (idx : list Z) (d : Dictionary) :
  prune idx d =
  r ← compact_loop word (prune_keep (kept_ids idx (nwords_ d)))
        (seq 0 (length (words_ d))) 0%nat (words_ d) ∅;
  Ok (set_nwords
        (set_word2int
           (set_words
              (set_word2int
                 (set_pruneidx_size d (Z.of_nat (size (pruneidx_ d)))) ∅)
              r.1.1) r.1.2)
        (Z.of_nat (length (kept_ids idx (nwords_ d)))),
      kept_ids idx (nwords_ d)).
Proof.
  unfold prune, kept_ids. cbn [words_ word2int_ set_word2int set_pruneidx_size].
  destruct (compact_loop _ _ _ _ _ _) as [[[ws tbl] j]|]; reflexivity.
Qed.

(** What [prune] does to a list of distinct, non-negative word ids. *)
Lemma prune_spec (idx : list Z) (d : Dictionary) :
  nwords_ d <= Z.of_nat (length (words_ d)) ->
  Z.of_nat (length (words_ d)) <= MAX_VOCAB_SIZE ->
  Forall (fun x => 0 <= x) (List.filter (fun x => x <? nwords_ d) idx) ->
  NoDup (List.filter (fun x => x <? nwords_ d) idx) ->
  exists d',
    prune idx d = Ok (d', kept_ids idx (nwords_ d))
    /\ nwords_ d' = Z.of_nat (length (kept_ids idx (nwords_ d)))
    /\ length (words_ d') = length (words_ d)
    /\ (forall k z, kept_ids idx (nwords_ d) !! k = Some z ->
                    words_ d' !! k = words_ d !! Z.to_nat z)
    /\ index_valid (word2int_ d') (length (words_ d'))
    /\ pdiscard_ d' = pdiscard_ d /\ args_ d' = args_ d
    /\ ntokens_ d' = ntokens_ d.
Proof.
  intros Hn Hcap Hpos Hnd.
  destruct (compact_loop_spec word (prune_keep (kept_ids idx (nwords_ d)))
              (words_ d) (kept_positions idx (nwords_ d)) Hcap)
    as (ws' & tbl' & Hloop & Hlen & Hkept & Hvalid).
  - apply kept_positions_increasing; assumption.
  - intros k p Hk. pose proof (kept_positions_bounded idx _ Hpos k p Hk). lia.
  - intros i j ws tbl _ _. unfold prune_keep. f_equal. apply bool_decide_ext.
    symmetry. apply kept_positions_lookup. exact Hpos.
  - rewrite kept_positions_length in Hloop.
    rewrite prune_unfold, Hloop, bind_Ok. eexists. split; [reflexivity|].
    cbn. rewrite Hlen. repeat split; try reflexivity; try assumption.
    intros k z Hk. apply Hkept. apply kept_positions_lookup; [exact Hpos|].
    pose proof (kept_ids_range idx _ Hpos k z Hk).
    rewrite Z2Nat.id by lia. exact Hk.
Qed.
End Prune.



Section PruneFrame.
Context `{StdSort}.

(** [prune] touches neither the subsampling table nor the options. *)
Lemma prune_frame (idx idx' : list Z) (d d' : Dictionary) :
  prune idx d = Ok (d', idx') ->
  pdiscard_ d' = pdiscard_ d /\ args_ d' = args_ d.
Proof.
  rewrite prune_unfold.
  destruct (compact_loop _ _ _ _ _ _) as [[[ws tbl] j]|]; [|discriminate].
  rewrite bind_Ok. intros Hd. inversion Hd; subst. split; reflexivity.
Qed.

Lemma discard_after_prune (idx idx' : list Z) (d d' : Dictionary)
    (id : Z) (r : spec_float) :
  prune idx d = Ok (d', idx') -> 0 <= id < nwords_ d' ->
  discard d' id r =
  if model_name_eqb (model (args_ d)) sup then Ok false
  else p ← vec_at (pdiscard_ d) id; Ok (real_gt r p).
Proof.
  intros Hp Hid. destruct (prune_frame _ _ _ _ Hp) as [Hpd Ha].
  rewrite discard_eq by exact Hid. rewrite Hpd, Ha. reflexivity.
Qed.
End PruneFrame.


(** ** The scenario, as stated and as it runs *)

(** The statement of the specification: [a] with count 3 and [b] with count
    2 survive, and nine tokens were counted. *)
Definition scenario_claim `{StdSort} (args : Args) : Prop :=
  exists d s,
    readFromFile (open_stream scenario) (new args) = Ok (d, s)
    /\ words_ d = [mkEntry "a" 3; mkEntry "b" 2]
    /\ ntokens_ d = 9.

Lemma scenario_counts_counterexample :
  ~ @scenario_claim insertion_StdSort example_args.
Proof.
  intros (d & s & Hr & Hw & _).
  destruct example_dictionary_built as [s' Hb].
  rewrite Hb in Hr. inversion Hr; subst.
  vm_compute in Hw. discriminate Hw.
Qed.

(** C1, amended: reading the stream [a a a b b c </s> a b] with
    [minCount = 2] leaves exactly [a] with count 4 and [b] with count 3, in
    this order; [c] and [</s>] are removed, and [ntokens_] is 9.  This holds
    for every implementation of [std::sort] and all other options. *)
Theorem scenario_vocabulary `{StdSort}
    (lbl : string) (mcl : Z) (tt : spec_float) (m : model_name) (v : Z) :
  exists d s,
    readFromFile (open_stream scenario) (new (mkArgs lbl 2 mcl tt m v)) = Ok (d, s)
    /\ words_ d = [mkEntry "a" 4; mkEntry "b" 3]
    /\ nwords_ d = 2 /\ ntokens_ d = 9.
Proof. exact (scenario_result lbl mcl tt m v). Qed.

(** The same tokens with the sentinel produced by a newline. *)
Example scenario_with_newline :
  exists d s,
    @readFromFile insertion_StdSort
      (open_stream ("a a a b b c" ++ String "010"%char "a b")%string)
      (new example_args) = Ok (d, s)
    /\ words_ d = [mkEntry "a" 4; mkEntry "b" 3] /\ ntokens_ d = 9.
Proof. do 2 eexists. split; [vm_compute; reflexivity|]. split; reflexivity. Qed.


(** ** getLine *)

Lemma find_unfold (d : Dictionary) (w : string) : find d w = find_h d w (hash w).
Proof. unfold find. reflexivity. Qed.

(** The token resolves to an id of the dictionary. *)
Definition in_vocabulary (d : Dictionary) (w : string) : bool :=
  match getId d w with
  | Ok id => 0 <=? id
  | Err _ => false
  end.

Lemma getLine_loop_step (fuel : nat) (d : Dictionary) (s : istream)
    (rng : minstd_rand) (ws : list Z) (ntok : Z) (seen : list string) :
  getLine_loop (Datatypes.S fuel) d s rng ws ntok seen =
  if (readWord s).1.1 then
    h ← find d (readWord s).1.2;
    if slot_at (word2int_ d) h <? 0
    then getLine_loop fuel d (readWord s).2 rng ws ntok (seen ++ [(readWord s).1.2])
    else
      gone ← discard d (slot_at (word2int_ d) h) (to_real (uniform rng).1);
      if (MAX_LINE_SIZE <? ntok + 1) || String.eqb (readWord s).1.2 EOS
      then Ok (mkLine (ntok + 1)
                 (if (gone : bool) then ws else ws ++ [slot_at (word2int_ d) h])
                 (readWord s).2 (uniform rng).2 (seen ++ [(readWord s).1.2]))
      else getLine_loop fuel d (readWord s).2 (uniform rng).2
             (if (gone : bool) then ws else ws ++ [slot_at (word2int_ d) h])
             (ntok + 1) (seen ++ [(readWord s).1.2])
  else Ok (mkLine ntok ws (readWord s).2 rng seen).
Proof.
  cbn [getLine_loop]. destruct (readWord s) as [[more token] s1]. reflexivity.
Qed.

Lemma in_vocabulary_find (d : Dictionary) (w : string) (h : Z) :
  find d w = Ok h -> in_vocabulary d w = negb (slot_at (word2int_ d) h <? 0).
Proof.
  intros Hf. unfold in_vocabulary, getId. rewrite Hf, bind_Ok.
  destruct (Z.leb_spec 0 (slot_at (word2int_ d) h)),
           (Z.ltb_spec (slot_at (word2int_ d) h) 0); try reflexivity; lia.
Qed.




(** A dictionary the readers can use: the counter matches the vector, the
    index names stored entries and has a free slot, and the subsampling
    table covers every word. *)
Record usable (d : Dictionary) : Prop := {
  usable_nwords : nwords_ d = Z.of_nat (length (words_ d));
  usable_index : index_valid (word2int_ d) (length (words_ d));
  usable_free : exists e, 0 <= e < MAX_VOCAB_SIZE /\ slot_at (word2int_ d) e = -1;
  usable_pdiscard : length (pdiscard_ d) = length (words_ d)
}.

Lemma discard_returns (d : Dictionary) (id : Z) (r : spec_float) :
  usable d -> 0 <= id < nwords_ d -> exists b, discard d id r = Ok b.
Proof.
  intros Hu Hid. rewrite discard_eq by exact Hid.
  destruct (model_name_eqb (model (args_ d)) sup); [eauto|].
  destruct (vec_at_in_range (pdiscard_ d) id) as [p Hp].
  { rewrite (usable_pdiscard d Hu), <- (usable_nwords d Hu). exact Hid. }
  rewrite Hp, bind_Ok. eauto.
Qed.

(** The loop returns: the buffer bounds its turns. *)
Lemma getLine_loop_returns (fuel : nat) (d : Dictionary) (s : istream)
    (rng : minstd_rand) (ws : list Z) (ntok : Z) (seen : list string) :
  usable d -> (length (unread s) < fuel)%nat ->
  exists l, getLine_loop fuel d s rng ws ntok seen = Ok l.
Proof.
  intros Hu. revert s rng ws ntok seen.
  induction fuel as [|fuel IH]; intros s rng ws ntok seen Hf; [lia|].
  rewrite getLine_loop_step.
  destruct ((readWord s).1.1) eqn:Hmore; [|eauto].
  pose proof (readWord_progress s Hmore) as Hp.
  destruct (find_stops d (readWord s).1.2 (hash (readWord s).1.2)
              (usable_index d Hu) (usable_free d Hu)) as (h & Hh & _ & _).
  rewrite <- find_unfold in Hh. rewrite Hh, bind_Ok.
  destruct (Z.ltb_spec (slot_at (word2int_ d) h) 0) as [Hneg|Hpos].
  - apply IH. lia.
  - destruct (discard_returns d (slot_at (word2int_ d) h) (to_real (uniform rng).1) Hu)
      as [gone Hg].
    { rewrite (usable_nwords d Hu). apply index_valid_slot;
        [exact (usable_index d Hu) | lia]. }
    rewrite Hg, bind_Ok.
    destruct ((MAX_LINE_SIZE <? ntok + 1) || String.eqb (readWord s).1.2 EOS);
      [eauto|]. apply IH. lia.
Qed.

Lemma getLine_returns (d : Dictionary) (s : istream) (rng : minstd_rand) :
  usable d -> exists l, getLine d s rng = Ok l.
Proof. intros Hu. unfold getLine. apply getLine_loop_returns; [exact Hu | lia]. Qed.

Lemma example_dictionary_usable : usable example_dictionary.
Proof.
  split.
  - reflexivity.
  - exact example_dictionary_valid.
  - exists 0. split; [unfold MAX_VOCAB_SIZE; lia | vm_compute; reflexivity].
  - reflexivity.
Qed.

(** The source that always hands out [r]. *)
Definition constant_rng (r : spec_float) : minstd_rand :=
  {| draws := fun _ => r; taken := 0 |}.


(** ** save and load *)

(** A dictionary as the builder leaves it: counters and entries fit their
    fields, no word holds a NUL byte, the prune map has the size recorded
    for it, and the subsampling table is the one [initTableDiscard]
    computes. *)
Record persistable (d : Dictionary) : Prop := {
  pers_nwords : nwords_ d = Z.of_nat (length (words_ d));
  pers_fits : Z.of_nat (length (words_ d)) <= MAX_VOCAB_SIZE;
  pers_ntokens : int64 (ntokens_ d);
  pers_entries : Forall (fun e => nul_free (word e) /\ int64 (count e)) (words_ d);
  pers_prune_size : int64 (pruneidx_size_ d);
  pers_prune_count : Z.to_nat (pruneidx_size_ d) = size (pruneidx_ d);
  pers_prune : map_Forall (fun k v => int32 k /\ int32 v) (pruneidx_ d);
  pers_pdiscard : pdiscard_ d = map (pdiscard_of d) (words_ d)
}.

Lemma Dictionary_eq (a b : Dictionary) :
  args_ a = args_ b -> word2int_ a = word2int_ b -> words_ a = words_ b ->
  pdiscard_ a = pdiscard_ b -> nwords_ a = nwords_ b -> ntokens_ a = ntokens_ b ->
  pruneidx_size_ a = pruneidx_size_ b -> pruneidx_ a = pruneidx_ b -> a = b.
Proof. destruct a, b. cbn. intros; subst; reflexivity. Qed.

(** The image of a dictionary. *)
Definition image (d : Dictionary) : list ascii :=
  le_bytes 4 (nwords_ d) ++ le_bytes 8 (ntokens_ d)
  ++ le_bytes 8 (pruneidx_size_ d)
  ++ flat_map save_entry (words_ d) ++ save_pruneidx (pruneidx_ d).

Lemma save_image (d : Dictionary) :
  nwords_ d = Z.of_nat (length (words_ d)) -> save d = Ok (image d).
Proof.
  intros Hn. unfold save.
  rewrite mapM_vec_at_prefix by lia. rewrite bind_Ok.
  rewrite Hn, Nat2Z.id, firstn_all. unfold image. rewrite Hn. reflexivity.
Qed.

Lemma load_entries_step (n : nat) (i : Z) (s : istream) (d : Dictionary) :
  load_entries (Datatypes.S n) i s d =
  _ ← (if good s then Ok tt else Err Diverges);
  r ← load_word (unread s) EmptyString;
  c ← read_int 8 (set_unread s r.2);
  h ← find (set_words d (words_ d ++ [{| word := r.1; count := c.1 |}])) r.1;
  load_entries n (i + 1) c.2
    (set_word2int (set_words d (words_ d ++ [{| word := r.1; count := c.1 |}]))
                  (<[h := i]> (word2int_ d))).
Proof.
  cbn [load_entries]. destruct (good s); [|reflexivity]. rewrite !bind_Ok.
  destruct (load_word (unread s) EmptyString) as [[w r]|]; [|reflexivity].
  rewrite !bind_Ok. cbn [fst snd].
  destruct (read_int 8 (set_unread s r)) as [[c s1]|]; [|reflexivity].
  rewrite !bind_Ok. cbn [fst snd]. reflexivity.
Qed.

Lemma load_entries_spec (es : list entry) (i : Z) (s : istream) (d : Dictionary)
    (rest : list ascii) :
  good s = true ->
  unread s = flat_map save_entry es ++ rest ->
  Forall (fun e => nul_free (word e) /\ int64 (count e)) es ->
  index_valid (word2int_ d) (length (words_ d)) ->
  (size (word2int_ d) <= length (words_ d))%nat ->
  Z.of_nat (length (words_ d) + length es) <= MAX_VOCAB_SIZE ->
  i = Z.of_nat (length (words_ d)) ->
  exists tbl,
    load_entries (length es) i s d
    = Ok (set_word2int (set_words d (words_ d ++ es)) tbl, set_unread s rest).
Proof.
  revert i s d. induction es as [|e es IH]; intros i s d Hg Hu HF Hv Hsz Hcap Hi.
  - exists (word2int_ d). cbn in Hu. cbn [length load_entries].
    rewrite app_nil_r, <- Hu. destruct d, s; reflexivity.
  - apply Forall_cons in HF. destruct HF as [[Hnul Hcnt] HF'].
    cbn [length]. rewrite load_entries_step, Hg, bind_Ok.
    cbn [flat_map] in Hu. unfold save_entry at 1 in Hu.
    rewrite <- !app_assoc in Hu. cbn [app] in Hu.
    rewrite Hu, (load_word_spec (word e) EmptyString _ Hnul), bind_Ok.
    cbn [fst snd].
    rewrite (read_int_le_bytes 8 (count e) (set_unread s _) _ ltac:(lia) Hcnt Hg eq_refl).
    rewrite bind_Ok. cbn [fst snd]. rewrite set_unread_set_unread.
    change (EmptyString ++ word e)%string with (word e).
    replace {| word := word e; count := count e |} with e by (destruct e; reflexivity).
    set (d1 := set_words d (words_ d ++ [e])).
    destruct (find_stops d1 (word e) (hash (word e))) as (h & Hh & _ & _).
    { cbn [d1 set_words word2int_ words_]. rewrite length_app. cbn [length].
      eapply index_valid_mono; [|exact Hv]. lia. }
    { cbn [d1 set_words word2int_]. apply free_slot.
      cbn [length] in Hcap. lia. }
    rewrite <- find_unfold in Hh. rewrite Hh, bind_Ok.
    destruct (IH (i + 1) (set_unread s (flat_map save_entry es ++ rest))
                (set_word2int d1 (<[h := i]> (word2int_ d)))) as [tbl Htbl].
    + exact Hg.
    + reflexivity.
    + exact HF'.
    + cbn [d1 set_word2int set_words word2int_ words_]. rewrite length_app.
      cbn [length]. apply index_valid_insert; [|lia].
      eapply index_valid_mono; [|exact Hv]. lia.
    + cbn [d1 set_word2int set_words word2int_ words_]. rewrite length_app.
      cbn [length]. pose proof (map_size_insert h i (word2int_ d)) as Hins.
      destruct (word2int_ d !! h); unfold id in Hins; lia.
    + cbn [d1 set_word2int set_words words_]. rewrite length_app.
      cbn [length] in *. lia.
    + cbn [d1 set_word2int set_words words_]. rewrite length_app. cbn [length]. lia.
    + exists tbl. rewrite Htbl. rewrite set_unread_set_unread.
      cbn [d1 set_word2int set_words words_ args_ word2int_ pdiscard_ nwords_
             ntokens_ pruneidx_size_ pruneidx_].
      rewrite <- app_assoc. reflexivity.
Qed.

(** Loading the image of a persistable dictionary into a dictionary with the
    same options. *)
Lemma load_image (d d0 : Dictionary) :
  persistable d -> args_ d0 = args_ d ->
  exists tbl,
    load (stream_of_bytes (image d)) d0
    = Ok (mkDict (args_ d) tbl (words_ d) (pdiscard_ d) (nwords_ d) (ntokens_ d)
                 (pruneidx_size_ d) (pruneidx_ d),
          set_unread (stream_of_bytes (image d)) []).
Proof.
  intros Hp Ha. unfold load.
  assert (Hnw32 : - 2 ^ (8 * Z.of_nat 4 - 1) <= nwords_ d < 2 ^ (8 * Z.of_nat 4 - 1)).
  { pose proof (pers_fits d Hp). rewrite (pers_nwords d Hp).
    unfold MAX_VOCAB_SIZE in *. change (2 ^ (8 * Z.of_nat 4 - 1)) with 2147483648. lia. }
  set (s0 := stream_of_bytes (image d)).
  rewrite (read_int_le_bytes 4 (nwords_ d) s0 _ ltac:(lia) Hnw32 eq_refl eq_refl),
    bind_Ok.
  rewrite (read_int_le_bytes 8 (ntokens_ d) (set_unread s0 _) _ ltac:(lia)
             (pers_ntokens d Hp) eq_refl eq_refl), bind_Ok.
  rewrite (read_int_le_bytes 8 (pruneidx_size_ d) (set_unread (set_unread s0 _) _) _
             ltac:(lia) (pers_prune_size d Hp) eq_refl eq_refl), bind_Ok.
  rewrite !set_unread_set_unread.
  replace (Z.to_nat (nwords_ d)) with (length (words_ d))
    by (rewrite (pers_nwords d Hp), Nat2Z.id; reflexivity).
  set (d1 := set_pruneidx_size _ _).
  destruct (load_entries_spec (words_ d) 0
              (set_unread s0
                 (flat_map save_entry (words_ d) ++ save_pruneidx (pruneidx_ d)))
              d1 (save_pruneidx (pruneidx_ d) ++ [])) as [tbl Htbl].
  - reflexivity.
  - cbn [unread set_unread]. rewrite app_nil_r. reflexivity.
  - exact (pers_entries d Hp).
  - apply index_valid_empty.
  - cbn. rewrite map_size_empty. lia.
  - cbn. exact (pers_fits d Hp).
  - reflexivity.
  - rewrite Htbl, bind_Ok. rewrite set_unread_set_unread.
    rewrite (pers_prune_count d Hp).
    rewrite (load_pruneidx_spec (pruneidx_ d)
               (set_unread s0 (save_pruneidx (pruneidx_ d) ++ [])) []
               (pers_prune d Hp) eq_refl eq_refl), bind_Ok.
    rewrite set_unread_set_unread.
    rewrite initTableDiscard_Ok; cycle 1.
    { cbn. rewrite (pers_nwords d Hp). lia. }
    rewrite bind_Ok. exists tbl. f_equal. f_equal. subst d1.
    apply Dictionary_eq; cbn; try reflexivity; [exact Ha|].
    rewrite (pers_nwords d Hp), Nat2Z.id, firstn_all, (pers_pdiscard d Hp).
    apply map_ext. intros e. unfold pdiscard_of. cbn. rewrite Ha. reflexivity.
Qed.



(** ** What the builder leaves behind *)

Lemma add_cases (w : string) (d d' : Dictionary) :
  add w d = Ok d' ->
  ntokens_ d' = ntokens_ d + 1 /\ args_ d' = args_ d
  /\ pruneidx_size_ d' = pruneidx_size_ d /\ pruneidx_ d' = pruneidx_ d
  /\ ((words_ d' = words_ d ++ [mkEntry w 1] /\ nwords_ d' = nwords_ d + 1)
      \/ (exists i e,
             words_ d !! i = Some e
             /\ words_ d' = <[i := mkEntry (word e) (count e + 1)]> (words_ d)
             /\ nwords_ d' = nwords_ d)).
Proof.
  unfold add. destruct (find d w) as [h|]; [|discriminate].
  rewrite bind_Ok. cbn [set_ntokens word2int_ words_].
  destruct (slot_at (word2int_ d) h =? -1).
  - intros Hd. inversion Hd; subst; clear Hd. cbn. repeat split. left. split; reflexivity.
  - destruct (vec_at (words_ d) (slot_at (word2int_ d) h)) as [e|] eqn:He; [|discriminate].
    rewrite bind_Ok. intros Hd. inversion Hd; subst; clear Hd. cbn. repeat split.
    right. apply vec_at_Ok in He. destruct He as [_ He].
    exists (Z.to_nat (slot_at (word2int_ d) h)), e. repeat split. exact He.
Qed.

Lemma threshold_loop_cons (e : entry) (es : list entry) (d : Dictionary) :
  threshold_loop (e :: es) d =
  h ← find d (word e);
  threshold_loop es
    (set_nwords (set_word2int d (<[h := nwords_ d]> (word2int_ d)))
                (nwords_ d + 1)).
Proof. reflexivity. Qed.

Lemma threshold_loop_fields (es : list entry) (d d' : Dictionary) :
  threshold_loop es d = Ok d' ->
  words_ d' = words_ d /\ nwords_ d' = nwords_ d + Z.of_nat (length es)
  /\ args_ d' = args_ d /\ ntokens_ d' = ntokens_ d
  /\ pruneidx_size_ d' = pruneidx_size_ d /\ pruneidx_ d' = pruneidx_ d
  /\ pdiscard_ d' = pdiscard_ d.
Proof.
  revert d. induction es as [|e es IH]; intros d Hl.
  - inversion Hl; subst. cbn. repeat split. lia.
  - rewrite threshold_loop_cons in Hl.
    destruct (find d (word e)) as [h|]; [|discriminate].
    rewrite bind_Ok in Hl. apply IH in Hl. cbn in Hl.
    destruct Hl as (H1 & H2 & H3 & H4 & H5 & H6 & H7).
    repeat split; try assumption. rewrite H2. cbn [length]. lia.
Qed.

(** The index that the rebuilding loop leaves names positions below the
    counter and has no more live slots than entries. *)
Lemma threshold_loop_index (es : list entry) (d d' : Dictionary) :
  threshold_loop es d = Ok d' ->
  0 <= nwords_ d ->
  index_valid (word2int_ d) (Z.to_nat (nwords_ d)) ->
  Z.of_nat (size (word2int_ d)) <= nwords_ d ->
  index_valid (word2int_ d') (Z.to_nat (nwords_ d'))
  /\ Z.of_nat (size (word2int_ d')) <= nwords_ d'.
Proof.
  revert d. induction es as [|e es IH]; intros d Hl Hn Hv Hs.
  - inversion Hl; subst. split; assumption.
  - rewrite threshold_loop_cons in Hl.
    destruct (find d (word e)) as [h|]; [|discriminate].
    rewrite bind_Ok in Hl. apply IH in Hl; [exact Hl | cbn; lia | |].
    + cbn. apply index_valid_insert; [|lia].
      eapply index_valid_mono; [|exact Hv]. lia.
    + cbn. pose proof (map_size_insert h (nwords_ d) (word2int_ d)) as Hins.
      destruct (word2int_ d !! h); unfold id in Hins; lia.
Qed.

Section Threshold.
Context `{StdSort}.

Lemma threshold_fields (t : Z) (d d' : Dictionary) :
  threshold t d = Ok d' ->
  words_ d' = List.filter (fun e => negb (count e <? t))
                          (std_sort threshold_cmp (words_ d))
  /\ nwords_ d' = Z.of_nat (length (words_ d'))
  /\ args_ d' = args_ d /\ ntokens_ d' = ntokens_ d
  /\ pruneidx_size_ d' = pruneidx_size_ d /\ pruneidx_ d' = pruneidx_ d
  /\ pdiscard_ d' = pdiscard_ d
  /\ index_valid (word2int_ d') (length (words_ d'))
  /\ (size (word2int_ d') <= length (words_ d'))%nat.
Proof.
  unfold threshold. intros Hl.
  pose proof (threshold_loop_fields _ _ _ Hl) as (H1 & H2 & H3 & H4 & H5 & H6 & H7).
  cbn in H1, H2, H3, H4, H5, H6, H7.
  destruct (threshold_loop_index _ _ _ Hl) as [Hv Hs].
  { cbn. lia. }
  { cbn. apply index_valid_empty. }
  { cbn. rewrite map_size_empty. lia. }
  rewrite Z.add_0_l, <- H1 in H2. rewrite H2 in Hv, Hs. rewrite Nat2Z.id in Hv.
  repeat split; try assumption; lia.
Qed.

Lemma threshold_words_perm (t : Z) (d d' : Dictionary) :
  threshold t d = Ok d' ->
  Permutation (words_ d') (List.filter (fun e => negb (count e <? t)) (words_ d)).
Proof.
  intros Ht. destruct (threshold_fields _ _ _ Ht) as (Hw & _). rewrite Hw.
  apply filter_Permutation_bool, std_sort_perm.
Qed.
End Threshold.


(** The state of a dictionary between two turns of the reading loop. *)
Record counted (d : Dictionary) : Prop := {
  cnt_nwords : nwords_ d = Z.of_nat (length (words_ d));
  cnt_ntokens : 0 <= ntokens_ d;
  cnt_entries :
    List.Forall (fun e => nul_free (word e) /\ 1 <= count e <= ntokens_ d) (words_ d);
  cnt_prune_size : pruneidx_size_ d = -1;
  cnt_prune : pruneidx_ d = ∅
}.

Lemma new_counted (args : Args) : counted (new args).
Proof. split; cbn; try reflexivity. constructor. Qed.

Lemma add_counted (w : string) (d d' : Dictionary) :
  nul_free w -> counted d -> add w d = Ok d' ->
  counted d' /\ ntokens_ d' = ntokens_ d + 1 /\ args_ d' = args_ d
  /\ (length (words_ d') = length (words_ d)
      \/ (length (words_ d') = Datatypes.S (length (words_ d))
          /\ List.Exists (fun e => count e = 1) (words_ d'))).
Proof.
  intros Hw [Hn Ht He Hps Hp] Hadd.
  destruct (add_cases _ _ _ Hadd) as (Ht' & Ha' & Hps' & Hp' & Hcase).
  assert (Hold : List.Forall
            (fun e => nul_free (word e) /\ 1 <= count e <= ntokens_ d') (words_ d)).
  { eapply List.Forall_impl; [|exact He]. cbn. intros e [? ?]. split; [assumption|lia]. }
  destruct Hcase as [[Hws Hnw]|(i & e & Hi & Hws & Hnw)].
  - split; [|split; [exact Ht'|split; [exact Ha'|]]].
    + split; try congruence; try lia.
      * rewrite Hnw, Hws, Hn, length_app. cbn [length]. lia.
      * rewrite Hws. apply List.Forall_app. split; [exact Hold|].
        constructor; [|constructor]. cbn. split; [exact Hw | lia].
    + right. rewrite Hws, length_app. cbn [length]. split; [lia|].
      apply List.Exists_app. right. constructor. reflexivity.
  - split; [|split; [exact Ht'|split; [exact Ha'|]]].
    + split; try congruence; try lia.
      * rewrite Hnw, Hws, Hn, length_insert. reflexivity.
      * rewrite Hws. apply Forall_insert; [exact Hold|]. cbn.
        rewrite List.Forall_forall in He.
        destruct (He e) as [Hwe Hce]; [eapply list_elem_of_In, list_elem_of_lookup_2, Hi|].
        split; [exact Hwe | lia].
    + left. rewrite Hws, length_insert. reflexivity.
Qed.

Section Builder.
Context `{StdSort}.

Lemma threshold_counted (t : Z) (d d' : Dictionary) :
  counted d -> threshold t d = Ok d' ->
  counted d' /\ ntokens_ d' = ntokens_ d /\ args_ d' = args_ d
  /\ (length (words_ d') <= length (words_ d))%nat
  /\ (2 <= t -> List.Exists (fun e => count e = 1) (words_ d) ->
      (length (words_ d') < length (words_ d))%nat).
Proof.
  intros [Hn Ht He Hps Hp] Hth.
  pose proof (threshold_words_perm _ _ _ Hth) as Hperm.
  destruct (threshold_fields _ _ _ Hth)
    as (Hws & Hnw & Ha' & Ht' & Hps' & Hp' & _).
  pose proof (Permutation_length (std_sort_perm _ threshold_cmp (words_ d))) as Hlen.
  split; [|split; [exact Ht'|split; [exact Ha'|split]]].
  - split; try congruence.
    rewrite List.Forall_forall in He. apply List.Forall_forall. intros e Hin.
    rewrite Ht'. apply He.
    eapply Permutation_in in Hin; [|exact Hperm].
    apply List.filter_In in Hin. apply Hin.
  - rewrite Hws, <- Hlen. apply length_filter_le.
  - intros H2 Hex. rewrite Hws, <- Hlen. apply filter_length_lt.
    apply List.Exists_exists in Hex. destruct Hex as (e & Hin & Hc).
    apply List.Exists_exists. exists e. split.
    + eapply Permutation_in; [apply Permutation_sym, std_sort_perm | exact Hin].
    + apply negb_false_iff, Z.ltb_lt. lia.
Qed.

Lemma readFromFile_loop_step (fuel : nat) (s : istream) (mt : Z) (d : Dictionary) :
  readFromFile_loop (Datatypes.S fuel) s mt d =
  if (readWord s).1.1 then
    d1 ← add (readWord s).1.2 d;
    if load_cap <? nwords_ d1 then
      d2 ← threshold (mt + 1) d1;
      readFromFile_loop fuel (readWord s).2 (mt + 1) d2
    else readFromFile_loop fuel (readWord s).2 mt d1
  else Ok (d, (readWord s).2).
Proof.
  cbn [readFromFile_loop]. destruct (readWord s) as [[more w] s1]. reflexivity.
Qed.

(** The reading loop keeps the store under the load cap: a purge always
    removes at least the entry that was just added. *)
Lemma readFromFile_loop_counted (fuel : nat) (s s' : istream) (mt : Z)
    (d d' : Dictionary) :
  readFromFile_loop fuel s mt d = Ok (d', s') ->
  1 <= mt -> counted d -> Z.of_nat (length (words_ d)) <= load_cap ->
  counted d' /\ Z.of_nat (length (words_ d')) <= load_cap
  /\ args_ d' = args_ d
  /\ ntokens_ d' <= ntokens_ d + Z.of_nat (length (unread s)).
Proof.
  revert s mt d. induction fuel as [|fuel IH]; intros s mt d Hl Hmt Hc Hcap;
    [discriminate|].
  rewrite readFromFile_loop_step in Hl.
  destruct ((readWord s).1.1) eqn:Hmore.
  - pose proof (readWord_progress s Hmore) as Hprog.
    destruct (add (readWord s).1.2 d) as [d1|] eqn:Hadd; [|discriminate].
    rewrite bind_Ok in Hl.
    destruct (add_counted _ _ _ (readWord_nul_free s) Hc Hadd)
      as (Hc1 & Ht1 & Ha1 & Hlen1).
    destruct (Z.ltb_spec load_cap (nwords_ d1)) as [Hover|Hunder].
    + destruct (threshold (mt + 1) d1) as [d2|] eqn:Hth; [|discriminate].
      rewrite bind_Ok in Hl.
      destruct (threshold_counted _ _ _ Hc1 Hth) as (Hc2 & Ht2 & Ha2 & Hle & Hlt).
      apply IH in Hl; [|lia|exact Hc2|].
      * destruct Hl as (Hc' & Hcap' & Ha' & Ht').
        split; [exact Hc'|split; [exact Hcap'|split; [congruence|lia]]].
      * destruct Hlen1 as [Hsame|[Hgrow Hex]]; [|specialize (Hlt ltac:(lia) Hex); lia].
        rewrite (cnt_nwords _ Hc1), Hsame in Hover. lia.
    + apply IH in Hl; [|exact Hmt|exact Hc1|].
      * destruct Hl as (Hc' & Hcap' & Ha' & Ht').
        split; [exact Hc'|split; [exact Hcap'|split; [congruence|lia]]].
      * rewrite <- (cnt_nwords _ Hc1). exact Hunder.
  - inversion Hl; subst.
    split; [exact Hc|split; [exact Hcap|split; [reflexivity|lia]]].
Qed.
End Builder.


(** ** The builder returns

    The index between two turns of the reading loop names stored entries
    and has no more live slots than there are entries; with the store under
    the load cap that leaves an empty slot for every probe. *)
Record indexed (d : Dictionary) : Prop := {
  idx_valid : index_valid (word2int_ d) (length (words_ d));
  idx_size : (size (word2int_ d) <= length (words_ d))%nat
}.

Lemma new_indexed (args : Args) : indexed (new args).
Proof.
  split; cbn; [apply index_valid_empty | rewrite map_size_empty; lia].
Qed.

Lemma indexed_free (d : Dictionary) :
  indexed d -> Z.of_nat (length (words_ d)) < MAX_VOCAB_SIZE ->
  exists e, 0 <= e < MAX_VOCAB_SIZE /\ slot_at (word2int_ d) e = -1.
Proof.
  intros [_ Hs] Hlen. apply free_slot. lia.
Qed.

Lemma add_returns (w : string) (d : Dictionary) :
  nwords_ d = Z.of_nat (length (words_ d)) -> indexed d ->
  Z.of_nat (length (words_ d)) < MAX_VOCAB_SIZE ->
  exists d', add w d = Ok d' /\ indexed d'.
Proof.
  intros Hn Hi Hlen. pose proof (indexed_free d Hi Hlen) as Hfree.
  destruct Hi as [Hv Hs].
  destruct (find_stops d w (hash w) Hv Hfree) as (h & Hfind & _ & Hstop).
  unfold add. rewrite find_unfold, Hfind, bind_Ok.
  cbn [set_ntokens word2int_ words_].
  destruct (Z.eqb_spec (slot_at (word2int_ d) h) (-1)) as [Hempty|Hlive].
  - eexists. split; [reflexivity|]. split; cbn.
    + apply index_valid_insert.
      * eapply index_valid_mono; [|exact Hv]. rewrite length_app. lia.
      * rewrite length_app. cbn [length]. lia.
    + rewrite length_app. cbn [length].
      pose proof (map_size_insert h (nwords_ d) (word2int_ d)) as Hins.
      destruct (word2int_ d !! h); unfold id in Hins; lia.
  - destruct Hstop as [Hempty|Hhit]; [contradiction|].
    unfold word_at in Hhit.
    destruct (vec_at (words_ d) (slot_at (word2int_ d) h)) as [e|]; [|discriminate].
    rewrite bind_Ok. eexists. split; [reflexivity|]. split; cbn.
    + rewrite length_insert. exact Hv.
    + rewrite length_insert. exact Hs.
Qed.

Lemma threshold_loop_returns (es : list entry) (d : Dictionary) :
  0 <= nwords_ d ->
  nwords_ d + Z.of_nat (length es) <= Z.of_nat (length (words_ d)) ->
  index_valid (word2int_ d) (length (words_ d)) ->
  Z.of_nat (size (word2int_ d)) + Z.of_nat (length es) < MAX_VOCAB_SIZE ->
  exists d', threshold_loop es d = Ok d'.
Proof.
  revert d. induction es as [|e es IH]; intros d Hn Hroom Hv Hs; [eexists; reflexivity|].
  cbn [length] in Hroom, Hs.
  destruct (find_stops d (word e) (hash (word e)) Hv) as (h & Hfind & _).
  { apply free_slot. lia. }
  rewrite threshold_loop_cons, find_unfold, Hfind, bind_Ok.
  apply IH; cbn.
  - lia.
  - lia.
  - apply index_valid_insert; [exact Hv | lia].
  - pose proof (map_size_insert h (nwords_ d) (word2int_ d)) as Hins.
    destruct (word2int_ d !! h); unfold id in Hins; lia.
Qed.

Section BuilderReturns.
Context `{StdSort}.

Lemma threshold_returns (t : Z) (d : Dictionary) :
  Z.of_nat (length (words_ d)) < MAX_VOCAB_SIZE ->
  exists d', threshold t d = Ok d'.
Proof.
  intros Hlen. unfold threshold. cbv zeta.
  pose proof (Permutation_length (std_sort_perm _ threshold_cmp (words_ d))) as Hp.
  pose proof (length_filter_le (fun e => negb (count e <? t))
                (std_sort threshold_cmp (words_ d))) as Hf.
  apply threshold_loop_returns; cbn.
  - lia.
  - lia.
  - apply index_valid_empty.
  - rewrite map_size_empty. lia.
Qed.

Lemma threshold_indexed (t : Z) (d d' : Dictionary) :
  threshold t d = Ok d' -> indexed d'.
Proof.
  intros Hth.
  destruct (threshold_fields _ _ _ Hth) as (_ & _ & _ & _ & _ & _ & _ & Hv & Hs).
  split; assumption.
Qed.

Lemma readFromFile_loop_returns (fuel : nat) (s : istream) (mt : Z)
    (d : Dictionary) :
  (length (unread s) < fuel)%nat -> 1 <= mt -> counted d -> indexed d ->
  Z.of_nat (length (words_ d)) <= load_cap ->
  exists d' s', readFromFile_loop fuel s mt d = Ok (d', s').
Proof.
  revert s mt d.
  induction fuel as [|fuel IH]; intros s mt d Hf Hmt Hc Hi Hcap; [lia|].
  rewrite readFromFile_loop_step.
  destruct ((readWord s).1.1) eqn:Hmore; [|eauto].
  pose proof (readWord_progress s Hmore) as Hprog.
  destruct (add_returns (readWord s).1.2 d (cnt_nwords _ Hc) Hi) as (d1 & Hadd & Hi1).
  { unfold load_cap, MAX_VOCAB_SIZE in *. lia. }
  destruct (add_counted _ _ _ (readWord_nul_free s) Hc Hadd)
    as (Hc1 & _ & _ & Hlen1).
  rewrite Hadd, bind_Ok.
  destruct (Z.ltb_spec load_cap (nwords_ d1)) as [Hover|Hunder].
  - destruct (threshold_returns (mt + 1) d1) as [d2 Hth].
    { unfold load_cap, MAX_VOCAB_SIZE in *. lia. }
    rewrite Hth, bind_Ok.
    destruct (threshold_counted _ _ _ Hc1 Hth) as (Hc2 & _ & _ & Hle & Hlt).
    apply IH; [lia | lia | exact Hc2 | exact (threshold_indexed _ _ _ Hth) |].
    destruct Hlen1 as [Hsame|[Hgrow Hex]].
    + rewrite (cnt_nwords _ Hc1), Hsame in Hover. lia.
    + specialize (Hlt ltac:(lia) Hex). lia.
  - apply IH; [lia | exact Hmt | exact Hc1 | exact Hi1 |].
    rewrite <- (cnt_nwords _ Hc1). exact Hunder.
Qed.
End BuilderReturns.


Section ReadFromFile.
Context `{StdSort}.

(** [readFromFile] on a fresh dictionary either leaves through
    [exit(EXIT_FAILURE)], with an empty vocabulary, or hands back a
    dictionary that can be queried and saved. *)
Lemma readFromFile_builds (s : istream) (args : Args) :
  int64 (Z.of_nat (length (unread s))) ->
  readFromFile s (new args) = Err ExitFailure
  \/ exists d s',
       readFromFile s (new args) = Ok (d, s')
       /\ persistable d /\ usable d /\ args_ d = args /\ 0 < nwords_ d
       /\ Z.of_nat (length (words_ d)) <= load_cap.
Proof.
  intros Hlen. unfold readFromFile.
  destruct (readFromFile_loop_returns (Datatypes.S (length (unread s))) s 1 (new args))
    as (d1 & s1 & Hloop).
  { lia. }
  { lia. }
  { apply new_counted. }
  { apply new_indexed. }
  { cbn. unfold load_cap. lia. }
  rewrite Hloop, bind_Ok.
  destruct (readFromFile_loop_counted _ _ _ _ _ _ Hloop)
    as (Hc1 & Hcap1 & Ha1 & Ht1).
  { lia. }
  { apply new_counted. }
  { cbn. unfold load_cap. lia. }
  cbn in Ha1, Ht1.
  destruct (threshold_returns (minCount (args_ d1)) d1) as [d2 Hth].
  { unfold load_cap, MAX_VOCAB_SIZE in *. lia. }
  rewrite Hth, bind_Ok.
  destruct (threshold_counted _ _ _ Hc1 Hth) as (Hc2 & Ht2 & Ha2 & Hle & _).
  pose proof (threshold_indexed _ _ _ Hth) as [Hv2 Hs2].
  destruct Hc2 as [Hn2 Htok2 He2 Hps2 Hp2].
  rewrite initTableDiscard_Ok by (rewrite Hn2; lia).
  rewrite bind_Ok. cbn [set_pdiscard nwords_].
  rewrite Hn2, Nat2Z.id, firstn_all.
  destruct (Z.eqb_spec (Z.of_nat (length (words_ d2))) 0) as [Hzero|Hsome];
    [left; reflexivity|].
  right. eexists. eexists. split; [reflexivity|].
  split; [|split; [|split; [|split]]].
  - split; cbn.
    + exact Hn2.
    + unfold load_cap, MAX_VOCAB_SIZE in *. lia.
    + unfold int64 in *. lia.
    + eapply List.Forall_impl; [|exact He2]. cbn. intros e [Hw Hcount].
      split; [exact Hw|]. unfold int64 in *. lia.
    + rewrite Hps2. unfold int64. lia.
    + rewrite Hps2, Hp2, map_size_empty. reflexivity.
    + rewrite Hp2. apply map_Forall_empty.
    + reflexivity.
  - split; cbn.
    + exact Hn2.
    + exact Hv2.
    + apply free_slot. unfold load_cap, MAX_VOCAB_SIZE in *. lia.
    + apply length_map.
  - cbn. congruence.
  - cbn. lia.
  - cbn. lia.
Qed.
End ReadFromFile.


(** ** save, then load, of a dictionary that can be saved *)

Lemma persistable_round_trip (d d0 : Dictionary) :
  persistable d -> args_ d0 = args_ d ->
  exists bytes d' s',
    save d = Ok bytes
    /\ load (stream_of_bytes bytes) d0 = Ok (d', s')
    /\ words_ d' = words_ d /\ nwords_ d' = nwords_ d
    /\ ntokens_ d' = ntokens_ d
    /\ pruneidx_size_ d' = pruneidx_size_ d /\ pruneidx_ d' = pruneidx_ d
    /\ pdiscard_ d' = pdiscard_ d
    /\ unread s' = [].
Proof.
  intros Hp Ha. destruct (load_image d d0 Hp Ha) as [tbl Hl].
  do 3 eexists. split.
  { apply save_image, (pers_nwords d Hp). }
  split; [exact Hl|]. repeat split.
Qed.

(** What [readFromFile] leaves of the scenario's stream. *)
Definition example_rest : istream :=
  Eval vm_compute in
    match @readFromFile insertion_StdSort (open_stream scenario) (new example_args) with
    | Ok (_, s) => s
    | Err _ => open_stream scenario
    end.


(** ** The counter and the vector under add, threshold and load *)

Lemma add_keeps_size (w : string) (d d' : Dictionary) :
  nwords_ d = Z.of_nat (length (words_ d)) -> add w d = Ok d' ->
  nwords_ d' = Z.of_nat (length (words_ d')).
Proof.
  intros Hn Hadd.
  destruct (add_cases _ _ _ Hadd) as (_ & _ & _ & _ & [[Hws Hnw]|(i & e & _ & Hws & Hnw)]).
  - rewrite Hnw, Hws, Hn, length_app. cbn [length]. lia.
  - rewrite Hnw, Hws, Hn, length_insert. reflexivity.
Qed.

Lemma threshold_sets_size `{StdSort} (t : Z) (d d' : Dictionary) :
  threshold t d = Ok d' -> nwords_ d' = Z.of_nat (length (words_ d')).
Proof.
  intros Hth. destruct (threshold_fields _ _ _ Hth) as (_ & Hn & _). exact Hn.
Qed.

Lemma load_entries_fields (n : nat) (i : Z) (s s' : istream) (d d' : Dictionary) :
  load_entries n i s d = Ok (d', s') ->
  length (words_ d') = (length (words_ d) + n)%nat /\ nwords_ d' = nwords_ d.
Proof.
  revert i s d. induction n as [|n IH]; intros i s d Hl.
  - inversion Hl; subst. split; [lia | reflexivity].
  - rewrite load_entries_step in Hl.
    destruct (good s); [|discriminate]. rewrite bind_Ok in Hl.
    destruct (load_word (unread s) EmptyString) as [r|]; [|discriminate].
    rewrite bind_Ok in Hl.
    destruct (read_int 8 (set_unread s r.2)) as [c|]; [|discriminate].
    rewrite bind_Ok in Hl.
    destruct (find (set_words d (words_ d ++ [{| word := r.1; count := c.1 |}])) r.1)
      as [h|]; [|discriminate].
    rewrite bind_Ok in Hl. apply IH in Hl. cbn in Hl.
    rewrite length_app in Hl. cbn [length] in Hl. split; [lia | apply Hl].
Qed.

Lemma initTableDiscard_fields (d d' : Dictionary) :
  initTableDiscard d = Ok d' ->
  0 <= nwords_ d /\ words_ d' = words_ d /\ nwords_ d' = nwords_ d.
Proof.
  unfold initTableDiscard. destruct (Z.ltb_spec (nwords_ d) 0); [discriminate|].
  destruct (mapM _ _) as [tbl|]; [|discriminate].
  rewrite bind_Ok. intros Hd. inversion Hd; subst. cbn. repeat split. assumption.
Qed.

(** A [load] that returns leaves as many entries as its counter says,
    whatever the bytes were. *)
Lemma load_sets_size (s s' : istream) (d d' : Dictionary) :
  load s d = Ok (d', s') -> nwords_ d' = Z.of_nat (length (words_ d')).
Proof.
  unfold load. cbv zeta.
  destruct (read_int 4 s) as [[nw s1]|]; [|discriminate]. rewrite bind_Ok.
  destruct (read_int 8 s1) as [[nt s2]|]; [|discriminate]. rewrite bind_Ok.
  destruct (read_int 8 s2) as [[ps s3]|]; [|discriminate]. rewrite bind_Ok.
  destruct (load_entries _ _ _ _) as [[d2 s4]|] eqn:Hle; [|discriminate].
  rewrite bind_Ok.
  destruct (load_pruneidx _ _ _) as [[m s5]|]; [|discriminate]. rewrite bind_Ok.
  destruct (initTableDiscard _) as [d3|] eqn:Hinit; [|discriminate].
  rewrite bind_Ok. intros Hd. inversion Hd; subst d3 s5.
  apply load_entries_fields in Hle. cbn in Hle. destruct Hle as [Hlen Hnw].
  apply initTableDiscard_fields in Hinit. cbn in Hinit.
  destruct Hinit as (H0 & Hws & Hn). rewrite Hn, Hws, Hlen, Hnw. lia.
Qed.


(** ** find *)

(** C9: in a table with an empty slot (and whose occupied slots name stored
    entries) the probe of [find(w, h)] stops, at an empty slot or at a slot
    whose entry holds [w]; and the dictionary that [readFromFile] builds,
    which it keeps under the load cap, has such a table. *)
Theorem find_terminates :
  (forall (d : Dictionary) (w : string) (h : Z),
      index_valid (word2int_ d) (length (words_ d)) ->
      (exists e, 0 <= e < MAX_VOCAB_SIZE /\ slot_at (word2int_ d) e = -1) ->
      exists id,
        find_h d w h = Ok id /\ 0 <= id < MAX_VOCAB_SIZE
        /\ (slot_at (word2int_ d) id = -1
            \/ word_at d (slot_at (word2int_ d) id) = Ok w))
  /\ (forall (sort : StdSort) (s s0 : istream) (args : Args) (d : Dictionary),
         int64 (Z.of_nat (length (unread s))) ->
         @readFromFile sort s (new args) = Ok (d, s0) ->
         index_valid (word2int_ d) (length (words_ d))
         /\ Z.of_nat (length (words_ d)) <= load_cap
         /\ exists e, 0 <= e < MAX_VOCAB_SIZE /\ slot_at (word2int_ d) e = -1).
Proof.
  split.
  - intros d w h. exact (find_stops d w h).
  - intros sort s s0 args d Hlen Hread.
    destruct (@readFromFile_builds sort s args Hlen)
      as [Hexit|(d1 & s1 & Hbuilt & _ & Hu & _ & _ & Hcap)];
      [rewrite Hexit in Hread; discriminate|].
    rewrite Hbuilt in Hread. inversion Hread; subst d1 s1.
    split; [exact (usable_index d Hu)|]. split; [exact Hcap|].
    exact (usable_free d Hu).
Qed.

Lemma find_terminates_witness :
  (exists id,
      find_h example_dictionary "b" (hash "b") = Ok id /\ 0 <= id < MAX_VOCAB_SIZE
      /\ (slot_at (word2int_ example_dictionary) id = -1
          \/ word_at example_dictionary (slot_at (word2int_ example_dictionary) id)
             = Ok "b"))
  /\ (index_valid (word2int_ example_dictionary) (length (words_ example_dictionary))
      /\ Z.of_nat (length (words_ example_dictionary)) <= load_cap
      /\ exists e, 0 <= e < MAX_VOCAB_SIZE
                   /\ slot_at (word2int_ example_dictionary) e = -1).
Proof.
  split.
  - apply (proj1 find_terminates).
    + exact example_dictionary_valid.
    + exists 0. split; [unfold MAX_VOCAB_SIZE; lia | vm_compute; reflexivity].
  - apply (proj2 find_terminates insertion_StdSort (open_stream scenario)
             example_rest example_args).
    + unfold int64. vm_compute. split; [discriminate | reflexivity].
    + vm_compute. reflexivity.
Defined.

(** ** The index finds every stored word *)

(** Every entry is found where it stands. *)
Definition indexes (d : Dictionary) : Prop :=
  consistent word (word2int_ d) (words_ d) (length (words_ d)).

Lemma getId_found (d : Dictionary) (w : string) (i : Z) :
  getId d w = Ok i <-> found_at word (word2int_ d) (words_ d) w i.
Proof.
  unfold getId, found_at. rewrite find_unfold. unfold find_h.
  change (word_at d) with (stored_word word (words_ d)).
  destruct (probe (word2int_ d) (stored_word word (words_ d)) w (hash w)) as [h|f].
  - rewrite bind_Ok. split.
    + intros Hx. inversion Hx. eauto.
    + intros (h' & Hh & Hs). inversion Hh; subst. reflexivity.
  - rewrite bind_Err. split; [discriminate|]. intros (h' & Hh & _). discriminate.
Qed.

Lemma find_probe (d : Dictionary) (w : string) (h : Z) :
  find d w = Ok h
  <-> probe (word2int_ d) (stored_word word (words_ d)) w (hash w) = Ok h.
Proof.
  rewrite find_unfold. unfold find_h.
  change (word_at d) with (stored_word word (words_ d)). reflexivity.
Qed.

(** The two ways through [add], with the slot that [find] gave. *)
Lemma add_slot_cases (w : string) (d d' : Dictionary) :
  add w d = Ok d' ->
  exists h, find d w = Ok h
    /\ ((slot_at (word2int_ d) h = -1
         /\ words_ d' = words_ d ++ [mkEntry w 1]
         /\ word2int_ d' = <[h := nwords_ d]> (word2int_ d))
        \/ (slot_at (word2int_ d) h <> -1
            /\ word2int_ d' = word2int_ d
            /\ exists e,
                 words_ d !! Z.to_nat (slot_at (word2int_ d) h) = Some e
                 /\ words_ d'
                    = <[Z.to_nat (slot_at (word2int_ d) h)
                        := mkEntry (word e) (count e + 1)]> (words_ d))).
Proof.
  unfold add. destruct (find d w) as [h|]; [|discriminate].
  rewrite bind_Ok. cbn [set_ntokens word2int_ words_].
  destruct (Z.eqb_spec (slot_at (word2int_ d) h) (-1)) as [Hempty|Hlive].
  - intros Hd. inversion Hd; subst; clear Hd. exists h. split; [reflexivity|].
    left. cbn. repeat split. exact Hempty.
  - destruct (vec_at (words_ d) (slot_at (word2int_ d) h)) as [e|] eqn:He; [|discriminate].
    rewrite bind_Ok. intros Hd. inversion Hd; subst; clear Hd.
    exists h. split; [reflexivity|]. right.
    apply vec_at_Ok in He. destruct He as [_ He].
    split; [exact Hlive|]. split; [reflexivity|]. exists e. split; [exact He | reflexivity].
Qed.

Lemma stored_word_bump (ws : list entry) (i : nat) (e : entry) (c : Z) (v : Z) :
  ws !! i = Some e ->
  stored_word word (<[i := mkEntry (word e) c]> ws) v = stored_word word ws v.
Proof.
  intros He. unfold stored_word, vec_at. destruct (Z.ltb_spec v 0); [reflexivity|].
  destruct (decide (Z.to_nat v = i)) as [->|Hne].
  - rewrite list_lookup_insert_eq by (eapply lookup_lt_Some, He).
    rewrite He. reflexivity.
  - rewrite list_lookup_insert_ne by congruence. reflexivity.
Qed.

Lemma add_indexes (w : string) (d d' : Dictionary) :
  nwords_ d = Z.of_nat (length (words_ d)) ->
  index_valid (word2int_ d) (length (words_ d)) ->
  indexes d -> add w d = Ok d' -> indexes d'.
Proof.
  intros Hn Hv Hc Hadd. unfold indexes.
  destruct (add_slot_cases _ _ _ Hadd)
    as (h & Hfind & [(Hempty & Hws & Htbl)|(Hlive & Htbl & e & He & Hws)]).
  - rewrite Hws, Htbl, Hn, length_app. cbn [length].
    rewrite Nat.add_1_r.
    apply (proj1 (find_probe _ _ _)) in Hfind.
    apply (consistent_insert word (word2int_ d) (words_ d) (words_ d) _ _ h
             (mkEntry w 1)); try assumption.
    + intros i Hi. apply lookup_app_l. exact Hi.
    + reflexivity.
    + apply list_lookup_middle. reflexivity.
  - rewrite Hws, Htbl, length_insert.
    apply (consistent_same_words word _ (words_ d)); [|exact Hc].
    intros v. apply stored_word_bump. exact He.
Qed.

Lemma threshold_loop_indexes (es : list entry) (d d' : Dictionary) (n : nat) :
  threshold_loop es d = Ok d' ->
  NoDup (map word (words_ d)) ->
  nwords_ d = Z.of_nat n -> drop n (words_ d) = es ->
  index_valid (word2int_ d) n ->
  consistent word (word2int_ d) (words_ d) n ->
  indexes d'.
Proof.
  revert d n. induction es as [|e es IH]; intros d n Hl Hnd Hn Hdrop Hv Hc.
  - inversion Hl; subst d'. intros i e He Hi.
    apply Hc; [|exact Hi].
    destruct (Nat.lt_ge_cases i n) as [Hlt|Hge]; [exact Hlt|].
    replace i with (n + (i - n))%nat in Hi by lia.
    rewrite <- lookup_drop, Hdrop in Hi. discriminate.
  - rewrite threshold_loop_cons in Hl.
    destruct (find d (word e)) as [h|] eqn:Hfind; [|discriminate].
    rewrite bind_Ok in Hl. apply (proj1 (find_probe _ _ _)) in Hfind.
    apply drop_cons_lookup in Hdrop. destruct Hdrop as [Hat Hdrop].
    pose proof (probe_new_word word _ _ _ _ _ Hv Hnd Hat Hfind) as Hempty.
    apply (IH _ (Datatypes.S n)) in Hl; [exact Hl | | | | |]; cbn.
    + exact Hnd.
    + lia.
    + exact Hdrop.
    + rewrite Hn. apply index_valid_insert; [|lia].
      eapply index_valid_mono; [|exact Hv]. lia.
    + rewrite Hn.
      apply (consistent_insert word _ (words_ d) (words_ d) _ _ h e); auto.
Qed.

Section BuilderIndex.
Context `{StdSort}.

Lemma threshold_indexes (t : Z) (d d' : Dictionary) :
  NoDup (map word (words_ d)) -> threshold t d = Ok d' -> indexes d'.
Proof.
  intros Hnd. unfold threshold. intros Hl.
  apply (threshold_loop_indexes _ _ _ 0%nat) in Hl; [exact Hl | | | | |]; cbn.
  - apply NoDup_map_sort_filter, Hnd.
  - reflexivity.
  - reflexivity.
  - apply index_valid_empty.
  - intros i e Hi. lia.
Qed.

Lemma readFromFile_loop_indexes (fuel : nat) (s s' : istream) (mt : Z)
    (d d' : Dictionary) :
  readFromFile_loop fuel s mt d = Ok (d', s') ->
  1 <= mt -> counted d -> indexed d -> indexes d ->
  Z.of_nat (length (words_ d)) <= load_cap ->
  indexes d'.
Proof.
  revert s mt d. induction fuel as [|fuel IH]; intros s mt d Hl Hmt Hc Hi Hx Hcap;
    [discriminate|].
  rewrite readFromFile_loop_step in Hl.
  destruct ((readWord s).1.1) eqn:Hmore; [|inversion Hl; subst; exact Hx].
  destruct (add_returns (readWord s).1.2 d (cnt_nwords _ Hc) Hi) as (d1 & Hadd & Hi1).
  { unfold load_cap, MAX_VOCAB_SIZE in *. lia. }
  destruct (add_counted _ _ _ (readWord_nul_free s) Hc Hadd)
    as (Hc1 & _ & _ & Hlen1).
  pose proof (add_indexes _ _ _ (cnt_nwords _ Hc) (idx_valid _ Hi) Hx Hadd) as Hx1.
  rewrite Hadd, bind_Ok in Hl.
  destruct (Z.ltb_spec load_cap (nwords_ d1)) as [Hover|Hunder].
  - destruct (threshold (mt + 1) d1) as [d2|] eqn:Hth; [|discriminate].
    rewrite bind_Ok in Hl.
    destruct (threshold_counted _ _ _ Hc1 Hth) as (Hc2 & _ & _ & Hle & Hlt).
    apply IH in Hl; [exact Hl | lia | exact Hc2 | exact (threshold_indexed _ _ _ Hth) | |].
    + apply (threshold_indexes _ _ _ (consistent_NoDup word _ _ Hx1) Hth).
    + destruct Hlen1 as [Hsame|[Hgrow Hex]].
      * rewrite (cnt_nwords _ Hc1), Hsame in Hover. lia.
      * specialize (Hlt ltac:(lia) Hex). lia.
  - apply IH in Hl; [exact Hl | exact Hmt | exact Hc1 | exact Hi1 | exact Hx1 |].
    rewrite <- (cnt_nwords _ Hc1). exact Hunder.
Qed.

(** In the dictionary that [readFromFile] returns every entry is found
    where it stands. *)
Lemma readFromFile_indexes (s s' : istream) (args : Args) (d : Dictionary) :
  readFromFile s (new args) = Ok (d, s') -> indexes d.
Proof.
  unfold readFromFile.
  destruct (readFromFile_loop _ s 1 (new args)) as [[d1 s1]|] eqn:Hloop; [|discriminate].
  rewrite bind_Ok.
  assert (Hx1 : indexes d1).
  { apply (readFromFile_loop_indexes _ _ _ _ _ _ Hloop).
    - lia.
    - apply new_counted.
    - apply new_indexed.
    - intros i e Hi He. cbn in Hi. lia.
    - cbn. unfold load_cap. lia. }
  destruct (threshold (minCount (args_ d1)) d1) as [d2|] eqn:Hth; [|discriminate].
  rewrite bind_Ok.
  pose proof (threshold_indexes _ _ _ (consistent_NoDup word _ _ Hx1) Hth) as Hx2.
  destruct (initTableDiscard d2) as [d3|] eqn:Hinit; [|discriminate].
  rewrite bind_Ok. destruct (nwords_ d3 =? 0); [discriminate|].
  intros Hd. inversion Hd; subst d3 s1.
  unfold initTableDiscard in Hinit. destruct (nwords_ d2 <? 0); [discriminate|].
  destruct (mapM _ _) as [tbl|]; [|discriminate].
  rewrite bind_Ok in Hinit. inversion Hinit; subst d. exact Hx2.
Qed.
End BuilderIndex.

(** ** getId and getWord *)

Lemma getWord_Ok (d : Dictionary) (id : Z) (w : string) :
  getWord d id = Ok w
  <-> 0 <= id < nwords_ d
      /\ exists e, words_ d !! Z.to_nat id = Some e /\ word e = w.
Proof.
  unfold getWord, assert.
  destruct (Z.leb_spec 0 id) as [H0|H0]; [|rewrite bind_Err; split; [discriminate|lia]].
  rewrite bind_Ok.
  destruct (Z.ltb_spec id (nwords_ d)) as [H1|H1];
    [|rewrite bind_Err; split; [discriminate|lia]].
  rewrite bind_Ok.
  destruct (vec_at (words_ d) id) as [e|f] eqn:He.
  - rewrite bind_Ok. apply vec_at_Ok in He. destruct He as [_ He]. split.
    + intros Hx. inversion Hx. split; [lia|]. eauto.
    + intros (_ & e' & He' & Hw). rewrite He in He'. inversion He'; subst. reflexivity.
  - rewrite bind_Err. split; [discriminate|]. intros (_ & e' & He' & _).
    assert (Hv : vec_at (words_ d) id = Ok e') by (apply vec_at_Ok; split; [lia | exact He']).
    rewrite He in Hv. discriminate.
Qed.

(** A dictionary whose index is in step with its entries. *)
Record well_formed (d : Dictionary) : Prop := {
  wf_nwords : nwords_ d = Z.of_nat (length (words_ d));
  wf_valid : index_valid (word2int_ d) (length (words_ d));
  wf_size : (size (word2int_ d) <= length (words_ d))%nat;
  wf_room : Z.of_nat (length (words_ d)) < MAX_VOCAB_SIZE;
  wf_indexes : indexes d
}.

Lemma well_formed_free (d : Dictionary) :
  well_formed d ->
  exists e, 0 <= e < MAX_VOCAB_SIZE /\ slot_at (word2int_ d) e = -1.
Proof. intros Hwf. apply free_slot. pose proof (wf_size d Hwf). pose proof (wf_room d Hwf). lia. Qed.

Lemma getId_total (d : Dictionary) (w : string) :
  well_formed d -> exists id, getId d w = Ok id.
Proof.
  intros Hwf.
  destruct (probe_on_entries word (words_ d) (word2int_ d) w (hash w)
              (wf_valid d Hwf) (well_formed_free d Hwf)) as (h & Hp & _).
  exists (slot_at (word2int_ d) h). apply getId_found. exists h. split; [exact Hp | reflexivity].
Qed.

Lemma getId_sound (d : Dictionary) (w : string) (id : Z) :
  nwords_ d = Z.of_nat (length (words_ d)) ->
  index_valid (word2int_ d) (length (words_ d)) ->
  getId d w = Ok id ->
  id = -1 \/ (0 <= id < nwords_ d /\ getWord d id = Ok w).
Proof.
  intros Hn Hv Hg. apply getId_found in Hg.
  destruct (Z.eq_dec id (-1)) as [Heq|Hne]; [left; exact Heq | right].
  destruct (found_at_sound word _ _ _ _ Hg Hne) as (H0 & e & He & Hw).
  assert (Hlt : 0 <= id < nwords_ d).
  { rewrite Hn. apply lookup_lt_Some in He. lia. }
  split; [exact Hlt|]. apply getWord_Ok. split; [exact Hlt|]. eauto.
Qed.

Lemma getId_complete (d : Dictionary) (i : nat) (e : entry) :
  well_formed d -> words_ d !! i = Some e -> getId d (word e) = Ok (Z.of_nat i).
Proof.
  intros Hwf He. apply getId_found. apply (wf_indexes d Hwf); [|exact He].
  eapply lookup_lt_Some, He.
Qed.

Lemma getId_missing (d : Dictionary) (w : string) :
  well_formed d -> (forall e, e ∈ words_ d -> word e <> w) -> getId d w = Ok (-1).
Proof.
  intros Hwf Hnot. apply getId_found.
  apply found_at_missing; [exact (wf_valid d Hwf) | exact (well_formed_free d Hwf) | exact Hnot].
Qed.

Lemma new_well_formed (args : Args) : well_formed (new args).
Proof.
  split; cbn.
  - reflexivity.
  - apply index_valid_empty.
  - rewrite map_size_empty. lia.
  - unfold MAX_VOCAB_SIZE. lia.
  - intros i e Hi. cbn in Hi. lia.
Qed.

Lemma add_well_formed (w : string) (d d' : Dictionary) :
  well_formed d -> Z.of_nat (length (words_ d)) + 1 < MAX_VOCAB_SIZE ->
  add w d = Ok d' -> well_formed d'.
Proof.
  intros Hwf Hroom Hadd.
  pose proof (add_indexes _ _ _ (wf_nwords d Hwf) (wf_valid d Hwf) (wf_indexes d Hwf) Hadd)
    as Hx.
  pose proof (add_keeps_size _ _ _ (wf_nwords d Hwf) Hadd) as Hn.
  destruct (add_returns w d (wf_nwords d Hwf)) as (d1 & Hadd1 & [Hv Hs]).
  { split; [exact (wf_valid d Hwf) | exact (wf_size d Hwf)]. }
  { lia. }
  rewrite Hadd in Hadd1. inversion Hadd1; subst d1.
  split; try assumption.
  destruct (add_cases _ _ _ Hadd) as (_ & _ & _ & _ & [[Hws _]|(i & e & _ & Hws & _)]);
    rewrite Hws, ?length_app, ?length_insert; cbn [length]; lia.
Qed.

Lemma initTableDiscard_frame (d d' : Dictionary) :
  initTableDiscard d = Ok d' -> exists tbl, d' = set_pdiscard d tbl.
Proof.
  unfold initTableDiscard. destruct (nwords_ d <? 0); [discriminate|].
  destruct (mapM _ _) as [tbl|]; [|discriminate].
  rewrite bind_Ok. intros Hd. inversion Hd. eauto.
Qed.

Section BuiltWellFormed.
Context `{StdSort}.

Lemma threshold_well_formed (t : Z) (d d' : Dictionary) :
  NoDup (map word (words_ d)) -> Z.of_nat (length (words_ d)) < MAX_VOCAB_SIZE ->
  threshold t d = Ok d' -> well_formed d'.
Proof.
  intros Hnd Hroom Hth.
  destruct (threshold_fields _ _ _ Hth) as (Hws & Hn & _ & _ & _ & _ & _ & Hv & Hs).
  split; try assumption.
  - rewrite Hws.
    pose proof (length_filter_le (fun e => negb (count e <? t))
                  (std_sort threshold_cmp (words_ d))) as Hf.
    pose proof (Permutation_length (std_sort_perm _ threshold_cmp (words_ d))) as Hp.
    lia.
  - apply (threshold_indexes _ _ _ Hnd Hth).
Qed.

Lemma readFromFile_well_formed (s s' : istream) (args : Args) (d : Dictionary) :
  readFromFile s (new args) = Ok (d, s') ->
  well_formed d /\ Z.of_nat (length (words_ d)) <= load_cap.
Proof.
  intros Hread. pose proof (readFromFile_indexes _ _ _ _ Hread) as Hx.
  revert Hread. unfold readFromFile.
  destruct (readFromFile_loop _ s 1 (new args)) as [[d1 s1]|] eqn:Hloop; [|discriminate].
  rewrite bind_Ok.
  destruct (readFromFile_loop_counted _ _ _ _ _ _ Hloop)
    as (Hc1 & Hcap1 & _ & _).
  { lia. }
  { apply new_counted. }
  { cbn. unfold load_cap. lia. }
  destruct (threshold (minCount (args_ d1)) d1) as [d2|] eqn:Hth; [|discriminate].
  rewrite bind_Ok.
  destruct (threshold_counted _ _ _ Hc1 Hth) as (_ & _ & _ & Hle & _).
  destruct (threshold_fields _ _ _ Hth) as (_ & Hn & _ & _ & _ & _ & _ & Hv & Hs).
  destruct (initTableDiscard d2) as [d3|] eqn:Hinit; [|discriminate].
  rewrite bind_Ok. destruct (nwords_ d3 =? 0); [discriminate|].
  intros Hd. inversion Hd; subst d3 s1.
  apply initTableDiscard_frame in Hinit. destruct Hinit as [tbl ->].
  split; [split; [| | | |exact Hx]|]; cbn [set_pdiscard nwords_ words_ word2int_];
    try assumption; unfold load_cap, MAX_VOCAB_SIZE in *; lia.
Qed.
End BuiltWellFormed.

(** In a well-formed dictionary [getId] is the position of the word in the
    vector, or [-1] for a word that is not there. *)
Lemma getId_spec (d : Dictionary) (w : string) (i : Z) :
  well_formed d ->
  (getId d w = Ok i
   <-> (i = -1 /\ w ∉ map word (words_ d))
       \/ (0 <= i /\ map word (words_ d) !! Z.to_nat i = Some w)).
Proof.
  intros Hwf. change (map word (words_ d)) with (word <$> words_ d). split.
  - intros Hg.
    destruct (getId_sound d w i (wf_nwords d Hwf) (wf_valid d Hwf) Hg)
      as [->|[Hr Hw]].
    + left. split; [reflexivity|]. intros Hin.
      apply list_elem_of_fmap in Hin. destruct Hin as (e & -> & Hin).
      apply list_elem_of_lookup in Hin. destruct Hin as [j Hj].
      pose proof (getId_complete d j e Hwf Hj) as Hc. rewrite Hg in Hc.
      inversion Hc. lia.
    + right. split; [lia|]. apply getWord_Ok in Hw.
      destruct Hw as (_ & e & He & Hw). rewrite list_lookup_fmap, He. cbn. congruence.
  - intros [[-> Hnot]|[H0 Hl]].
    + apply getId_missing; [exact Hwf|]. intros e He Hw. apply Hnot.
      apply list_elem_of_fmap. exists e. split; [congruence | exact He].
    + rewrite list_lookup_fmap in Hl.
      destruct (words_ d !! Z.to_nat i) as [e|] eqn:He; [|discriminate].
      cbn in Hl. inversion Hl; subst w.
      rewrite (getId_complete d _ e Hwf He). rewrite Z2Nat.id by exact H0. reflexivity.
Qed.

(** [add] appends the word if it is new and leaves the words alone
    otherwise. *)
Lemma add_words (w : string) (d d' : Dictionary) :
  well_formed d -> add w d = Ok d' ->
  map word (words_ d')
  = if decide (w ∈ map word (words_ d)) then map word (words_ d)
    else map word (words_ d) ++ [w].
Proof.
  intros Hwf Hadd.
  destruct (add_slot_cases _ _ _ Hadd)
    as (h & Hfind & [(Hempty & Hws & _)|(Hlive & _ & e & He & Hws)]).
  - assert (Hg : getId d w = Ok (-1)).
    { unfold getId. rewrite Hfind, bind_Ok, Hempty. reflexivity. }
    apply (getId_spec d w _ Hwf) in Hg. destruct Hg as [[_ Hnot]|[H0 _]]; [|lia].
    destruct (decide (w ∈ map word (words_ d))) as [Hin|_]; [contradiction|].
    rewrite Hws, map_app. reflexivity.
  - assert (Hg : getId d w = Ok (slot_at (word2int_ d) h)).
    { unfold getId. rewrite Hfind, bind_Ok. reflexivity. }
    apply (getId_spec d w _ Hwf) in Hg. destruct Hg as [[Hm _]|[H0 Hl]]; [contradiction|].
    change (map word (words_ d)) with (word <$> words_ d) in *.
    destruct (decide (w ∈ word <$> words_ d)) as [_|Hnot].
    + rewrite Hws. change (map word ?l) with (word <$> l).
      rewrite list_fmap_insert. cbn [word].
      apply list_insert_id. rewrite list_lookup_fmap, He. reflexivity.
    + elim Hnot. eapply list_elem_of_lookup_2, Hl.
Qed.

Lemma add_getId (w : string) (d d' : Dictionary) :
  well_formed d -> Z.of_nat (length (words_ d)) + 1 < MAX_VOCAB_SIZE ->
  add w d = Ok d' ->
  (exists id,
      getId d' w = Ok id /\ 0 <= id < nwords_ d' /\ getWord d' id = Ok w
      /\ (getId d w = Ok (-1) -> id = nwords_ d)
      /\ (forall i, getId d w = Ok i -> i <> -1 -> id = i))
  /\ (forall w', w' <> w -> getId d' w' = getId d w').
Proof.
  intros Hwf Hroom Hadd.
  pose proof (add_well_formed _ _ _ Hwf Hroom Hadd) as Hwf'.
  pose proof (add_words _ _ _ Hwf Hadd) as Hws.
  pose proof (getId_spec d' w) as Hspec'. pose proof (getId_spec d w) as Hspec.
  change (map word (words_ d)) with (word <$> words_ d) in *.
  change (map word (words_ d')) with (word <$> words_ d') in *.
  split.
  - destruct (getId_total d' w Hwf') as [id Hid]. exists id.
    split; [exact Hid|].
    pose proof (proj1 (Hspec' id Hwf') Hid) as Hcase.
    assert (Hin : w ∈ word <$> words_ d').
    { rewrite Hws. destruct (decide (w ∈ word <$> words_ d)) as [Hin|_]; [exact Hin|].
      apply elem_of_app. right. apply list_elem_of_singleton. reflexivity. }
    destruct Hcase as [[_ Hnot]|[H0 Hl]]; [contradiction|].
    destruct (getId_sound d' w id (wf_nwords d' Hwf') (wf_valid d' Hwf') Hid)
      as [->|[Hr Hw]]; [lia|].
    split; [exact Hr|]. split; [exact Hw|]. split.
    + intros Hold. apply (Hspec _ Hwf) in Hold.
      destruct Hold as [[_ Hnot]|[Hc _]]; [|lia].
      rewrite Hws in Hl. destruct (decide (w ∈ word <$> words_ d)) as [|_]; [contradiction|].
      rewrite (wf_nwords d Hwf).
      destruct (Nat.lt_ge_cases (Z.to_nat id) (length (word <$> words_ d))) as [Hlt|Hge].
      * rewrite lookup_app_l in Hl by exact Hlt. elim Hnot.
        eapply list_elem_of_lookup_2, Hl.
      * pose proof (lookup_lt_Some _ _ _ Hl) as Hb.
        rewrite length_app, length_fmap in *. cbn [length] in Hb. lia.
    + intros i Hold Hne. apply (Hspec _ Hwf) in Hold.
      destruct Hold as [[-> _]|[Hc Hli]]; [contradiction|].
      rewrite Hws in Hl.
      destruct (decide (w ∈ word <$> words_ d)) as [_|Hnot];
        [|elim Hnot; eapply list_elem_of_lookup_2, Hli].
      pose proof (consistent_NoDup word _ _ (wf_indexes d Hwf)) as Hnd.
      change (map word (words_ d)) with (word <$> words_ d) in Hnd.
      rewrite NoDup_alt in Hnd. pose proof (Hnd _ _ _ Hl Hli). lia.
  - intros w' Hne.
    destruct (getId_total d w' Hwf) as [j Hj]. rewrite Hj.
    apply (getId_spec d' w' j Hwf').
    apply (getId_spec d w' j Hwf) in Hj.
    change (map word (words_ d)) with (word <$> words_ d) in *.
    change (map word (words_ d')) with (word <$> words_ d') in *.
    rewrite Hws.
    destruct (decide (w ∈ word <$> words_ d)) as [_|_]; [exact Hj|].
    destruct Hj as [[-> Hnot]|[H0 Hl]].
    + left. split; [reflexivity|]. intros Hin. apply elem_of_app in Hin.
      destruct Hin as [Hin|Hin]; [contradiction|].
      apply list_elem_of_singleton in Hin. contradiction.
    + right. split; [exact H0|]. rewrite lookup_app_l; [exact Hl|].
      eapply lookup_lt_Some, Hl.
Qed.

(** ** The index that load rebuilds *)

Lemma getId_same_words (d d' : Dictionary) (w : string) :
  well_formed d -> well_formed d' ->
  map word (words_ d') = map word (words_ d) ->
  getId d' w = getId d w.
Proof.
  intros Hwf Hwf' Hws. destruct (getId_total d w Hwf) as [i Hi]. rewrite Hi.
  apply (getId_spec d' w i Hwf'). rewrite Hws. apply (getId_spec d w i Hwf), Hi.
Qed.

Lemma load_entries_indexes (n : nat) (i : Z) (s s' : istream) (d d' : Dictionary) :
  load_entries n i s d = Ok (d', s') ->
  exists rest,
    words_ d' = words_ d ++ rest /\ length rest = n
    /\ (i = Z.of_nat (length (words_ d)) ->
        index_valid (word2int_ d) (length (words_ d)) ->
        (size (word2int_ d) <= length (words_ d))%nat ->
        indexes d ->
        NoDup (map word (words_ d')) ->
        index_valid (word2int_ d') (length (words_ d'))
        /\ (size (word2int_ d') <= length (words_ d'))%nat
        /\ indexes d').
Proof.
  revert i s d. induction n as [|n IH]; intros i s d Hl.
  - inversion Hl; subst. exists []. rewrite app_nil_r. auto.
  - rewrite load_entries_step in Hl.
    destruct (good s); [|discriminate]. rewrite bind_Ok in Hl.
    destruct (load_word (unread s) EmptyString) as [r|]; [|discriminate].
    rewrite bind_Ok in Hl.
    destruct (read_int 8 (set_unread s r.2)) as [c|]; [|discriminate].
    rewrite bind_Ok in Hl.
    set (e := {| word := r.1; count := c.1 |}) in *.
    destruct (find (set_words d (words_ d ++ [e])) r.1) as [h|] eqn:Hfind;
      [|discriminate].
    rewrite bind_Ok in Hl. apply IH in Hl.
    destruct Hl as (rest & Hws & Hlen & Hrest). cbn [set_word2int set_words words_] in Hws.
    exists (e :: rest). rewrite <- app_assoc in Hws. split; [exact Hws|].
    split; [cbn [length]; lia|].
    intros Hi Hv Hs Hx Hnd.
    apply (proj1 (find_probe _ _ _)) in Hfind. cbn [set_words word2int_ words_] in Hfind.
    assert (Hnd1 : NoDup (map word (words_ d ++ [e]))).
    { rewrite Hws, app_assoc, map_app in Hnd. apply NoDup_app in Hnd. apply Hnd. }
    assert (Hat : (words_ d ++ [e]) !! length (words_ d) = Some e)
      by (apply list_lookup_middle; reflexivity).
    pose proof (probe_new_word word _ _ _ _ e Hv Hnd1 Hat Hfind) as Hempty.
    apply Hrest; cbn [set_word2int set_words words_ word2int_];
      rewrite ?length_app; cbn [length]; rewrite ?Nat.add_1_r.
    + lia.
    + rewrite Hi. apply index_valid_insert; [|lia].
      eapply index_valid_mono; [|exact Hv]. lia.
    + pose proof (map_size_insert h i (word2int_ d)) as Hins.
      destruct (word2int_ d !! h); unfold id in Hins; lia.
    + unfold indexes. cbn [set_word2int set_words words_ word2int_].
      rewrite length_app. cbn [length]. rewrite Nat.add_1_r, Hi.
      apply (consistent_insert word _ (words_ d) (words_ d ++ [e]) _ _ h e);
        try assumption.
      * intros j Hj. apply lookup_app_l. exact Hj.
      * intros j Hj. apply lookup_app_l. exact Hj.
    + exact Hnd.
Qed.

(** A [load] that returns a dictionary of distinct words returns it
    well-formed, whatever it held before. *)
Lemma load_well_formed (s s' : istream) (d d' : Dictionary) :
  load s d = Ok (d', s') ->
  NoDup (map word (words_ d')) ->
  Z.of_nat (length (words_ d')) < MAX_VOCAB_SIZE ->
  well_formed d'.
Proof.
  intros Hload. pose proof (load_sets_size _ _ _ _ Hload) as Hn. revert Hload.
  unfold load. cbv zeta.
  destruct (read_int 4 s) as [[nw s1]|]; [|discriminate]. rewrite bind_Ok.
  destruct (read_int 8 s1) as [[nt s2]|]; [|discriminate]. rewrite bind_Ok.
  destruct (read_int 8 s2) as [[ps s3]|]; [|discriminate]. rewrite bind_Ok.
  destruct (load_entries _ _ _ _) as [[d2 s4]|] eqn:Hle; [|discriminate].
  rewrite bind_Ok.
  destruct (load_pruneidx _ _ _) as [[m s5]|]; [|discriminate]. rewrite bind_Ok.
  destruct (initTableDiscard _) as [d3|] eqn:Hinit; [|discriminate].
  rewrite bind_Ok. intros Hd. inversion Hd; subst d3 s5.
  apply initTableDiscard_frame in Hinit. destruct Hinit as [tbl ->].
  cbn [set_pdiscard set_pruneidx words_ nwords_] in *.
  intros Hnd Hroom.
  apply load_entries_indexes in Hle. destruct Hle as (rest & _ & _ & Hrest).
  destruct Hrest as (Hv & Hs & Hx).
  { reflexivity. }
  { apply index_valid_empty. }
  { cbn. rewrite map_size_empty. lia. }
  { intros j e Hj. cbn in Hj. lia. }
  { exact Hnd. }
  split; cbn [set_pdiscard set_pruneidx words_ nwords_ word2int_]; assumption.
Qed.

(** ** The index that prune rebuilds *)

Section PruneIndex.
Context `{StdSort}.

Lemma prune_indexes (idx : list Z) (d : Dictionary) :
  nwords_ d <= Z.of_nat (length (words_ d)) ->
  Z.of_nat (length (words_ d)) < MAX_VOCAB_SIZE ->
  Forall (fun x => 0 <= x) (List.filter (fun x => x <? nwords_ d) idx) ->
  NoDup (List.filter (fun x => x <? nwords_ d) idx) ->
  NoDup (map word (words_ d)) ->
  exists d',
    prune idx d = Ok (d', kept_ids idx (nwords_ d))
    /\ nwords_ d' = Z.of_nat (length (kept_ids idx (nwords_ d)))
    /\ length (words_ d') = length (words_ d)
    /\ (length (kept_ids idx (nwords_ d)) <= length (words_ d))%nat
    /\ index_valid (word2int_ d') (length (kept_ids idx (nwords_ d)))
    /\ consistent word (word2int_ d') (words_ d') (length (kept_ids idx (nwords_ d)))
    /\ (size (word2int_ d') <= length (kept_ids idx (nwords_ d)))%nat.
Proof.
  intros Hn Hcap Hpos Hnd Hdist.
  assert (Hcap' : Z.of_nat (length (words_ d)) <= MAX_VOCAB_SIZE) by lia.
  assert (Hinc : forall k1 k2 p1 p2, (k1 < k2)%nat ->
            kept_positions idx (nwords_ d) !! k1 = Some p1 ->
            kept_positions idx (nwords_ d) !! k2 = Some p2 -> (p1 < p2)%nat).
  { apply kept_positions_increasing; assumption. }
  assert (Hbnd : forall k p, kept_positions idx (nwords_ d) !! k = Some p ->
            (p < length (words_ d))%nat).
  { intros k p Hk. pose proof (kept_positions_bounded idx _ Hpos k p Hk). lia. }
  assert (Hkeep : forall i j ws tbl, (i < length (words_ d))%nat ->
            compact_inv (words_ d) (kept_positions idx (nwords_ d)) i j ws tbl ->
            prune_keep (kept_ids idx (nwords_ d)) ws i j
            = Ok (bool_decide (kept_positions idx (nwords_ d) !! j = Some i))).
  { intros i j ws tbl _ _. unfold prune_keep. f_equal. apply bool_decide_ext.
    symmetry. apply kept_positions_lookup. exact Hpos. }
  destruct (compact_loop_spec word (prune_keep (kept_ids idx (nwords_ d)))
              (words_ d) (kept_positions idx (nwords_ d)) Hcap' Hinc Hbnd Hkeep)
    as (ws' & tbl' & Hloop & Hlen & Hkept & Hvalid).
  destruct (compact_loop_consistent word _ _ _ Hdist Hinc Hbnd Hkeep _ _ _ Hloop)
    as (Hv & Hc & Hs).
  rewrite kept_positions_length in Hloop, Hv, Hc, Hs.
  rewrite prune_unfold, Hloop, bind_Ok. eexists. split; [reflexivity|].
  cbn [set_nwords set_word2int set_words set_pruneidx_size nwords_ words_ word2int_
       fst snd].
  split; [reflexivity|]. split; [exact Hlen|]. split; [|auto].
  rewrite <- (kept_positions_length idx (nwords_ d)).
  destruct (Nat.le_gt_cases (length (kept_positions idx (nwords_ d)))
              (length (words_ d))) as [Hle|Hgt]; [exact Hle|].
  destruct (lookup_lt_is_Some_2 (kept_positions idx (nwords_ d)) (length (words_ d)))
    as [p Hp]; [lia|].
  assert (Hmono : forall k q, kept_positions idx (nwords_ d) !! k = Some q -> (k <= q)%nat).
  { induction k as [|k IHk]; intros q Hq; [lia|].
    destruct (lookup_lt_is_Some_2 (kept_positions idx (nwords_ d)) k) as [q' Hq'].
    { apply lookup_lt_Some in Hq. lia. }
    pose proof (IHk q' Hq'). pose proof (Hinc k (Datatypes.S k) q' q ltac:(lia) Hq' Hq).
    lia. }
  pose proof (Hmono _ _ Hp). pose proof (Hbnd _ _ Hp). lia.
Qed.

(** After [prune], every kept entry is found at its new id, and [getId]
    hands out nothing but [-1] or the id of the word asked for. *)
Lemma prune_getId (idx : list Z) (d : Dictionary) :
  well_formed d ->
  Forall (fun x => 0 <= x) (List.filter (fun x => x <? nwords_ d) idx) ->
  NoDup (List.filter (fun x => x <? nwords_ d) idx) ->
  exists d' kept,
    prune idx d = Ok (d', kept)
    /\ (forall k e, 0 <= k < nwords_ d' -> words_ d' !! Z.to_nat k = Some e ->
          getId d' (word e) = Ok k)
    /\ (forall w, exists id,
          getId d' w = Ok id
          /\ (id = -1 \/ (0 <= id < nwords_ d' /\ getWord d' id = Ok w))).
Proof.
  intros Hwf Hpos Hnd.
  destruct (prune_indexes idx d) as (d' & Hp & Hnw & Hlen & Hle & Hv & Hc & Hs);
    try assumption.
  { rewrite (wf_nwords d Hwf). lia. }
  { exact (wf_room d Hwf). }
  { exact (consistent_NoDup word _ _ (wf_indexes d Hwf)). }
  exists d', (kept_ids idx (nwords_ d)). split; [exact Hp|]. split.
  - intros k e Hk He. apply getId_found.
    rewrite <- (Z2Nat.id k) by lia. apply Hc; [lia | exact He].
  - intros w.
    destruct (probe_on_sparse word (words_ d') (word2int_ d') w (hash w))
      as (h & Hh & _).
    { eapply index_valid_mono; [|exact Hv]. lia. }
    { pose proof (wf_room d Hwf). lia. }
    assert (Hf : found_at word (word2int_ d') (words_ d') w (slot_at (word2int_ d') h))
      by (exists h; split; [exact Hh | reflexivity]).
    exists (slot_at (word2int_ d') h). split; [apply getId_found, Hf|].
    destruct (Z.eq_dec (slot_at (word2int_ d') h) (-1)) as [Heq|Hne]; [left; exact Heq|].
    right. pose proof (index_valid_slot _ _ h Hv Hne) as Hr.
    destruct (found_at_sound word _ _ _ _ Hf Hne) as (_ & e & He & Hw).
    assert (Hr' : 0 <= slot_at (word2int_ d') h < nwords_ d') by lia.
    split; [exact Hr'|]. apply getWord_Ok. split; [exact Hr'|]. eauto.
Qed.
End PruneIndex.

Lemma example_dictionary_well_formed : well_formed example_dictionary.
Proof.
  apply (@readFromFile_well_formed insertion_StdSort (open_stream scenario)
           example_rest example_args).
  vm_compute. reflexivity.
Qed.

(** ** The counts of a corpus that never fills the table *)

(** The entries tally with the tokens seen so far. *)
Record tally (d : Dictionary) (seen : list string) : Prop := {
  tally_ntokens : ntokens_ d = Z.of_nat (length seen);
  tally_counts : forall e, e ∈ words_ d -> count e = occ (word e) seen;
  tally_seen : forall w, w ∈ seen <-> w ∈ map word (words_ d)
}.

Lemma new_tally (args : Args) : tally (new args) [].
Proof.
  split; cbn.
  - reflexivity.
  - intros e He. apply elem_of_nil in He. contradiction.
  - intros w. reflexivity.
Qed.

Lemma add_tally (w : string) (d d' : Dictionary) (seen : list string) :
  well_formed d -> tally d seen -> add w d = Ok d' -> tally d' (seen ++ [w]).
Proof.
  intros Hwf [Hnt Hcnt Hseen] Hadd.
  destruct (add_cases _ _ _ Hadd) as (Hnt' & _).
  pose proof (consistent_NoDup word _ _ (wf_indexes d Hwf)) as Hnd.
  change (map word (words_ d)) with (word <$> words_ d) in *.
  destruct (add_slot_cases _ _ _ Hadd)
    as (h & Hfind & [(Hempty & Hws & _)|(Hlive & _ & e & He & Hws)]).
  - assert (Hg : getId d w = Ok (-1)).
    { unfold getId. rewrite Hfind, bind_Ok, Hempty. reflexivity. }
    apply (getId_spec d w _ Hwf) in Hg. destruct Hg as [[_ Hnot]|[H0 _]]; [|lia].
    change (map word (words_ d)) with (word <$> words_ d) in Hnot.
    split.
    + rewrite Hnt', Hnt, length_app. cbn [length]. lia.
    + intros e He. rewrite Hws in He. apply elem_of_app in He.
      rewrite occ_app. destruct He as [He|He].
      * rewrite occ_single_other, (Hcnt e He); [lia|].
        intros ->. apply Hnot. apply list_elem_of_fmap. eauto.
      * apply list_elem_of_singleton in He. subst e. cbn [word count].
        rewrite occ_single_same.
        assert (occ w seen = 0); [|lia].
        pose proof (occ_nonneg w seen). pose proof (occ_pos w seen) as Hp.
        destruct (Z.eq_dec (occ w seen) 0) as [|Hne]; [assumption|].
        elim Hnot. apply Hseen, Hp. lia.
    + intros w'. rewrite Hws. change (map word ?l) with (word <$> l).
      rewrite fmap_app, !elem_of_app, Hseen. cbn. reflexivity.
  - assert (Hg : getId d w = Ok (slot_at (word2int_ d) h)).
    { unfold getId. rewrite Hfind, bind_Ok. reflexivity. }
    apply (getId_spec d w _ Hwf) in Hg. destruct Hg as [[Hm _]|[H0 Hl]]; [contradiction|].
    change (map word (words_ d)) with (word <$> words_ d) in Hl.
    set (i := Z.to_nat (slot_at (word2int_ d) h)) in *.
    assert (Hwe : word e = w).
    { rewrite list_lookup_fmap, He in Hl. cbn in Hl. congruence. }
    assert (Hwords : word <$> words_ d' = word <$> words_ d).
    { rewrite Hws, list_fmap_insert. cbn [word].
      apply list_insert_id. rewrite list_lookup_fmap, He. reflexivity. }
    split.
    + rewrite Hnt', Hnt, length_app. cbn [length]. lia.
    + intros e' He'. apply list_elem_of_lookup in He'. destruct He' as [j Hj].
      rewrite Hws in Hj. rewrite occ_app.
      destruct (decide (j = i)) as [->|Hne].
      * rewrite list_lookup_insert_eq in Hj by (eapply lookup_lt_Some, He).
        inversion Hj; subst e'. cbn [word count]. rewrite Hwe, occ_single_same.
        rewrite (Hcnt e), Hwe; [lia|]. eapply list_elem_of_lookup_2, He.
      * rewrite list_lookup_insert_ne in Hj by congruence.
        rewrite occ_single_other, (Hcnt e'); [lia | eapply list_elem_of_lookup_2, Hj|].
        intros Heq. apply Hne. rewrite NoDup_alt in Hnd.
        apply (Hnd j i w); rewrite list_lookup_fmap.
        -- rewrite Hj. cbn. congruence.
        -- rewrite He. cbn. congruence.
    + intros w'. change (map word (words_ d')) with (word <$> words_ d').
      rewrite Hwords, elem_of_app, Hseen, list_elem_of_singleton. split; [|tauto].
      intros [Hin| ->]; [exact Hin|]. eapply list_elem_of_lookup_2, Hl.
Qed.

Section BuilderTally.
Context `{StdSort}.

Lemma readFromFile_loop_tally (fuel : nat) (s s' : istream) (mt : Z)
    (d d' : Dictionary) (seen : list string) :
  readFromFile_loop fuel s mt d = Ok (d', s') ->
  well_formed d -> tally d seen -> nwords_ d <= ntokens_ d ->
  ntokens_ d + Z.of_nat (length (unread s)) <= load_cap ->
  tally d' (seen ++ tokens_from fuel s) /\ well_formed d' /\ args_ d' = args_ d.
Proof.
  revert s mt d seen.
  induction fuel as [|fuel IH]; intros s mt d seen Hl Hwf Ht Hle Hcap; [discriminate|].
  rewrite readFromFile_loop_step in Hl. rewrite tokens_from_step.
  destruct ((readWord s).1.1) eqn:Hmore.
  - pose proof (readWord_progress s Hmore) as Hprog.
    destruct (add (readWord s).1.2 d) as [d1|] eqn:Hadd; [|discriminate].
    rewrite bind_Ok in Hl.
    destruct (add_cases _ _ _ Hadd) as (Hnt1 & Ha1 & _ & _ & Hcase).
    assert (Hnw1 : nwords_ d1 <= nwords_ d + 1)
      by (destruct Hcase as [[_ ->]|(i & e & _ & _ & ->)]; lia).
    pose proof (wf_nwords d Hwf) as Hn.
    assert (Hwf1 : well_formed d1).
    { apply (add_well_formed (readWord s).1.2 d d1 Hwf); [|exact Hadd].
      unfold load_cap, MAX_VOCAB_SIZE in *. lia. }
    pose proof (add_tally (readWord s).1.2 d d1 seen Hwf Ht Hadd) as Ht1.
    destruct (Z.ltb_spec load_cap (nwords_ d1)) as [Hover|_]; [lia|].
    apply (IH _ _ _ (seen ++ [(readWord s).1.2])) in Hl;
      [|exact Hwf1|exact Ht1|lia|lia].
    destruct Hl as (Ht' & Hwf' & Ha').
    rewrite <- app_assoc in Ht'. split; [exact Ht'|]. split; [exact Hwf' | congruence].
  - inversion Hl; subst. rewrite app_nil_r. auto.
Qed.

(** For a stream of at most 22,500,000 bytes the table never fills, no
    entry is purged on the way, and the vocabulary holds the tokens that
    stand at least [minCount] times in the stream, each with the number of
    times it stands there. *)
Lemma readFromFile_counts (s : istream) (args : Args) :
  Z.of_nat (length (unread s)) <= load_cap ->
  (readFromFile s (new args) = Err ExitFailure
   /\ forall w, w ∈ tokens s -> occ w (tokens s) < minCount args)
  \/ (exists d s',
         readFromFile s (new args) = Ok (d, s')
         /\ ntokens_ d = Z.of_nat (length (tokens s))
         /\ forall w c, mkEntry w c ∈ words_ d
                        <-> (c = occ w (tokens s) /\ 1 <= c /\ minCount args <= c)).
Proof.
  intros Hlen. unfold readFromFile.
  destruct (readFromFile_loop_returns (Datatypes.S (length (unread s))) s 1 (new args))
    as (d1 & s1 & Hloop).
  { lia. }
  { lia. }
  { apply new_counted. }
  { apply new_indexed. }
  { cbn. unfold load_cap. lia. }
  rewrite Hloop, bind_Ok.
  destruct (readFromFile_loop_tally _ _ _ _ _ _ [] Hloop)
    as (Ht1 & Hwf1 & Ha1).
  { apply new_well_formed. }
  { apply new_tally. }
  { cbn. lia. }
  { cbn. lia. }
  cbn [app] in Ht1. fold (tokens s) in Ht1. cbn in Ha1.
  destruct (threshold_returns (minCount (args_ d1)) d1) as [d2 Hth].
  { exact (wf_room d1 Hwf1). }
  rewrite Hth, bind_Ok.
  pose proof (threshold_words_perm _ _ _ Hth) as Hperm.
  destruct (threshold_fields _ _ _ Hth) as (_ & Hn2 & _ & Hnt2 & _).
  rewrite initTableDiscard_Ok by (rewrite Hn2; lia).
  rewrite bind_Ok. cbn [set_pdiscard nwords_].
  assert (Hmem : forall e, e ∈ words_ d2 <-> e ∈ words_ d1 /\ minCount args <= count e).
  { intros e. rewrite Hperm, !list_elem_of_In, List.filter_In, negb_true_iff, Z.ltb_ge.
    rewrite Ha1. reflexivity. }
  assert (Hentry : forall w c, mkEntry w c ∈ words_ d1
                               <-> c = occ w (tokens s) /\ 1 <= c).
  { intros w c. split.
    - intros Hin. pose proof (tally_counts _ _ Ht1 _ Hin) as Hc. cbn in Hc.
      split; [exact Hc|]. rewrite Hc. apply occ_pos, (tally_seen _ _ Ht1).
      apply list_elem_of_In, List.in_map_iff. exists (mkEntry w c).
      split; [reflexivity | apply list_elem_of_In, Hin].
    - intros [-> Hpos]. apply occ_pos, (tally_seen _ _ Ht1) in Hpos.
      apply list_elem_of_In, List.in_map_iff in Hpos. destruct Hpos as (e & <- & Hin).
      apply list_elem_of_In in Hin.
      rewrite <- (tally_counts _ _ Ht1 _ Hin). destruct e. exact Hin. }
  destruct (Z.eqb_spec (nwords_ d2) 0) as [Hzero|Hsome].
  - left. split; [reflexivity|]. intros w Hw.
    destruct (Z.lt_ge_cases (occ w (tokens s)) (minCount args)) as [Hlt|Hge]; [exact Hlt|].
    assert (Hin : mkEntry w (occ w (tokens s)) ∈ words_ d2).
    { apply Hmem. split; [|cbn [count]; exact Hge]. apply Hentry. split; [reflexivity|].
      apply occ_pos, Hw. }
    destruct (words_ d2); [apply elem_of_nil in Hin; contradiction | cbn in Hn2; lia].
  - right. eexists. eexists. split; [reflexivity|].
    cbn [set_pdiscard ntokens_ words_]. split.
    + rewrite Hnt2. exact (tally_ntokens _ _ Ht1).
    + intros w c. rewrite Hmem, Hentry. cbn [count]. tauto.
Qed.
End BuilderTally.

(** ** threshold *)

Section ThresholdSpec.
Context `{StdSort}.

Lemma threshold_spec (t : Z) (d : Dictionary) :
  Z.of_nat (length (words_ d)) < MAX_VOCAB_SIZE ->
  exists d',
    threshold t d = Ok d'
    /\ Permutation (words_ d') (List.filter (fun e => t <=? count e) (words_ d))
    /\ StronglySorted (fun a b => count b <= count a) (words_ d')
    /\ nwords_ d' = Z.of_nat (length (words_ d'))
    /\ ntokens_ d' = ntokens_ d /\ pdiscard_ d' = pdiscard_ d
    /\ pruneidx_size_ d' = pruneidx_size_ d /\ pruneidx_ d' = pruneidx_ d
    /\ (NoDup (map word (words_ d)) -> well_formed d').
Proof.
  intros Hroom. destruct (threshold_returns t d Hroom) as [d' Hth].
  exists d'. split; [exact Hth|].
  destruct (threshold_fields _ _ _ Hth) as (Hws & Hn & _ & Hnt & Hps & Hp & Hpd & _).
  split.
  { rewrite (threshold_words_perm _ _ _ Hth).
    erewrite List.filter_ext; [reflexivity|]. intros e. cbn.
    destruct (Z.ltb_spec (count e) t), (Z.leb_spec t (count e)); try reflexivity; lia. }
  split.
  { rewrite Hws. apply StronglySorted_filter_bool.
    eapply StronglySorted_weaken;
      [|apply (std_sort_sorted _ threshold_cmp (words_ d) threshold_cmp_swo)].
    intros a b Hab. cbn in Hab. unfold threshold_cmp in Hab.
    apply Z.ltb_ge in Hab. exact Hab. }
  repeat (split; [assumption|]).
  intros Hnd. exact (threshold_well_formed t d d' Hnd Hroom Hth).
Qed.
End ThresholdSpec.

(** ** The ids that getLine pushes *)

(** The ids of the tokens that are in the vocabulary, in order. *)
Definition token_ids (d : Dictionary) (toks : list string) : list Z :=
  flat_map (fun w => match getId d w with
                     | Ok id => if 0 <=? id then [id] else []
                     | Err _ => []
                     end) toks.

Lemma token_ids_app (d : Dictionary) (l k : list string) :
  token_ids d (l ++ k) = token_ids d l ++ token_ids d k.
Proof. unfold token_ids. apply flat_map_app. Qed.

Lemma token_ids_single (d : Dictionary) (w : string) (h : Z) :
  find d w = Ok h ->
  token_ids d [w]
  = if slot_at (word2int_ d) h <? 0 then [] else [slot_at (word2int_ d) h].
Proof.
  intros Hf. unfold token_ids, getId. cbn [flat_map]. rewrite Hf, bind_Ok, app_nil_r.
  destruct (Z.leb_spec 0 (slot_at (word2int_ d) h)),
           (Z.ltb_spec (slot_at (word2int_ d) h) 0); try reflexivity; lia.
Qed.

Lemma getLine_loop_words (fuel : nat) (d : Dictionary) (s : istream)
    (rng : minstd_rand) (ws : list Z) (ntok : Z) (seen : list string) (l : line) :
  getLine_loop fuel d s rng ws ntok seen = Ok l ->
  nwords_ d = Z.of_nat (length (words_ d)) ->
  index_valid (word2int_ d) (length (words_ d)) ->
  exists new pushed,
    consumed l = seen ++ new /\ words l = ws ++ pushed
    /\ sublist pushed (token_ids d new)
    /\ Forall (fun id => 0 <= id < nwords_ d) (token_ids d new)
    /\ taken (rest_rng l) = (taken rng + length (token_ids d new))%nat
    /\ (model (args_ d) = sup -> pushed = token_ids d new)
    /\ (in_vocabulary d EOS = true ->
        forall pre post, new = pre ++ EOS :: post -> post = []).
Proof.
  intros Hl Hn Hv. revert s rng ws ntok seen Hl.
  induction fuel as [|fuel IH]; intros s rng ws ntok seen Hl; [discriminate|].
  rewrite getLine_loop_step in Hl.
  destruct ((readWord s).1.1).
  - set (tok := (readWord s).1.2) in *.
    destruct (find d tok) as [h|] eqn:Hf; [|discriminate].
    rewrite bind_Ok in Hl.
    pose proof (in_vocabulary_find _ _ _ Hf) as Hin.
    pose proof (token_ids_single _ _ _ Hf) as Hids.
    destruct (Z.ltb_spec (slot_at (word2int_ d) h) 0) as [Hneg|Hpos].
    + destruct (IH _ _ _ _ _ Hl) as (new & pushed & Hc & Hw & Hsub & HF & Ht & Hsup & He).
      exists (tok :: new), pushed.
      change (tok :: new) with ([tok] ++ new). rewrite token_ids_app, Hids. cbn [app].
      rewrite Hc, <- app_assoc. repeat (split; [assumption || reflexivity|]).
      intros Heos. apply eos_last_cons; [|exact (He Heos)].
      intros Heq. rewrite Heq in Hin. rewrite Hin in Heos. discriminate.
    + assert (Hr : 0 <= slot_at (word2int_ d) h < nwords_ d).
      { rewrite Hn. apply index_valid_slot; [exact Hv | lia]. }
      rewrite (discard_eq d _ _ Hr) in Hl.
      set (wid := slot_at (word2int_ d) h) in *.
      assert (Hgone : exists gone,
                 discard d wid (to_real (uniform rng).1) = Ok gone
                 /\ (model (args_ d) = sup -> gone = false)).
      { rewrite (discard_eq d _ _ Hr).
        destruct (model_name_eqb (model (args_ d)) sup) eqn:Hm.
        - eexists. split; [reflexivity | reflexivity].
        - destruct (vec_at (pdiscard_ d) wid) as [p|]; [|discriminate].
          rewrite bind_Ok. eexists. split; [reflexivity|].
          intros Hs. rewrite Hs in Hm. discriminate. }
      destruct Hgone as (gone & Hg & Hgsup). rewrite <- (discard_eq d _ _ Hr), Hg, bind_Ok in Hl.
      destruct ((MAX_LINE_SIZE <? ntok + 1) || String.eqb tok EOS) eqn:Hbreak.
      * inversion Hl; subst l; clear Hl.
        cbn [consumed words rest_rng returned uniform snd taken].
        exists [tok], (if gone then [] else [wid]). rewrite Hids.
        split; [reflexivity|]. split; [destruct gone; rewrite ?app_nil_r; reflexivity|].
        split; [destruct gone; [apply sublist_nil_l | reflexivity]|].
        split; [constructor; [exact Hr | constructor]|].
        split; [cbn [length]; lia|].
        split; [intros Hs; rewrite (Hgsup Hs); reflexivity|].
        intros _. apply eos_last_single.
      * destruct (IH _ _ _ _ _ Hl) as (new & pushed & Hc & Hw & Hsub & HF & Ht & Hsup & He).
        exists (tok :: new), ((if gone then [] else [wid]) ++ pushed).
        change (tok :: new) with ([tok] ++ new). rewrite token_ids_app, Hids.
        rewrite Hc, <- app_assoc. split; [reflexivity|].
        split; [rewrite Hw; destruct gone; rewrite <- ?app_assoc; reflexivity|].
        split.
        { apply sublist_app; [|exact Hsub].
          destruct gone; [apply sublist_nil_l | reflexivity]. }
        split; [apply Forall_app; split; [constructor; [exact Hr | constructor] | exact HF]|].
        split; [rewrite Ht, length_app; cbn [uniform snd taken length]; lia|].
        split; [intros Hs; rewrite (Hgsup Hs), (Hsup Hs); reflexivity|].
        intros Heos. apply eos_last_cons; [|exact (He Heos)].
        intros Heq. apply orb_false_iff in Hbreak. destruct Hbreak as [_ Hb].
        rewrite Heq, String.eqb_refl in Hb. discriminate.
  - inversion Hl; subst l. exists [], []. cbn. rewrite !app_nil_r.
    repeat split; try reflexivity; try constructor.
    + lia.
    + intros _ pre post Heq. destruct pre; discriminate.
Qed.

(** ** The prune map along the life of a dictionary *)

Section PruneMap.
Context `{StdSort}.

(** The builder never touches the prune map. *)
Lemma readFromFile_loop_prune_map (fuel : nat) (s s' : istream) (mt : Z)
    (d d' : Dictionary) :
  readFromFile_loop fuel s mt d = Ok (d', s') ->
  pruneidx_size_ d' = pruneidx_size_ d /\ pruneidx_ d' = pruneidx_ d.
Proof.
  revert s mt d. induction fuel as [|fuel IH]; intros s mt d Hl; [discriminate|].
  rewrite readFromFile_loop_step in Hl.
  destruct ((readWord s).1.1).
  - destruct (add (readWord s).1.2 d) as [d1|] eqn:Hadd; [|discriminate].
    rewrite bind_Ok in Hl.
    destruct (add_cases _ _ _ Hadd) as (_ & _ & Hs1 & Hm1 & _).
    destruct (load_cap <? nwords_ d1).
    + destruct (threshold (mt + 1) d1) as [d2|] eqn:Hth; [|discriminate].
      rewrite bind_Ok in Hl.
      destruct (threshold_fields _ _ _ Hth) as (_ & _ & _ & _ & Hs2 & Hm2 & _).
      destruct (IH _ _ _ Hl) as [Hs' Hm']. split; congruence.
    + destruct (IH _ _ _ Hl) as [Hs' Hm']. split; congruence.
  - inversion Hl; subst. split; reflexivity.
Qed.

Lemma readFromFile_prune_map (s s' : istream) (d d' : Dictionary) :
  readFromFile s d = Ok (d', s') ->
  pruneidx_size_ d' = pruneidx_size_ d /\ pruneidx_ d' = pruneidx_ d.
Proof.
  unfold readFromFile.
  destruct (readFromFile_loop _ s 1 d) as [[d1 s1]|] eqn:Hloop; [|discriminate].
  rewrite bind_Ok.
  destruct (readFromFile_loop_prune_map _ _ _ _ _ _ Hloop) as [Hs1 Hm1].
  destruct (threshold (minCount (args_ d1)) d1) as [d2|] eqn:Hth; [|discriminate].
  rewrite bind_Ok.
  destruct (threshold_fields _ _ _ Hth) as (_ & _ & _ & _ & Hs2 & Hm2 & _).
  destruct (initTableDiscard d2) as [d3|] eqn:Hinit; [|discriminate].
  rewrite bind_Ok.
  destruct (initTableDiscard_frame _ _ Hinit) as [tbl Hd3].
  destruct (nwords_ d3 =? 0); [discriminate|].
  intros Hd. inversion Hd; subst d' s'. subst d3.
  cbn [set_pdiscard pruneidx_size_ pruneidx_]. split; congruence.
Qed.

(** [prune] records the size of the prune map and leaves the map alone. *)
Lemma prune_prune_map (idx idx' : list Z) (d d' : Dictionary) :
  prune idx d = Ok (d', idx') ->
  pruneidx_size_ d' = Z.of_nat (size (pruneidx_ d)) /\ pruneidx_ d' = pruneidx_ d.
Proof.
  rewrite prune_unfold.
  destruct (compact_loop _ _ _ _ _ _) as [[[ws tbl] j]|]; [|discriminate].
  rewrite bind_Ok. intros Hd. inversion Hd; subst. split; reflexivity.
Qed.
End PruneMap.

(** ** The stream the builder leaves *)

Section BuilderStream.
Context `{StdSort}.

Lemma readFromFile_loop_stream (fuel : nat) (s s' : istream) (mt : Z)
    (d d' : Dictionary) :
  readFromFile_loop fuel s mt d = Ok (d', s') -> text_stream s ->
  content s' = content s /\ at_end s'.
Proof.
  revert s mt d. induction fuel as [|fuel IH]; intros s mt d Hl Hs; [discriminate|].
  rewrite readFromFile_loop_step in Hl.
  destruct (readWord_text_stream s Hs) as (Hc & Hs1 & Hend).
  destruct ((readWord s).1.1).
  - destruct (add (readWord s).1.2 d) as [d1|]; [|discriminate].
    rewrite bind_Ok in Hl.
    destruct (load_cap <? nwords_ d1).
    + destruct (threshold (mt + 1) d1) as [d2|]; [|discriminate].
      rewrite bind_Ok in Hl.
      destruct (IH _ _ _ Hl Hs1) as [Hc' He']. split; [congruence | exact He'].
    + destruct (IH _ _ _ Hl Hs1) as [Hc' He']. split; [congruence | exact He'].
  - inversion Hl; subst. split; [exact Hc | exact (Hend eq_refl)].
Qed.

Lemma readFromFile_stream (s s' : istream) (d d' : Dictionary) :
  readFromFile s d = Ok (d', s') -> text_stream s ->
  content s' = content s /\ at_end s'.
Proof.
  unfold readFromFile. intros Hr Hs.
  destruct (readFromFile_loop _ s 1 d) as [[d1 s1]|] eqn:Hloop; [|discriminate].
  rewrite bind_Ok in Hr.
  destruct (threshold (minCount (args_ d1)) d1) as [d2|]; [|discriminate].
  rewrite bind_Ok in Hr.
  destruct (initTableDiscard d2) as [d3|]; [|discriminate].
  rewrite bind_Ok in Hr.
  destruct (nwords_ d3 =? 0); [discriminate|].
  inversion Hr; subst d' s'.
  exact (readFromFile_loop_stream _ _ _ _ _ _ Hloop Hs).
Qed.
End BuilderStream.

(** On a stream that holds nothing but separators other than the newline,
    [getLine] reads no token and leaves the stream at its end. *)
Lemma getLine_blank (d : Dictionary) (s : istream) (rng : minstd_rand) :
  good s = true -> Forall skipped (unread s) ->
  exists s1, getLine d s rng = Ok (mkLine 0 [] s1 rng [])
             /\ content s1 = content s /\ at_end s1.
Proof.
  intros Hg Hb.
  assert (Hp : Forall plain (unread s)).
  { eapply Forall_impl; [exact Hb|]. intros a [Hsep _] He. rewrite He in Hsep.
    discriminate Hsep. }
  assert (Hr : reset s = s).
  { unfold reset. unfold good in Hg. destruct (eofbit s); [discriminate | reflexivity]. }
  unfold getLine. rewrite Hr, getLine_loop_step.
  pose proof (proj2 (readWord_false_iff s Hp) Hb) as Hfalse.
  destruct (readWord_text_stream s (conj Hp (or_introl Hg))) as (Hc & _ & Hend).
  rewrite Hfalse. eexists. split; [reflexivity|].
  split; [exact Hc | exact (Hend Hfalse)].
Qed.

(** ** The counts of a built dictionary *)

Section BuiltCounts.
Context `{StdSort}.

(** The entries [readFromFile] leaves stand by falling count, none below
    [minCount]. *)
Lemma readFromFile_sorted (s s' : istream) (d0 d : Dictionary) :
  readFromFile s d0 = Ok (d, s') ->
  StronglySorted (fun a b => count b <= count a) (words_ d)
  /\ Forall (fun e => minCount (args_ d) <= count e) (words_ d).
Proof.
  unfold readFromFile.
  destruct (readFromFile_loop _ s 1 d0) as [[d1 s1]|]; [|discriminate].
  rewrite bind_Ok.
  destruct (threshold (minCount (args_ d1)) d1) as [d2|] eqn:Hth; [|discriminate].
  rewrite bind_Ok.
  destruct (initTableDiscard d2) as [d3|] eqn:Hinit; [|discriminate].
  rewrite bind_Ok.
  destruct (initTableDiscard_frame _ _ Hinit) as [tbl ->].
  destruct (nwords_ (set_pdiscard d2 tbl) =? 0); [discriminate|].
  intros Hd. inversion Hd; subst d s'. cbn [set_pdiscard words_ args_].
  destruct (threshold_fields _ _ _ Hth) as (Hws & _ & Ha & _).
  rewrite Hws, Ha. split.
  - apply StronglySorted_filter_bool.
    eapply StronglySorted_weaken;
      [|apply (std_sort_sorted _ threshold_cmp (words_ d1) threshold_cmp_swo)].
    intros a b Hab. cbn in Hab. unfold threshold_cmp in Hab.
    apply Z.ltb_ge in Hab. exact Hab.
  - apply Forall_forall. intros e He. apply list_elem_of_In, List.filter_In in He.
    destruct He as [_ He]. apply negb_true_iff, Z.ltb_ge in He. exact He.
Qed.

(** [getCounts] on the dictionary built from a stream that cannot fill the
    table. *)
Lemma getCounts_built (s s' : istream) (args : Args) (d : Dictionary) :
  Z.of_nat (length (unread s)) <= load_cap ->
  readFromFile s (new args) = Ok (d, s') ->
  Z.of_nat (length (getCounts d)) = nwords_ d
  /\ StronglySorted (fun a b => b <= a) (getCounts d)
  /\ Forall (fun c => 1 <= c /\ minCount args <= c) (getCounts d)
  /\ total (getCounts d)
     = Z.of_nat (length (List.filter (fun w => minCount args <=? occ w (tokens s))
                                     (tokens s)))
  /\ total (getCounts d) <= ntokens_ d
  /\ (minCount args <= 1 -> total (getCounts d) = ntokens_ d).
Proof.
  intros Hlen Hread.
  destruct (readFromFile_well_formed _ _ _ _ Hread) as [Hwf _].
  destruct (readFromFile_sorted _ _ _ _ Hread) as [Hsorted _].
  destruct (readFromFile_counts s args Hlen)
    as [[Hexit _]|(d1 & s1 & Hread1 & Hnt & Hentries)];
    [rewrite Hexit in Hread; discriminate|].
  rewrite Hread1 in Hread. inversion Hread; subst d1 s1. clear Hread.
  assert (Hsum : total (getCounts d)
                 = Z.of_nat (length (List.filter
                                       (fun w => minCount args <=? occ w (tokens s))
                                       (tokens s)))).
  { unfold getCounts. apply (counts_total word count).
    - apply (consistent_NoDup word (word2int_ d)). exact (wf_indexes d Hwf).
    - intros [w c] He. apply Hentries in He. cbn. apply He.
    - intros w Hw. split.
      + intros Hin. apply list_elem_of_In, List.in_map_iff in Hin.
        destruct Hin as ([w' c] & Hw' & Hin). cbn in Hw'. subst w'.
        apply list_elem_of_In, Hentries in Hin. destruct Hin as (-> & _ & Hge).
        apply Z.leb_le. exact Hge.
      + intros Hge. apply Z.leb_le in Hge.
        apply list_elem_of_In, List.in_map_iff.
        exists (mkEntry w (occ w (tokens s))). split; [reflexivity|].
        apply list_elem_of_In, Hentries. split; [reflexivity|].
        split; [apply occ_pos, Hw | exact Hge]. }
  split.
  { unfold getCounts. rewrite length_map. symmetry. exact (wf_nwords d Hwf). }
  split.
  { unfold getCounts. eapply StronglySorted_map; [|exact Hsorted].
    intros a b Hab. exact Hab. }
  split.
  { unfold getCounts. apply List.Forall_map, Forall_forall. intros [w c] He.
    apply Hentries in He. cbn. split; apply He. }
  split; [exact Hsum|]. split.
  - rewrite Hsum, Hnt. apply inj_le, length_filter_le.
  - intros Hmin. rewrite Hsum, Hnt. rewrite filter_all; [reflexivity|].
    intros w Hw. apply Z.leb_le. apply occ_pos in Hw. lia.
Qed.
End BuiltCounts.

(** ** The subsampling table of a built or loaded dictionary *)

(** The table holds, for every entry, the threshold computed from its
    count. *)
Definition tabled (d : Dictionary) : Prop :=
  nwords_ d = Z.of_nat (length (words_ d))
  /\ pdiscard_ d = map (pdiscard_of d) (words_ d).

Lemma initTableDiscard_tabled (d d' : Dictionary) :
  initTableDiscard d = Ok d' -> nwords_ d = Z.of_nat (length (words_ d)) ->
  tabled d'.
Proof.
  intros Hinit Hn. rewrite initTableDiscard_Ok in Hinit by lia.
  inversion Hinit; subst d'. split; [exact Hn|].
  cbn [set_pdiscard pdiscard_ words_]. rewrite Hn, Nat2Z.id, firstn_all.
  reflexivity.
Qed.

Lemma readFromFile_tabled `{StdSort} (s s' : istream) (d0 d : Dictionary) :
  readFromFile s d0 = Ok (d, s') -> tabled d.
Proof.
  unfold readFromFile.
  destruct (readFromFile_loop _ s 1 d0) as [[d1 s1]|]; [|discriminate].
  rewrite bind_Ok.
  destruct (threshold (minCount (args_ d1)) d1) as [d2|] eqn:Hth; [|discriminate].
  rewrite bind_Ok.
  destruct (initTableDiscard d2) as [d3|] eqn:Hinit; [|discriminate].
  rewrite bind_Ok. destruct (nwords_ d3 =? 0); [discriminate|].
  intros Hd. inversion Hd; subst d3 s'.
  destruct (threshold_fields _ _ _ Hth) as (_ & Hn & _).
  exact (initTableDiscard_tabled _ _ Hinit Hn).
Qed.

Lemma load_tabled (s s' : istream) (d0 d : Dictionary) :
  load s d0 = Ok (d, s') -> tabled d.
Proof.
  unfold load. cbv zeta.
  destruct (read_int 4 s) as [[nw s1]|]; [|discriminate]. rewrite bind_Ok.
  destruct (read_int 8 s1) as [[nt s2]|]; [|discriminate]. rewrite bind_Ok.
  destruct (read_int 8 s2) as [[ps s3]|]; [|discriminate]. rewrite bind_Ok.
  destruct (load_entries _ _ _ _) as [[d2 s4]|] eqn:Hle; [|discriminate].
  rewrite bind_Ok.
  destruct (load_pruneidx _ _ _) as [[m s5]|]; [|discriminate]. rewrite bind_Ok.
  destruct (initTableDiscard _) as [d3|] eqn:Hinit; [|discriminate].
  rewrite bind_Ok. intros Hd. inversion Hd; subst d3 s5.
  apply load_entries_fields in Hle. cbn in Hle. destruct Hle as [Hlen Hnw].
  apply (initTableDiscard_tabled _ _ Hinit).
  pose proof (initTableDiscard_fields _ _ Hinit) as (H0 & _ & _).
  cbn [set_pruneidx nwords_ words_] in *. rewrite Hlen, Hnw in *. lia.
Qed.

(** What [discard] answers on such a dictionary. *)
Lemma discard_tabled (d : Dictionary) (id : Z) (r : spec_float) :
  tabled d ->
  (0 <= id < nwords_ d ->
   exists e, words_ d !! Z.to_nat id = Some e
             /\ discard d id r
                = Ok (if model_name_eqb (model (args_ d)) sup then false
                      else real_gt r (discard_probability (t (args_ d))
                                        (real_of_ratio (count e) (ntokens_ d)))))
  /\ (id < 0 \/ nwords_ d <= id -> discard d id r = Err AssertionFailed).
Proof.
  intros [Hn Htbl]. split.
  - intros Hid. rewrite discard_eq by exact Hid.
    destruct (lookup_lt_is_Some_2 (words_ d) (Z.to_nat id)) as [e He]; [lia|].
    exists e. split; [exact He|].
    destruct (model_name_eqb (model (args_ d)) sup); [reflexivity|].
    assert (Hp : vec_at (pdiscard_ d) id = Ok (pdiscard_of d e)).
    { apply vec_at_Ok. split; [lia|]. rewrite Htbl.
      change (map (pdiscard_of d) (words_ d)) with (pdiscard_of d <$> words_ d).
      rewrite list_lookup_fmap, He. reflexivity. }
    rewrite Hp, bind_Ok. reflexivity.
  - intros Hout. unfold discard, assert.
    destruct (Z.leb_spec 0 id); [|reflexivity].
    destruct (Z.ltb_spec id (nwords_ d)); [lia | reflexivity].
Qed.

(** ** What add counts *)

(** The count the dictionary holds for [w]. *)
Definition count_of (d : Dictionary) (w : string) : Z :=
  recorded word count (words_ d) w.

Lemma add_counts (w : string) (d : Dictionary) :
  well_formed d -> Z.of_nat (length (words_ d)) + 1 < MAX_VOCAB_SIZE ->
  exists d',
    add w d = Ok d'
    /\ ntokens_ d' = ntokens_ d + 1
    /\ (forall w', count_of d' w'
                   = count_of d w' + (if String.eqb w w' then 1 else 0))
    /\ nwords_ d'
       = nwords_ d + (if decide (w ∈ map word (words_ d)) then 0 else 1).
Proof.
  intros Hwf Hroom.
  destruct (add_returns w d (wf_nwords d Hwf)) as (d' & Hadd & _).
  { split; [exact (wf_valid d Hwf) | exact (wf_size d Hwf)]. }
  { lia. }
  exists d'. split; [exact Hadd|].
  destruct (add_cases _ _ _ Hadd) as (Hnt & _ & _ & _ & Hcases).
  split; [exact Hnt|].
  destruct (add_slot_cases _ _ _ Hadd)
    as (h & Hfind & [(Hempty & Hws & _)|(Hlive & _ & e & He & Hws)]).
  - assert (Hg : getId d w = Ok (-1)).
    { unfold getId. rewrite Hfind, bind_Ok, Hempty. reflexivity. }
    apply (getId_spec d w _ Hwf) in Hg. destruct Hg as [[_ Hnot]|[H0 _]]; [|lia].
    split.
    + intros w'. unfold count_of. rewrite Hws, recorded_app, recorded_single.
      reflexivity.
    + destruct (decide (w ∈ map word (words_ d))) as [Hin|_]; [contradiction|].
      destruct Hcases as [[_ Hn]|(i & e & Hi & Hws' & _)]; [exact Hn|].
      rewrite Hws in Hws'. apply (f_equal length) in Hws'.
      rewrite length_app, length_insert in Hws'. cbn [length] in Hws'. lia.
  - assert (Hg : getId d w = Ok (slot_at (word2int_ d) h)).
    { unfold getId. rewrite Hfind, bind_Ok. reflexivity. }
    apply (getId_spec d w _ Hwf) in Hg. destruct Hg as [[Hm _]|[H0 Hl]]; [contradiction|].
    change (map word (words_ d)) with (word <$> words_ d) in *.
    rewrite list_lookup_fmap, He in Hl. cbn in Hl. inversion Hl as [Hword].
    split.
    + intros w'. unfold count_of. rewrite Hws.
      rewrite (recorded_insert word count (words_ d) _ e
                 (mkEntry (word e) (count e + 1)) w' He eq_refl).
      rewrite Hword. cbn [count]. destruct (String.eqb w w'); lia.
    + destruct (decide _) as [_|Hnot].
      * destruct Hcases as [[Hws' _]|(i & e0 & _ & _ & Hn)]; [|lia].
        rewrite Hws in Hws'. apply (f_equal length) in Hws'.
        rewrite length_app, length_insert in Hws'. cbn [length] in Hws'. lia.
      * elim Hnot. apply list_elem_of_fmap. exists e. split; [reflexivity|].
        eapply list_elem_of_lookup_2, He.
Qed.

(** ** find walks to the first free or matching slot *)

Lemma find_h_first (d : Dictionary) (w : string) (h id : Z) :
  find_h d w h = Ok id ->
  exists k,
    0 <= k < MAX_VOCAB_SIZE
    /\ id = (h + k) mod MAX_VOCAB_SIZE
    /\ stops_at (word2int_ d) (word_at d) w id
    /\ forall j, 0 <= j < k ->
         passed (word2int_ d) (word_at d) w ((h + j) mod MAX_VOCAB_SIZE).
Proof. unfold find_h. apply probe_first. Qed.

(** ** The tokens a call of getLine takes off the stream *)

(** The loop takes, from the tokens the stream hands out, those that
    [line_tokens] names, and leaves the stream after that many calls of
    [readWord], and one more when [readWord] ended the loop. *)
Lemma getLine_loop_stream (fuel : nat) (d : Dictionary) (s : istream)
    (rng : minstd_rand) (ws : list Z) (ntok : Z) (seen : list string) (l : line) :
  getLine_loop fuel d s rng ws ntok seen = Ok l ->
  consumed l = seen ++ line_tokens (in_vocabulary d) ntok (tokens_from fuel s)
  /\ rest_in l
     = after_reads
         (length (line_tokens (in_vocabulary d) ntok (tokens_from fuel s))
          + (if line_breaks (in_vocabulary d) ntok (tokens_from fuel s)
             then 0 else 1)) s.
Proof.
  revert s rng ws ntok seen.
  induction fuel as [|fuel IH]; intros s rng ws ntok seen Hl; [discriminate|].
  rewrite getLine_loop_step in Hl. rewrite tokens_from_step.
  destruct ((readWord s).1.1).
  - set (tok := (readWord s).1.2) in *.
    destruct (find d tok) as [h|] eqn:Hf; [|discriminate].
    rewrite bind_Ok in Hl. pose proof (in_vocabulary_find _ _ _ Hf) as Hv.
    cbn [line_tokens line_breaks]. rewrite Hv.
    destruct (slot_at (word2int_ d) h <? 0); cbn [negb].
    + destruct (IH _ _ _ _ _ Hl) as [Hc Hr]. split.
      * rewrite Hc, <- app_assoc. reflexivity.
      * rewrite Hr. reflexivity.
    + destruct (discard d _ _) as [gone|]; [|discriminate]. rewrite bind_Ok in Hl.
      destruct ((MAX_LINE_SIZE <? ntok + 1) || String.eqb tok EOS).
      * inversion Hl; subst l. cbn [consumed rest_in length Nat.add after_reads].
        split; reflexivity.
      * destruct (IH _ _ _ _ _ Hl) as [Hc Hr]. split.
        -- rewrite Hc, <- app_assoc. reflexivity.
        -- rewrite Hr. reflexivity.
  - inversion Hl; subst l. cbn [consumed rest_in line_tokens line_breaks length
                                 Nat.add after_reads].
    rewrite app_nil_r. split; reflexivity.
Qed.

Lemma getLine_stream (d : Dictionary) (s : istream) (rng : minstd_rand) (l : line) :
  getLine d s rng = Ok l ->
  consumed l = line_tokens (in_vocabulary d) 0 (tokens (reset s))
  /\ rest_in l
     = after_reads
         (length (line_tokens (in_vocabulary d) 0 (tokens (reset s)))
          + (if line_breaks (in_vocabulary d) 0 (tokens (reset s)) then 0 else 1))
         (reset s).
Proof. unfold getLine, tokens. intros Hl. exact (getLine_loop_stream _ _ _ _ _ _ _ _ Hl). Qed.

(** ** The ids that survive subsampling *)

(** The ids of a line that [getLine] keeps: the random source hands out one
    number per id, in order, and an id is dropped when [discard] says so for
    its number. *)
Fixpoint subsample (d : Dictionary) (rng : minstd_rand) (ids : list Z) : list Z :=
  match ids with
  | [] => []
  | id :: rest =>
      match discard d id (to_real (uniform rng).1) with
      | Ok true => subsample d (uniform rng).2 rest
      | _ => id :: subsample d (uniform rng).2 rest
      end
  end.

Lemma getLine_loop_exact (fuel : nat) (d : Dictionary) (s : istream)
    (rng : minstd_rand) (ws : list Z) (ntok : Z) (seen : list string) (l : line) :
  getLine_loop fuel d s rng ws ntok seen = Ok l ->
  exists new,
    consumed l = seen ++ new
    /\ words l = ws ++ subsample d rng (token_ids d new).
Proof.
  revert s rng ws ntok seen.
  induction fuel as [|fuel IH]; intros s rng ws ntok seen Hl; [discriminate|].
  rewrite getLine_loop_step in Hl.
  destruct ((readWord s).1.1).
  - set (tok := (readWord s).1.2) in *.
    destruct (find d tok) as [h|] eqn:Hf; [|discriminate].
    rewrite bind_Ok in Hl. pose proof (token_ids_single _ _ _ Hf) as Hids.
    destruct (slot_at (word2int_ d) h <? 0).
    + destruct (IH _ _ _ _ _ Hl) as (new & Hc & Hw).
      exists (tok :: new). change (tok :: new) with ([tok] ++ new).
      rewrite token_ids_app, Hids. cbn [app].
      split; [rewrite Hc, <- app_assoc; reflexivity | exact Hw].
    + destruct (discard d _ _) as [gone|] eqn:Hg; [|discriminate].
      rewrite bind_Ok in Hl.
      destruct ((MAX_LINE_SIZE <? ntok + 1) || String.eqb tok EOS).
      * inversion Hl; subst l. cbn [consumed words].
        exists [tok]. split; [reflexivity|]. rewrite Hids. cbn [subsample].
        rewrite Hg. destruct gone; rewrite ?app_nil_r; reflexivity.
      * destruct (IH _ _ _ _ _ Hl) as (new & Hc & Hw).
        exists (tok :: new). change (tok :: new) with ([tok] ++ new).
        rewrite token_ids_app, Hids. cbn [app subsample]. rewrite Hg.
        split; [rewrite Hc, <- app_assoc; reflexivity|].
        rewrite Hw. destruct gone; rewrite <- ?app_assoc; reflexivity.
  - inversion Hl; subst l. exists []. cbn. rewrite !app_nil_r. split; reflexivity.
Qed.

Lemma getLine_exact (d : Dictionary) (s : istream) (rng : minstd_rand) (l : line) :
  getLine d s rng = Ok l ->
  words l = subsample d rng (token_ids d (consumed l)).
Proof.
  unfold getLine. intros Hl.
  destruct (getLine_loop_exact _ _ _ _ _ _ _ _ Hl) as (new & Hc & Hw).
  cbn [app] in Hc, Hw. rewrite Hc. exact Hw.
Qed.

(** ** A dictionary with a prune map *)

(** The example with a prune map of one pair, as [load] leaves a dictionary
    whose file carried one. *)
Definition example_with_prune_map : Dictionary :=
  set_pruneidx (set_pruneidx_size example_dictionary 1) {[0 := 1]}.


End WordsOnlyFacts.

(** * The label-aware dictionary *)

Module LabelAwareFacts.
Import LabelAware.

(** Words come first, labels after them, and the counters say how many. *)
Record layout (d : Dictionary) : Prop := {
  layout_size : size_ d = Z.of_nat (length (words_ d));
  layout_sum : size_ d = nwords_ d + nlabels_ d;
  layout_nwords : 0 <= nwords_ d;
  layout_nlabels : 0 <= nlabels_ d;
  layout_type : forall i e, words_ d !! i = Some e ->
      type e = if Z.of_nat i <? nwords_ d then entry_type.word else entry_type.label
}.

Lemma getType_Ok (d : Dictionary) (id : Z) (e : entry) :
  0 <= id < size_ d -> vec_at (words_ d) id = Ok e -> getType d id = Ok (type e).
Proof.
  intros [H0 H1] He. unfold getType.
  destruct (Z.leb_spec 0 id); [|lia]. destruct (Z.ltb_spec id (size_ d)); [|lia].
  cbn [assert]. rewrite !bind_Ok, He, bind_Ok. reflexivity.
Qed.

(** ** A concrete dictionary with labels *)

Definition nl : string := String "010"%char EmptyString.

Definition example_corpus : string :=
  ("__label__pos good film" ++ nl ++ "__label__neg bad film" ++ nl)%string.

Definition example_args : Args :=
  {| label := "__label__"; minCount := 1; minCountLabel := 1;
     t := WordsOnlyFacts.default_t; model := sg; verbose := 0 |}.

Definition example_dictionary : Dictionary :=
  Eval vm_compute in
    match @readFromFile insertion_StdSort (open_stream example_corpus)
                        (new example_args 0) with
    | Ok (d, _) => d
    | Err _ => new example_args 0
    end.

Lemma la_example_dictionary_built :
  exists s, @readFromFile insertion_StdSort (open_stream example_corpus)
                          (new example_args 0)
            = Ok (example_dictionary, s).
Proof. eexists. vm_compute. reflexivity. Qed.


(** ** prune *)

Section Prune.
Context `{StdSort}.

Lemma la_prune_unfold (idx : list Z) (d : Dictionary) :
  prune idx d =
  let d0 := set_word2int (set_pruneidx_size d (Z.of_nat (size (pruneidx_ d)))) ∅ in
  r ← compact_loop word (prune_keep d0 (kept_ids idx (nwords_ d)))
        (seq 0 (length (words_ d))) 0%nat (words_ d) ∅;
  Ok (set_size
        (set_nwords (set_word2int (set_words d0 r.1.1) r.1.2)
                    (Z.of_nat (length (kept_ids idx (nwords_ d)))))
        (Z.of_nat (length (kept_ids idx (nwords_ d))) + nlabels_ d),
      kept_ids idx (nwords_ d)).
Proof.
  unfold prune, kept_ids. cbn [words_ word2int_ set_word2int set_pruneidx_size].
  destruct (compact_loop _ _ _ _ _ _) as [[[ws tbl] j]|]; reflexivity.
Qed.

Variable idx : list Z.
Variable d : Dictionary.
Hypothesis d_layout : layout d.
Hypothesis d_fits : Z.of_nat (length (words_ d)) <= MAX_VOCAB_SIZE.
Hypothesis nonneg :
  Forall (fun x => 0 <= x) (List.filter (fun x => x <? nwords_ d) idx).
Hypothesis distinct : NoDup (List.filter (fun x => x <? nwords_ d) idx).

(** The positions [prune] keeps: the kept word ids, then every label. *)
Definition prune_positions : list nat :=
  kept_positions idx (nwords_ d)
  ++ seq (Z.to_nat (nwords_ d)) (Z.to_nat (nlabels_ d)).

Lemma prune_positions_lookup (k p : nat) :
  prune_positions !! k = Some p <->
  (kept_ids idx (nwords_ d) !! k = Some (Z.of_nat p))
  \/ ((length (kept_ids idx (nwords_ d)) <= k)%nat
      /\ (k - length (kept_ids idx (nwords_ d)) < Z.to_nat (nlabels_ d))%nat
      /\ p = (Z.to_nat (nwords_ d) + (k - length (kept_ids idx (nwords_ d))))%nat).
Proof.
  unfold prune_positions.
  pose proof (kept_positions_length idx (nwords_ d)) as Hlen.
  destruct (Nat.lt_ge_cases k (length (kept_ids idx (nwords_ d)))) as [Hk|Hk].
  - rewrite lookup_app_l by lia. rewrite kept_positions_lookup by exact nonneg.
    split; [auto|]. intros [?|[? _]]; [assumption | lia].
  - rewrite lookup_app_r by lia. rewrite Hlen. rewrite lookup_seq. split.
    + intros [-> ?]. right. repeat split; lia.
    + intros [Hl|(_ & ? & ->)].
      * apply lookup_lt_Some in Hl. lia.
      * split; [reflexivity | assumption].
Qed.

Lemma prune_positions_increasing (k1 k2 p1 p2 : nat) :
  (k1 < k2)%nat -> prune_positions !! k1 = Some p1 ->
  prune_positions !! k2 = Some p2 -> (p1 < p2)%nat.
Proof.
  intros Hlt H1 H2. apply prune_positions_lookup in H1, H2.
  pose proof (layout_nwords d d_layout).
  destruct H1 as [H1|(? & ? & ->)], H2 as [H2|(? & ? & ->)].
  - pose proof (kept_ids_increasing idx _ distinct k1 k2 _ _ Hlt H1 H2). lia.
  - pose proof (kept_ids_range idx _ nonneg k1 _ H1). lia.
  - apply lookup_lt_Some in H2. lia.
  - lia.
Qed.

Lemma prune_positions_bounded (k p : nat) :
  prune_positions !! k = Some p -> (p < length (words_ d))%nat.
Proof.
  intros H1. apply prune_positions_lookup in H1.
  pose proof (layout_size d d_layout). pose proof (layout_sum d d_layout).
  pose proof (layout_nwords d d_layout). pose proof (layout_nlabels d d_layout).
  destruct H1 as [H1|(? & ? & ->)].
  - pose proof (kept_ids_range idx _ nonneg k _ H1). lia.
  - lia.
Qed.

Lemma prune_positions_length :
  length prune_positions
  = (length (kept_ids idx (nwords_ d)) + Z.to_nat (nlabels_ d))%nat.
Proof.
  unfold prune_positions. rewrite length_app, kept_positions_length, length_seq.
  reflexivity.
Qed.

Lemma prune_keep_spec (i j : nat) (ws : list entry) (tbl : gmap Z Z) :
  (i < length (words_ d))%nat ->
  compact_inv (words_ d) prune_positions i j ws tbl ->
  prune_keep
    (set_word2int (set_pruneidx_size d (Z.of_nat (size (pruneidx_ d)))) ∅)
    (kept_ids idx (nwords_ d)) ws i j
  = Ok (bool_decide (prune_positions !! j = Some i)).
Proof.
  intros Hi Hinv.
  pose proof (layout_size d d_layout) as Hsz.
  pose proof (layout_sum d d_layout) as Hsum.
  pose proof (layout_nwords d d_layout) as Hnw.
  pose proof (layout_nlabels d d_layout) as Hnl.
  destruct (lookup_lt_is_Some_2 (words_ d) i Hi) as [e He].
  pose proof (inv_rest _ _ _ _ _ _ Hinv i (le_n i)) as Hws. rewrite He in Hws.
  unfold prune_keep.
  rewrite (getType_Ok _ (Z.of_nat i) e); cycle 1.
  { cbn. lia. }
  { cbn. apply vec_at_Ok. rewrite Nat2Z.id. split; [lia | exact Hws]. }
  rewrite bind_Ok. f_equal.
  rewrite (layout_type d d_layout i e He).
  destruct (Z.ltb_spec (Z.of_nat i) (nwords_ d)) as [Hw|Hl].
  - cbn [entry_type.eqb orb]. apply bool_decide_ext.
    rewrite prune_positions_lookup. split; [auto|].
    intros [?|(_ & _ & ?)]; [assumption | lia].
  - cbn [entry_type.eqb orb]. symmetry. apply bool_decide_eq_true.
    set (p := (length (kept_ids idx (nwords_ d)) + (i - Z.to_nat (nwords_ d)))%nat).
    assert (Hp : prune_positions !! p = Some i).
    { apply prune_positions_lookup. right. subst p. repeat split; lia. }
    destruct (Nat.lt_trichotomy p j) as [Hlt|[Heq|Hgt]].
    + destruct (inv_done _ _ _ _ _ _ Hinv p i Hlt Hp). lia.
    + subst j. exact Hp.
    + destruct (lookup_lt_is_Some_2 prune_positions j) as [q Hq].
      { apply lookup_lt_Some in Hp. lia. }
      pose proof (inv_todo _ _ _ _ _ _ Hinv j q (le_n j) Hq).
      pose proof (prune_positions_increasing j p q i Hgt Hq Hp). lia.
Qed.

(** What [prune] does to a list of distinct, non-negative word ids. *)
Lemma la_prune_spec :
  exists d',
    prune idx d = Ok (d', kept_ids idx (nwords_ d))
    /\ nwords_ d' = Z.of_nat (length (kept_ids idx (nwords_ d)))
    /\ nlabels_ d' = nlabels_ d
    /\ size_ d' = nwords_ d' + nlabels_ d'
    /\ length (words_ d') = length (words_ d)
    /\ (forall k z, kept_ids idx (nwords_ d) !! k = Some z ->
                    words_ d' !! k = words_ d !! Z.to_nat z)
    /\ (forall l, (l < Z.to_nat (nlabels_ d))%nat ->
                  words_ d' !! (length (kept_ids idx (nwords_ d)) + l)%nat
                  = words_ d !! (Z.to_nat (nwords_ d) + l)%nat)
    /\ pdiscard_ d' = pdiscard_ d /\ args_ d' = args_ d
    /\ ntokens_ d' = ntokens_ d.
Proof.
  destruct (compact_loop_spec word
              (prune_keep
                 (set_word2int
                    (set_pruneidx_size d (Z.of_nat (size (pruneidx_ d)))) ∅)
                 (kept_ids idx (nwords_ d)))
              (words_ d) prune_positions d_fits)
    as (ws' & tbl' & Hloop & Hlen & Hkept & Hvalid).
  - exact prune_positions_increasing.
  - exact prune_positions_bounded.
  - exact prune_keep_spec.
  - rewrite la_prune_unfold. cbv zeta. rewrite Hloop, bind_Ok.
    eexists. split; [reflexivity|].
    cbn. rewrite Hlen. repeat split; try reflexivity.
    + intros k z Hk. apply Hkept. apply prune_positions_lookup. left.
      pose proof (kept_ids_range idx _ nonneg k z Hk).
      rewrite Z2Nat.id by lia. exact Hk.
    + intros l Hl. apply Hkept. apply prune_positions_lookup. right.
      repeat split; lia.
Qed.
End Prune.

Lemma la_discard_eq (d : Dictionary) (id : Z) (r : spec_float) :
  0 <= id < nwords_ d ->
  discard d id r =
  if model_name_eqb (model (args_ d)) sup then Ok false
  else p ← vec_at (pdiscard_ d) id; Ok (real_gt r p).
Proof.
  intros [H0 H1]. unfold discard.
  destruct (Z.leb_spec 0 id); [|lia]. destruct (Z.ltb_spec id (nwords_ d)); [|lia].
  reflexivity.
Qed.

Section PruneFrame.
Context `{StdSort}.

(** [prune] touches neither the subsampling table nor the options. *)
Lemma la_prune_frame (idx idx' : list Z) (d d' : Dictionary) :
  prune idx d = Ok (d', idx') ->
  pdiscard_ d' = pdiscard_ d /\ args_ d' = args_ d.
Proof.
  rewrite la_prune_unfold. cbv zeta.
  destruct (compact_loop _ _ _ _ _ _) as [[[ws tbl] j]|]; [|discriminate].
  rewrite bind_Ok. intros Hd. inversion Hd; subst. split; reflexivity.
Qed.

Lemma la_discard_after_prune (idx idx' : list Z) (d d' : Dictionary)
    (id : Z) (r : spec_float) :
  prune idx d = Ok (d', idx') -> 0 <= id < nwords_ d' ->
  discard d' id r =
  if model_name_eqb (model (args_ d)) sup then Ok false
  else p ← vec_at (pdiscard_ d) id; Ok (real_gt r p).
Proof.
  intros Hp Hid. destruct (la_prune_frame _ _ _ _ Hp) as [Hpd Ha].
  rewrite la_discard_eq by exact Hid. rewrite Hpd, Ha. reflexivity.
Qed.
End PruneFrame.

(** A check of [layout] by computation. *)
Fixpoint types_from (i nw : Z) (ws : list entry) : bool :=
  match ws with
  | [] => true
  | e :: ws' =>
      entry_type.eqb (type e)
        (if i <? nw then entry_type.word else entry_type.label)
      && types_from (i + 1) nw ws'
  end.

Lemma types_from_spec (ws : list entry) (i nw : Z) (k : nat) (e : entry) :
  types_from i nw ws = true -> ws !! k = Some e ->
  type e = if i + Z.of_nat k <? nw then entry_type.word else entry_type.label.
Proof.
  revert i k. induction ws as [|x ws IH]; intros i k Ht Hk; [discriminate|].
  cbn [types_from] in Ht. apply andb_true_iff in Ht. destruct Ht as [Hx Hws].
  destruct k as [|k].
  - inversion Hk; subst. replace (i + Z.of_nat 0) with i by lia.
    destruct (type e), (i <? nw); try reflexivity; discriminate.
  - replace (i + Z.of_nat (Datatypes.S k)) with ((i + 1) + Z.of_nat k) by lia.
    apply IH; assumption.
Qed.

Definition layoutb (d : Dictionary) : bool :=
  (size_ d =? Z.of_nat (length (words_ d)))
  && (size_ d =? nwords_ d + nlabels_ d)
  && (0 <=? nwords_ d) && (0 <=? nlabels_ d)
  && types_from 0 (nwords_ d) (words_ d).

Lemma layoutb_layout (d : Dictionary) : layoutb d = true -> layout d.
Proof.
  unfold layoutb. rewrite !andb_true_iff.
  intros [[[[H1 H2] H3] H4] H5].
  apply Z.eqb_eq in H1, H2. apply Z.leb_le in H3, H4.
  split; try assumption.
  intros i e He. apply (types_from_spec _ 0 _ i e H5 He).
Qed.

Lemma la_example_dictionary_layout : layout example_dictionary.
Proof. apply layoutb_layout. vm_compute. reflexivity. Qed.


(** ** getLine with labels *)

Lemma la_find_stops (d : Dictionary) (w : string) (h : Z) :
  index_valid (word2int_ d) (length (words_ d)) ->
  (exists e, 0 <= e < MAX_VOCAB_SIZE /\ slot_at (word2int_ d) e = -1) ->
  exists id, find_h d w h = Ok id /\ 0 <= id < MAX_VOCAB_SIZE
             /\ stops_at (word2int_ d) (word_at d) w id.
Proof.
  intros Hv He. unfold find_h.
  change (word_at d) with (stored_word word (words_ d)).
  apply probe_on_entries; assumption.
Qed.

(** How the loop classifies a token: the id found for it, and the type of
    that entry or, out of the vocabulary, the type its prefix gives. *)
Definition classify (d : Dictionary) (token : string) : Result (Z * entry_type.t) :=
  wid ← getId_h d token (hash token);
  ty ← (if wid <? 0 then Ok (getType_word d token) else getType d wid);
  Ok (wid, ty).

(** What the loop pushes to [words] for a token. *)
Definition pushed_words (d : Dictionary) (token : string) : list Z :=
  match classify d token with
  | Ok (wid, entry_type.word) => [wid]
  | _ => []
  end.


(** The label ids, counted from the first label, of the tokens that are
    labels of the vocabulary. *)
Definition label_ids (d : Dictionary) (token : string) : list Z :=
  match classify d token with
  | Ok (wid, entry_type.label) => if 0 <=? wid then [wid - nwords_ d] else []
  | _ => []
  end.

Lemma getLine_labels_loop_step (fuel : nat) (d : Dictionary) (s : istream)
    (ws ls : list Z) (ntok : Z) (seen : list string) :
  getLine_labels_loop (Datatypes.S fuel) d s ws ls ntok seen =
  if (readWord s).1.1 then
    wid ← getId_h d (readWord s).1.2 (hash (readWord s).1.2);
    ty ← (if wid <? 0 then Ok (getType_word d (readWord s).1.2) else getType d wid);
    let '(ws1, ls1) :=
      if entry_type.eqb ty entry_type.word then (ws ++ [wid], ls)
      else if entry_type.eqb ty entry_type.label && (0 <=? wid)
           then (ws, ls ++ [wid - nwords_ d])
           else (ws, ls) in
    if String.eqb (readWord s).1.2 EOS
    then Ok (ntok + 1, ws1, ls1, (readWord s).2, seen ++ [(readWord s).1.2])
    else getLine_labels_loop fuel d (readWord s).2 ws1 ls1 (ntok + 1)
           (seen ++ [(readWord s).1.2])
  else Ok (ntok, ws, ls, (readWord s).2, seen).
Proof.
  cbn [getLine_labels_loop]. destruct (readWord s) as [[more token] s1]. reflexivity.
Qed.

Lemma sentinel_last_cons (token : string) (new : list string) :
  token <> EOS ->
  (forall pre post, new = pre ++ EOS :: post -> post = []) ->
  forall pre post, token :: new = pre ++ EOS :: post -> post = [].
Proof.
  intros Hne IH pre post Heq. destruct pre as [|x pre].
  - inversion Heq. congruence.
  - inversion Heq; subst. eapply IH. reflexivity.
Qed.

Lemma sentinel_last_single (token : string) :
  forall pre post, [token] = pre ++ EOS :: post -> post = [].
Proof.
  intros pre post Heq. destruct pre as [|x pre].
  - inversion Heq. reflexivity.
  - inversion Heq as [[Hx Hnil]]. destruct pre; discriminate.
Qed.

(** What the loop returns, token by token. *)
Lemma getLine_labels_loop_spec (fuel : nat) (d : Dictionary) (s : istream)
    (ws ls : list Z) (ntok : Z) (seen : list string)
    (n : Z) (ws' ls' : list Z) (s' : istream) (seen' : list string) :
  getLine_labels_loop fuel d s ws ls ntok seen = Ok (n, ws', ls', s', seen') ->
  exists new,
    seen' = seen ++ new
    /\ n = ntok + Z.of_nat (length new)
    /\ ws' = ws ++ flat_map (pushed_words d) new
    /\ ls' = ls ++ flat_map (label_ids d) new
    /\ (forall pre post, new = pre ++ EOS :: post -> post = []).
Proof.
  revert s ws ls ntok seen.
  induction fuel as [|fuel IH]; intros s ws ls ntok seen Hl; [discriminate|].
  rewrite getLine_labels_loop_step in Hl.
  destruct ((readWord s).1.1).
  - set (token := (readWord s).1.2) in *.
    assert (Hpw : forall wid ty, classify d token = Ok (wid, ty) ->
              (if entry_type.eqb ty entry_type.word then (ws ++ [wid], ls)
               else if entry_type.eqb ty entry_type.label && (0 <=? wid)
                    then (ws, ls ++ [wid - nwords_ d]) else (ws, ls))
              = (ws ++ pushed_words d token, ls ++ label_ids d token)).
    { intros wid ty Hc. unfold pushed_words, label_ids. rewrite Hc.
      destruct ty; cbn [entry_type.eqb andb].
      - rewrite app_nil_r. reflexivity.
      - destruct (0 <=? wid); rewrite ?app_nil_r; reflexivity. }
    assert (Hcl : classify d token =
              (wid ← getId_h d token (hash token);
               ty ← (if wid <? 0 then Ok (getType_word d token) else getType d wid);
               Ok (wid, ty))) by reflexivity.
    destruct (getId_h d token (hash token)) as [wid|]; [|discriminate].
    rewrite bind_Ok in Hl. rewrite bind_Ok in Hcl.
    destruct (if wid <? 0 then Ok (getType_word d token) else getType d wid)
      as [ty|]; [|discriminate].
    rewrite bind_Ok in Hl. rewrite bind_Ok in Hcl. rewrite (Hpw wid ty Hcl) in Hl.
    destruct (String.eqb_spec token EOS) as [Heos|Hne].
    + inversion Hl; subst; clear Hl. exists [token].
      cbn [flat_map length]. rewrite !app_nil_r.
      repeat split; try reflexivity. apply sentinel_last_single.
    + destruct (IH _ _ _ _ _ Hl) as (new & Hs & Hn & Hw & Hls & Hlast).
      exists (token :: new). cbn [flat_map length].
      rewrite Hs, Hn, Hw, Hls, <- !app_assoc.
      repeat split; try reflexivity; try lia.
      apply sentinel_last_cons; assumption.
  - inversion Hl; subst; clear Hl. exists []. cbn [flat_map length].
    rewrite !app_nil_r. repeat split; try reflexivity; try lia.
    intros pre post Heq. destruct pre; discriminate.
Qed.

(** A dictionary the reader can use. *)
Record usable (d : Dictionary) : Prop := {
  usable_size : size_ d = Z.of_nat (length (words_ d));
  usable_index : index_valid (word2int_ d) (length (words_ d));
  usable_free : exists e, 0 <= e < MAX_VOCAB_SIZE /\ slot_at (word2int_ d) e = -1
}.

Lemma getLine_labels_loop_returns (fuel : nat) (d : Dictionary) (s : istream)
    (ws ls : list Z) (ntok : Z) (seen : list string) :
  usable d -> (length (unread s) < fuel)%nat ->
  exists r, getLine_labels_loop fuel d s ws ls ntok seen = Ok r.
Proof.
  intros Hu. revert s ws ls ntok seen.
  induction fuel as [|fuel IH]; intros s ws ls ntok seen Hf; [lia|].
  rewrite getLine_labels_loop_step.
  destruct ((readWord s).1.1) eqn:Hmore; [|eauto].
  pose proof (readWord_progress s Hmore) as Hp.
  destruct (la_find_stops d (readWord s).1.2 (hash (readWord s).1.2)
              (usable_index d Hu) (usable_free d Hu)) as (h & Hh & _ & _).
  unfold getId_h. rewrite Hh, !bind_Ok.
  assert (Hty : exists ty,
             (if slot_at (word2int_ d) h <? 0
              then Ok (getType_word d (readWord s).1.2)
              else getType d (slot_at (word2int_ d) h)) = Ok ty).
  { destruct (Z.ltb_spec (slot_at (word2int_ d) h) 0) as [Hneg|Hpos]; [eauto|].
    assert (Hr : 0 <= slot_at (word2int_ d) h < Z.of_nat (length (words_ d))).
    { apply index_valid_slot; [exact (usable_index d Hu) | lia]. }
    destruct (vec_at_in_range (words_ d) _ Hr) as [e He].
    exists (type e). apply getType_Ok; [|exact He].
    rewrite (usable_size d Hu). exact Hr. }
  destruct Hty as [ty Hty]. rewrite Hty, bind_Ok.
  destruct (if entry_type.eqb ty entry_type.word then _ else _) as [ws1 ls1].
  destruct (String.eqb (readWord s).1.2 EOS); [eauto|]. apply IH. lia.
Qed.

Lemma la_example_dictionary_usable : usable example_dictionary.
Proof.
  split.
  - reflexivity.
  - apply (bool_decide_unpack _). vm_compute. exact I.
  - exists 0. split; [unfold MAX_VOCAB_SIZE; lia | vm_compute; reflexivity].
Qed.


(** ** save and load *)

(** The probability stored for an entry. *)
Definition pdiscard_of (d : Dictionary) (e : entry) : spec_float :=
  discard_probability (t (args_ d))
    (SFdiv real_prec real_emax (real_of_int (count e)) (real_of_int (ntokens_ d))).

Lemma la_initTableDiscard_Ok (d : Dictionary) :
  0 <= size_ d <= Z.of_nat (length (words_ d)) ->
  initTableDiscard d
  = Ok (set_pdiscard d (map (pdiscard_of d) (take (Z.to_nat (size_ d)) (words_ d)))).
Proof.
  intros Hn. unfold initTableDiscard.
  destruct (Z.ltb_spec (size_ d) 0); [lia|].
  pose proof (mapM_seqZ_prefix (pdiscard_of d) (words_ d) (size_ d) Hn) as Hm.
  unfold pdiscard_of in Hm. cbv zeta. rewrite Hm. reflexivity.
Qed.

(** A dictionary as the builder leaves it. *)
Record persistable (d : Dictionary) : Prop := {
  pers_size : size_ d = Z.of_nat (length (words_ d));
  pers_fits : Z.of_nat (length (words_ d)) <= MAX_VOCAB_SIZE;
  pers_nwords : int32 (nwords_ d);
  pers_nlabels : int32 (nlabels_ d);
  pers_ntokens : int64 (ntokens_ d);
  pers_entries : Forall (fun e => nul_free (word e) /\ int64 (count e)) (words_ d);
  pers_prune_size : int64 (pruneidx_size_ d);
  pers_prune_count : Z.to_nat (pruneidx_size_ d) = size (pruneidx_ d);
  pers_prune : map_Forall (fun k v => int32 k /\ int32 v) (pruneidx_ d);
  pers_pdiscard : pdiscard_ d = map (pdiscard_of d) (words_ d)
}.

Lemma la_Dictionary_eq (a b : Dictionary) :
  args_ a = args_ b -> word2int_ a = word2int_ b -> words_ a = words_ b ->
  pdiscard_ a = pdiscard_ b -> size_ a = size_ b -> nwords_ a = nwords_ b ->
  nlabels_ a = nlabels_ b -> ntokens_ a = ntokens_ b ->
  pruneidx_size_ a = pruneidx_size_ b -> pruneidx_ a = pruneidx_ b -> a = b.
Proof. destruct a, b. cbn. intros; subst; reflexivity. Qed.

(** The image of a dictionary. *)
Definition image (d : Dictionary) : list ascii :=
  le_bytes 4 (size_ d) ++ le_bytes 4 (nwords_ d) ++ le_bytes 4 (nlabels_ d)
  ++ le_bytes 8 (ntokens_ d) ++ le_bytes 8 (pruneidx_size_ d)
  ++ flat_map save_entry (words_ d) ++ save_pruneidx (pruneidx_ d).

Lemma la_save_image (d : Dictionary) :
  size_ d = Z.of_nat (length (words_ d)) -> save d = Ok (image d).
Proof.
  intros Hn. unfold save.
  rewrite mapM_vec_at_prefix by lia. rewrite bind_Ok.
  rewrite Hn, Nat2Z.id, firstn_all. unfold image. rewrite Hn. reflexivity.
Qed.

Lemma la_find_unfold (d : Dictionary) (w : string) :
  find d w = find_h d w (hash w).
Proof. unfold find. reflexivity. Qed.

Lemma la_load_entries_step (n : nat) (i : Z) (s : istream) (d : Dictionary) :
  load_entries (Datatypes.S n) i s d =
  _ ← (if good s then Ok tt else Err Diverges);
  r ← load_word (unread s) EmptyString;
  c ← read_int 8 (set_unread s r.2);
  tb ← read_int 1 c.2;
  ty ← (match entry_type.of_byte tb.1 with
        | Some ty => Ok ty
        | None => Err Malformed
        end);
  h ← find (set_words d (words_ d ++ [{| word := r.1; count := c.1; type := ty |}])) r.1;
  load_entries n (i + 1) tb.2
    (set_word2int
       (set_words d (words_ d ++ [{| word := r.1; count := c.1; type := ty |}]))
       (<[h := i]> (word2int_ d))).
Proof.
  cbn [load_entries]. destruct (good s); [|reflexivity]. rewrite !bind_Ok.
  destruct (load_word (unread s) EmptyString) as [[w r]|]; [|reflexivity].
  rewrite !bind_Ok. cbn [fst snd].
  destruct (read_int 8 (set_unread s r)) as [[c s1]|]; [|reflexivity].
  rewrite !bind_Ok. cbn [fst snd].
  destruct (read_int 1 s1) as [[tb s2]|]; [|reflexivity].
  rewrite !bind_Ok. cbn [fst snd]. reflexivity.
Qed.

Lemma of_byte_ordinal (ty : entry_type.t) :
  entry_type.of_byte (entry_type.ordinal ty) = Some ty.
Proof. destruct ty; reflexivity. Qed.

Lemma la_load_entries_spec (es : list entry) (i : Z) (s : istream) (d : Dictionary)
    (rest : list ascii) :
  good s = true ->
  unread s = flat_map save_entry es ++ rest ->
  Forall (fun e => nul_free (word e) /\ int64 (count e)) es ->
  index_valid (word2int_ d) (length (words_ d)) ->
  (size (word2int_ d) <= length (words_ d))%nat ->
  Z.of_nat (length (words_ d) + length es) <= MAX_VOCAB_SIZE ->
  i = Z.of_nat (length (words_ d)) ->
  exists tbl,
    load_entries (length es) i s d
    = Ok (set_word2int (set_words d (words_ d ++ es)) tbl, set_unread s rest).
Proof.
  revert i s d. induction es as [|e es IH]; intros i s d Hg Hu HF Hv Hsz Hcap Hi.
  - exists (word2int_ d). cbn in Hu. cbn [length load_entries].
    rewrite app_nil_r, <- Hu. destruct d, s; reflexivity.
  - apply Forall_cons in HF. destruct HF as [[Hnul Hcnt] HF'].
    cbn [length]. rewrite la_load_entries_step, Hg, bind_Ok.
    cbn [flat_map] in Hu. unfold save_entry at 1 in Hu.
    rewrite <- !app_assoc in Hu. cbn [app] in Hu.
    rewrite Hu, (load_word_spec (word e) EmptyString _ Hnul), bind_Ok.
    cbn [fst snd].
    rewrite (read_int_le_bytes 8 (count e) (set_unread s _) _ ltac:(lia) Hcnt Hg eq_refl).
    rewrite bind_Ok. cbn [fst snd]. rewrite set_unread_set_unread.
    rewrite (read_int_le_bytes 1 (entry_type.ordinal (type e)) (set_unread s _) _
               ltac:(lia) ltac:(destruct (type e); cbn; lia) Hg eq_refl).
    rewrite bind_Ok. cbn [fst snd]. rewrite set_unread_set_unread.
    rewrite of_byte_ordinal, bind_Ok.
    change (EmptyString ++ word e)%string with (word e).
    replace {| word := word e; count := count e; type := type e |} with e
      by (destruct e; reflexivity).
    set (d1 := set_words d (words_ d ++ [e])).
    destruct (la_find_stops d1 (word e) (hash (word e))) as (h & Hh & _ & _).
    { cbn [d1 set_words word2int_ words_]. rewrite length_app. cbn [length].
      eapply index_valid_mono; [|exact Hv]. lia. }
    { cbn [d1 set_words word2int_]. apply free_slot.
      cbn [length] in Hcap. lia. }
    rewrite <- la_find_unfold in Hh. rewrite Hh, bind_Ok.
    destruct (IH (i + 1) (set_unread s (flat_map save_entry es ++ rest))
                (set_word2int d1 (<[h := i]> (word2int_ d)))) as [tbl Htbl].
    + exact Hg.
    + reflexivity.
    + exact HF'.
    + cbn [d1 set_word2int set_words word2int_ words_]. rewrite length_app.
      cbn [length]. apply index_valid_insert; [|lia].
      eapply index_valid_mono; [|exact Hv]. lia.
    + cbn [d1 set_word2int set_words word2int_ words_]. rewrite length_app.
      cbn [length]. pose proof (map_size_insert h i (word2int_ d)) as Hins.
      destruct (word2int_ d !! h); unfold id in Hins; lia.
    + cbn [d1 set_word2int set_words words_]. rewrite length_app.
      cbn [length] in *. lia.
    + cbn [d1 set_word2int set_words words_]. rewrite length_app. cbn [length]. lia.
    + exists tbl. rewrite Htbl. rewrite set_unread_set_unread. f_equal. f_equal.
      apply la_Dictionary_eq; cbn; try reflexivity.
      rewrite <- app_assoc. reflexivity.
Qed.

(** Loading the image of a persistable dictionary into a dictionary with the
    same options. *)
Lemma la_load_image (d d0 : Dictionary) :
  persistable d -> args_ d0 = args_ d ->
  exists tbl,
    load (stream_of_bytes (image d)) d0
    = Ok (mkDict (args_ d) tbl (words_ d) (pdiscard_ d) (size_ d) (nwords_ d)
                 (nlabels_ d) (ntokens_ d) (pruneidx_size_ d) (pruneidx_ d),
          set_unread (stream_of_bytes (image d)) []).
Proof.
  intros Hp Ha. unfold load.
  assert (Hsz32 : - 2 ^ (8 * Z.of_nat 4 - 1) <= size_ d < 2 ^ (8 * Z.of_nat 4 - 1)).
  { pose proof (pers_fits d Hp). rewrite (pers_size d Hp).
    unfold MAX_VOCAB_SIZE in *. change (2 ^ (8 * Z.of_nat 4 - 1)) with 2147483648. lia. }
  set (s0 := stream_of_bytes (image d)).
  rewrite (read_int_le_bytes 4 (size_ d) s0 _ ltac:(lia) Hsz32 eq_refl eq_refl),
    bind_Ok.
  rewrite (read_int_le_bytes 4 (nwords_ d) (set_unread s0 _) _ ltac:(lia)
             (pers_nwords d Hp) eq_refl eq_refl), bind_Ok.
  rewrite (read_int_le_bytes 4 (nlabels_ d) (set_unread (set_unread s0 _) _) _
             ltac:(lia) (pers_nlabels d Hp) eq_refl eq_refl), bind_Ok.
  rewrite !set_unread_set_unread.
  rewrite (read_int_le_bytes 8 (ntokens_ d) (set_unread s0 _) _ ltac:(lia)
             (pers_ntokens d Hp) eq_refl eq_refl), bind_Ok.
  rewrite (read_int_le_bytes 8 (pruneidx_size_ d) (set_unread (set_unread s0 _) _) _
             ltac:(lia) (pers_prune_size d Hp) eq_refl eq_refl), bind_Ok.
  rewrite !set_unread_set_unread.
  replace (Z.to_nat (size_ d)) with (length (words_ d))
    by (rewrite (pers_size d Hp), Nat2Z.id; reflexivity).
  set (d1 := set_pruneidx_size _ _).
  destruct (la_load_entries_spec (words_ d) 0
              (set_unread s0
                 (flat_map save_entry (words_ d) ++ save_pruneidx (pruneidx_ d)))
              d1 (save_pruneidx (pruneidx_ d) ++ [])) as [tbl Htbl].
  - reflexivity.
  - cbn [unread set_unread]. rewrite app_nil_r. reflexivity.
  - exact (pers_entries d Hp).
  - apply index_valid_empty.
  - cbn. rewrite map_size_empty. lia.
  - cbn. exact (pers_fits d Hp).
  - reflexivity.
  - rewrite Htbl, bind_Ok. rewrite set_unread_set_unread.
    rewrite (pers_prune_count d Hp).
    rewrite (load_pruneidx_spec (pruneidx_ d)
               (set_unread s0 (save_pruneidx (pruneidx_ d) ++ [])) []
               (pers_prune d Hp) eq_refl eq_refl), bind_Ok.
    rewrite set_unread_set_unread.
    rewrite la_initTableDiscard_Ok; cycle 1.
    { cbn. rewrite (pers_size d Hp). lia. }
    rewrite bind_Ok. exists tbl. f_equal. f_equal. subst d1.
    apply la_Dictionary_eq; cbn; try reflexivity; [exact Ha|].
    rewrite (pers_size d Hp), Nat2Z.id, firstn_all, (pers_pdiscard d Hp).
    apply map_ext. intros e. unfold pdiscard_of. cbn. rewrite Ha. reflexivity.
Qed.



(** ** What the builder leaves behind *)

Lemma la_threshold_cmp_swo : strict_weak_order threshold_cmp.
Proof.
  unfold threshold_cmp. split.
  - intros a. destruct (type a); cbn; apply Z.ltb_irrefl.
  - intros a b c. destruct (type a), (type b), (type c); cbn; intros H1 H2;
      try discriminate; try reflexivity.
    all: apply Z.ltb_lt in H1, H2; apply Z.ltb_lt; lia.
  - intros a b c. destruct (type a), (type b), (type c); cbn; intros H1 H2 H3 H4;
      try discriminate.
    all: apply Z.ltb_ge in H1, H2, H3, H4; split; apply Z.ltb_ge; lia.
Qed.

(** The number of entries of one type. *)
Definition count_type (ty : entry_type.t) (es : list entry) : nat :=
  length (List.filter (fun e => entry_type.eqb (type e) ty) es).

Lemma count_type_cons (ty : entry_type.t) (e : entry) (es : list entry) :
  count_type ty (e :: es)
  = ((if entry_type.eqb (type e) ty then 1 else 0) + count_type ty es)%nat.
Proof.
  unfold count_type. cbn [List.filter].
  destruct (entry_type.eqb (type e) ty); reflexivity.
Qed.

Lemma count_type_sum (es : list entry) :
  (count_type entry_type.word es + count_type entry_type.label es)%nat = length es.
Proof.
  induction es as [|e es IH]; [reflexivity|].
  rewrite !count_type_cons. cbn [length]. destruct (type e); cbn; lia.
Qed.

Lemma la_add_cases (w : string) (d d' : Dictionary) :
  add w d = Ok d' ->
  ntokens_ d' = ntokens_ d + 1 /\ args_ d' = args_ d
  /\ pruneidx_size_ d' = pruneidx_size_ d /\ pruneidx_ d' = pruneidx_ d
  /\ ((words_ d' = words_ d ++ [mkEntry w 1 (getType_word d w)]
       /\ size_ d' = size_ d + 1)
      \/ (exists i e,
             words_ d !! i = Some e
             /\ words_ d' = <[i := mkEntry (word e) (count e + 1) (type e)]> (words_ d)
             /\ size_ d' = size_ d)).
Proof.
  unfold add. destruct (find d w) as [h|]; [|discriminate].
  rewrite bind_Ok. cbn [set_ntokens word2int_ words_].
  destruct (slot_at (word2int_ d) h =? -1).
  - intros Hd. inversion Hd; subst; clear Hd. cbn. repeat split. left. split; reflexivity.
  - destruct (vec_at (words_ d) (slot_at (word2int_ d) h)) as [e|] eqn:He; [|discriminate].
    rewrite bind_Ok. intros Hd. inversion Hd; subst; clear Hd. cbn. repeat split.
    right. apply vec_at_Ok in He. destruct He as [_ He].
    exists (Z.to_nat (slot_at (word2int_ d) h)), e. repeat split. exact He.
Qed.

(** One turn of the rebuilding loop. *)
Definition reindex (d : Dictionary) (e : entry) (h : Z) : Dictionary :=
  let d1 := set_size (set_word2int d (<[h := size_ d]> (word2int_ d)))
                     (size_ d + 1) in
  let d2 := if entry_type.eqb (type e) entry_type.word
            then set_nwords d1 (nwords_ d1 + 1) else d1 in
  if entry_type.eqb (type e) entry_type.label
  then set_nlabels d2 (nlabels_ d2 + 1) else d2.

Lemma la_threshold_loop_cons (e : entry) (es : list entry) (d : Dictionary) :
  threshold_loop (e :: es) d =
  h ← find d (word e);
  threshold_loop es (reindex d e h).
Proof. reflexivity. Qed.

Lemma reindex_fields (d : Dictionary) (e : entry) (h : Z) :
  words_ (reindex d e h) = words_ d
  /\ word2int_ (reindex d e h) = <[h := size_ d]> (word2int_ d)
  /\ size_ (reindex d e h) = size_ d + 1
  /\ nwords_ (reindex d e h)
     = nwords_ d + Z.of_nat (count_type entry_type.word [e])
  /\ nlabels_ (reindex d e h)
     = nlabels_ d + Z.of_nat (count_type entry_type.label [e])
  /\ args_ (reindex d e h) = args_ d /\ ntokens_ (reindex d e h) = ntokens_ d
  /\ pruneidx_size_ (reindex d e h) = pruneidx_size_ d
  /\ pruneidx_ (reindex d e h) = pruneidx_ d
  /\ pdiscard_ (reindex d e h) = pdiscard_ d.
Proof.
  unfold reindex, count_type. cbn [List.filter].
  destruct (type e); cbn; repeat split; lia.
Qed.

Lemma la_threshold_loop_fields (es : list entry) (d d' : Dictionary) :
  threshold_loop es d = Ok d' ->
  words_ d' = words_ d /\ size_ d' = size_ d + Z.of_nat (length es)
  /\ nwords_ d' = nwords_ d + Z.of_nat (count_type entry_type.word es)
  /\ nlabels_ d' = nlabels_ d + Z.of_nat (count_type entry_type.label es)
  /\ args_ d' = args_ d /\ ntokens_ d' = ntokens_ d
  /\ pruneidx_size_ d' = pruneidx_size_ d /\ pruneidx_ d' = pruneidx_ d
  /\ pdiscard_ d' = pdiscard_ d.
Proof.
  revert d. induction es as [|e es IH]; intros d Hl.
  - inversion Hl; subst. cbn. repeat split; lia.
  - rewrite la_threshold_loop_cons in Hl.
    destruct (find d (word e)) as [h|]; [|discriminate].
    rewrite bind_Ok in Hl. apply IH in Hl.
    destruct (reindex_fields d e h)
      as (R1 & _ & R3 & R4 & R5 & R6 & R7 & R8 & R9 & R10).
    destruct Hl as (H1 & H2 & H3 & H4 & H5 & H6 & H7 & H8 & H9).
    rewrite R1 in H1. rewrite R3 in H2. rewrite R4 in H3. rewrite R5 in H4.
    rewrite R6 in H5. rewrite R7 in H6. rewrite R8 in H7. rewrite R9 in H8.
    rewrite R10 in H9.
    rewrite !(count_type_cons _ e es). rewrite !count_type_cons in H3, H4.
    change (count_type entry_type.word []) with 0%nat in H3.
    change (count_type entry_type.label []) with 0%nat in H4.
    cbn [length].
    split; [exact H1|split; [lia|split; [lia|split; [lia|]]]].
    repeat split; assumption.
Qed.

Lemma la_threshold_loop_index (es : list entry) (d d' : Dictionary) :
  threshold_loop es d = Ok d' ->
  0 <= size_ d ->
  index_valid (word2int_ d) (Z.to_nat (size_ d)) ->
  Z.of_nat (size (word2int_ d)) <= size_ d ->
  index_valid (word2int_ d') (Z.to_nat (size_ d'))
  /\ Z.of_nat (size (word2int_ d')) <= size_ d'.
Proof.
  revert d. induction es as [|e es IH]; intros d Hl Hn Hv Hs.
  - inversion Hl; subst. split; assumption.
  - rewrite la_threshold_loop_cons in Hl.
    destruct (find d (word e)) as [h|]; [|discriminate].
    rewrite bind_Ok in Hl.
    destruct (reindex_fields d e h) as (_ & R2 & R3 & _).
    apply IH in Hl; [exact Hl | rewrite R3; lia | |].
    + rewrite R2, R3. apply index_valid_insert; [|lia].
      eapply index_valid_mono; [|exact Hv]. lia.
    + rewrite R2, R3.
      pose proof (map_size_insert h (size_ d) (word2int_ d)) as Hins.
      destruct (word2int_ d !! h); unfold id in Hins; lia.
Qed.


(** In a vector sorted by [threshold]'s order the words come first. *)
Lemma sorted_types (l : list entry) :
  StronglySorted (fun a b => threshold_cmp b a = false) l ->
  forall i e, l !! i = Some e ->
    type e = if Z.of_nat i <? Z.of_nat (count_type entry_type.word l)
             then entry_type.word else entry_type.label.
Proof.
  induction 1 as [|a l Hs IH Hall]; intros i e He.
  - rewrite lookup_nil in He. discriminate.
  - rewrite count_type_cons. destruct (type a) eqn:Hta; cbn [entry_type.eqb].
    + destruct i as [|i]; cbn in He.
      * inversion He; subst. rewrite Hta.
        destruct (Z.ltb_spec (Z.of_nat 0) (Z.of_nat (1 + count_type entry_type.word l)));
          [reflexivity | lia].
      * rewrite (IH i e He).
        destruct (Z.ltb_spec (Z.of_nat i) (Z.of_nat (count_type entry_type.word l))),
          (Z.ltb_spec (Z.of_nat (Datatypes.S i))
             (Z.of_nat (1 + count_type entry_type.word l)));
          try reflexivity; lia.
    + assert (Hlab : List.Forall (fun b => type b = entry_type.label) l).
      { eapply List.Forall_impl; [|exact Hall]. cbn. intros b Hb.
        unfold threshold_cmp in Hb. rewrite Hta in Hb.
        destruct (type b); [discriminate Hb | reflexivity]. }
      assert (Hnone : count_type entry_type.word l = 0%nat).
      { clear -Hlab. induction Hlab as [|b l Hb _ IHl]; [reflexivity|].
        rewrite count_type_cons, Hb, IHl. reflexivity. }
      rewrite Hnone.
      destruct (Z.ltb_spec (Z.of_nat i) (Z.of_nat (0 + 0))); [lia|].
      destruct i as [|i]; cbn in He.
      * inversion He; subst. exact Hta.
      * rewrite List.Forall_forall in Hlab. apply Hlab.
        eapply list_elem_of_In, list_elem_of_lookup_2, He.
Qed.

Section Threshold.
Context `{StdSort}.

Lemma la_threshold_fields (t tl : Z) (d d' : Dictionary) :
  threshold t tl d = Ok d' ->
  words_ d' = List.filter (fun e => negb (below_cutoff t tl e))
                          (std_sort threshold_cmp (words_ d))
  /\ size_ d' = Z.of_nat (length (words_ d'))
  /\ nwords_ d' = Z.of_nat (count_type entry_type.word (words_ d'))
  /\ nlabels_ d' = Z.of_nat (count_type entry_type.label (words_ d'))
  /\ args_ d' = args_ d /\ ntokens_ d' = ntokens_ d
  /\ pruneidx_size_ d' = pruneidx_size_ d /\ pruneidx_ d' = pruneidx_ d
  /\ pdiscard_ d' = pdiscard_ d
  /\ index_valid (word2int_ d') (length (words_ d'))
  /\ (size (word2int_ d') <= length (words_ d'))%nat.
Proof.
  unfold threshold. intros Hl.
  pose proof (la_threshold_loop_fields _ _ _ Hl)
    as (H1 & H2 & H3 & H4 & H5 & H6 & H7 & H8 & H9).
  cbn in H1, H2, H3, H4, H5, H6, H7, H8, H9.
  destruct (la_threshold_loop_index _ _ _ Hl) as [Hv Hs].
  { cbn. lia. }
  { cbn. apply index_valid_empty. }
  { cbn. rewrite map_size_empty. lia. }
  rewrite Z.add_0_l, <- H1 in H2, H3, H4.
  rewrite H2 in Hv, Hs. rewrite Nat2Z.id in Hv.
  repeat split; try assumption; lia.
Qed.

(** After [threshold] the words come first, the labels after them, and the
    three counters say how many there are. *)
Lemma threshold_layout (t tl : Z) (d d' : Dictionary) :
  threshold t tl d = Ok d' -> layout d'.
Proof.
  intros Hth.
  destruct (la_threshold_fields _ _ _ _ Hth) as (Hws & Hsz & Hnw & Hnl & _).
  pose proof (count_type_sum (words_ d')) as Hsum.
  split; try lia.
  intros i e He. rewrite Hnw. apply sorted_types; [|exact He].
  rewrite Hws. apply StronglySorted_filter_bool.
  apply std_sort_sorted, la_threshold_cmp_swo.
Qed.

Lemma la_threshold_words_perm (t tl : Z) (d d' : Dictionary) :
  threshold t tl d = Ok d' ->
  Permutation (words_ d')
              (List.filter (fun e => negb (below_cutoff t tl e)) (words_ d)).
Proof.
  intros Ht. destruct (la_threshold_fields _ _ _ _ Ht) as (Hw & _). rewrite Hw.
  apply filter_Permutation_bool, std_sort_perm.
Qed.
End Threshold.

(** The state of a dictionary between two turns of the reading loop. *)
Record counted (d : Dictionary) : Prop := {
  cnt_size : size_ d = Z.of_nat (length (words_ d));
  cnt_ntokens : 0 <= ntokens_ d;
  cnt_entries :
    List.Forall (fun e => nul_free (word e) /\ 1 <= count e <= ntokens_ d) (words_ d);
  cnt_prune_size : pruneidx_size_ d = -1;
  cnt_prune : pruneidx_ d = ∅
}.

Lemma la_new_counted (args : Args) : counted (new args 0).
Proof. split; cbn; try reflexivity. constructor. Qed.

Lemma la_add_counted (w : string) (d d' : Dictionary) :
  nul_free w -> counted d -> add w d = Ok d' ->
  counted d' /\ ntokens_ d' = ntokens_ d + 1 /\ args_ d' = args_ d
  /\ (length (words_ d') = length (words_ d)
      \/ (length (words_ d') = Datatypes.S (length (words_ d))
          /\ List.Exists (fun e => count e = 1) (words_ d'))).
Proof.
  intros Hw [Hn Ht He Hps Hp] Hadd.
  destruct (la_add_cases _ _ _ Hadd) as (Ht' & Ha' & Hps' & Hp' & Hcase).
  assert (Hold : List.Forall
            (fun e => nul_free (word e) /\ 1 <= count e <= ntokens_ d') (words_ d)).
  { eapply List.Forall_impl; [|exact He]. cbn. intros e [? ?]. split; [assumption|lia]. }
  destruct Hcase as [[Hws Hnw]|(i & e & Hi & Hws & Hnw)].
  - split; [|split; [exact Ht'|split; [exact Ha'|]]].
    + split; try congruence; try lia.
      * rewrite Hnw, Hws, Hn, length_app. cbn [length]. lia.
      * rewrite Hws. apply List.Forall_app. split; [exact Hold|].
        constructor; [|constructor]. cbn. split; [exact Hw | lia].
    + right. rewrite Hws, length_app. cbn [length]. split; [lia|].
      apply List.Exists_app. right. constructor. reflexivity.
  - split; [|split; [exact Ht'|split; [exact Ha'|]]].
    + split; try congruence; try lia.
      * rewrite Hnw, Hws, Hn, length_insert. reflexivity.
      * rewrite Hws. apply Forall_insert; [exact Hold|]. cbn.
        rewrite List.Forall_forall in He.
        destruct (He e) as [Hwe Hce]; [eapply list_elem_of_In, list_elem_of_lookup_2, Hi|].
        split; [exact Hwe | lia].
    + left. rewrite Hws, length_insert. reflexivity.
Qed.


Section Builder.
Context `{StdSort}.

Lemma la_threshold_counted (t tl : Z) (d d' : Dictionary) :
  counted d -> threshold t tl d = Ok d' ->
  counted d' /\ ntokens_ d' = ntokens_ d /\ args_ d' = args_ d
  /\ (length (words_ d') <= length (words_ d))%nat
  /\ (2 <= t -> 2 <= tl -> List.Exists (fun e => count e = 1) (words_ d) ->
      (length (words_ d') < length (words_ d))%nat).
Proof.
  intros [Hn Ht He Hps Hp] Hth.
  pose proof (la_threshold_words_perm _ _ _ _ Hth) as Hperm.
  destruct (la_threshold_fields _ _ _ _ Hth)
    as (Hws & Hsz & _ & _ & Ha' & Ht' & Hps' & Hp' & _).
  pose proof (Permutation_length (std_sort_perm _ threshold_cmp (words_ d))) as Hlen.
  split; [|split; [exact Ht'|split; [exact Ha'|split]]].
  - split; try congruence.
    rewrite List.Forall_forall in He. apply List.Forall_forall. intros e Hin.
    rewrite Ht'. apply He.
    eapply Permutation_in in Hin; [|exact Hperm].
    apply List.filter_In in Hin. apply Hin.
  - rewrite Hws, <- Hlen. apply length_filter_le.
  - intros H2 H2l Hex. rewrite Hws, <- Hlen. apply filter_length_lt.
    apply List.Exists_exists in Hex. destruct Hex as (e & Hin & Hc).
    apply List.Exists_exists. exists e. split.
    + eapply Permutation_in; [apply Permutation_sym, std_sort_perm | exact Hin].
    + apply negb_false_iff. unfold below_cutoff. rewrite Hc.
      destruct (Z.ltb_spec 1 t); [|lia]. destruct (Z.ltb_spec 1 tl); [|lia].
      destruct (type e); reflexivity.
Qed.

Lemma la_readFromFile_loop_step (fuel : nat) (s : istream) (mt : Z)
    (d : Dictionary) :
  readFromFile_loop (Datatypes.S fuel) s mt d =
  if (readWord s).1.1 then
    d1 ← add (readWord s).1.2 d;
    if load_cap <? size_ d1 then
      d2 ← threshold (mt + 1) (mt + 1) d1;
      readFromFile_loop fuel (readWord s).2 (mt + 1) d2
    else readFromFile_loop fuel (readWord s).2 mt d1
  else Ok (d, (readWord s).2).
Proof.
  cbn [readFromFile_loop]. destruct (readWord s) as [[more w] s1]. reflexivity.
Qed.

Lemma la_readFromFile_loop_counted (fuel : nat) (s s' : istream) (mt : Z)
    (d d' : Dictionary) :
  readFromFile_loop fuel s mt d = Ok (d', s') ->
  1 <= mt -> counted d -> Z.of_nat (length (words_ d)) <= load_cap ->
  counted d' /\ Z.of_nat (length (words_ d')) <= load_cap
  /\ args_ d' = args_ d
  /\ ntokens_ d' <= ntokens_ d + Z.of_nat (length (unread s)).
Proof.
  revert s mt d. induction fuel as [|fuel IH]; intros s mt d Hl Hmt Hc Hcap;
    [discriminate|].
  rewrite la_readFromFile_loop_step in Hl.
  destruct ((readWord s).1.1) eqn:Hmore.
  - pose proof (readWord_progress s Hmore) as Hprog.
    destruct (add (readWord s).1.2 d) as [d1|] eqn:Hadd; [|discriminate].
    rewrite bind_Ok in Hl.
    destruct (la_add_counted _ _ _ (readWord_nul_free s) Hc Hadd)
      as (Hc1 & Ht1 & Ha1 & Hlen1).
    destruct (Z.ltb_spec load_cap (size_ d1)) as [Hover|Hunder].
    + destruct (threshold (mt + 1) (mt + 1) d1) as [d2|] eqn:Hth; [|discriminate].
      rewrite bind_Ok in Hl.
      destruct (la_threshold_counted _ _ _ _ Hc1 Hth)
        as (Hc2 & Ht2 & Ha2 & Hle & Hlt).
      apply IH in Hl; [|lia|exact Hc2|].
      * destruct Hl as (Hc' & Hcap' & Ha' & Ht').
        split; [exact Hc'|split; [exact Hcap'|split; [congruence|lia]]].
      * destruct Hlen1 as [Hsame|[Hgrow Hex]];
          [|specialize (Hlt ltac:(lia) ltac:(lia) Hex); lia].
        rewrite (cnt_size _ Hc1), Hsame in Hover. lia.
    + apply IH in Hl; [|exact Hmt|exact Hc1|].
      * destruct Hl as (Hc' & Hcap' & Ha' & Ht').
        split; [exact Hc'|split; [exact Hcap'|split; [congruence|lia]]].
      * rewrite <- (cnt_size _ Hc1). exact Hunder.
  - inversion Hl; subst.
    split; [exact Hc|split; [exact Hcap|split; [reflexivity|lia]]].
Qed.
End Builder.

(** ** The builder returns *)

Record indexed (d : Dictionary) : Prop := {
  idx_valid : index_valid (word2int_ d) (length (words_ d));
  idx_size : (size (word2int_ d) <= length (words_ d))%nat
}.

Lemma la_new_indexed (args : Args) : indexed (new args 0).
Proof.
  split; cbn; [apply index_valid_empty | rewrite map_size_empty; lia].
Qed.

Lemma la_add_returns (w : string) (d : Dictionary) :
  size_ d = Z.of_nat (length (words_ d)) -> indexed d ->
  Z.of_nat (length (words_ d)) < MAX_VOCAB_SIZE ->
  exists d', add w d = Ok d' /\ indexed d'.
Proof.
  intros Hn [Hv Hs] Hlen.
  destruct (la_find_stops d w (hash w) Hv) as (h & Hfind & _ & Hstop).
  { apply free_slot. lia. }
  unfold add. rewrite la_find_unfold, Hfind, bind_Ok.
  cbn [set_ntokens word2int_ words_].
  destruct (Z.eqb_spec (slot_at (word2int_ d) h) (-1)) as [Hempty|Hlive].
  - eexists. split; [reflexivity|]. split; cbn.
    + apply index_valid_insert.
      * eapply index_valid_mono; [|exact Hv]. rewrite length_app. lia.
      * rewrite length_app. cbn [length]. lia.
    + rewrite length_app. cbn [length].
      pose proof (map_size_insert h (size_ d) (word2int_ d)) as Hins.
      destruct (word2int_ d !! h); unfold id in Hins; lia.
  - destruct Hstop as [Hempty|Hhit]; [contradiction|].
    unfold word_at in Hhit.
    destruct (vec_at (words_ d) (slot_at (word2int_ d) h)) as [e|]; [|discriminate].
    rewrite bind_Ok. eexists. split; [reflexivity|]. split; cbn.
    + rewrite length_insert. exact Hv.
    + rewrite length_insert. exact Hs.
Qed.

Lemma la_threshold_loop_returns (es : list entry) (d : Dictionary) :
  0 <= size_ d ->
  size_ d + Z.of_nat (length es) <= Z.of_nat (length (words_ d)) ->
  index_valid (word2int_ d) (length (words_ d)) ->
  Z.of_nat (size (word2int_ d)) + Z.of_nat (length es) < MAX_VOCAB_SIZE ->
  exists d', threshold_loop es d = Ok d'.
Proof.
  revert d. induction es as [|e es IH]; intros d Hn Hroom Hv Hs; [eexists; reflexivity|].
  cbn [length] in Hroom, Hs.
  destruct (la_find_stops d (word e) (hash (word e)) Hv) as (h & Hfind & _).
  { apply free_slot. lia. }
  rewrite la_threshold_loop_cons, la_find_unfold, Hfind, bind_Ok.
  destruct (reindex_fields d e h) as (R1 & R2 & R3 & _).
  apply IH; rewrite ?R1, ?R2, ?R3.
  - lia.
  - lia.
  - apply index_valid_insert; [exact Hv | lia].
  - pose proof (map_size_insert h (size_ d) (word2int_ d)) as Hins.
    destruct (word2int_ d !! h); unfold id in Hins; lia.
Qed.

Section BuilderReturns.
Context `{StdSort}.

Lemma la_threshold_returns (t tl : Z) (d : Dictionary) :
  Z.of_nat (length (words_ d)) < MAX_VOCAB_SIZE ->
  exists d', threshold t tl d = Ok d'.
Proof.
  intros Hlen. unfold threshold. cbv zeta.
  pose proof (Permutation_length (std_sort_perm _ threshold_cmp (words_ d))) as Hp.
  pose proof (length_filter_le (fun e => negb (below_cutoff t tl e))
                (std_sort threshold_cmp (words_ d))) as Hf.
  apply la_threshold_loop_returns; cbn.
  - lia.
  - lia.
  - apply index_valid_empty.
  - rewrite map_size_empty. lia.
Qed.

Lemma la_threshold_indexed (t tl : Z) (d d' : Dictionary) :
  threshold t tl d = Ok d' -> indexed d'.
Proof.
  intros Hth.
  destruct (la_threshold_fields _ _ _ _ Hth)
    as (_ & _ & _ & _ & _ & _ & _ & _ & _ & Hv & Hs).
  split; assumption.
Qed.

Lemma la_readFromFile_loop_returns (fuel : nat) (s : istream) (mt : Z)
    (d : Dictionary) :
  (length (unread s) < fuel)%nat -> 1 <= mt -> counted d -> indexed d ->
  Z.of_nat (length (words_ d)) <= load_cap ->
  exists d' s', readFromFile_loop fuel s mt d = Ok (d', s').
Proof.
  revert s mt d.
  induction fuel as [|fuel IH]; intros s mt d Hf Hmt Hc Hi Hcap; [lia|].
  rewrite la_readFromFile_loop_step.
  destruct ((readWord s).1.1) eqn:Hmore; [|eauto].
  pose proof (readWord_progress s Hmore) as Hprog.
  destruct (la_add_returns (readWord s).1.2 d (cnt_size _ Hc) Hi)
    as (d1 & Hadd & Hi1).
  { unfold load_cap, MAX_VOCAB_SIZE in *. lia. }
  destruct (la_add_counted _ _ _ (readWord_nul_free s) Hc Hadd)
    as (Hc1 & _ & _ & Hlen1).
  rewrite Hadd, bind_Ok.
  destruct (Z.ltb_spec load_cap (size_ d1)) as [Hover|Hunder].
  - destruct (la_threshold_returns (mt + 1) (mt + 1) d1) as [d2 Hth].
    { unfold load_cap, MAX_VOCAB_SIZE in *. lia. }
    rewrite Hth, bind_Ok.
    destruct (la_threshold_counted _ _ _ _ Hc1 Hth) as (Hc2 & _ & _ & Hle & Hlt).
    apply IH; [lia | lia | exact Hc2 | exact (la_threshold_indexed _ _ _ _ Hth) |].
    destruct Hlen1 as [Hsame|[Hgrow Hex]].
    + rewrite (cnt_size _ Hc1), Hsame in Hover. lia.
    + specialize (Hlt ltac:(lia) ltac:(lia) Hex). lia.
  - apply IH; [lia | exact Hmt | exact Hc1 | exact Hi1 |].
    rewrite <- (cnt_size _ Hc1). exact Hunder.
Qed.

(** [readFromFile] on a fresh dictionary either leaves through
    [exit(EXIT_FAILURE)], with an empty vocabulary, or hands back a
    dictionary laid out words first, which can be queried and saved. *)
Lemma la_readFromFile_builds (s : istream) (args : Args) :
  int64 (Z.of_nat (length (unread s))) ->
  readFromFile s (new args 0) = Err ExitFailure
  \/ exists d s',
       readFromFile s (new args 0) = Ok (d, s')
       /\ persistable d /\ usable d /\ layout d /\ args_ d = args /\ 0 < size_ d
       /\ Z.of_nat (length (words_ d)) <= load_cap.
Proof.
  intros Hlen. unfold readFromFile.
  destruct (la_readFromFile_loop_returns (Datatypes.S (length (unread s))) s 1
              (new args 0)) as (d1 & s1 & Hloop).
  { lia. }
  { lia. }
  { apply la_new_counted. }
  { apply la_new_indexed. }
  { cbn. unfold load_cap. lia. }
  rewrite Hloop, bind_Ok.
  destruct (la_readFromFile_loop_counted _ _ _ _ _ _ Hloop)
    as (Hc1 & Hcap1 & Ha1 & Ht1).
  { lia. }
  { apply la_new_counted. }
  { cbn. unfold load_cap. lia. }
  cbn in Ha1, Ht1.
  destruct (la_threshold_returns (minCount (args_ d1)) (minCountLabel (args_ d1)) d1)
    as [d2 Hth].
  { unfold load_cap, MAX_VOCAB_SIZE in *. lia. }
  rewrite Hth, bind_Ok.
  destruct (la_threshold_counted _ _ _ _ Hc1 Hth) as (Hc2 & Ht2 & Ha2 & Hle & _).
  pose proof (la_threshold_indexed _ _ _ _ Hth) as [Hv2 Hs2].
  pose proof (threshold_layout _ _ _ _ Hth) as Hlay.
  destruct (la_threshold_fields _ _ _ _ Hth) as (_ & _ & Hnw & Hnl & _).
  pose proof (count_type_sum (words_ d2)) as Hsum.
  destruct Hc2 as [Hn2 Htok2 He2 Hps2 Hp2].
  rewrite la_initTableDiscard_Ok by (rewrite Hn2; lia).
  rewrite bind_Ok. cbn [set_pdiscard size_].
  rewrite Hn2, Nat2Z.id, firstn_all.
  destruct (Z.eqb_spec (Z.of_nat (length (words_ d2))) 0) as [Hzero|Hsome];
    [left; reflexivity|].
  right. eexists. eexists. split; [reflexivity|].
  split; [|split; [|split; [|split; [|split]]]].
  - split; cbn.
    + exact Hn2.
    + unfold load_cap, MAX_VOCAB_SIZE in *. lia.
    + unfold int32, load_cap in *. lia.
    + unfold int32, load_cap in *. lia.
    + unfold int64 in *. lia.
    + eapply List.Forall_impl; [|exact He2]. cbn. intros e [Hw Hcount].
      split; [exact Hw|]. unfold int64 in *. lia.
    + rewrite Hps2. unfold int64. lia.
    + rewrite Hps2, Hp2, map_size_empty. reflexivity.
    + rewrite Hp2. apply map_Forall_empty.
    + reflexivity.
  - split; cbn.
    + exact Hn2.
    + exact Hv2.
    + apply free_slot. unfold load_cap, MAX_VOCAB_SIZE in *. lia.
  - destruct Hlay as [L1 L2 L3 L4 L5]. split; cbn; assumption.
  - cbn. congruence.
  - cbn. lia.
  - cbn. lia.
Qed.
End BuilderReturns.


(** ** save, then load, of a dictionary that can be saved *)

Lemma la_persistable_round_trip (d d0 : Dictionary) :
  persistable d -> args_ d0 = args_ d ->
  exists bytes d' s',
    save d = Ok bytes
    /\ load (stream_of_bytes bytes) d0 = Ok (d', s')
    /\ words_ d' = words_ d /\ size_ d' = size_ d
    /\ nwords_ d' = nwords_ d /\ nlabels_ d' = nlabels_ d
    /\ ntokens_ d' = ntokens_ d
    /\ pruneidx_size_ d' = pruneidx_size_ d /\ pruneidx_ d' = pruneidx_ d
    /\ pdiscard_ d' = pdiscard_ d
    /\ unread s' = [].
Proof.
  intros Hp Ha. destruct (la_load_image d d0 Hp Ha) as [tbl Hl].
  do 3 eexists. split.
  { apply la_save_image, (pers_size d Hp). }
  split; [exact Hl|]. repeat split.
Qed.

(** What [readFromFile] leaves of the example's stream. *)
Definition example_rest : istream :=
  Eval vm_compute in
    match @readFromFile insertion_StdSort (open_stream example_corpus)
                        (new example_args 0) with
    | Ok (_, s) => s
    | Err _ => open_stream example_corpus
    end.


(** ** The counter and the vector under add, threshold and load *)

Lemma la_add_keeps_size (w : string) (d d' : Dictionary) :
  size_ d = Z.of_nat (length (words_ d)) -> add w d = Ok d' ->
  size_ d' = Z.of_nat (length (words_ d')).
Proof.
  intros Hn Hadd.
  destruct (la_add_cases _ _ _ Hadd)
    as (_ & _ & _ & _ & [[Hws Hnw]|(i & e & _ & Hws & Hnw)]).
  - rewrite Hnw, Hws, Hn, length_app. cbn [length]. lia.
  - rewrite Hnw, Hws, Hn, length_insert. reflexivity.
Qed.

Lemma la_threshold_sets_size `{StdSort} (t tl : Z) (d d' : Dictionary) :
  threshold t tl d = Ok d' -> size_ d' = Z.of_nat (length (words_ d')).
Proof.
  intros Hth. destruct (la_threshold_fields _ _ _ _ Hth) as (_ & Hn & _). exact Hn.
Qed.

Lemma la_load_entries_fields (n : nat) (i : Z) (s s' : istream)
    (d d' : Dictionary) :
  load_entries n i s d = Ok (d', s') ->
  length (words_ d') = (length (words_ d) + n)%nat /\ size_ d' = size_ d.
Proof.
  revert i s d. induction n as [|n IH]; intros i s d Hl.
  - inversion Hl; subst. split; [lia | reflexivity].
  - rewrite la_load_entries_step in Hl.
    destruct (good s); [|discriminate]. rewrite bind_Ok in Hl.
    destruct (load_word (unread s) EmptyString) as [r|]; [|discriminate].
    rewrite bind_Ok in Hl.
    destruct (read_int 8 (set_unread s r.2)) as [c|]; [|discriminate].
    rewrite bind_Ok in Hl.
    destruct (read_int 1 c.2) as [tb|]; [|discriminate].
    rewrite bind_Ok in Hl.
    destruct (entry_type.of_byte tb.1) as [ty|]; [|discriminate].
    rewrite bind_Ok in Hl.
    destruct (find (set_words d
                      (words_ d ++ [{| word := r.1; count := c.1; type := ty |}])) r.1)
      as [h|]; [|discriminate].
    rewrite bind_Ok in Hl. apply IH in Hl. cbn in Hl.
    rewrite length_app in Hl. cbn [length] in Hl. split; [lia | apply Hl].
Qed.

Lemma la_initTableDiscard_fields (d d' : Dictionary) :
  initTableDiscard d = Ok d' ->
  0 <= size_ d /\ words_ d' = words_ d /\ size_ d' = size_ d.
Proof.
  unfold initTableDiscard. destruct (Z.ltb_spec (size_ d) 0); [discriminate|].
  destruct (mapM _ _) as [tbl|]; [|discriminate].
  rewrite bind_Ok. intros Hd. inversion Hd; subst. cbn. repeat split. assumption.
Qed.

(** A [load] that returns leaves as many entries as [size_] says, whatever
    the bytes were. *)
Lemma la_load_sets_size (s s' : istream) (d d' : Dictionary) :
  load s d = Ok (d', s') -> size_ d' = Z.of_nat (length (words_ d')).
Proof.
  unfold load. cbv zeta.
  destruct (read_int 4 s) as [[sz s0]|]; [|discriminate]. rewrite bind_Ok.
  destruct (read_int 4 s0) as [[nw s1]|]; [|discriminate]. rewrite bind_Ok.
  destruct (read_int 4 s1) as [[nl s1']|]; [|discriminate]. rewrite bind_Ok.
  destruct (read_int 8 s1') as [[nt s2]|]; [|discriminate]. rewrite bind_Ok.
  destruct (read_int 8 s2) as [[ps s3]|]; [|discriminate]. rewrite bind_Ok.
  destruct (load_entries _ _ _ _) as [[d2 s4]|] eqn:Hle; [|discriminate].
  rewrite bind_Ok.
  destruct (load_pruneidx _ _ _) as [[m s5]|]; [|discriminate]. rewrite bind_Ok.
  destruct (initTableDiscard _) as [d3|] eqn:Hinit; [|discriminate].
  rewrite bind_Ok. intros Hd. inversion Hd; subst d3 s5.
  apply la_load_entries_fields in Hle. cbn in Hle. destruct Hle as [Hlen Hnw].
  apply la_initTableDiscard_fields in Hinit. cbn in Hinit.
  destruct Hinit as (H0 & Hws & Hn). rewrite Hn, Hws, Hlen, Hnw. lia.
Qed.


(** ** The index finds every stored word *)

(** Every entry is found where it stands. *)
Definition indexes (d : Dictionary) : Prop :=
  consistent word (word2int_ d) (words_ d) (length (words_ d)).

Lemma la_find_probe (d : Dictionary) (w : string) (h : Z) :
  find d w = Ok h
  <-> probe (word2int_ d) (stored_word word (words_ d)) w (hash w) = Ok h.
Proof.
  rewrite la_find_unfold. unfold find_h.
  change (word_at d) with (stored_word word (words_ d)). reflexivity.
Qed.

Lemma la_getId_found (d : Dictionary) (w : string) (i : Z) :
  getId d w = Ok i <-> found_at word (word2int_ d) (words_ d) w i.
Proof.
  unfold getId, found_at. rewrite la_find_unfold. unfold find_h.
  change (word_at d) with (stored_word word (words_ d)).
  destruct (probe (word2int_ d) (stored_word word (words_ d)) w (hash w)) as [h|f].
  - rewrite bind_Ok. split.
    + intros Hx. inversion Hx. eauto.
    + intros (h' & Hh & Hs). inversion Hh; subst. reflexivity.
  - rewrite bind_Err. split; [discriminate|]. intros (h' & Hh & _). discriminate.
Qed.

Lemma la_getId_h_found (d : Dictionary) (w : string) (i : Z) :
  getId_h d w (hash w) = Ok i <-> found_at word (word2int_ d) (words_ d) w i.
Proof.
  unfold getId_h, found_at. unfold find_h.
  change (word_at d) with (stored_word word (words_ d)).
  destruct (probe (word2int_ d) (stored_word word (words_ d)) w (hash w)) as [h|f].
  - rewrite bind_Ok. split.
    + intros Hx. inversion Hx. eauto.
    + intros (h' & Hh & Hs). inversion Hh; subst. reflexivity.
  - rewrite bind_Err. split; [discriminate|]. intros (h' & Hh & _). discriminate.
Qed.

(** The two ways through [add], with the slot that [find] gave. *)
Lemma la_add_slot_cases (w : string) (d d' : Dictionary) :
  add w d = Ok d' ->
  exists h, find d w = Ok h
    /\ ((slot_at (word2int_ d) h = -1
         /\ words_ d' = words_ d ++ [mkEntry w 1 (getType_word d w)]
         /\ word2int_ d' = <[h := size_ d]> (word2int_ d))
        \/ (slot_at (word2int_ d) h <> -1
            /\ word2int_ d' = word2int_ d
            /\ exists e,
                 words_ d !! Z.to_nat (slot_at (word2int_ d) h) = Some e
                 /\ words_ d'
                    = <[Z.to_nat (slot_at (word2int_ d) h)
                        := mkEntry (word e) (count e + 1) (type e)]> (words_ d))).
Proof.
  unfold add. destruct (find d w) as [h|]; [|discriminate].
  rewrite bind_Ok. cbn [set_ntokens word2int_ words_].
  destruct (Z.eqb_spec (slot_at (word2int_ d) h) (-1)) as [Hempty|Hlive].
  - intros Hd. inversion Hd; subst; clear Hd. exists h. split; [reflexivity|].
    left. cbn. repeat split. exact Hempty.
  - destruct (vec_at (words_ d) (slot_at (word2int_ d) h)) as [e|] eqn:He; [|discriminate].
    rewrite bind_Ok. intros Hd. inversion Hd; subst; clear Hd.
    exists h. split; [reflexivity|]. right.
    apply vec_at_Ok in He. destruct He as [_ He].
    split; [exact Hlive|]. split; [reflexivity|]. exists e. split; [exact He | reflexivity].
Qed.

Lemma la_stored_word_bump (ws : list entry) (i : nat) (e : entry) (c : Z) (v : Z) :
  ws !! i = Some e ->
  stored_word word (<[i := mkEntry (word e) c (type e)]> ws) v = stored_word word ws v.
Proof.
  intros He. unfold stored_word, vec_at. destruct (Z.ltb_spec v 0); [reflexivity|].
  destruct (decide (Z.to_nat v = i)) as [->|Hne].
  - rewrite list_lookup_insert_eq by (eapply lookup_lt_Some, He).
    rewrite He. reflexivity.
  - rewrite list_lookup_insert_ne by congruence. reflexivity.
Qed.

Lemma la_add_indexes (w : string) (d d' : Dictionary) :
  size_ d = Z.of_nat (length (words_ d)) ->
  index_valid (word2int_ d) (length (words_ d)) ->
  indexes d -> add w d = Ok d' -> indexes d'.
Proof.
  intros Hn Hv Hc Hadd. unfold indexes.
  destruct (la_add_slot_cases _ _ _ Hadd)
    as (h & Hfind & [(Hempty & Hws & Htbl)|(Hlive & Htbl & e & He & Hws)]).
  - rewrite Hws, Htbl, Hn, length_app. cbn [length].
    rewrite Nat.add_1_r.
    apply (proj1 (la_find_probe _ _ _)) in Hfind.
    apply (consistent_insert word (word2int_ d) (words_ d) (words_ d) _ _ h
             (mkEntry w 1 (getType_word d w))); try assumption.
    + intros i Hi. apply lookup_app_l. exact Hi.
    + reflexivity.
    + apply list_lookup_middle. reflexivity.
  - rewrite Hws, Htbl, length_insert.
    apply (consistent_same_words word _ (words_ d)); [|exact Hc].
    intros v. apply la_stored_word_bump. exact He.
Qed.

Lemma la_threshold_loop_indexes (es : list entry) (d d' : Dictionary) (n : nat) :
  threshold_loop es d = Ok d' ->
  NoDup (map word (words_ d)) ->
  size_ d = Z.of_nat n -> drop n (words_ d) = es ->
  index_valid (word2int_ d) n ->
  consistent word (word2int_ d) (words_ d) n ->
  indexes d'.
Proof.
  revert d n. induction es as [|e es IH]; intros d n Hl Hnd Hn Hdrop Hv Hc.
  - inversion Hl; subst d'. intros i e He Hi.
    apply Hc; [|exact Hi].
    destruct (Nat.lt_ge_cases i n) as [Hlt|Hge]; [exact Hlt|].
    replace i with (n + (i - n))%nat in Hi by lia.
    rewrite <- lookup_drop, Hdrop in Hi. discriminate.
  - rewrite la_threshold_loop_cons in Hl.
    destruct (find d (word e)) as [h|] eqn:Hfind; [|discriminate].
    rewrite bind_Ok in Hl. apply (proj1 (la_find_probe _ _ _)) in Hfind.
    apply drop_cons_lookup in Hdrop. destruct Hdrop as [Hat Hdrop].
    pose proof (probe_new_word word _ _ _ _ _ Hv Hnd Hat Hfind) as Hempty.
    destruct (reindex_fields d e h) as (R1 & R2 & R3 & _).
    apply (IH _ (Datatypes.S n)) in Hl; [exact Hl | | | | |];
      rewrite ?R1, ?R2, ?R3.
    + exact Hnd.
    + lia.
    + exact Hdrop.
    + rewrite Hn. apply index_valid_insert; [|lia].
      eapply index_valid_mono; [|exact Hv]. lia.
    + rewrite Hn.
      apply (consistent_insert word _ (words_ d) (words_ d) _ _ h e); auto.
Qed.

Section BuilderIndex.
Context `{StdSort}.

Lemma la_threshold_indexes (t tl : Z) (d d' : Dictionary) :
  NoDup (map word (words_ d)) -> threshold t tl d = Ok d' -> indexes d'.
Proof.
  intros Hnd. unfold threshold. intros Hl.
  apply (la_threshold_loop_indexes _ _ _ 0%nat) in Hl; [exact Hl | | | | |]; cbn.
  - apply NoDup_map_sort_filter, Hnd.
  - reflexivity.
  - reflexivity.
  - apply index_valid_empty.
  - intros i e Hi. lia.
Qed.

Lemma la_readFromFile_loop_indexes (fuel : nat) (s s' : istream) (mt : Z)
    (d d' : Dictionary) :
  readFromFile_loop fuel s mt d = Ok (d', s') ->
  1 <= mt -> counted d -> indexed d -> indexes d ->
  Z.of_nat (length (words_ d)) <= load_cap ->
  indexes d'.
Proof.
  revert s mt d. induction fuel as [|fuel IH]; intros s mt d Hl Hmt Hc Hi Hx Hcap;
    [discriminate|].
  rewrite la_readFromFile_loop_step in Hl.
  destruct ((readWord s).1.1) eqn:Hmore; [|inversion Hl; subst; exact Hx].
  destruct (la_add_returns (readWord s).1.2 d (cnt_size _ Hc) Hi)
    as (d1 & Hadd & Hi1).
  { unfold load_cap, MAX_VOCAB_SIZE in *. lia. }
  destruct (la_add_counted _ _ _ (readWord_nul_free s) Hc Hadd)
    as (Hc1 & _ & _ & Hlen1).
  pose proof (la_add_indexes _ _ _ (cnt_size _ Hc) (idx_valid _ Hi) Hx Hadd) as Hx1.
  rewrite Hadd, bind_Ok in Hl.
  destruct (Z.ltb_spec load_cap (size_ d1)) as [Hover|Hunder].
  - destruct (threshold (mt + 1) (mt + 1) d1) as [d2|] eqn:Hth; [|discriminate].
    rewrite bind_Ok in Hl.
    destruct (la_threshold_counted _ _ _ _ Hc1 Hth) as (Hc2 & _ & _ & Hle & Hlt).
    apply IH in Hl;
      [exact Hl | lia | exact Hc2 | exact (la_threshold_indexed _ _ _ _ Hth) | |].
    + apply (la_threshold_indexes _ _ _ _ (consistent_NoDup word _ _ Hx1) Hth).
    + destruct Hlen1 as [Hsame|[Hgrow Hex]].
      * rewrite (cnt_size _ Hc1), Hsame in Hover. lia.
      * specialize (Hlt ltac:(lia) ltac:(lia) Hex). lia.
  - apply IH in Hl; [exact Hl | exact Hmt | exact Hc1 | exact Hi1 | exact Hx1 |].
    rewrite <- (cnt_size _ Hc1). exact Hunder.
Qed.

(** In the dictionary that [readFromFile] returns every entry is found
    where it stands. *)
Lemma la_readFromFile_indexes (s s' : istream) (args : Args) (d : Dictionary) :
  readFromFile s (new args 0) = Ok (d, s') -> indexes d.
Proof.
  unfold readFromFile.
  destruct (readFromFile_loop _ s 1 (new args 0)) as [[d1 s1]|] eqn:Hloop; [|discriminate].
  rewrite bind_Ok.
  assert (Hx1 : indexes d1).
  { apply (la_readFromFile_loop_indexes _ _ _ _ _ _ Hloop).
    - lia.
    - apply la_new_counted.
    - apply la_new_indexed.
    - intros i e Hi He. cbn in Hi. lia.
    - cbn. unfold load_cap. lia. }
  destruct (threshold (minCount (args_ d1)) (minCountLabel (args_ d1)) d1)
    as [d2|] eqn:Hth; [|discriminate].
  rewrite bind_Ok.
  pose proof (la_threshold_indexes _ _ _ _ (consistent_NoDup word _ _ Hx1) Hth) as Hx2.
  destruct (initTableDiscard d2) as [d3|] eqn:Hinit; [|discriminate].
  rewrite bind_Ok. destruct (size_ d3 =? 0); [discriminate|].
  intros Hd. inversion Hd; subst d3 s1.
  unfold initTableDiscard in Hinit. destruct (size_ d2 <? 0); [discriminate|].
  destruct (mapM _ _) as [tbl|]; [|discriminate].
  rewrite bind_Ok in Hinit. inversion Hinit; subst d. exact Hx2.
Qed.
End BuilderIndex.

(** ** getId and getWord *)

Lemma la_getWord_Ok (d : Dictionary) (id : Z) (w : string) :
  getWord d id = Ok w
  <-> 0 <= id < size_ d
      /\ exists e, words_ d !! Z.to_nat id = Some e /\ word e = w.
Proof.
  unfold getWord, assert.
  destruct (Z.leb_spec 0 id) as [H0|H0]; [|rewrite bind_Err; split; [discriminate|lia]].
  rewrite bind_Ok.
  destruct (Z.ltb_spec id (size_ d)) as [H1|H1];
    [|rewrite bind_Err; split; [discriminate|lia]].
  rewrite bind_Ok.
  destruct (vec_at (words_ d) id) as [e|f] eqn:He.
  - rewrite bind_Ok. apply vec_at_Ok in He. destruct He as [_ He]. split.
    + intros Hx. inversion Hx. split; [lia|]. eauto.
    + intros (_ & e' & He' & Hw). rewrite He in He'. inversion He'; subst. reflexivity.
  - rewrite bind_Err. split; [discriminate|]. intros (_ & e' & He' & _).
    assert (Hv : vec_at (words_ d) id = Ok e') by (apply vec_at_Ok; split; [lia | exact He']).
    rewrite He in Hv. discriminate.
Qed.

(** A dictionary whose index is in step with its entries. *)
Record well_formed (d : Dictionary) : Prop := {
  wf_count : size_ d = Z.of_nat (length (words_ d));
  wf_valid : index_valid (word2int_ d) (length (words_ d));
  wf_size : (size (word2int_ d) <= length (words_ d))%nat;
  wf_room : Z.of_nat (length (words_ d)) < MAX_VOCAB_SIZE;
  wf_indexes : indexes d
}.

Lemma la_well_formed_free (d : Dictionary) :
  well_formed d ->
  exists e, 0 <= e < MAX_VOCAB_SIZE /\ slot_at (word2int_ d) e = -1.
Proof. intros Hwf. apply free_slot. pose proof (wf_size d Hwf). pose proof (wf_room d Hwf). lia. Qed.

Lemma la_getId_total (d : Dictionary) (w : string) :
  well_formed d -> exists id, getId d w = Ok id.
Proof.
  intros Hwf.
  destruct (probe_on_entries word (words_ d) (word2int_ d) w (hash w)
              (wf_valid d Hwf) (la_well_formed_free d Hwf)) as (h & Hp & _).
  exists (slot_at (word2int_ d) h). apply la_getId_found. exists h. split; [exact Hp | reflexivity].
Qed.

Lemma la_getId_sound (d : Dictionary) (w : string) (id : Z) :
  size_ d = Z.of_nat (length (words_ d)) ->
  index_valid (word2int_ d) (length (words_ d)) ->
  getId d w = Ok id ->
  id = -1 \/ (0 <= id < size_ d /\ getWord d id = Ok w).
Proof.
  intros Hn Hv Hg. apply la_getId_found in Hg.
  destruct (Z.eq_dec id (-1)) as [Heq|Hne]; [left; exact Heq | right].
  destruct (found_at_sound word _ _ _ _ Hg Hne) as (H0 & e & He & Hw).
  assert (Hlt : 0 <= id < size_ d).
  { rewrite Hn. apply lookup_lt_Some in He. lia. }
  split; [exact Hlt|]. apply la_getWord_Ok. split; [exact Hlt|]. eauto.
Qed.

Lemma la_getId_complete (d : Dictionary) (i : nat) (e : entry) :
  well_formed d -> words_ d !! i = Some e -> getId d (word e) = Ok (Z.of_nat i).
Proof.
  intros Hwf He. apply la_getId_found. apply (wf_indexes d Hwf); [|exact He].
  eapply lookup_lt_Some, He.
Qed.

Lemma la_getId_missing (d : Dictionary) (w : string) :
  well_formed d -> (forall e, e ∈ words_ d -> word e <> w) -> getId d w = Ok (-1).
Proof.
  intros Hwf Hnot. apply la_getId_found.
  apply found_at_missing; [exact (wf_valid d Hwf) | exact (la_well_formed_free d Hwf) | exact Hnot].
Qed.

Lemma la_new_well_formed (args : Args) : well_formed (new args 0).
Proof.
  split; cbn.
  - reflexivity.
  - apply index_valid_empty.
  - rewrite map_size_empty. lia.
  - unfold MAX_VOCAB_SIZE. lia.
  - intros i e Hi. cbn in Hi. lia.
Qed.

Lemma la_add_well_formed (w : string) (d d' : Dictionary) :
  well_formed d -> Z.of_nat (length (words_ d)) + 1 < MAX_VOCAB_SIZE ->
  add w d = Ok d' -> well_formed d'.
Proof.
  intros Hwf Hroom Hadd.
  pose proof (la_add_indexes _ _ _ (wf_count d Hwf) (wf_valid d Hwf) (wf_indexes d Hwf) Hadd)
    as Hx.
  pose proof (la_add_keeps_size _ _ _ (wf_count d Hwf) Hadd) as Hn.
  destruct (la_add_returns w d (wf_count d Hwf)) as (d1 & Hadd1 & [Hv Hs]).
  { split; [exact (wf_valid d Hwf) | exact (wf_size d Hwf)]. }
  { lia. }
  rewrite Hadd in Hadd1. inversion Hadd1; subst d1.
  split; try assumption.
  destruct (la_add_cases _ _ _ Hadd) as (_ & _ & _ & _ & [[Hws _]|(i & e & _ & Hws & _)]);
    rewrite Hws, ?length_app, ?length_insert; cbn [length]; lia.
Qed.

Lemma la_initTableDiscard_frame (d d' : Dictionary) :
  initTableDiscard d = Ok d' -> exists tbl, d' = set_pdiscard d tbl.
Proof.
  unfold initTableDiscard. destruct (size_ d <? 0); [discriminate|].
  destruct (mapM _ _) as [tbl|]; [|discriminate].
  rewrite bind_Ok. intros Hd. inversion Hd. eauto.
Qed.

Section BuiltWellFormed.
Context `{StdSort}.

Lemma la_threshold_well_formed (t tl : Z) (d d' : Dictionary) :
  NoDup (map word (words_ d)) -> Z.of_nat (length (words_ d)) < MAX_VOCAB_SIZE ->
  threshold t tl d = Ok d' -> well_formed d'.
Proof.
  intros Hnd Hroom Hth.
  destruct (la_threshold_fields _ _ _ _ Hth)
    as (Hws & Hn & _ & _ & _ & _ & _ & _ & _ & Hv & Hs).
  split; try assumption.
  - rewrite Hws.
    pose proof (length_filter_le (fun e => negb (below_cutoff t tl e))
                  (std_sort threshold_cmp (words_ d))) as Hf.
    pose proof (Permutation_length (std_sort_perm _ threshold_cmp (words_ d))) as Hp.
    lia.
  - apply (la_threshold_indexes _ _ _ _ Hnd Hth).
Qed.

Lemma la_readFromFile_well_formed (s s' : istream) (args : Args) (d : Dictionary) :
  readFromFile s (new args 0) = Ok (d, s') ->
  well_formed d /\ Z.of_nat (length (words_ d)) <= load_cap.
Proof.
  intros Hread. pose proof (la_readFromFile_indexes _ _ _ _ Hread) as Hx.
  revert Hread. unfold readFromFile.
  destruct (readFromFile_loop _ s 1 (new args 0)) as [[d1 s1]|] eqn:Hloop; [|discriminate].
  rewrite bind_Ok.
  destruct (la_readFromFile_loop_counted _ _ _ _ _ _ Hloop)
    as (Hc1 & Hcap1 & _ & _).
  { lia. }
  { apply la_new_counted. }
  { cbn. unfold load_cap. lia. }
  destruct (threshold (minCount (args_ d1)) (minCountLabel (args_ d1)) d1)
    as [d2|] eqn:Hth; [|discriminate].
  rewrite bind_Ok.
  destruct (la_threshold_counted _ _ _ _ Hc1 Hth) as (_ & _ & _ & Hle & _).
  destruct (la_threshold_fields _ _ _ _ Hth)
    as (_ & Hn & _ & _ & _ & _ & _ & _ & _ & Hv & Hs).
  destruct (initTableDiscard d2) as [d3|] eqn:Hinit; [|discriminate].
  rewrite bind_Ok. destruct (size_ d3 =? 0); [discriminate|].
  intros Hd. inversion Hd; subst d3 s1.
  apply la_initTableDiscard_frame in Hinit. destruct Hinit as [tbl ->].
  split; [split; [| | | |exact Hx]|]; cbn [set_pdiscard size_ words_ word2int_];
    try assumption; unfold load_cap, MAX_VOCAB_SIZE in *; lia.
Qed.
End BuiltWellFormed.

(** In a well-formed dictionary [getId] is the position of the word in the
    vector, or [-1] for a word that is not there. *)
Lemma la_getId_spec (d : Dictionary) (w : string) (i : Z) :
  well_formed d ->
  (getId d w = Ok i
   <-> (i = -1 /\ w ∉ map word (words_ d))
       \/ (0 <= i /\ map word (words_ d) !! Z.to_nat i = Some w)).
Proof.
  intros Hwf. change (map word (words_ d)) with (word <$> words_ d). split.
  - intros Hg.
    destruct (la_getId_sound d w i (wf_count d Hwf) (wf_valid d Hwf) Hg)
      as [->|[Hr Hw]].
    + left. split; [reflexivity|]. intros Hin.
      apply list_elem_of_fmap in Hin. destruct Hin as (e & -> & Hin).
      apply list_elem_of_lookup in Hin. destruct Hin as [j Hj].
      pose proof (la_getId_complete d j e Hwf Hj) as Hc. rewrite Hg in Hc.
      inversion Hc. lia.
    + right. split; [lia|]. apply la_getWord_Ok in Hw.
      destruct Hw as (_ & e & He & Hw). rewrite list_lookup_fmap, He. cbn. congruence.
  - intros [[-> Hnot]|[H0 Hl]].
    + apply la_getId_missing; [exact Hwf|]. intros e He Hw. apply Hnot.
      apply list_elem_of_fmap. exists e. split; [congruence | exact He].
    + rewrite list_lookup_fmap in Hl.
      destruct (words_ d !! Z.to_nat i) as [e|] eqn:He; [|discriminate].
      cbn in Hl. inversion Hl; subst w.
      rewrite (la_getId_complete d _ e Hwf He). rewrite Z2Nat.id by exact H0. reflexivity.
Qed.

(** [add] appends the word if it is new and leaves the words alone
    otherwise. *)
Lemma la_add_words (w : string) (d d' : Dictionary) :
  well_formed d -> add w d = Ok d' ->
  map word (words_ d')
  = if decide (w ∈ map word (words_ d)) then map word (words_ d)
    else map word (words_ d) ++ [w].
Proof.
  intros Hwf Hadd.
  destruct (la_add_slot_cases _ _ _ Hadd)
    as (h & Hfind & [(Hempty & Hws & _)|(Hlive & _ & e & He & Hws)]).
  - assert (Hg : getId d w = Ok (-1)).
    { unfold getId. rewrite Hfind, bind_Ok, Hempty. reflexivity. }
    apply (la_getId_spec d w _ Hwf) in Hg. destruct Hg as [[_ Hnot]|[H0 _]]; [|lia].
    destruct (decide (w ∈ map word (words_ d))) as [Hin|_]; [contradiction|].
    rewrite Hws, map_app. reflexivity.
  - assert (Hg : getId d w = Ok (slot_at (word2int_ d) h)).
    { unfold getId. rewrite Hfind, bind_Ok. reflexivity. }
    apply (la_getId_spec d w _ Hwf) in Hg. destruct Hg as [[Hm _]|[H0 Hl]]; [contradiction|].
    change (map word (words_ d)) with (word <$> words_ d) in *.
    destruct (decide (w ∈ word <$> words_ d)) as [_|Hnot].
    + rewrite Hws. change (map word ?l) with (word <$> l).
      rewrite list_fmap_insert. cbn [word].
      apply list_insert_id. rewrite list_lookup_fmap, He. reflexivity.
    + elim Hnot. eapply list_elem_of_lookup_2, Hl.
Qed.

Lemma la_add_getId (w : string) (d d' : Dictionary) :
  well_formed d -> Z.of_nat (length (words_ d)) + 1 < MAX_VOCAB_SIZE ->
  add w d = Ok d' ->
  (exists id,
      getId d' w = Ok id /\ 0 <= id < size_ d' /\ getWord d' id = Ok w
      /\ (getId d w = Ok (-1) -> id = size_ d)
      /\ (forall i, getId d w = Ok i -> i <> -1 -> id = i))
  /\ (forall w', w' <> w -> getId d' w' = getId d w').
Proof.
  intros Hwf Hroom Hadd.
  pose proof (la_add_well_formed _ _ _ Hwf Hroom Hadd) as Hwf'.
  pose proof (la_add_words _ _ _ Hwf Hadd) as Hws.
  pose proof (la_getId_spec d' w) as Hspec'. pose proof (la_getId_spec d w) as Hspec.
  change (map word (words_ d)) with (word <$> words_ d) in *.
  change (map word (words_ d')) with (word <$> words_ d') in *.
  split.
  - destruct (la_getId_total d' w Hwf') as [id Hid]. exists id.
    split; [exact Hid|].
    pose proof (proj1 (Hspec' id Hwf') Hid) as Hcase.
    assert (Hin : w ∈ word <$> words_ d').
    { rewrite Hws. destruct (decide (w ∈ word <$> words_ d)) as [Hin|_]; [exact Hin|].
      apply elem_of_app. right. apply list_elem_of_singleton. reflexivity. }
    destruct Hcase as [[_ Hnot]|[H0 Hl]]; [contradiction|].
    destruct (la_getId_sound d' w id (wf_count d' Hwf') (wf_valid d' Hwf') Hid)
      as [->|[Hr Hw]]; [lia|].
    split; [exact Hr|]. split; [exact Hw|]. split.
    + intros Hold. apply (Hspec _ Hwf) in Hold.
      destruct Hold as [[_ Hnot]|[Hc _]]; [|lia].
      rewrite Hws in Hl. destruct (decide (w ∈ word <$> words_ d)) as [|_]; [contradiction|].
      rewrite (wf_count d Hwf).
      destruct (Nat.lt_ge_cases (Z.to_nat id) (length (word <$> words_ d))) as [Hlt|Hge].
      * rewrite lookup_app_l in Hl by exact Hlt. elim Hnot.
        eapply list_elem_of_lookup_2, Hl.
      * pose proof (lookup_lt_Some _ _ _ Hl) as Hb.
        rewrite length_app, length_fmap in *. cbn [length] in Hb. lia.
    + intros i Hold Hne. apply (Hspec _ Hwf) in Hold.
      destruct Hold as [[-> _]|[Hc Hli]]; [contradiction|].
      rewrite Hws in Hl.
      destruct (decide (w ∈ word <$> words_ d)) as [_|Hnot];
        [|elim Hnot; eapply list_elem_of_lookup_2, Hli].
      pose proof (consistent_NoDup word _ _ (wf_indexes d Hwf)) as Hnd.
      change (map word (words_ d)) with (word <$> words_ d) in Hnd.
      rewrite NoDup_alt in Hnd. pose proof (Hnd _ _ _ Hl Hli). lia.
  - intros w' Hne.
    destruct (la_getId_total d w' Hwf) as [j Hj]. rewrite Hj.
    apply (la_getId_spec d' w' j Hwf').
    apply (la_getId_spec d w' j Hwf) in Hj.
    change (map word (words_ d)) with (word <$> words_ d) in *.
    change (map word (words_ d')) with (word <$> words_ d') in *.
    rewrite Hws.
    destruct (decide (w ∈ word <$> words_ d)) as [_|_]; [exact Hj|].
    destruct Hj as [[-> Hnot]|[H0 Hl]].
    + left. split; [reflexivity|]. intros Hin. apply elem_of_app in Hin.
      destruct Hin as [Hin|Hin]; [contradiction|].
      apply list_elem_of_singleton in Hin. contradiction.
    + right. split; [exact H0|]. rewrite lookup_app_l; [exact Hl|].
      eapply lookup_lt_Some, Hl.
Qed.

(** ** The index that load rebuilds *)

Lemma la_getId_same_words (d d' : Dictionary) (w : string) :
  well_formed d -> well_formed d' ->
  map word (words_ d') = map word (words_ d) ->
  getId d' w = getId d w.
Proof.
  intros Hwf Hwf' Hws. destruct (la_getId_total d w Hwf) as [i Hi]. rewrite Hi.
  apply (la_getId_spec d' w i Hwf'). rewrite Hws. apply (la_getId_spec d w i Hwf), Hi.
Qed.

Lemma la_load_entries_indexes (n : nat) (i : Z) (s s' : istream)
    (d d' : Dictionary) :
  load_entries n i s d = Ok (d', s') ->
  exists rest,
    words_ d' = words_ d ++ rest /\ length rest = n
    /\ (i = Z.of_nat (length (words_ d)) ->
        index_valid (word2int_ d) (length (words_ d)) ->
        (size (word2int_ d) <= length (words_ d))%nat ->
        indexes d ->
        NoDup (map word (words_ d')) ->
        index_valid (word2int_ d') (length (words_ d'))
        /\ (size (word2int_ d') <= length (words_ d'))%nat
        /\ indexes d').
Proof.
  revert i s d. induction n as [|n IH]; intros i s d Hl.
  - inversion Hl; subst. exists []. rewrite app_nil_r. auto.
  - rewrite la_load_entries_step in Hl.
    destruct (good s); [|discriminate]. rewrite bind_Ok in Hl.
    destruct (load_word (unread s) EmptyString) as [r|]; [|discriminate].
    rewrite bind_Ok in Hl.
    destruct (read_int 8 (set_unread s r.2)) as [c|]; [|discriminate].
    rewrite bind_Ok in Hl.
    destruct (read_int 1 c.2) as [tb|]; [|discriminate].
    rewrite bind_Ok in Hl.
    destruct (entry_type.of_byte tb.1) as [ty|]; [|discriminate].
    rewrite bind_Ok in Hl.
    set (e := {| word := r.1; count := c.1; type := ty |}) in *.
    destruct (find (set_words d (words_ d ++ [e])) r.1) as [h|] eqn:Hfind;
      [|discriminate].
    rewrite bind_Ok in Hl. apply IH in Hl.
    destruct Hl as (rest & Hws & Hlen & Hrest). cbn [set_word2int set_words words_] in Hws.
    exists (e :: rest). rewrite <- app_assoc in Hws. split; [exact Hws|].
    split; [cbn [length]; lia|].
    intros Hi Hv Hs Hx Hnd.
    apply (proj1 (la_find_probe _ _ _)) in Hfind.
    cbn [set_words word2int_ words_] in Hfind.
    assert (Hnd1 : NoDup (map word (words_ d ++ [e]))).
    { rewrite Hws, app_assoc, map_app in Hnd. apply NoDup_app in Hnd. apply Hnd. }
    assert (Hat : (words_ d ++ [e]) !! length (words_ d) = Some e)
      by (apply list_lookup_middle; reflexivity).
    pose proof (probe_new_word word _ _ _ _ e Hv Hnd1 Hat Hfind) as Hempty.
    apply Hrest; cbn [set_word2int set_words words_ word2int_];
      rewrite ?length_app; cbn [length]; rewrite ?Nat.add_1_r.
    + lia.
    + rewrite Hi. apply index_valid_insert; [|lia].
      eapply index_valid_mono; [|exact Hv]. lia.
    + pose proof (map_size_insert h i (word2int_ d)) as Hins.
      destruct (word2int_ d !! h); unfold id in Hins; lia.
    + unfold indexes. cbn [set_word2int set_words words_ word2int_].
      rewrite length_app. cbn [length]. rewrite Nat.add_1_r, Hi.
      apply (consistent_insert word _ (words_ d) (words_ d ++ [e]) _ _ h e);
        try assumption.
      * intros j Hj. apply lookup_app_l. exact Hj.
      * intros j Hj. apply lookup_app_l. exact Hj.
    + exact Hnd.
Qed.

(** A [load] that returns a dictionary of distinct words returns it
    well-formed, whatever it held before. *)
Lemma la_load_well_formed (s s' : istream) (d d' : Dictionary) :
  load s d = Ok (d', s') ->
  NoDup (map word (words_ d')) ->
  Z.of_nat (length (words_ d')) < MAX_VOCAB_SIZE ->
  well_formed d'.
Proof.
  intros Hload. pose proof (la_load_sets_size _ _ _ _ Hload) as Hn. revert Hload.
  unfold load. cbv zeta.
  destruct (read_int 4 s) as [[sz s0]|]; [|discriminate]. rewrite bind_Ok.
  destruct (read_int 4 s0) as [[nw s1]|]; [|discriminate]. rewrite bind_Ok.
  destruct (read_int 4 s1) as [[nl s1']|]; [|discriminate]. rewrite bind_Ok.
  destruct (read_int 8 s1') as [[nt s2]|]; [|discriminate]. rewrite bind_Ok.
  destruct (read_int 8 s2) as [[ps s3]|]; [|discriminate]. rewrite bind_Ok.
  destruct (load_entries _ _ _ _) as [[d2 s4]|] eqn:Hle; [|discriminate].
  rewrite bind_Ok.
  destruct (load_pruneidx _ _ _) as [[m s5]|]; [|discriminate]. rewrite bind_Ok.
  destruct (initTableDiscard _) as [d3|] eqn:Hinit; [|discriminate].
  rewrite bind_Ok. intros Hd. inversion Hd; subst d3 s5.
  apply la_initTableDiscard_frame in Hinit. destruct Hinit as [tbl ->].
  cbn [set_pdiscard set_pruneidx words_ size_] in *.
  intros Hnd Hroom.
  apply la_load_entries_indexes in Hle. destruct Hle as (rest & _ & _ & Hrest).
  destruct Hrest as (Hv & Hs & Hx).
  { reflexivity. }
  { apply index_valid_empty. }
  { cbn. rewrite map_size_empty. lia. }
  { intros j e Hj. cbn in Hj. lia. }
  { exact Hnd. }
  split; cbn [set_pdiscard set_pruneidx words_ size_ word2int_]; assumption.
Qed.

(** ** The index that prune rebuilds *)

Section PruneIndex.
Context `{StdSort}.

Lemma la_prune_indexes (idx : list Z) (d : Dictionary) :
  layout d ->
  Z.of_nat (length (words_ d)) < MAX_VOCAB_SIZE ->
  Forall (fun x => 0 <= x) (List.filter (fun x => x <? nwords_ d) idx) ->
  NoDup (List.filter (fun x => x <? nwords_ d) idx) ->
  NoDup (map word (words_ d)) ->
  exists d',
    prune idx d = Ok (d', kept_ids idx (nwords_ d))
    /\ size_ d' = Z.of_nat (length (prune_positions idx d))
    /\ length (words_ d') = length (words_ d)
    /\ (length (prune_positions idx d) <= length (words_ d))%nat
    /\ index_valid (word2int_ d') (length (prune_positions idx d))
    /\ consistent word (word2int_ d') (words_ d') (length (prune_positions idx d))
    /\ (size (word2int_ d') <= length (prune_positions idx d))%nat.
Proof.
  intros Hlay Hcap Hpos Hnd Hdist.
  assert (Hcap' : Z.of_nat (length (words_ d)) <= MAX_VOCAB_SIZE) by lia.
  assert (Hinc : forall k1 k2 p1 p2, (k1 < k2)%nat ->
            prune_positions idx d !! k1 = Some p1 ->
            prune_positions idx d !! k2 = Some p2 -> (p1 < p2)%nat).
  { apply prune_positions_increasing; assumption. }
  assert (Hbnd : forall k p, prune_positions idx d !! k = Some p ->
            (p < length (words_ d))%nat).
  { apply prune_positions_bounded; assumption. }
  assert (Hkeep : forall i j ws tbl, (i < length (words_ d))%nat ->
            compact_inv (words_ d) (prune_positions idx d) i j ws tbl ->
            prune_keep
              (set_word2int (set_pruneidx_size d (Z.of_nat (size (pruneidx_ d)))) ∅)
              (kept_ids idx (nwords_ d)) ws i j
            = Ok (bool_decide (prune_positions idx d !! j = Some i))).
  { apply prune_keep_spec; assumption. }
  destruct (compact_loop_spec word _ (words_ d) (prune_positions idx d)
              Hcap' Hinc Hbnd Hkeep)
    as (ws' & tbl' & Hloop & Hlen & Hkept & Hvalid).
  destruct (compact_loop_consistent word _ _ _ Hdist Hinc Hbnd Hkeep _ _ _ Hloop)
    as (Hv & Hc & Hs).
  rewrite la_prune_unfold. cbv zeta. rewrite Hloop, bind_Ok.
  eexists. split; [reflexivity|].
  cbn [set_size set_nwords set_word2int set_words set_pruneidx_size size_ nwords_
       nlabels_ words_ word2int_ fst snd].
  split.
  { rewrite prune_positions_length by assumption.
    pose proof (layout_nlabels d Hlay). lia. }
  split; [exact Hlen|]. split; [|auto].
  destruct (Nat.le_gt_cases (length (prune_positions idx d))
              (length (words_ d))) as [Hle|Hgt]; [exact Hle|].
  destruct (lookup_lt_is_Some_2 (prune_positions idx d) (length (words_ d)))
    as [p Hp]; [lia|].
  assert (Hmono : forall k q, prune_positions idx d !! k = Some q -> (k <= q)%nat).
  { induction k as [|k IHk]; intros q Hq; [lia|].
    destruct (lookup_lt_is_Some_2 (prune_positions idx d) k) as [q' Hq'].
    { apply lookup_lt_Some in Hq. lia. }
    pose proof (IHk q' Hq'). pose proof (Hinc k (Datatypes.S k) q' q ltac:(lia) Hq' Hq).
    lia. }
  pose proof (Hmono _ _ Hp). pose proof (Hbnd _ _ Hp). lia.
Qed.

(** After [prune], every kept entry is found at its new id, and [getId]
    hands out nothing but [-1] or the id of the word asked for. *)
Lemma la_prune_getId (idx : list Z) (d : Dictionary) :
  well_formed d -> layout d ->
  Forall (fun x => 0 <= x) (List.filter (fun x => x <? nwords_ d) idx) ->
  NoDup (List.filter (fun x => x <? nwords_ d) idx) ->
  exists d' kept,
    prune idx d = Ok (d', kept)
    /\ (forall k e, 0 <= k < size_ d' -> words_ d' !! Z.to_nat k = Some e ->
          getId d' (word e) = Ok k)
    /\ (forall w, exists id,
          getId d' w = Ok id
          /\ (id = -1 \/ (0 <= id < size_ d' /\ getWord d' id = Ok w))).
Proof.
  intros Hwf Hlay Hpos Hnd.
  destruct (la_prune_indexes idx d) as (d' & Hp & Hnw & Hlen & Hle & Hv & Hc & Hs);
    try assumption.
  { exact (wf_room d Hwf). }
  { exact (consistent_NoDup word _ _ (wf_indexes d Hwf)). }
  exists d', (kept_ids idx (nwords_ d)). split; [exact Hp|]. split.
  - intros k e Hk He. apply la_getId_found.
    rewrite <- (Z2Nat.id k) by lia. apply Hc; [lia | exact He].
  - intros w.
    destruct (probe_on_sparse word (words_ d') (word2int_ d') w (hash w))
      as (h & Hh & _).
    { eapply index_valid_mono; [|exact Hv]. lia. }
    { pose proof (wf_room d Hwf). lia. }
    assert (Hf : found_at word (word2int_ d') (words_ d') w (slot_at (word2int_ d') h))
      by (exists h; split; [exact Hh | reflexivity]).
    exists (slot_at (word2int_ d') h). split; [apply la_getId_found, Hf|].
    destruct (Z.eq_dec (slot_at (word2int_ d') h) (-1)) as [Heq|Hne]; [left; exact Heq|].
    right. pose proof (index_valid_slot _ _ h Hv Hne) as Hr.
    destruct (found_at_sound word _ _ _ _ Hf Hne) as (_ & e & He & Hw).
    assert (Hr' : 0 <= slot_at (word2int_ d') h < size_ d') by lia.
    split; [exact Hr'|]. apply la_getWord_Ok. split; [exact Hr'|]. eauto.
Qed.
End PruneIndex.

Lemma la_example_dictionary_well_formed : well_formed example_dictionary.
Proof.
  apply (@la_readFromFile_well_formed insertion_StdSort (open_stream example_corpus)
           example_rest example_args).
  vm_compute. reflexivity.
Qed.

(** ** The counts of a corpus that never fills the table *)

(** The entries tally with the tokens seen so far, and each carries the
    type that its word has. *)
Record tally (d : Dictionary) (seen : list string) : Prop := {
  tally_ntokens : ntokens_ d = Z.of_nat (length seen);
  tally_counts : forall e, e ∈ words_ d ->
      count e = occ (word e) seen /\ type e = getType_word d (word e);
  tally_seen : forall w, w ∈ seen <-> w ∈ map word (words_ d)
}.

Lemma la_new_tally (args : Args) : tally (new args 0) [].
Proof.
  split; cbn.
  - reflexivity.
  - intros e He. apply elem_of_nil in He. contradiction.
  - intros w. reflexivity.
Qed.

Lemma getType_word_args (d d' : Dictionary) (w : string) :
  args_ d' = args_ d -> getType_word d' w = getType_word d w.
Proof. intros Ha. unfold getType_word. rewrite Ha. reflexivity. Qed.

Lemma la_add_tally (w : string) (d d' : Dictionary) (seen : list string) :
  well_formed d -> tally d seen -> add w d = Ok d' -> tally d' (seen ++ [w]).
Proof.
  intros Hwf [Hnt Hcnt Hseen] Hadd.
  destruct (la_add_cases _ _ _ Hadd) as (Hnt' & Ha' & _).
  pose proof (consistent_NoDup word _ _ (wf_indexes d Hwf)) as Hnd.
  change (map word (words_ d)) with (word <$> words_ d) in *.
  destruct (la_add_slot_cases _ _ _ Hadd)
    as (h & Hfind & [(Hempty & Hws & _)|(Hlive & _ & e & He & Hws)]).
  - assert (Hg : getId d w = Ok (-1)).
    { unfold getId. rewrite Hfind, bind_Ok, Hempty. reflexivity. }
    apply (la_getId_spec d w _ Hwf) in Hg. destruct Hg as [[_ Hnot]|[H0 _]]; [|lia].
    change (map word (words_ d)) with (word <$> words_ d) in Hnot.
    split.
    + rewrite Hnt', Hnt, length_app. cbn [length]. lia.
    + intros e He. rewrite Hws in He. apply elem_of_app in He.
      rewrite occ_app, (getType_word_args d d' _ Ha'). destruct He as [He|He].
      * destruct (Hcnt e He) as [Hc Hty].
        rewrite occ_single_other, Hc; [split; [lia | exact Hty]|].
        intros ->. apply Hnot. apply list_elem_of_fmap. eauto.
      * apply list_elem_of_singleton in He. subst e. cbn [word count type].
        rewrite occ_single_same. split; [|reflexivity].
        assert (occ w seen = 0); [|lia].
        pose proof (occ_nonneg w seen). pose proof (occ_pos w seen) as Hp.
        destruct (Z.eq_dec (occ w seen) 0) as [|Hne]; [assumption|].
        elim Hnot. apply Hseen, Hp. lia.
    + intros w'. rewrite Hws. change (map word ?l) with (word <$> l).
      rewrite fmap_app, !elem_of_app, Hseen. cbn. reflexivity.
  - assert (Hg : getId d w = Ok (slot_at (word2int_ d) h)).
    { unfold getId. rewrite Hfind, bind_Ok. reflexivity. }
    apply (la_getId_spec d w _ Hwf) in Hg.
    destruct Hg as [[Hm _]|[H0 Hl]]; [contradiction|].
    change (map word (words_ d)) with (word <$> words_ d) in Hl.
    set (i := Z.to_nat (slot_at (word2int_ d) h)) in *.
    assert (Hwe : word e = w).
    { rewrite list_lookup_fmap, He in Hl. cbn in Hl. congruence. }
    assert (Hwords : word <$> words_ d' = word <$> words_ d).
    { rewrite Hws, list_fmap_insert. cbn [word].
      apply list_insert_id. rewrite list_lookup_fmap, He. reflexivity. }
    split.
    + rewrite Hnt', Hnt, length_app. cbn [length]. lia.
    + intros e' He'. apply list_elem_of_lookup in He'. destruct He' as [j Hj].
      rewrite Hws in Hj. rewrite occ_app, (getType_word_args d d' _ Ha').
      destruct (decide (j = i)) as [->|Hne].
      * rewrite list_lookup_insert_eq in Hj by (eapply lookup_lt_Some, He).
        inversion Hj; subst e'. cbn [word count type]. rewrite Hwe, occ_single_same.
        destruct (Hcnt e) as [Hc Hty]; [eapply list_elem_of_lookup_2, He|].
        rewrite Hc, Hty, Hwe. split; [lia | reflexivity].
      * rewrite list_lookup_insert_ne in Hj by congruence.
        destruct (Hcnt e') as [Hc Hty]; [eapply list_elem_of_lookup_2, Hj|].
        rewrite occ_single_other, Hc; [split; [lia | exact Hty]|].
        intros Heq. apply Hne. rewrite NoDup_alt in Hnd.
        apply (Hnd j i w); rewrite list_lookup_fmap.
        -- rewrite Hj. cbn. congruence.
        -- rewrite He. cbn. congruence.
    + intros w'. change (map word (words_ d')) with (word <$> words_ d').
      rewrite Hwords, elem_of_app, Hseen, list_elem_of_singleton. split; [|tauto].
      intros [Hin| ->]; [exact Hin|]. eapply list_elem_of_lookup_2, Hl.
Qed.

Section BuilderTally.
Context `{StdSort}.

Lemma la_readFromFile_loop_tally (fuel : nat) (s s' : istream) (mt : Z)
    (d d' : Dictionary) (seen : list string) :
  readFromFile_loop fuel s mt d = Ok (d', s') ->
  well_formed d -> tally d seen -> size_ d <= ntokens_ d ->
  ntokens_ d + Z.of_nat (length (unread s)) <= load_cap ->
  tally d' (seen ++ tokens_from fuel s) /\ well_formed d' /\ args_ d' = args_ d.
Proof.
  revert s mt d seen.
  induction fuel as [|fuel IH]; intros s mt d seen Hl Hwf Ht Hle Hcap; [discriminate|].
  rewrite la_readFromFile_loop_step in Hl. rewrite tokens_from_step.
  destruct ((readWord s).1.1) eqn:Hmore.
  - pose proof (readWord_progress s Hmore) as Hprog.
    destruct (add (readWord s).1.2 d) as [d1|] eqn:Hadd; [|discriminate].
    rewrite bind_Ok in Hl.
    destruct (la_add_cases _ _ _ Hadd) as (Hnt1 & Ha1 & _ & _ & Hcase).
    assert (Hnw1 : size_ d1 <= size_ d + 1)
      by (destruct Hcase as [[_ ->]|(i & e & _ & _ & ->)]; lia).
    pose proof (wf_count d Hwf) as Hn.
    assert (Hwf1 : well_formed d1).
    { apply (la_add_well_formed (readWord s).1.2 d d1 Hwf); [|exact Hadd].
      unfold load_cap, MAX_VOCAB_SIZE in *. lia. }
    pose proof (la_add_tally (readWord s).1.2 d d1 seen Hwf Ht Hadd) as Ht1.
    destruct (Z.ltb_spec load_cap (size_ d1)) as [Hover|_]; [lia|].
    apply (IH _ _ _ (seen ++ [(readWord s).1.2])) in Hl;
      [|exact Hwf1|exact Ht1|lia|lia].
    destruct Hl as (Ht' & Hwf' & Ha').
    rewrite <- app_assoc in Ht'. split; [exact Ht'|]. split; [exact Hwf' | congruence].
  - inversion Hl; subst. rewrite app_nil_r. auto.
Qed.

(** For a stream of at most 22,500,000 bytes the table never fills, no
    entry is purged on the way, and the vocabulary holds the words that
    stand at least [minCount] times in the stream and the labels that stand
    at least [minCountLabel] times, each with the number of times it stands
    there and with the type its prefix gives it. *)
Lemma la_readFromFile_counts (s : istream) (args : Args) :
  Z.of_nat (length (unread s)) <= load_cap ->
  (readFromFile s (new args 0) = Err ExitFailure
   /\ forall w, w ∈ tokens s ->
        below_cutoff (minCount args) (minCountLabel args)
          (mkEntry w (occ w (tokens s)) (getType_word (new args 0) w)) = true)
  \/ (exists d s',
         readFromFile s (new args 0) = Ok (d, s')
         /\ ntokens_ d = Z.of_nat (length (tokens s))
         /\ forall w c ty, mkEntry w c ty ∈ words_ d
              <-> (c = occ w (tokens s) /\ 1 <= c
                   /\ ty = getType_word (new args 0) w
                   /\ below_cutoff (minCount args) (minCountLabel args)
                        (mkEntry w c ty) = false)).
Proof.
  intros Hlen. unfold readFromFile.
  destruct (la_readFromFile_loop_returns (Datatypes.S (length (unread s))) s 1
              (new args 0)) as (d1 & s1 & Hloop).
  { lia. }
  { lia. }
  { apply la_new_counted. }
  { apply la_new_indexed. }
  { cbn. unfold load_cap. lia. }
  rewrite Hloop, bind_Ok.
  destruct (la_readFromFile_loop_tally _ _ _ _ _ _ [] Hloop)
    as (Ht1 & Hwf1 & Ha1).
  { apply la_new_well_formed. }
  { apply la_new_tally. }
  { cbn. lia. }
  { cbn. lia. }
  cbn [app] in Ht1. fold (tokens s) in Ht1.
  destruct (la_threshold_returns (minCount (args_ d1)) (minCountLabel (args_ d1)) d1)
    as [d2 Hth].
  { exact (wf_room d1 Hwf1). }
  rewrite Hth, bind_Ok.
  pose proof (la_threshold_words_perm _ _ _ _ Hth) as Hperm.
  destruct (la_threshold_fields _ _ _ _ Hth) as (_ & Hn2 & _ & _ & _ & Hnt2 & _).
  rewrite la_initTableDiscard_Ok by (rewrite Hn2; lia).
  rewrite bind_Ok. cbn [set_pdiscard size_].
  assert (Hmem : forall e, e ∈ words_ d2
            <-> e ∈ words_ d1
                /\ below_cutoff (minCount args) (minCountLabel args) e = false).
  { intros e. rewrite Hperm, !list_elem_of_In, List.filter_In, negb_true_iff.
    rewrite Ha1. reflexivity. }
  assert (Hentry : forall w c ty, mkEntry w c ty ∈ words_ d1
            <-> c = occ w (tokens s) /\ 1 <= c /\ ty = getType_word (new args 0) w).
  { intros w c ty. split.
    - intros Hin. destruct (tally_counts _ _ Ht1 _ Hin) as [Hc Hty]. cbn in Hc, Hty.
      split; [exact Hc|]. split.
      + rewrite Hc. apply occ_pos, (tally_seen _ _ Ht1).
        apply list_elem_of_In, List.in_map_iff. exists (mkEntry w c ty).
        split; [reflexivity | apply list_elem_of_In, Hin].
      + rewrite Hty. apply getType_word_args. exact Ha1.
    - intros (-> & Hpos & ->). apply occ_pos, (tally_seen _ _ Ht1) in Hpos.
      apply list_elem_of_In, List.in_map_iff in Hpos. destruct Hpos as (e & <- & Hin).
      apply list_elem_of_In in Hin.
      destruct (tally_counts _ _ Ht1 _ Hin) as [Hc Hty].
      rewrite <- Hc, <- (getType_word_args (new args 0) d1 _ Ha1), <- Hty.
      destruct e. exact Hin. }
  destruct (Z.eqb_spec (size_ d2) 0) as [Hzero|Hsome].
  - left. split; [reflexivity|]. intros w Hw.
    destruct (below_cutoff _ _ _) eqn:Hcut; [reflexivity|].
    assert (Hin : mkEntry w (occ w (tokens s)) (getType_word (new args 0) w) ∈ words_ d2).
    { apply Hmem. split; [|exact Hcut]. apply Hentry. split; [reflexivity|].
      split; [apply occ_pos, Hw | reflexivity]. }
    destruct (words_ d2); [apply elem_of_nil in Hin; contradiction | cbn in Hn2; lia].
  - right. eexists. eexists. split; [reflexivity|].
    cbn [set_pdiscard ntokens_ words_]. split.
    + rewrite Hnt2. exact (tally_ntokens _ _ Ht1).
    + intros w c ty. rewrite Hmem, Hentry. tauto.
Qed.
End BuilderTally.

Lemma below_cutoff_false (t tl : Z) (e : entry) :
  below_cutoff t tl e = false
  <-> (type e = entry_type.word -> t <= count e)
      /\ (type e = entry_type.label -> tl <= count e).
Proof.
  unfold below_cutoff. destruct (type e); cbn [entry_type.eqb andb orb].
  - rewrite orb_false_r, Z.ltb_ge. split; [intros Hle; split; [auto | discriminate] | tauto].
  - rewrite Z.ltb_ge. split; [intros Hle; split; [discriminate | auto] | tauto].
Qed.

(** ** threshold *)

Section ThresholdSpec.
Context `{StdSort}.

Lemma la_threshold_spec (t tl : Z) (d : Dictionary) :
  Z.of_nat (length (words_ d)) < MAX_VOCAB_SIZE ->
  exists d',
    threshold t tl d = Ok d'
    /\ Permutation (words_ d')
         (List.filter (fun e => match type e with
                                | entry_type.word => t <=? count e
                                | entry_type.label => tl <=? count e
                                end) (words_ d))
    /\ StronglySorted
         (fun a b => (type a = entry_type.label -> type b = entry_type.label)
                     /\ (type a = type b -> count b <= count a)) (words_ d')
    /\ layout d'
    /\ ntokens_ d' = ntokens_ d /\ pdiscard_ d' = pdiscard_ d
    /\ pruneidx_size_ d' = pruneidx_size_ d /\ pruneidx_ d' = pruneidx_ d
    /\ (NoDup (map word (words_ d)) -> well_formed d').
Proof.
  intros Hroom. destruct (la_threshold_returns t tl d Hroom) as [d' Hth].
  exists d'. split; [exact Hth|].
  destruct (la_threshold_fields _ _ _ _ Hth)
    as (Hws & Hn & _ & _ & _ & Hnt & Hps & Hp & Hpd & _).
  split.
  { rewrite (la_threshold_words_perm _ _ _ _ Hth).
    erewrite List.filter_ext; [reflexivity|]. intros e. unfold below_cutoff.
    destruct (type e); cbn [entry_type.eqb andb orb negb].
    - rewrite orb_false_r.
      destruct (Z.ltb_spec (count e) t), (Z.leb_spec t (count e)); try reflexivity; lia.
    - destruct (Z.ltb_spec (count e) tl), (Z.leb_spec tl (count e)); try reflexivity; lia. }
  split.
  { rewrite Hws. apply StronglySorted_filter_bool.
    eapply StronglySorted_weaken;
      [|apply (std_sort_sorted _ threshold_cmp (words_ d) la_threshold_cmp_swo)].
    intros a b Hab. cbn in Hab. unfold threshold_cmp in Hab.
    destruct (type a), (type b); cbn in Hab; try discriminate Hab;
      (split; [intros Hx; try discriminate Hx; reflexivity
              | intros Hx; try discriminate Hx; apply Z.ltb_ge in Hab; exact Hab]). }
  split; [exact (threshold_layout _ _ _ _ Hth)|].
  repeat (split; [assumption|]).
  intros Hnd. exact (la_threshold_well_formed t tl d d' Hnd Hroom Hth).
Qed.
End ThresholdSpec.

(** ** getLine without labels *)

Lemma getType_layout (d : Dictionary) (id : Z) :
  layout d -> 0 <= id < size_ d ->
  getType d id
  = Ok (if id <? nwords_ d then entry_type.word else entry_type.label).
Proof.
  intros Hlay Hid.
  destruct (vec_at_in_range (words_ d) id) as [e He].
  { rewrite <- (layout_size d Hlay). exact Hid. }
  rewrite (getType_Ok d id e Hid He). f_equal.
  apply vec_at_Ok in He. destruct He as [H0 He].
  rewrite (layout_type d Hlay _ _ He), Z2Nat.id by lia. reflexivity.
Qed.

Lemma la_getLine_loop_step (fuel : nat) (d : Dictionary) (s : istream)
    (rng : minstd_rand) (ws : list Z) (ntok : Z) (seen : list string) :
  getLine_loop (Datatypes.S fuel) d s rng ws ntok seen =
  if (readWord s).1.1 then
    h ← find d (readWord s).1.2;
    if slot_at (word2int_ d) h <? 0
    then getLine_loop fuel d (readWord s).2 rng ws ntok (seen ++ [(readWord s).1.2])
    else
      ty ← getType d (slot_at (word2int_ d) h);
      r ← (if entry_type.eqb ty entry_type.word then
             gone ← discard d (slot_at (word2int_ d) h) (to_real (uniform rng).1);
             Ok (if (gone : bool) then ws else ws ++ [slot_at (word2int_ d) h],
                 (uniform rng).2)
           else Ok (ws, rng));
      if (MAX_LINE_SIZE <? ntok + 1) || String.eqb (readWord s).1.2 EOS
      then Ok (mkLine (ntok + 1) r.1 [] (readWord s).2 r.2 (seen ++ [(readWord s).1.2]))
      else getLine_loop fuel d (readWord s).2 r.2 r.1 (ntok + 1)
             (seen ++ [(readWord s).1.2])
  else Ok (mkLine ntok ws [] (readWord s).2 rng seen).
Proof.
  cbn [getLine_loop]. destruct (readWord s) as [[more token] s1]. cbn [fst snd].
  destruct more; [|reflexivity].
  destruct (find d token) as [h|]; [|reflexivity]. rewrite !bind_Ok.
  destruct (slot_at (word2int_ d) h <? 0); [reflexivity|].
  destruct (getType d (slot_at (word2int_ d) h)) as [ty|]; [|reflexivity].
  rewrite !bind_Ok.
  destruct (entry_type.eqb ty entry_type.word).
  - destruct (uniform rng) as [r rng1]. cbn [fst snd].
    destruct (discard d (slot_at (word2int_ d) h) (to_real r)) as [gone|]; [|reflexivity].
    rewrite !bind_Ok. reflexivity.
  - rewrite !bind_Ok. reflexivity.
Qed.

(** The ids of the tokens that are in the vocabulary, in order. *)
Definition token_ids (d : Dictionary) (toks : list string) : list Z :=
  flat_map (fun w => match getId d w with
                     | Ok id => if 0 <=? id then [id] else []
                     | Err _ => []
                     end) toks.

(** The token resolves to an id of the dictionary. *)
Definition in_vocabulary (d : Dictionary) (w : string) : bool :=
  match getId d w with
  | Ok id => 0 <=? id
  | Err _ => false
  end.

Lemma la_token_ids_app (d : Dictionary) (l k : list string) :
  token_ids d (l ++ k) = token_ids d l ++ token_ids d k.
Proof. unfold token_ids. apply flat_map_app. Qed.

Lemma la_token_ids_single (d : Dictionary) (w : string) (h : Z) :
  find d w = Ok h ->
  token_ids d [w]
  = (if slot_at (word2int_ d) h <? 0 then [] else [slot_at (word2int_ d) h])
  /\ in_vocabulary d w = negb (slot_at (word2int_ d) h <? 0).
Proof.
  intros Hf. unfold token_ids, in_vocabulary, getId. cbn [flat_map].
  rewrite Hf, bind_Ok, app_nil_r.
  destruct (Z.leb_spec 0 (slot_at (word2int_ d) h)),
           (Z.ltb_spec (slot_at (word2int_ d) h) 0); try (split; reflexivity); lia.
Qed.

Lemma la_getLine_loop_words (fuel : nat) (d : Dictionary) (s : istream)
    (rng : minstd_rand) (ws : list Z) (ntok : Z) (seen : list string) (l : line) :
  getLine_loop fuel d s rng ws ntok seen = Ok l ->
  layout d -> index_valid (word2int_ d) (length (words_ d)) ->
  exists new pushed,
    consumed l = seen ++ new /\ words l = ws ++ pushed /\ labels l = []
    /\ sublist pushed (List.filter (fun id : Z => (id <? nwords_ d)%Z) (token_ids d new))
    /\ Forall (fun id => 0 <= id < size_ d) (token_ids d new)
    /\ returned l = ntok + Z.of_nat (length (token_ids d new))
    /\ taken (rest_rng l)
       = (taken rng
          + length (List.filter (fun id : Z => (id <? nwords_ d)%Z) (token_ids d new)))%nat
    /\ (model (args_ d) = sup ->
        pushed = List.filter (fun id : Z => (id <? nwords_ d)%Z) (token_ids d new))
    /\ (in_vocabulary d EOS = true ->
        forall pre post, new = pre ++ EOS :: post -> post = []).
Proof.
  intros Hl Hlay Hv. revert s rng ws ntok seen Hl.
  induction fuel as [|fuel IH]; intros s rng ws ntok seen Hl; [discriminate|].
  rewrite la_getLine_loop_step in Hl.
  destruct ((readWord s).1.1).
  - set (tok := (readWord s).1.2) in *.
    destruct (find d tok) as [h|] eqn:Hf; [|discriminate].
    rewrite bind_Ok in Hl.
    destruct (la_token_ids_single _ _ _ Hf) as [Hids Hin].
    destruct (Z.ltb_spec (slot_at (word2int_ d) h) 0) as [Hneg|Hpos].
    + destruct (IH _ _ _ _ _ Hl)
        as (new & pushed & Hc & Hw & Hlb & Hsub & HF & Hret & Ht & Hsup & He).
      exists (tok :: new), pushed.
      change (tok :: new) with ([tok] ++ new). rewrite la_token_ids_app, Hids. cbn [app].
      rewrite Hc, <- app_assoc. repeat (split; [assumption || reflexivity|]).
      intros Heos. apply eos_last_cons; [|exact (He Heos)].
      intros Heq. rewrite Heq in Hin. rewrite Hin in Heos. discriminate.
    + set (wid := slot_at (word2int_ d) h) in *.
      assert (Hr : 0 <= wid < size_ d).
      { rewrite (layout_size d Hlay). apply index_valid_slot; [exact Hv | lia]. }
      rewrite (getType_layout d wid Hlay Hr), bind_Ok in Hl.
      assert (Hstep : exists here,
                 (if entry_type.eqb
                       (if wid <? nwords_ d then entry_type.word else entry_type.label)
                       entry_type.word
                  then gone ← discard d wid (to_real (uniform rng).1);
                       Ok (if (gone : bool) then ws else ws ++ [wid], (uniform rng).2)
                  else Ok (ws, rng))
                 = Ok (ws ++ here,
                       mkRng (draws rng)
                         (taken rng + length (List.filter (fun id : Z => (id <? nwords_ d)%Z)
                                                          [wid])))
                 /\ sublist here (List.filter (fun id : Z => (id <? nwords_ d)%Z) [wid])
                 /\ (model (args_ d) = sup ->
                     here = List.filter (fun id : Z => (id <? nwords_ d)%Z) [wid])).
      { cbn [List.filter]. destruct (Z.ltb_spec wid (nwords_ d)) as [Hword|Hlabel];
          cbn [entry_type.eqb length].
        - destruct (discard d wid (to_real (uniform rng).1)) as [gone|] eqn:Hg;
            [|rewrite bind_Err in Hl; discriminate].
          rewrite bind_Ok. exists (if gone then [] else [wid]).
          split; [|split].
          + unfold uniform. cbn [snd]. rewrite Nat.add_1_r.
            destruct gone; rewrite ?app_nil_r; reflexivity.
          + destruct gone; [apply sublist_nil_l | reflexivity].
          + intros Hs. rewrite (la_discard_eq d wid _ ltac:(lia)) in Hg.
            rewrite Hs in Hg. cbn in Hg. inversion Hg. reflexivity.
        - exists []. rewrite app_nil_r, Nat.add_0_r. destruct rng as [dr tk].
          split; [reflexivity|]. split; [reflexivity | reflexivity]. }
      destruct Hstep as (here & Hstep & Hhere & Hheresup).
      rewrite Hstep, bind_Ok in Hl. cbn [fst snd] in Hl.
      destruct ((MAX_LINE_SIZE <? ntok + 1) || String.eqb tok EOS) eqn:Hbreak.
      * inversion Hl; subst l; clear Hl.
        cbn [consumed words labels rest_rng returned taken].
        exists [tok], here. rewrite Hids.
        split; [reflexivity|]. split; [reflexivity|]. split; [reflexivity|].
        split; [exact Hhere|].
        split; [constructor; [exact Hr | constructor]|].
        split; [cbn [length]; lia|].
        split; [reflexivity|].
        split; [exact Hheresup|].
        intros _. apply eos_last_single.
      * destruct (IH _ _ _ _ _ Hl)
          as (new & pushed & Hc & Hw & Hlb & Hsub & HF & Hret & Ht & Hsup & He).
        exists (tok :: new), (here ++ pushed).
        change (tok :: new) with ([tok] ++ new). rewrite la_token_ids_app, Hids.
        rewrite List.filter_app.
        rewrite Hc, <- app_assoc. split; [reflexivity|].
        split; [rewrite Hw, <- app_assoc; reflexivity|].
        split; [exact Hlb|].
        split; [apply sublist_app; assumption|].
        split; [apply Forall_app; split; [constructor; [exact Hr | constructor] | exact HF]|].
        split; [rewrite Hret, length_app; cbn [length]; lia|].
        split; [rewrite Ht; cbn [taken]; rewrite length_app; lia|].
        split; [intros Hs; rewrite (Hheresup Hs), (Hsup Hs); reflexivity|].
        intros Heos. apply eos_last_cons; [|exact (He Heos)].
        intros Heq. apply orb_false_iff in Hbreak. destruct Hbreak as [_ Hb].
        rewrite Heq, String.eqb_refl in Hb. discriminate.
  - inversion Hl; subst l. exists [], []. cbn. rewrite !app_nil_r.
    repeat split; try reflexivity; try constructor.
    + lia.
    + lia.
    + intros _ pre post Heq. destruct pre; discriminate.
Qed.

(** The loop of the three-argument [getLine] returns: the buffer bounds its
    turns, every id found has a type, and every word has a threshold. *)
Lemma la_getLine_loop_returns (fuel : nat) (d : Dictionary) (s : istream)
    (rng : minstd_rand) (ws : list Z) (ntok : Z) (seen : list string) :
  usable d -> layout d -> nwords_ d <= Z.of_nat (length (pdiscard_ d)) ->
  (length (unread s) < fuel)%nat ->
  exists l, getLine_loop fuel d s rng ws ntok seen = Ok l.
Proof.
  intros Hu Hlay Hpd. revert s rng ws ntok seen.
  induction fuel as [|fuel IH]; intros s rng ws ntok seen Hf; [lia|].
  rewrite la_getLine_loop_step.
  destruct ((readWord s).1.1) eqn:Hmore; [|eauto].
  pose proof (readWord_progress s Hmore) as Hp.
  destruct (la_find_stops d (readWord s).1.2 (hash (readWord s).1.2)
              (usable_index d Hu) (usable_free d Hu)) as (h & Hh & _ & _).
  rewrite <- la_find_unfold in Hh. rewrite Hh, bind_Ok.
  destruct (Z.ltb_spec (slot_at (word2int_ d) h) 0) as [Hneg|Hpos].
  - apply IH. lia.
  - set (wid := slot_at (word2int_ d) h) in *.
    assert (Hr : 0 <= wid < size_ d).
    { rewrite (layout_size d Hlay).
      apply index_valid_slot; [exact (usable_index d Hu) | lia]. }
    rewrite (getType_layout d wid Hlay Hr), bind_Ok.
    destruct (Z.ltb_spec wid (nwords_ d)) as [Hword|Hlabel]; cbn [entry_type.eqb].
    + rewrite (la_discard_eq d wid _ ltac:(lia)).
      destruct (model_name_eqb (model (args_ d)) sup).
      * rewrite bind_Ok. cbn [fst snd].
        destruct ((MAX_LINE_SIZE <? ntok + 1) || String.eqb (readWord s).1.2 EOS);
          [eauto|]. apply IH. lia.
      * destruct (vec_at_in_range (pdiscard_ d) wid) as [p Hpv]; [lia|].
        rewrite Hpv, !bind_Ok. cbn [fst snd].
        destruct ((MAX_LINE_SIZE <? ntok + 1) || String.eqb (readWord s).1.2 EOS);
          [eauto|]. apply IH. lia.
    + rewrite bind_Ok. cbn [fst snd].
      destruct ((MAX_LINE_SIZE <? ntok + 1) || String.eqb (readWord s).1.2 EOS);
        [eauto|]. apply IH. lia.
Qed.

(** ** getLabel *)

(** The token is a label of the vocabulary: its id is not below [nwords_]. *)
Definition vocabulary_label (d : Dictionary) (w : string) : bool :=
  match getId d w with
  | Ok id => nwords_ d <=? id
  | Err _ => false
  end.

Lemma getLabel_out_of_range (d : Dictionary) (lid : Z) :
  lid < 0 \/ nlabels_ d <= lid -> getLabel d lid = Err Throws.
Proof.
  intros Hr. unfold getLabel.
  destruct (Z.ltb_spec lid 0); [reflexivity|].
  destruct (Z.leb_spec (nlabels_ d) lid); [reflexivity | lia].
Qed.

Lemma getLabel_in_range (d : Dictionary) (lid : Z) :
  layout d -> 0 <= lid < nlabels_ d ->
  exists e, words_ d !! Z.to_nat (nwords_ d + lid) = Some e
            /\ type e = entry_type.label
            /\ getLabel d lid = Ok (word e).
Proof.
  intros Hlay Hr. unfold getLabel.
  destruct (Z.ltb_spec lid 0); [lia|].
  destruct (Z.leb_spec (nlabels_ d) lid); [lia|]. cbn [orb].
  pose proof (layout_nwords d Hlay) as Hn.
  destruct (vec_at_in_range (words_ d) (lid + nwords_ d)) as [e He].
  { rewrite <- (layout_size d Hlay), (layout_sum d Hlay). lia. }
  rewrite He, bind_Ok. exists e. apply vec_at_Ok in He. destruct He as [_ He].
  replace (nwords_ d + lid) with (lid + nwords_ d) by lia.
  split; [exact He|]. split; [|reflexivity].
  rewrite (layout_type d Hlay _ _ He), Z2Nat.id by lia.
  destruct (Z.ltb_spec (lid + nwords_ d) (nwords_ d)); [lia | reflexivity].
Qed.

(** The label id pushed for a token is one [getLabel] maps back to it. *)
Lemma label_ids_getLabel (d : Dictionary) (w : string) :
  layout d -> index_valid (word2int_ d) (length (words_ d)) ->
  Forall2 (fun lid w' => getLabel d lid = Ok w')
          (label_ids d w) (if vocabulary_label d w then [w] else []).
Proof.
  intros Hlay Hv. unfold label_ids, classify, vocabulary_label.
  pose proof (layout_nwords d Hlay) as Hn.
  destruct (getId_h d w (hash w)) as [wid|f] eqn:Hg.
  - assert (Hg' : getId d w = Ok wid)
      by (apply la_getId_found; apply la_getId_h_found; exact Hg).
    rewrite Hg', bind_Ok.
    destruct (Z.ltb_spec wid 0) as [Hneg|Hpos].
    + rewrite bind_Ok.
      destruct (Z.leb_spec (nwords_ d) wid); [lia|].
      destruct (getType_word d w); [constructor|].
      destruct (Z.leb_spec 0 wid); [lia | constructor].
    + apply la_getId_h_found in Hg.
      destruct (found_at_sound word _ _ _ _ Hg ltac:(lia)) as (_ & e & He & Hw).
      assert (Hr : 0 <= wid < size_ d).
      { rewrite (layout_size d Hlay). apply lookup_lt_Some in He. lia. }
      rewrite (getType_layout d wid Hlay Hr), bind_Ok.
      destruct (Z.ltb_spec wid (nwords_ d)) as [Hword|Hlabel].
      * destruct (Z.leb_spec (nwords_ d) wid); [lia | constructor].
      * destruct (Z.leb_spec (nwords_ d) wid); [|lia].
        destruct (Z.leb_spec 0 wid); [|lia].
        constructor; [|constructor].
        destruct (getLabel_in_range d (wid - nwords_ d) Hlay) as (e' & He' & _ & Hl).
        { rewrite (layout_sum d Hlay) in Hr. lia. }
        replace (nwords_ d + (wid - nwords_ d)) with wid in He' by lia.
        rewrite He in He'. inversion He'; subst e'. rewrite Hl, Hw. reflexivity.
  - rewrite bind_Err.
    destruct (getId d w) as [id|f'] eqn:Hg'; [|constructor].
    apply la_getId_found, la_getId_h_found in Hg'. congruence.
Qed.

Lemma flat_map_label_ids_getLabel (d : Dictionary) (toks : list string) :
  layout d -> index_valid (word2int_ d) (length (words_ d)) ->
  Forall2 (fun lid w' => getLabel d lid = Ok w')
          (flat_map (label_ids d) toks) (List.filter (vocabulary_label d) toks).
Proof.
  intros Hlay Hv. induction toks as [|w toks IH]; [constructor|].
  cbn [flat_map List.filter].
  pose proof (label_ids_getLabel d w Hlay Hv) as Hw.
  destruct (vocabulary_label d w).
  - change (w :: List.filter (vocabulary_label d) toks)
      with ([w] ++ List.filter (vocabulary_label d) toks).
    apply Forall2_app; assumption.
  - inversion Hw as [Hnil|]. cbn [app]. exact IH.
Qed.

(** ** The prune map along the life of a dictionary *)

Section PruneMap.
Context `{StdSort}.

(** The builder never touches the prune map. *)
Lemma la_readFromFile_loop_prune_map (fuel : nat) (s s' : istream) (mt : Z)
    (d d' : Dictionary) :
  readFromFile_loop fuel s mt d = Ok (d', s') ->
  pruneidx_size_ d' = pruneidx_size_ d /\ pruneidx_ d' = pruneidx_ d.
Proof.
  revert s mt d. induction fuel as [|fuel IH]; intros s mt d Hl; [discriminate|].
  rewrite la_readFromFile_loop_step in Hl.
  destruct ((readWord s).1.1).
  - destruct (add (readWord s).1.2 d) as [d1|] eqn:Hadd; [|discriminate].
    rewrite bind_Ok in Hl.
    destruct (la_add_cases _ _ _ Hadd) as (_ & _ & Hs1 & Hm1 & _).
    destruct (load_cap <? size_ d1).
    + destruct (threshold (mt + 1) (mt + 1) d1) as [d2|] eqn:Hth; [|discriminate].
      rewrite bind_Ok in Hl.
      destruct (la_threshold_fields _ _ _ _ Hth)
        as (_ & _ & _ & _ & _ & _ & Hs2 & Hm2 & _).
      destruct (IH _ _ _ Hl) as [Hs' Hm']. split; congruence.
    + destruct (IH _ _ _ Hl) as [Hs' Hm']. split; congruence.
  - inversion Hl; subst. split; reflexivity.
Qed.

Lemma la_readFromFile_prune_map (s s' : istream) (d d' : Dictionary) :
  readFromFile s d = Ok (d', s') ->
  pruneidx_size_ d' = pruneidx_size_ d /\ pruneidx_ d' = pruneidx_ d.
Proof.
  unfold readFromFile.
  destruct (readFromFile_loop _ s 1 d) as [[d1 s1]|] eqn:Hloop; [|discriminate].
  rewrite bind_Ok.
  destruct (la_readFromFile_loop_prune_map _ _ _ _ _ _ Hloop) as [Hs1 Hm1].
  destruct (threshold (minCount (args_ d1)) (minCountLabel (args_ d1)) d1)
    as [d2|] eqn:Hth; [|discriminate].
  rewrite bind_Ok.
  destruct (la_threshold_fields _ _ _ _ Hth)
    as (_ & _ & _ & _ & _ & _ & Hs2 & Hm2 & _).
  destruct (initTableDiscard d2) as [d3|] eqn:Hinit; [|discriminate].
  rewrite bind_Ok.
  destruct (la_initTableDiscard_frame _ _ Hinit) as [tbl Hd3].
  destruct (size_ d3 =? 0); [discriminate|].
  intros Hd. inversion Hd; subst d' s'. subst d3.
  cbn [set_pdiscard pruneidx_size_ pruneidx_]. split; congruence.
Qed.

(** [prune] records the size of the prune map and leaves the map alone. *)
Lemma la_prune_prune_map (idx idx' : list Z) (d d' : Dictionary) :
  prune idx d = Ok (d', idx') ->
  pruneidx_size_ d' = Z.of_nat (size (pruneidx_ d)) /\ pruneidx_ d' = pruneidx_ d.
Proof.
  rewrite la_prune_unfold. cbv zeta.
  destruct (compact_loop _ _ _ _ _ _) as [[[ws tbl] j]|]; [|discriminate].
  rewrite bind_Ok. intros Hd. inversion Hd; subst. split; reflexivity.
Qed.
End PruneMap.

(** ** The stream the builder leaves *)

Section BuilderStream.
Context `{StdSort}.

Lemma la_readFromFile_loop_stream (fuel : nat) (s s' : istream) (mt : Z)
    (d d' : Dictionary) :
  readFromFile_loop fuel s mt d = Ok (d', s') -> text_stream s ->
  content s' = content s /\ at_end s'.
Proof.
  revert s mt d. induction fuel as [|fuel IH]; intros s mt d Hl Hs; [discriminate|].
  rewrite la_readFromFile_loop_step in Hl.
  destruct (readWord_text_stream s Hs) as (Hc & Hs1 & Hend).
  destruct ((readWord s).1.1).
  - destruct (add (readWord s).1.2 d) as [d1|]; [|discriminate].
    rewrite bind_Ok in Hl.
    destruct (load_cap <? size_ d1).
    + destruct (threshold (mt + 1) (mt + 1) d1) as [d2|]; [|discriminate].
      rewrite bind_Ok in Hl.
      destruct (IH _ _ _ Hl Hs1) as [Hc' He']. split; [congruence | exact He'].
    + destruct (IH _ _ _ Hl Hs1) as [Hc' He']. split; [congruence | exact He'].
  - inversion Hl; subst. split; [exact Hc | exact (Hend eq_refl)].
Qed.

Lemma la_readFromFile_stream (s s' : istream) (d d' : Dictionary) :
  readFromFile s d = Ok (d', s') -> text_stream s ->
  content s' = content s /\ at_end s'.
Proof.
  unfold readFromFile. intros Hr Hs.
  destruct (readFromFile_loop _ s 1 d) as [[d1 s1]|] eqn:Hloop; [|discriminate].
  rewrite bind_Ok in Hr.
  destruct (threshold (minCount (args_ d1)) (minCountLabel (args_ d1)) d1)
    as [d2|]; [|discriminate].
  rewrite bind_Ok in Hr.
  destruct (initTableDiscard d2) as [d3|]; [|discriminate].
  rewrite bind_Ok in Hr.
  destruct (size_ d3 =? 0); [discriminate|].
  inversion Hr; subst d' s'.
  exact (la_readFromFile_loop_stream _ _ _ _ _ _ Hloop Hs).
Qed.
End BuilderStream.

(** On a stream that holds nothing but separators other than the newline,
    both [getLine]s read no token and leave the stream at its end. *)
Lemma la_getLine_blank (d : Dictionary) (s : istream) (rng : minstd_rand) :
  good s = true -> Forall skipped (unread s) ->
  exists s1, getLine d s rng = Ok (mkLine 0 [] [] s1 rng [])
             /\ getLine_labels d s rng = Ok (mkLine 0 [] [] s1 rng [])
             /\ content s1 = content s /\ at_end s1.
Proof.
  intros Hg Hb.
  assert (Hp : Forall plain (unread s)).
  { eapply Forall_impl; [exact Hb|]. intros a [Hsep _] He. rewrite He in Hsep.
    discriminate Hsep. }
  assert (Hr : reset s = s).
  { unfold reset. unfold good in Hg. destruct (eofbit s); [discriminate | reflexivity]. }
  unfold getLine, getLine_labels.
  rewrite Hr, la_getLine_loop_step, getLine_labels_loop_step.
  pose proof (proj2 (readWord_false_iff s Hp) Hb) as Hfalse.
  destruct (readWord_text_stream s (conj Hp (or_introl Hg))) as (Hc & _ & Hend).
  rewrite Hfalse, bind_Ok. eexists. split; [reflexivity|]. split; [reflexivity|].
  split; [exact Hc | exact (Hend Hfalse)].
Qed.

(** ** The counts of a built dictionary *)

(** The counts of the entries of one type. *)
Definition getCounts_of (ws : list entry) (ty : entry_type.t) : list Z :=
  map count (List.filter (fun e => entry_type.eqb (type e) ty) ws).

Lemma total_by_type (ws : list entry) :
  total (getCounts_of ws entry_type.word) + total (getCounts_of ws entry_type.label)
  = total (map count ws).
Proof.
  unfold getCounts_of. induction ws as [|e ws IH]; [reflexivity|].
  cbn [List.filter map]. unfold total in *.
  destruct (type e); cbn [entry_type.eqb map fold_right]; lia.
Qed.

Section BuiltCounts.
Context `{StdSort}.

(** The entries [readFromFile] leaves: words before labels, each kind by
    falling count, and the two counters are the numbers of each kind. *)
Lemma la_readFromFile_sorted (s s' : istream) (d0 d : Dictionary) :
  readFromFile s d0 = Ok (d, s') ->
  StronglySorted
    (fun a b => (type a = entry_type.label -> type b = entry_type.label)
                /\ (type a = type b -> count b <= count a)) (words_ d)
  /\ nwords_ d = Z.of_nat (count_type entry_type.word (words_ d))
  /\ nlabels_ d = Z.of_nat (count_type entry_type.label (words_ d)).
Proof.
  unfold readFromFile.
  destruct (readFromFile_loop _ s 1 d0) as [[d1 s1]|]; [|discriminate].
  rewrite bind_Ok.
  destruct (threshold (minCount (args_ d1)) (minCountLabel (args_ d1)) d1)
    as [d2|] eqn:Hth; [|discriminate].
  rewrite bind_Ok.
  destruct (initTableDiscard d2) as [d3|] eqn:Hinit; [|discriminate].
  rewrite bind_Ok.
  destruct (la_initTableDiscard_frame _ _ Hinit) as [tbl ->].
  destruct (size_ (set_pdiscard d2 tbl) =? 0); [discriminate|].
  intros Hd. inversion Hd; subst d s'. cbn [set_pdiscard words_ nwords_ nlabels_].
  destruct (la_threshold_fields _ _ _ _ Hth) as (Hws & _ & Hnw & Hnl & _).
  split; [|split; assumption].
  rewrite Hws. apply StronglySorted_filter_bool.
  eapply StronglySorted_weaken;
    [|apply (std_sort_sorted _ threshold_cmp (words_ d1) la_threshold_cmp_swo)].
  intros a b Hab. cbn in Hab. unfold threshold_cmp in Hab.
  destruct (type a), (type b); cbn in Hab; try discriminate Hab;
    (split; [intros Hx; try discriminate Hx; reflexivity
            | intros Hx; try discriminate Hx; apply Z.ltb_ge in Hab; exact Hab]).
Qed.

Lemma getCounts_sorted (d : Dictionary) (ty : entry_type.t) :
  StronglySorted
    (fun a b => (type a = entry_type.label -> type b = entry_type.label)
                /\ (type a = type b -> count b <= count a)) (words_ d) ->
  StronglySorted (fun a b => b <= a) (getCounts d ty).
Proof.
  intros Hs. unfold getCounts.
  apply (StronglySorted_map (fun a b => count b <= count a)); [auto|].
  apply (StronglySorted_within
           (fun a b => (type a = entry_type.label -> type b = entry_type.label)
                       /\ (type a = type b -> count b <= count a))
           (fun a b => count b <= count a) (fun e => type e = ty)
           (List.filter (fun e => entry_type.eqb (type e) ty) (words_ d))).
  - intros a b Ha Hb [_ Hab]. apply Hab. congruence.
  - apply Forall_forall. intros e He. apply list_elem_of_In, List.filter_In in He.
    destruct He as [_ He]. destruct (type e), ty; try discriminate He; reflexivity.
  - apply StronglySorted_filter_bool. exact Hs.
Qed.

(** [getCounts] on the dictionary built from a stream that cannot fill the
    table. *)
Lemma la_getCounts_built (s s' : istream) (args : Args) (d : Dictionary) :
  Z.of_nat (length (unread s)) <= load_cap ->
  readFromFile s (new args 0) = Ok (d, s') ->
  Z.of_nat (length (getCounts d entry_type.word)) = nwords_ d
  /\ Z.of_nat (length (getCounts d entry_type.label)) = nlabels_ d
  /\ StronglySorted (fun a b => b <= a) (getCounts d entry_type.word)
  /\ StronglySorted (fun a b => b <= a) (getCounts d entry_type.label)
  /\ Forall (fun c => 1 <= c /\ minCount args <= c) (getCounts d entry_type.word)
  /\ Forall (fun c => 1 <= c /\ minCountLabel args <= c)
            (getCounts d entry_type.label)
  /\ total (getCounts d entry_type.word) + total (getCounts d entry_type.label)
     = Z.of_nat (length (List.filter
                           (fun w => if String.prefix (label args) w
                                     then minCountLabel args <=? occ w (tokens s)
                                     else minCount args <=? occ w (tokens s))
                           (tokens s)))
  /\ total (getCounts d entry_type.word) + total (getCounts d entry_type.label)
     <= ntokens_ d
  /\ (minCount args <= 1 -> minCountLabel args <= 1 ->
      total (getCounts d entry_type.word) + total (getCounts d entry_type.label)
      = ntokens_ d).
Proof.
  intros Hlen Hread.
  destruct (la_readFromFile_well_formed _ _ _ _ Hread) as [Hwf _].
  destruct (la_readFromFile_sorted _ _ _ _ Hread) as (Hsorted & Hnw & Hnl).
  destruct (la_readFromFile_counts s args Hlen)
    as [[Hexit _]|(d1 & s1 & Hread1 & Hnt & Hentries)];
    [rewrite Hexit in Hread; discriminate|].
  rewrite Hread1 in Hread. inversion Hread; subst d1 s1. clear Hread.
  set (keep := fun w => if String.prefix (label args) w
                        then minCountLabel args <=? occ w (tokens s)
                        else minCount args <=? occ w (tokens s)).
  assert (Hcut : forall w c,
             below_cutoff (minCount args) (minCountLabel args)
               (mkEntry w c (getType_word (new args 0) w)) = false
             <-> (if String.prefix (label args) w
                  then minCountLabel args <= c else minCount args <= c)).
  { intros w c. rewrite below_cutoff_false. unfold getType_word.
    cbn [new args_ type count]. destruct (String.prefix (label args) w); split.
    - intros [_ Hl]. apply Hl. reflexivity.
    - intros Hl. split; [discriminate | intros _; exact Hl].
    - intros [Hw _]. apply Hw. reflexivity.
    - intros Hw. split; [intros _; exact Hw | discriminate]. }
  assert (Hsum : total (getCounts d entry_type.word)
                 + total (getCounts d entry_type.label)
                 = Z.of_nat (length (List.filter keep (tokens s)))).
  { change (getCounts d entry_type.word)
      with (getCounts_of (words_ d) entry_type.word).
    change (getCounts d entry_type.label)
      with (getCounts_of (words_ d) entry_type.label).
    rewrite total_by_type. apply (counts_total word count).
    - apply (consistent_NoDup word (word2int_ d)). exact (wf_indexes d Hwf).
    - intros [w c ty] He. apply Hentries in He. cbn. apply He.
    - intros w Hw. unfold keep. split.
      + intros Hin. apply list_elem_of_In, List.in_map_iff in Hin.
        destruct Hin as ([w' c ty] & Hw' & Hin). cbn in Hw'. subst w'.
        apply list_elem_of_In, Hentries in Hin.
        destruct Hin as (-> & _ & -> & Hge). apply Hcut in Hge.
        destruct (String.prefix (label args) w); apply Z.leb_le; exact Hge.
      + intros Hge.
        apply list_elem_of_In, List.in_map_iff.
        exists (mkEntry w (occ w (tokens s)) (getType_word (new args 0) w)).
        split; [reflexivity|].
        apply list_elem_of_In, Hentries. split; [reflexivity|].
        split; [apply occ_pos, Hw|]. split; [reflexivity|].
        apply Hcut. destruct (String.prefix (label args) w); apply Z.leb_le; exact Hge. }
  assert (Hbound : forall ty,
             Forall (fun c => 1 <= c
                              /\ match ty with
                                 | entry_type.word => minCount args <= c
                                 | entry_type.label => minCountLabel args <= c
                                 end) (getCounts d ty)).
  { intros ty. unfold getCounts. apply List.Forall_map, Forall_forall.
    intros [w c ty'] He. apply list_elem_of_In, List.filter_In in He.
    destruct He as [He Hty]. cbn [type] in Hty.
    apply list_elem_of_In, Hentries in He.
    destruct He as (-> & Hpos & Hty' & Hge). cbn [count]. split; [exact Hpos|].
    apply below_cutoff_false in Hge. cbn [type count] in Hge.
    destruct ty', ty; try discriminate Hty; apply Hge; reflexivity. }
  split.
  { unfold getCounts. rewrite length_map. symmetry. exact Hnw. }
  split.
  { unfold getCounts. rewrite length_map. symmetry. exact Hnl. }
  split; [exact (getCounts_sorted d _ Hsorted)|].
  split; [exact (getCounts_sorted d _ Hsorted)|].
  split; [exact (Hbound entry_type.word)|].
  split; [exact (Hbound entry_type.label)|].
  split; [exact Hsum|]. split.
  - rewrite Hsum, Hnt. apply inj_le, length_filter_le.
  - intros Hmin Hminl. rewrite Hsum, Hnt. rewrite filter_all; [reflexivity|].
    intros w Hw. unfold keep. apply occ_pos in Hw.
    destruct (String.prefix (label args) w); apply Z.leb_le; lia.
Qed.
End BuiltCounts.

(** ** The subsampling table of a built or loaded dictionary *)

(** The table holds, for every entry, the threshold computed from its
    count. *)
Definition tabled (d : Dictionary) : Prop :=
  size_ d = Z.of_nat (length (words_ d))
  /\ pdiscard_ d = map (pdiscard_of d) (words_ d).

Lemma la_initTableDiscard_tabled (d d' : Dictionary) :
  initTableDiscard d = Ok d' -> size_ d = Z.of_nat (length (words_ d)) ->
  tabled d'.
Proof.
  intros Hinit Hn. rewrite la_initTableDiscard_Ok in Hinit by lia.
  inversion Hinit; subst d'. split; [exact Hn|].
  cbn [set_pdiscard pdiscard_ words_]. rewrite Hn, Nat2Z.id, firstn_all.
  reflexivity.
Qed.

Lemma la_readFromFile_tabled `{StdSort} (s s' : istream) (d0 d : Dictionary) :
  readFromFile s d0 = Ok (d, s') -> tabled d /\ layout d.
Proof.
  unfold readFromFile.
  destruct (readFromFile_loop _ s 1 d0) as [[d1 s1]|]; [|discriminate].
  rewrite bind_Ok.
  destruct (threshold (minCount (args_ d1)) (minCountLabel (args_ d1)) d1)
    as [d2|] eqn:Hth; [|discriminate].
  rewrite bind_Ok.
  destruct (initTableDiscard d2) as [d3|] eqn:Hinit; [|discriminate].
  rewrite bind_Ok. destruct (size_ d3 =? 0); [discriminate|].
  intros Hd. inversion Hd; subst d3 s'.
  destruct (la_threshold_fields _ _ _ _ Hth) as (_ & Hn & _).
  split; [exact (la_initTableDiscard_tabled _ _ Hinit Hn)|].
  pose proof (threshold_layout _ _ _ _ Hth) as Hlay.
  destruct (la_initTableDiscard_frame _ _ Hinit) as [tbl ->].
  destruct Hlay as [H1 H2 H3 H4 H5]. split; assumption.
Qed.

Lemma la_load_tabled (s s' : istream) (d0 d : Dictionary) :
  load s d0 = Ok (d, s') -> tabled d.
Proof.
  unfold load. cbv zeta.
  destruct (read_int 4 s) as [[sz s0]|]; [|discriminate]. rewrite bind_Ok.
  destruct (read_int 4 s0) as [[nw s1]|]; [|discriminate]. rewrite bind_Ok.
  destruct (read_int 4 s1) as [[nl s1']|]; [|discriminate]. rewrite bind_Ok.
  destruct (read_int 8 s1') as [[nt s2]|]; [|discriminate]. rewrite bind_Ok.
  destruct (read_int 8 s2) as [[ps s3]|]; [|discriminate]. rewrite bind_Ok.
  destruct (load_entries _ _ _ _) as [[d2 s4]|] eqn:Hle; [|discriminate].
  rewrite bind_Ok.
  destruct (load_pruneidx _ _ _) as [[m s5]|]; [|discriminate]. rewrite bind_Ok.
  destruct (initTableDiscard _) as [d3|] eqn:Hinit; [|discriminate].
  rewrite bind_Ok. intros Hd. inversion Hd; subst d3 s5.
  apply la_load_entries_fields in Hle. cbn in Hle. destruct Hle as [Hlen Hnw].
  apply (la_initTableDiscard_tabled _ _ Hinit).
  pose proof (la_initTableDiscard_fields _ _ Hinit) as (H0 & _ & _).
  cbn [set_pruneidx size_ words_] in *. rewrite Hlen, Hnw in *. lia.
Qed.

(** What [discard] answers on such a dictionary. *)
Lemma la_discard_tabled (d : Dictionary) (id : Z) (r : spec_float) :
  tabled d -> nwords_ d <= size_ d ->
  (0 <= id < nwords_ d ->
   exists e, words_ d !! Z.to_nat id = Some e
             /\ discard d id r
                = Ok (if model_name_eqb (model (args_ d)) sup then false
                      else real_gt r (discard_probability (t (args_ d))
                                        (real_of_ratio (count e) (ntokens_ d)))))
  /\ (id < 0 \/ nwords_ d <= id -> discard d id r = Err AssertionFailed).
Proof.
  intros [Hn Htbl] Hle. split.
  - intros Hid. rewrite la_discard_eq by exact Hid.
    destruct (lookup_lt_is_Some_2 (words_ d) (Z.to_nat id)) as [e He]; [lia|].
    exists e. split; [exact He|].
    destruct (model_name_eqb (model (args_ d)) sup); [reflexivity|].
    assert (Hp : vec_at (pdiscard_ d) id = Ok (pdiscard_of d e)).
    { apply vec_at_Ok. split; [lia|]. rewrite Htbl.
      change (map (pdiscard_of d) (words_ d)) with (pdiscard_of d <$> words_ d).
      rewrite list_lookup_fmap, He. reflexivity. }
    rewrite Hp, bind_Ok. reflexivity.
  - intros Hout. unfold discard, assert.
    destruct (Z.leb_spec 0 id); [|reflexivity].
    destruct (Z.ltb_spec id (nwords_ d)); [lia | reflexivity].
Qed.

(** ** What add counts *)

(** The count the dictionary holds for [w]. *)
Definition count_of (d : Dictionary) (w : string) : Z :=
  recorded word count (words_ d) w.

Lemma la_add_frame (w : string) (d d' : Dictionary) :
  add w d = Ok d' -> nwords_ d' = nwords_ d /\ nlabels_ d' = nlabels_ d.
Proof.
  unfold add. destruct (find d w) as [h|]; [|discriminate].
  rewrite bind_Ok. cbn [set_ntokens word2int_ words_].
  destruct (slot_at (word2int_ d) h =? -1).
  - intros Hd. inversion Hd; subst. split; reflexivity.
  - destruct (vec_at (words_ d) (slot_at (word2int_ d) h)) as [e|]; [|discriminate].
    rewrite bind_Ok. intros Hd. inversion Hd; subst. split; reflexivity.
Qed.

Lemma la_add_counts (w : string) (d : Dictionary) :
  well_formed d -> Z.of_nat (length (words_ d)) + 1 < MAX_VOCAB_SIZE ->
  exists d',
    add w d = Ok d'
    /\ ntokens_ d' = ntokens_ d + 1
    /\ (forall w', count_of d' w'
                   = count_of d w' + (if String.eqb w w' then 1 else 0))
    /\ size_ d'
       = size_ d + (if decide (w ∈ map word (words_ d)) then 0 else 1)
    /\ map type (words_ d')
       = map type (words_ d)
         ++ (if decide (w ∈ map word (words_ d)) then [] else [getType_word d w])
    /\ nwords_ d' = nwords_ d /\ nlabels_ d' = nlabels_ d.
Proof.
  intros Hwf Hroom.
  destruct (la_add_returns w d (wf_count d Hwf)) as (d' & Hadd & _).
  { split; [exact (wf_valid d Hwf) | exact (wf_size d Hwf)]. }
  { lia. }
  exists d'. split; [exact Hadd|].
  destruct (la_add_cases _ _ _ Hadd) as (Hnt & _ & _ & _ & Hcases).
  split; [exact Hnt|].
  assert (Hgoal : (forall w', count_of d' w'
                     = count_of d w' + (if String.eqb w w' then 1 else 0))
                  /\ size_ d'
                     = size_ d + (if decide (w ∈ map word (words_ d)) then 0 else 1)
                  /\ map type (words_ d')
                     = map type (words_ d)
                       ++ (if decide (w ∈ map word (words_ d)) then []
                           else [getType_word d w])).
  { destruct (la_add_slot_cases _ _ _ Hadd)
      as (h & Hfind & [(Hempty & Hws & _)|(Hlive & _ & e & He & Hws)]).
    - assert (Hg : getId d w = Ok (-1)).
      { unfold getId. rewrite Hfind, bind_Ok, Hempty. reflexivity. }
      apply (la_getId_spec d w _ Hwf) in Hg.
      destruct Hg as [[_ Hnot]|[H0 _]]; [|lia].
      destruct (decide (w ∈ map word (words_ d))) as [Hin|_]; [contradiction|].
      split; [|split].
      + intros w'. unfold count_of. rewrite Hws, recorded_app, recorded_single.
        reflexivity.
      + destruct Hcases as [[_ Hn]|(i & e & Hi & Hws' & _)]; [exact Hn|].
        rewrite Hws in Hws'. apply (f_equal length) in Hws'.
        rewrite length_app, length_insert in Hws'. cbn [length] in Hws'. lia.
      + rewrite Hws, map_app. reflexivity.
    - assert (Hg : getId d w = Ok (slot_at (word2int_ d) h)).
      { unfold getId. rewrite Hfind, bind_Ok. reflexivity. }
      apply (la_getId_spec d w _ Hwf) in Hg.
      destruct Hg as [[Hm _]|[H0 Hl]]; [contradiction|].
      change (map word (words_ d)) with (word <$> words_ d) in *.
      rewrite list_lookup_fmap, He in Hl. cbn in Hl.
      assert (Hword : word e = w) by congruence. clear Hl.
      destruct (decide (w ∈ word <$> words_ d)) as [_|Hnot].
      + split; [|split].
        * intros w'. unfold count_of. rewrite Hws.
          rewrite (recorded_insert word count (words_ d) _ e
                     (mkEntry (word e) (count e + 1) (type e)) w' He eq_refl).
          rewrite Hword. cbn [count]. destruct (String.eqb w w'); lia.
        * destruct Hcases as [[Hws' _]|(i & e0 & _ & _ & Hn)]; [|lia].
          rewrite Hws in Hws'. apply (f_equal length) in Hws'.
          rewrite length_app, length_insert in Hws'. cbn [length] in Hws'. lia.
        * rewrite Hws, app_nil_r. change (map type ?l) with (type <$> l).
          rewrite list_fmap_insert. cbn [type].
          apply list_insert_id. rewrite list_lookup_fmap, He. reflexivity.
      + elim Hnot. apply list_elem_of_fmap. exists e.
        split; [symmetry; exact Hword|]. eapply list_elem_of_lookup_2, He. }
  destruct Hgoal as (H1 & H2 & H3).
  split; [exact H1|]. split; [exact H2|]. split; [exact H3|].
  exact (la_add_frame _ _ _ Hadd).
Qed.

(** ** find walks to the first free or matching slot *)

Lemma la_find_h_first (d : Dictionary) (w : string) (h id : Z) :
  find_h d w h = Ok id ->
  exists k,
    0 <= k < MAX_VOCAB_SIZE
    /\ id = (h + k) mod MAX_VOCAB_SIZE
    /\ stops_at (word2int_ d) (word_at d) w id
    /\ forall j, 0 <= j < k ->
         passed (word2int_ d) (word_at d) w ((h + j) mod MAX_VOCAB_SIZE).
Proof. unfold find_h. apply probe_first. Qed.

(** ** The tokens a call of getLine takes off the stream *)

Lemma la_getLine_loop_stream (fuel : nat) (d : Dictionary) (s : istream)
    (rng : minstd_rand) (ws : list Z) (ntok : Z) (seen : list string) (l : line) :
  getLine_loop fuel d s rng ws ntok seen = Ok l ->
  consumed l = seen ++ line_tokens (in_vocabulary d) ntok (tokens_from fuel s)
  /\ rest_in l
     = after_reads
         (length (line_tokens (in_vocabulary d) ntok (tokens_from fuel s))
          + (if line_breaks (in_vocabulary d) ntok (tokens_from fuel s)
             then 0 else 1)) s.
Proof.
  revert s rng ws ntok seen.
  induction fuel as [|fuel IH]; intros s rng ws ntok seen Hl; [discriminate|].
  rewrite la_getLine_loop_step in Hl. rewrite tokens_from_step.
  destruct ((readWord s).1.1).
  - set (tok := (readWord s).1.2) in *.
    destruct (find d tok) as [h|] eqn:Hf; [|discriminate].
    rewrite bind_Ok in Hl. destruct (la_token_ids_single _ _ _ Hf) as [_ Hv].
    cbn [line_tokens line_breaks]. rewrite Hv.
    destruct (slot_at (word2int_ d) h <? 0); cbn [negb].
    + destruct (IH _ _ _ _ _ Hl) as [Hc Hr]. split.
      * rewrite Hc, <- app_assoc. reflexivity.
      * rewrite Hr. reflexivity.
    + destruct (getType d _) as [ty|]; [|discriminate]. rewrite bind_Ok in Hl.
      destruct (if entry_type.eqb ty entry_type.word then _ else _) as [r|];
        [|discriminate].
      rewrite bind_Ok in Hl.
      destruct ((MAX_LINE_SIZE <? ntok + 1) || String.eqb tok EOS).
      * inversion Hl; subst l. cbn [consumed rest_in length Nat.add after_reads].
        split; reflexivity.
      * destruct (IH _ _ _ _ _ Hl) as [Hc Hr]. split.
        -- rewrite Hc, <- app_assoc. reflexivity.
        -- rewrite Hr. reflexivity.
  - inversion Hl; subst l. cbn [consumed rest_in line_tokens line_breaks length
                                 Nat.add after_reads].
    rewrite app_nil_r. split; reflexivity.
Qed.

Lemma la_getLine_stream (d : Dictionary) (s : istream) (rng : minstd_rand)
    (l : line) :
  getLine d s rng = Ok l ->
  consumed l = line_tokens (in_vocabulary d) 0 (tokens (reset s))
  /\ rest_in l
     = after_reads
         (length (line_tokens (in_vocabulary d) 0 (tokens (reset s)))
          + (if line_breaks (in_vocabulary d) 0 (tokens (reset s)) then 0 else 1))
         (reset s).
Proof.
  unfold getLine, tokens. intros Hl. exact (la_getLine_loop_stream _ _ _ _ _ _ _ _ Hl).
Qed.

(** The four-argument loop takes the tokens up to the first sentinel. *)
Lemma getLine_labels_loop_stream (fuel : nat) (d : Dictionary) (s : istream)
    (ws ls : list Z) (ntok : Z) (seen : list string)
    (n : Z) (ws' ls' : list Z) (s' : istream) (seen' : list string) :
  getLine_labels_loop fuel d s ws ls ntok seen = Ok (n, ws', ls', s', seen') ->
  seen' = seen ++ upto_eos (tokens_from fuel s)
  /\ s' = after_reads
            (length (upto_eos (tokens_from fuel s))
             + (if has_eos (tokens_from fuel s) then 0 else 1)) s.
Proof.
  revert s ws ls ntok seen.
  induction fuel as [|fuel IH]; intros s ws ls ntok seen Hl; [discriminate|].
  rewrite getLine_labels_loop_step in Hl. rewrite tokens_from_step.
  destruct ((readWord s).1.1).
  - set (tok := (readWord s).1.2) in *.
    destruct (getId_h d tok (hash tok)) as [wid|]; [|discriminate].
    rewrite bind_Ok in Hl.
    destruct (if wid <? 0 then Ok (getType_word d tok) else getType d wid)
      as [ty|]; [|discriminate].
    rewrite bind_Ok in Hl.
    destruct (if entry_type.eqb ty entry_type.word then _ else _) as [ws1 ls1].
    cbn [upto_eos has_eos existsb]. fold (has_eos (tokens_from fuel (readWord s).2)).
    destruct (String.eqb tok EOS); cbn [orb].
    + inversion Hl; subst. cbn [length Nat.add after_reads]. split; reflexivity.
    + destruct (IH _ _ _ _ _ Hl) as [Hc Hr]. split.
      * rewrite Hc, <- app_assoc. reflexivity.
      * rewrite Hr. reflexivity.
  - inversion Hl; subst. cbn [upto_eos has_eos existsb length Nat.add after_reads].
    rewrite app_nil_r. split; reflexivity.
Qed.

(** ** The ids that survive subsampling *)

(** The word ids of a line that the three-argument [getLine] keeps: the
    random source hands out one number per word id, in order, and an id is
    dropped when [discard] says so for its number. *)
Fixpoint subsample (d : Dictionary) (rng : minstd_rand) (ids : list Z) : list Z :=
  match ids with
  | [] => []
  | id :: rest =>
      match discard d id (to_real (uniform rng).1) with
      | Ok true => subsample d (uniform rng).2 rest
      | _ => id :: subsample d (uniform rng).2 rest
      end
  end.

Lemma la_getLine_loop_exact (fuel : nat) (d : Dictionary) (s : istream)
    (rng : minstd_rand) (ws : list Z) (ntok : Z) (seen : list string) (l : line) :
  getLine_loop fuel d s rng ws ntok seen = Ok l ->
  layout d -> index_valid (word2int_ d) (length (words_ d)) ->
  exists new,
    consumed l = seen ++ new
    /\ words l
       = ws ++ subsample d rng
                 (List.filter (fun id : Z => (id <? nwords_ d)%Z) (token_ids d new)).
Proof.
  intros Hl Hlay Hv. revert s rng ws ntok seen Hl.
  induction fuel as [|fuel IH]; intros s rng ws ntok seen Hl; [discriminate|].
  rewrite la_getLine_loop_step in Hl.
  destruct ((readWord s).1.1).
  - set (tok := (readWord s).1.2) in *.
    destruct (find d tok) as [h|] eqn:Hf; [|discriminate].
    rewrite bind_Ok in Hl. destruct (la_token_ids_single _ _ _ Hf) as [Hids _].
    destruct (Z.ltb_spec (slot_at (word2int_ d) h) 0) as [Hneg|Hpos].
    + destruct (IH _ _ _ _ _ Hl) as (new & Hc & Hw).
      exists (tok :: new). change (tok :: new) with ([tok] ++ new).
      rewrite la_token_ids_app, Hids. cbn [app].
      split; [rewrite Hc, <- app_assoc; reflexivity | exact Hw].
    + set (wid := slot_at (word2int_ d) h) in *.
      assert (Hr : 0 <= wid < size_ d).
      { rewrite (layout_size d Hlay). apply index_valid_slot; [exact Hv | lia]. }
      rewrite (getType_layout d wid Hlay Hr), bind_Ok in Hl.
      assert (Hstep : exists here,
                 (if entry_type.eqb
                       (if wid <? nwords_ d then entry_type.word else entry_type.label)
                       entry_type.word
                  then gone ← discard d wid (to_real (uniform rng).1);
                       Ok (if (gone : bool) then ws else ws ++ [wid], (uniform rng).2)
                  else Ok (ws, rng))
                 = Ok (ws ++ here.1, here.2)
                 /\ forall rest,
                      subsample d rng
                        (List.filter (fun id : Z => (id <? nwords_ d)%Z) ([wid] ++ rest))
                      = here.1 ++ subsample d here.2
                                    (List.filter (fun id : Z => (id <? nwords_ d)%Z) rest)).
      { cbn [app List.filter]. destruct (Z.ltb_spec wid (nwords_ d)) as [Hword|Hlabel];
          cbn [entry_type.eqb].
        - destruct (discard d wid (to_real (uniform rng).1)) as [gone|] eqn:Hg;
            [|rewrite bind_Err in Hl; discriminate].
          rewrite bind_Ok. exists (if gone then [] else [wid], (uniform rng).2).
          cbn [fst snd subsample]. rewrite Hg. split.
          + destruct gone; rewrite ?app_nil_r; reflexivity.
          + intros rest. destruct gone; reflexivity.
        - exists ([], rng). cbn [fst snd]. rewrite app_nil_r.
          split; [reflexivity | intros rest; reflexivity]. }
      destruct Hstep as ([here rng1] & Hstep & Hsub). cbn [fst snd] in Hstep, Hsub.
      rewrite Hstep, bind_Ok in Hl. cbn [fst snd] in Hl.
      destruct ((MAX_LINE_SIZE <? ntok + 1) || String.eqb tok EOS).
      * inversion Hl; subst l. cbn [consumed words].
        exists [tok]. split; [reflexivity|]. rewrite Hids.
        rewrite <- (app_nil_r [wid]), Hsub. cbn [List.filter subsample].
        rewrite app_nil_r. reflexivity.
      * destruct (IH _ _ _ _ _ Hl) as (new & Hc & Hw).
        exists (tok :: new). change (tok :: new) with ([tok] ++ new).
        rewrite la_token_ids_app, Hids, Hsub.
        split; [rewrite Hc, <- app_assoc; reflexivity|].
        rewrite Hw, <- app_assoc. reflexivity.
  - inversion Hl; subst l. exists []. cbn. rewrite !app_nil_r. split; reflexivity.
Qed.

(** ** A dictionary with a prune map *)

(** The example with a prune map of one pair, as [load] leaves a dictionary
    whose file carried one. *)
Definition example_with_prune_map : Dictionary :=
  set_pruneidx (set_pruneidx_size example_dictionary 1) {[0 := 1]}.


(** ** The start value of size_ *)

(** [readFromFile] reads the [size_] that construction left: from a start
    value of 5 the first [add] stores the index 5 for an entry that stands
    at position 0, and the second occurrence of the word is looked up out of
    the vector; from a start value above the load cap every [add] is
    followed by a purge, which drops the word before it is seen again. *)
Example readFromFile_start_size :
  @readFromFile insertion_StdSort (open_stream "a b a") (new example_args 5)
  = Err OutOfBounds
  /\ exists d s,
       @readFromFile insertion_StdSort (open_stream "a a")
         (new example_args 23000000) = Ok (d, s)
       /\ words_ d = [mkEntry "a" 1 entry_type.word]
       /\ ntokens_ d = 2.
Proof.
  split; [vm_compute; reflexivity|].
  do 2 eexists. split; [vm_compute; reflexivity|]. split; reflexivity.
Qed.

End LabelAwareFacts.

(** * Pruning, over both dictionaries *)

(** The ids of [idx] that name a word: its intersection with
    [[0, nwords_)]. *)
Definition ids_in_range (nwords : Z) (idx : list Z) : gset Z :=
  list_to_set (List.filter (fun x => (0 <=? x) && (x <? nwords)) idx).

(** The statement of the specification for the words-only dictionary: the
    live entries after [prune] are those of the ids in range, and [nwords_]
    counts these ids. *)
Definition prune_keeps_ids_in_range `{StdSort}
    (d : WordsOnly.Dictionary) (idx : list Z) : Prop :=
  exists d' idx',
    WordsOnly.prune idx d = Ok (d', idx')
    /\ WordsOnly.nwords_ d' = Z.of_nat (size (ids_in_range (WordsOnly.nwords_ d) idx))
    /\ forall e, e ∈ take (Z.to_nat (WordsOnly.nwords_ d')) (WordsOnly.words_ d')
                 <-> exists id, id ∈ ids_in_range (WordsOnly.nwords_ d) idx
                                /\ WordsOnly.words_ d !! Z.to_nat id = Some e.

(** A duplicated id: [prune({0, 0, 1})] on the two-word dictionary counts
    three words, and [b] is no longer found. *)
Lemma prune_duplicate_id_counterexample :
  ~ @prune_keeps_ids_in_range insertion_StdSort
      WordsOnlyFacts.example_dictionary [0; 0; 1].
Proof.
  intros (d' & idx' & Hp & Hn & _).
  assert (Hd : exists d0, @WordsOnly.prune insertion_StdSort [0; 0; 1]
                            WordsOnlyFacts.example_dictionary = Ok (d0, [0; 0; 1])
                          /\ WordsOnly.nwords_ d0 = 3).
  { eexists. split; vm_compute; reflexivity. }
  destruct Hd as (d0 & Hp0 & Hn0). rewrite Hp0 in Hp. inversion Hp; subst.
  rewrite Hn0 in Hn. vm_compute in Hn. discriminate Hn.
Qed.

(** A negative id: after [prune({-1, 0})] no word is found any more. *)
Example prune_negative_id :
  exists d',
    @WordsOnly.prune insertion_StdSort [-1; 0] WordsOnlyFacts.example_dictionary
    = Ok (d', [-1; 0])
    /\ WordsOnly.nwords_ d' = 2
    /\ WordsOnly.getId d' "a" = Ok (-1) /\ WordsOnly.getId d' "b" = Ok (-1).
Proof. eexists. split; [vm_compute; reflexivity|]. repeat split. Qed.

(** C2, amended: for a dictionary that stores at least [nwords_] entries
    (words first and labels after them, with consistent counters, in the
    label-aware one) and an id list whose ids below [nwords_] are non-negative
    and pairwise distinct, [prune] leaves in [idx] these ids in increasing
    order, sets [nwords_] to their number, moves the entry of the [k]-th of
    them to position [k], and keeps every label entry after them; ids at or
    above [nwords_] contribute nothing. *)
Theorem prune_keeps_sorted_ids `{StdSort} :
  (forall (d : WordsOnly.Dictionary) (idx : list Z),
      WordsOnly.nwords_ d <= Z.of_nat (length (WordsOnly.words_ d)) ->
      Z.of_nat (length (WordsOnly.words_ d)) <= MAX_VOCAB_SIZE ->
      Forall (fun x => 0 <= x) (List.filter (fun x => x <? WordsOnly.nwords_ d) idx) ->
      NoDup (List.filter (fun x => x <? WordsOnly.nwords_ d) idx) ->
      exists d' kept,
        WordsOnly.prune idx d = Ok (d', kept)
        /\ (forall x, x ∈ kept <-> x ∈ idx /\ 0 <= x < WordsOnly.nwords_ d)
        /\ (forall k1 k2 z1 z2, (k1 < k2)%nat ->
              kept !! k1 = Some z1 -> kept !! k2 = Some z2 -> z1 < z2)
        /\ WordsOnly.nwords_ d' = Z.of_nat (length kept)
        /\ (forall k z, kept !! k = Some z ->
              WordsOnly.words_ d' !! k = WordsOnly.words_ d !! Z.to_nat z))
  /\ (forall (d : LabelAware.Dictionary) (idx : list Z),
         LabelAwareFacts.layout d ->
         Z.of_nat (length (LabelAware.words_ d)) <= MAX_VOCAB_SIZE ->
         Forall (fun x => 0 <= x)
                (List.filter (fun x => x <? LabelAware.nwords_ d) idx) ->
         NoDup (List.filter (fun x => x <? LabelAware.nwords_ d) idx) ->
         exists d' kept,
           LabelAware.prune idx d = Ok (d', kept)
           /\ (forall x, x ∈ kept <-> x ∈ idx /\ 0 <= x < LabelAware.nwords_ d)
           /\ (forall k1 k2 z1 z2, (k1 < k2)%nat ->
                 kept !! k1 = Some z1 -> kept !! k2 = Some z2 -> z1 < z2)
           /\ LabelAware.nwords_ d' = Z.of_nat (length kept)
           /\ LabelAware.nlabels_ d' = LabelAware.nlabels_ d
           /\ (forall k z, kept !! k = Some z ->
                 LabelAware.words_ d' !! k = LabelAware.words_ d !! Z.to_nat z)
           /\ (forall l, (l < Z.to_nat (LabelAware.nlabels_ d))%nat ->
                 LabelAware.words_ d' !! (length kept + l)%nat
                 = LabelAware.words_ d !! (Z.to_nat (LabelAware.nwords_ d) + l)%nat)).
Proof.
  split.
  - intros d idx Hn Hcap Hpos Hnd.
    destruct (WordsOnlyFacts.prune_spec idx d Hn Hcap Hpos Hnd)
      as (d' & Hp & Hnw & _ & Hk & _).
    exists d', (kept_ids idx (WordsOnly.nwords_ d)). split; [exact Hp|].
    split; [|split; [|split; [exact Hnw | exact Hk]]].
    + intros x. rewrite kept_ids_elem. split.
      * intros [Hin Hlt]. split; [exact Hin|]. split; [|exact Hlt].
        rewrite Forall_forall in Hpos. apply Hpos.
        apply list_elem_of_In, filter_In. split; [apply list_elem_of_In, Hin|].
        apply Z.ltb_lt, Hlt.
      * intros [Hin [_ Hlt]]. split; assumption.
    + apply kept_ids_increasing. exact Hnd.
  - intros d idx Hlay Hcap Hpos Hnd.
    destruct (LabelAwareFacts.la_prune_spec idx d Hlay Hcap Hpos Hnd)
      as (d' & Hp & Hnw & Hnl & _ & _ & Hk & Hl & _).
    exists d', (kept_ids idx (LabelAware.nwords_ d)). split; [exact Hp|].
    split; [|split; [|split; [exact Hnw | split; [exact Hnl | split; [exact Hk | exact Hl]]]]].
    + intros x. rewrite kept_ids_elem. split.
      * intros [Hin Hlt]. split; [exact Hin|]. split; [|exact Hlt].
        rewrite Forall_forall in Hpos. apply Hpos.
        apply list_elem_of_In, filter_In. split; [apply list_elem_of_In, Hin|].
        apply Z.ltb_lt, Hlt.
      * intros [Hin [_ Hlt]]. split; assumption.
    + apply kept_ids_increasing. exact Hnd.
Qed.

Lemma prune_keeps_sorted_ids_witness :
  (exists d' kept,
      @WordsOnly.prune insertion_StdSort [1; 5] WordsOnlyFacts.example_dictionary
      = Ok (d', kept)
      /\ (forall x, x ∈ kept <->
            x ∈ [1; 5] /\ 0 <= x < WordsOnly.nwords_ WordsOnlyFacts.example_dictionary)
      /\ (forall k1 k2 z1 z2, (k1 < k2)%nat ->
            kept !! k1 = Some z1 -> kept !! k2 = Some z2 -> z1 < z2)
      /\ WordsOnly.nwords_ d' = Z.of_nat (length kept)
      /\ (forall k z, kept !! k = Some z ->
            WordsOnly.words_ d' !! k
            = WordsOnly.words_ WordsOnlyFacts.example_dictionary !! Z.to_nat z))
  /\ (exists d' kept,
         @LabelAware.prune insertion_StdSort [3; 1; 7] LabelAwareFacts.example_dictionary
         = Ok (d', kept)
         /\ (forall x, x ∈ kept <->
               x ∈ [3; 1; 7]
               /\ 0 <= x < LabelAware.nwords_ LabelAwareFacts.example_dictionary)
         /\ (forall k1 k2 z1 z2, (k1 < k2)%nat ->
               kept !! k1 = Some z1 -> kept !! k2 = Some z2 -> z1 < z2)
         /\ LabelAware.nwords_ d' = Z.of_nat (length kept)
         /\ LabelAware.nlabels_ d' = LabelAware.nlabels_ LabelAwareFacts.example_dictionary
         /\ (forall k z, kept !! k = Some z ->
               LabelAware.words_ d' !! k
               = LabelAware.words_ LabelAwareFacts.example_dictionary !! Z.to_nat z)
         /\ (forall l,
               (l < Z.to_nat (LabelAware.nlabels_ LabelAwareFacts.example_dictionary))%nat ->
               LabelAware.words_ d' !! (length kept + l)%nat
               = LabelAware.words_ LabelAwareFacts.example_dictionary
                   !! (Z.to_nat (LabelAware.nwords_ LabelAwareFacts.example_dictionary) + l)%nat)).
Proof.
  split.
  - apply (proj1 (@prune_keeps_sorted_ids insertion_StdSort)).
    + apply Z.leb_le. vm_compute. reflexivity.
    + apply Z.leb_le. vm_compute. reflexivity.
    + apply (bool_decide_unpack _). vm_compute. exact I.
    + apply (bool_decide_unpack _). vm_compute. exact I.
  - apply (proj2 (@prune_keeps_sorted_ids insertion_StdSort)).
    + exact LabelAwareFacts.la_example_dictionary_layout.
    + apply Z.leb_le. vm_compute. reflexivity.
    + apply (bool_decide_unpack _). vm_compute. exact I.
    + apply (bool_decide_unpack _). vm_compute. exact I.
Defined.

(** C3 at the failing input: [prune({0})] sets the counter to the number of
    kept entries and leaves the vector as long as it was; in the label-aware
    dictionary a second [prune] then fails the assertion of [getType]. *)
Theorem prune_leaves_stale_entries :
  (exists d',
      @WordsOnly.prune insertion_StdSort [0] WordsOnlyFacts.example_dictionary
      = Ok (d', [0])
      /\ WordsOnly.nwords_ d' = 1 /\ length (WordsOnly.words_ d') = 2%nat
      /\ WordsOnly.getCounts d' = [4; 3])
  /\ (exists d',
         @LabelAware.prune insertion_StdSort [0] LabelAwareFacts.example_dictionary
         = Ok (d', [0])
         /\ LabelAware.size_ d' = 3 /\ length (LabelAware.words_ d') = 6%nat
         /\ @LabelAware.prune insertion_StdSort [0] d' = Err AssertionFailed).
Proof.
  split; eexists; (split; [vm_compute; reflexivity|]); repeat split.
Qed.

(** C10: [prune] leaves [pdiscard_] as it was, so that afterwards
    [discard(newId, r)] compares [r] with the probability the table held at
    position [newId] before the call. *)
Theorem prune_keeps_pdiscard `{StdSort} :
  (forall (d d' : WordsOnly.Dictionary) (idx idx' : list Z),
      WordsOnly.prune idx d = Ok (d', idx') ->
      WordsOnly.pdiscard_ d' = WordsOnly.pdiscard_ d
      /\ forall newId r, 0 <= newId < WordsOnly.nwords_ d' ->
           WordsOnly.discard d' newId r =
           if model_name_eqb (model (WordsOnly.args_ d)) sup then Ok false
           else p ← vec_at (WordsOnly.pdiscard_ d) newId; Ok (real_gt r p))
  /\ (forall (d d' : LabelAware.Dictionary) (idx idx' : list Z),
         LabelAware.prune idx d = Ok (d', idx') ->
         LabelAware.pdiscard_ d' = LabelAware.pdiscard_ d
         /\ forall newId r, 0 <= newId < LabelAware.nwords_ d' ->
              LabelAware.discard d' newId r =
              if model_name_eqb (model (LabelAware.args_ d)) sup then Ok false
              else p ← vec_at (LabelAware.pdiscard_ d) newId; Ok (real_gt r p)).
Proof.
  split; intros d d' idx idx' Hp.
  - split; [apply (WordsOnlyFacts.prune_frame _ _ _ _ Hp)|].
    intros newId r Hid. eapply WordsOnlyFacts.discard_after_prune; eassumption.
  - split; [apply (LabelAwareFacts.la_prune_frame _ _ _ _ Hp)|].
    intros newId r Hid. eapply LabelAwareFacts.la_discard_after_prune; eassumption.
Qed.

(** The dictionaries after [prune({1})] and [prune({3})], for the examples
    below. *)
Definition pruned_example : WordsOnly.Dictionary :=
  Eval vm_compute in
    match @WordsOnly.prune insertion_StdSort [1] WordsOnlyFacts.example_dictionary with
    | Ok (d, _) => d
    | Err _ => WordsOnlyFacts.example_dictionary
    end.

Definition pruned_label_example : LabelAware.Dictionary :=
  Eval vm_compute in
    match @LabelAware.prune insertion_StdSort [3] LabelAwareFacts.example_dictionary with
    | Ok (d, _) => d
    | Err _ => LabelAwareFacts.example_dictionary
    end.

Lemma prune_keeps_pdiscard_witness :
  (@WordsOnly.prune insertion_StdSort [1] WordsOnlyFacts.example_dictionary
   = Ok (pruned_example, [1])
   /\ WordsOnly.pdiscard_ pruned_example
      = WordsOnly.pdiscard_ WordsOnlyFacts.example_dictionary)
  /\ (@LabelAware.prune insertion_StdSort [3] LabelAwareFacts.example_dictionary
      = Ok (pruned_label_example, [3])
      /\ LabelAware.pdiscard_ pruned_label_example
         = LabelAware.pdiscard_ LabelAwareFacts.example_dictionary).
Proof.
  assert (H1 : @WordsOnly.prune insertion_StdSort [1] WordsOnlyFacts.example_dictionary
               = Ok (pruned_example, [1])) by (vm_compute; reflexivity).
  assert (H2 : @LabelAware.prune insertion_StdSort [3] LabelAwareFacts.example_dictionary
               = Ok (pruned_label_example, [3])) by (vm_compute; reflexivity).
  split; (split; [assumption|]).
  - exact (proj1 (proj1 (@prune_keeps_pdiscard insertion_StdSort) _ _ _ _ H1)).
  - exact (proj1 (proj2 (@prune_keeps_pdiscard insertion_StdSort) _ _ _ _ H2)).
Defined.

(** After [prune({1})] the word [b] has id 0, and [discard(0, r)] still uses
    the probability computed for [a]: at [r = 1/64] it discards, where the
    probability of [b] itself would keep the word. *)
Example discard_uses_stale_probability :
  let r := real_of_ratio 1 64 in
  WordsOnly.getWord pruned_example 0 = Ok "b"
  /\ WordsOnly.getWord WordsOnlyFacts.example_dictionary 1 = Ok "b"
  /\ WordsOnly.discard pruned_example 0 r = Ok true
  /\ WordsOnly.discard WordsOnlyFacts.example_dictionary 1 r = Ok false.
Proof. vm_compute. repeat split. Qed.

(** * The reader on a byte 0xFF *)

(** C7 at the failing input: on the stream [0xFF 'a' ' ' 'b'] the first byte
    is taken for [EOF]; [readWord] returns false with no token, [in.get()]
    swallows the [a], and the stream is neither exhausted nor at its end. *)
Theorem readWord_stops_at_byte_255 :
  let s := open_stream (String "255"%char "a b") in
  (readWord s).1.1 = false
  /\ (readWord s).1.2 = EmptyString
  /\ unread (readWord s).2 = [" "%char; "b"%char]
  /\ eofbit (readWord s).2 = false
  /\ (readWord (readWord s).2).1 = (true, "b").
Proof. vm_compute. repeat split. Qed.

(** The builder therefore drops what follows the byte. *)
Example readFromFile_stops_at_byte_255 :
  exists d s,
    @WordsOnly.readFromFile insertion_StdSort
      (open_stream ("a a b b " ++ String "255"%char " a a a b")%string)
      (WordsOnly.new WordsOnlyFacts.example_args) = Ok (d, s)
    /\ WordsOnly.words_ d = [WordsOnly.mkEntry "b" 2; WordsOnly.mkEntry "a" 2]
    /\ WordsOnly.ntokens_ d = 4.
Proof. do 2 eexists. split; [vm_compute; reflexivity|]. split; reflexivity. Qed.

(** * Reading a line *)










(** What the first line of the corpus yields. *)
Example getLine_labels_first_line :
  exists l,
    LabelAware.getLine_labels LabelAwareFacts.example_dictionary
      (open_stream LabelAwareFacts.example_corpus)
      (WordsOnlyFacts.constant_rng (to_double (real_of_ratio 1 2))) = Ok l
    /\ LabelAware.returned l = 4
    /\ LabelAware.consumed l = ["__label__pos"; "good"; "film"; "</s>"]
    /\ LabelAware.words l = [3; 1; 0]
    /\ LabelAware.labels l = [1].
Proof. eexists. split; [vm_compute; reflexivity|]. repeat split. Qed.

(** * save, then load *)



(** The bytes of the two-word dictionary. *)
Example save_example_bytes :
  WordsOnly.save WordsOnlyFacts.example_dictionary
  = Ok (le_bytes 4 2 ++ le_bytes 8 9 ++ le_bytes 8 (-1)
        ++ list_ascii_of_string "a" ++ [Ascii.zero] ++ le_bytes 8 4
        ++ list_ascii_of_string "b" ++ [Ascii.zero] ++ le_bytes 8 3).
Proof. vm_compute. reflexivity. Qed.

(** After [prune] the table that [load] recomputes is not the one the
    dictionary held. *)
Example pruned_round_trip :
  exists bytes d' s',
    WordsOnly.save pruned_example = Ok bytes
    /\ WordsOnly.load (stream_of_bytes bytes)
         (WordsOnly.new WordsOnlyFacts.example_args) = Ok (d', s')
    /\ WordsOnly.words_ pruned_example
       = [WordsOnly.mkEntry "b" 3; WordsOnly.mkEntry "b" 3]
    /\ WordsOnly.words_ d' = [WordsOnly.mkEntry "b" 3]
    /\ WordsOnly.pdiscard_ d' <> WordsOnly.pdiscard_ pruned_example.
Proof.
  do 3 eexists. split; [vm_compute; reflexivity|].
  split; [vm_compute; reflexivity|]. split; [reflexivity|]. split; [reflexivity|].
  vm_compute. discriminate.
Qed.

(** * Further properties of the code *)

(** ** getId, getWord and add *)

(** X1: [getId] never hands out the id of another word.  In a dictionary
    whose counter is the number of entries and whose index names stored
    entries, the id that [getId(w)] returns is [-1] or an id that [getWord]
    maps back to [w]; in both variants. *)
Theorem getId_names_the_word :
  (forall (d : WordsOnly.Dictionary) (w : string) (id : Z),
      WordsOnly.nwords_ d = Z.of_nat (length (WordsOnly.words_ d)) ->
      index_valid (WordsOnly.word2int_ d) (length (WordsOnly.words_ d)) ->
      WordsOnly.getId d w = Ok id ->
      id = -1 \/ (0 <= id < WordsOnly.nwords_ d /\ WordsOnly.getWord d id = Ok w))
  /\ (forall (d : LabelAware.Dictionary) (w : string) (id : Z),
         LabelAware.size_ d = Z.of_nat (length (LabelAware.words_ d)) ->
         index_valid (LabelAware.word2int_ d) (length (LabelAware.words_ d)) ->
         LabelAware.getId d w = Ok id ->
         id = -1 \/ (0 <= id < LabelAware.size_ d /\ LabelAware.getWord d id = Ok w)).
Proof.
  split; intros d w id Hn Hv Hg.
  - exact (WordsOnlyFacts.getId_sound d w id Hn Hv Hg).
  - exact (LabelAwareFacts.la_getId_sound d w id Hn Hv Hg).
Qed.

Lemma getId_names_the_word_witness :
  (1 = -1 \/ (0 <= 1 < WordsOnly.nwords_ WordsOnlyFacts.example_dictionary
              /\ WordsOnly.getWord WordsOnlyFacts.example_dictionary 1 = Ok "b"))
  /\ (5 = -1 \/ (0 <= 5 < LabelAware.size_ LabelAwareFacts.example_dictionary
                 /\ LabelAware.getWord LabelAwareFacts.example_dictionary 5
                    = Ok "__label__pos")).
Proof.
  split.
  - apply (proj1 getId_names_the_word WordsOnlyFacts.example_dictionary "b" 1).
    + reflexivity.
    + exact WordsOnlyFacts.example_dictionary_valid.
    + vm_compute. reflexivity.
  - apply (proj2 getId_names_the_word LabelAwareFacts.example_dictionary
             "__label__pos" 5).
    + reflexivity.
    + apply (bool_decide_unpack _). vm_compute. exact I.
    + vm_compute. reflexivity.
Defined.

(** X2: [add] and [getId].  On a well-formed dictionary with room for one
    more entry, after [add(w)] the word [w] has an id, which [getWord] maps
    back to [w]: the id it had, or the old counter if it was new; and every
    other word keeps the result of [getId] it had. *)
Theorem add_then_getId :
  (forall (d d' : WordsOnly.Dictionary) (w : string),
      WordsOnlyFacts.well_formed d ->
      Z.of_nat (length (WordsOnly.words_ d)) + 1 < MAX_VOCAB_SIZE ->
      WordsOnly.add w d = Ok d' ->
      (exists id,
          WordsOnly.getId d' w = Ok id /\ 0 <= id < WordsOnly.nwords_ d'
          /\ WordsOnly.getWord d' id = Ok w
          /\ (WordsOnly.getId d w = Ok (-1) -> id = WordsOnly.nwords_ d)
          /\ (forall i, WordsOnly.getId d w = Ok i -> i <> -1 -> id = i))
      /\ (forall w', w' <> w -> WordsOnly.getId d' w' = WordsOnly.getId d w'))
  /\ (forall (d d' : LabelAware.Dictionary) (w : string),
         LabelAwareFacts.well_formed d ->
         Z.of_nat (length (LabelAware.words_ d)) + 1 < MAX_VOCAB_SIZE ->
         LabelAware.add w d = Ok d' ->
         (exists id,
             LabelAware.getId d' w = Ok id /\ 0 <= id < LabelAware.size_ d'
             /\ LabelAware.getWord d' id = Ok w
             /\ (LabelAware.getId d w = Ok (-1) -> id = LabelAware.size_ d)
             /\ (forall i, LabelAware.getId d w = Ok i -> i <> -1 -> id = i))
         /\ (forall w', w' <> w -> LabelAware.getId d' w' = LabelAware.getId d w')).
Proof.
  split; intros d d' w Hwf Hroom Hadd.
  - exact (WordsOnlyFacts.add_getId w d d' Hwf Hroom Hadd).
  - exact (LabelAwareFacts.la_add_getId w d d' Hwf Hroom Hadd).
Qed.

Lemma add_then_getId_witness :
  (exists d',
      WordsOnly.add "a" (WordsOnly.new WordsOnlyFacts.example_args) = Ok d'
      /\ (exists id,
             WordsOnly.getId d' "a" = Ok id /\ 0 <= id < WordsOnly.nwords_ d'
             /\ WordsOnly.getWord d' id = Ok "a"
             /\ (WordsOnly.getId (WordsOnly.new WordsOnlyFacts.example_args) "a"
                 = Ok (-1)
                 -> id = WordsOnly.nwords_ (WordsOnly.new WordsOnlyFacts.example_args))
             /\ (forall i,
                    WordsOnly.getId (WordsOnly.new WordsOnlyFacts.example_args) "a"
                    = Ok i -> i <> -1 -> id = i))
         /\ (forall w', w' <> "a" ->
               WordsOnly.getId d' w'
               = WordsOnly.getId (WordsOnly.new WordsOnlyFacts.example_args) w'))
  /\ (exists d',
         LabelAware.add "a" (LabelAware.new LabelAwareFacts.example_args 0) = Ok d'
         /\ (exists id,
                LabelAware.getId d' "a" = Ok id /\ 0 <= id < LabelAware.size_ d'
                /\ LabelAware.getWord d' id = Ok "a"
                /\ (LabelAware.getId (LabelAware.new LabelAwareFacts.example_args 0) "a"
                    = Ok (-1)
                    -> id = LabelAware.size_ (LabelAware.new LabelAwareFacts.example_args 0))
                /\ (forall i,
                       LabelAware.getId (LabelAware.new LabelAwareFacts.example_args 0) "a"
                       = Ok i -> i <> -1 -> id = i))
            /\ (forall w', w' <> "a" ->
                  LabelAware.getId d' w'
                  = LabelAware.getId (LabelAware.new LabelAwareFacts.example_args 0) w')).
Proof.
  split.
  - eexists. split; [vm_compute; reflexivity|].
    apply (proj1 add_then_getId (WordsOnly.new WordsOnlyFacts.example_args)).
    + apply WordsOnlyFacts.new_well_formed.
    + cbn. unfold MAX_VOCAB_SIZE. lia.
    + vm_compute. reflexivity.
  - eexists. split; [vm_compute; reflexivity|].
    apply (proj2 add_then_getId (LabelAware.new LabelAwareFacts.example_args 0)).
    + apply LabelAwareFacts.la_new_well_formed.
    + cbn. unfold MAX_VOCAB_SIZE. lia.
    + vm_compute. reflexivity.
Defined.

(** X3: in the dictionary that [readFromFile] returns the stored words are
    pairwise distinct, [getId] inverts [getWord] on every id below the
    counter, and [getId] of a word that is not stored is [-1]; in both
    variants and for every [std::sort]. With labels the start is a newly
    constructed dictionary whose [size_], which the constructor leaves
    uninitialised, is 0 ([LabelAware.new args 0]); from another start value
    the result differs ([readFromFile_start_size]). *)
Theorem built_getId_inverts_getWord :
  (forall (sort : StdSort) (s s' : istream) (args : Args)
          (d : WordsOnly.Dictionary),
      @WordsOnly.readFromFile sort s (WordsOnly.new args) = Ok (d, s') ->
      NoDup (map WordsOnly.word (WordsOnly.words_ d))
      /\ (forall id, 0 <= id < WordsOnly.nwords_ d ->
            exists w, WordsOnly.getWord d id = Ok w /\ WordsOnly.getId d w = Ok id)
      /\ (forall w, w ∉ map WordsOnly.word (WordsOnly.words_ d) ->
            WordsOnly.getId d w = Ok (-1)))
  /\ (forall (sort : StdSort) (s s' : istream) (args : Args)
             (d : LabelAware.Dictionary),
         @LabelAware.readFromFile sort s (LabelAware.new args 0) = Ok (d, s') ->
         NoDup (map LabelAware.word (LabelAware.words_ d))
         /\ (forall id, 0 <= id < LabelAware.size_ d ->
               exists w, LabelAware.getWord d id = Ok w
                         /\ LabelAware.getId d w = Ok id)
         /\ (forall w, w ∉ map LabelAware.word (LabelAware.words_ d) ->
               LabelAware.getId d w = Ok (-1))).
Proof.
  split; intros sort s s' args d Hread.
  - destruct (@WordsOnlyFacts.readFromFile_well_formed sort _ _ _ _ Hread) as [Hwf _].
    split; [exact (consistent_NoDup _ _ _ (WordsOnlyFacts.wf_indexes d Hwf))|].
    split.
    + intros id Hid.
      destruct (lookup_lt_is_Some_2 (WordsOnly.words_ d) (Z.to_nat id)) as [e He].
      { rewrite (WordsOnlyFacts.wf_nwords d Hwf) in Hid. lia. }
      exists (WordsOnly.word e). split.
      * apply WordsOnlyFacts.getWord_Ok. split; [exact Hid|]. eauto.
      * rewrite (WordsOnlyFacts.getId_complete d _ e Hwf He).
        rewrite Z2Nat.id by lia. reflexivity.
    + intros w Hnot. apply (WordsOnlyFacts.getId_spec d w (-1) Hwf).
      left. split; [reflexivity | exact Hnot].
  - destruct (@LabelAwareFacts.la_readFromFile_well_formed sort _ _ _ _ Hread)
      as [Hwf _].
    split; [exact (consistent_NoDup _ _ _ (LabelAwareFacts.wf_indexes d Hwf))|].
    split.
    + intros id Hid.
      destruct (lookup_lt_is_Some_2 (LabelAware.words_ d) (Z.to_nat id)) as [e He].
      { rewrite (LabelAwareFacts.wf_count d Hwf) in Hid. lia. }
      exists (LabelAware.word e). split.
      * apply LabelAwareFacts.la_getWord_Ok. split; [exact Hid|]. eauto.
      * rewrite (LabelAwareFacts.la_getId_complete d _ e Hwf He).
        rewrite Z2Nat.id by lia. reflexivity.
    + intros w Hnot. apply (LabelAwareFacts.la_getId_spec d w (-1) Hwf).
      left. split; [reflexivity | exact Hnot].
Qed.

Lemma built_getId_inverts_getWord_witness :
  (NoDup (map WordsOnly.word (WordsOnly.words_ WordsOnlyFacts.example_dictionary))
   /\ (forall id, 0 <= id < WordsOnly.nwords_ WordsOnlyFacts.example_dictionary ->
         exists w, WordsOnly.getWord WordsOnlyFacts.example_dictionary id = Ok w
                   /\ WordsOnly.getId WordsOnlyFacts.example_dictionary w = Ok id)
   /\ (forall w,
         w ∉ map WordsOnly.word (WordsOnly.words_ WordsOnlyFacts.example_dictionary) ->
         WordsOnly.getId WordsOnlyFacts.example_dictionary w = Ok (-1)))
  /\ (NoDup (map LabelAware.word (LabelAware.words_ LabelAwareFacts.example_dictionary))
      /\ (forall id, 0 <= id < LabelAware.size_ LabelAwareFacts.example_dictionary ->
            exists w, LabelAware.getWord LabelAwareFacts.example_dictionary id = Ok w
                      /\ LabelAware.getId LabelAwareFacts.example_dictionary w = Ok id)
      /\ (forall w,
            w ∉ map LabelAware.word
                  (LabelAware.words_ LabelAwareFacts.example_dictionary) ->
            LabelAware.getId LabelAwareFacts.example_dictionary w = Ok (-1))).
Proof.
  split.
  - apply (proj1 built_getId_inverts_getWord insertion_StdSort
             (open_stream WordsOnlyFacts.scenario) WordsOnlyFacts.example_rest
             WordsOnlyFacts.example_args).
    vm_compute. reflexivity.
  - apply (proj2 built_getId_inverts_getWord insertion_StdSort
             (open_stream LabelAwareFacts.example_corpus) LabelAwareFacts.example_rest
             LabelAwareFacts.example_args).
    vm_compute. reflexivity.
Defined.

(** ** The index after load and after prune *)

(** X4: ids survive a save and a load.  For every dictionary that
    [readFromFile] returns, [load] of what [save] wrote returns a dictionary
    in which [getId] gives, for every word, what it gave before; in both
    variants. With labels the start is a newly
    constructed dictionary whose [size_], which the constructor leaves
    uninitialised, is 0 ([LabelAware.new args 0]); from another start value
    the result differs ([readFromFile_start_size]). *)
Theorem save_load_keeps_ids :
  (forall (sort : StdSort) (s s0 : istream) (args : Args)
          (d d0 : WordsOnly.Dictionary),
      int64 (Z.of_nat (length (unread s))) ->
      @WordsOnly.readFromFile sort s (WordsOnly.new args) = Ok (d, s0) ->
      WordsOnly.args_ d0 = args ->
      exists bytes d' s',
        WordsOnly.save d = Ok bytes
        /\ WordsOnly.load (stream_of_bytes bytes) d0 = Ok (d', s')
        /\ forall w, WordsOnly.getId d' w = WordsOnly.getId d w)
  /\ (forall (sort : StdSort) (s s0 : istream) (args : Args)
             (d d0 : LabelAware.Dictionary),
         int64 (Z.of_nat (length (unread s))) ->
         @LabelAware.readFromFile sort s (LabelAware.new args 0) = Ok (d, s0) ->
         LabelAware.args_ d0 = args ->
         exists bytes d' s',
           LabelAware.save d = Ok bytes
           /\ LabelAware.load (stream_of_bytes bytes) d0 = Ok (d', s')
           /\ forall w, LabelAware.getId d' w = LabelAware.getId d w).
Proof.
  split; intros sort s s0 args d d0 Hlen Hread Ha.
  - destruct (@WordsOnlyFacts.readFromFile_well_formed sort _ _ _ _ Hread) as [Hwf _].
    destruct (@WordsOnlyFacts.readFromFile_builds sort s args Hlen)
      as [Hexit|(d1 & s1 & Hbuilt & Hp & _ & Hargs & _)];
      [rewrite Hexit in Hread; discriminate|].
    rewrite Hbuilt in Hread. inversion Hread; subst d1 s1.
    destruct (WordsOnlyFacts.persistable_round_trip d d0 Hp ltac:(congruence))
      as (bytes & d' & s' & Hsave & Hload & Hws & _).
    exists bytes, d', s'. split; [exact Hsave|]. split; [exact Hload|].
    intros w. apply WordsOnlyFacts.getId_same_words; [exact Hwf | | congruence].
    apply (WordsOnlyFacts.load_well_formed _ _ _ _ Hload).
    + rewrite Hws. exact (consistent_NoDup _ _ _ (WordsOnlyFacts.wf_indexes d Hwf)).
    + rewrite Hws. exact (WordsOnlyFacts.wf_room d Hwf).
  - destruct (@LabelAwareFacts.la_readFromFile_well_formed sort _ _ _ _ Hread)
      as [Hwf _].
    destruct (@LabelAwareFacts.la_readFromFile_builds sort s args Hlen)
      as [Hexit|(d1 & s1 & Hbuilt & Hp & _ & _ & Hargs & _)];
      [rewrite Hexit in Hread; discriminate|].
    rewrite Hbuilt in Hread. inversion Hread; subst d1 s1.
    destruct (LabelAwareFacts.la_persistable_round_trip d d0 Hp ltac:(congruence))
      as (bytes & d' & s' & Hsave & Hload & Hws & _).
    exists bytes, d', s'. split; [exact Hsave|]. split; [exact Hload|].
    intros w. apply LabelAwareFacts.la_getId_same_words; [exact Hwf | | congruence].
    apply (LabelAwareFacts.la_load_well_formed _ _ _ _ Hload).
    + rewrite Hws. exact (consistent_NoDup _ _ _ (LabelAwareFacts.wf_indexes d Hwf)).
    + rewrite Hws. exact (LabelAwareFacts.wf_room d Hwf).
Qed.

Lemma save_load_keeps_ids_witness :
  (exists bytes d' s',
      WordsOnly.save WordsOnlyFacts.example_dictionary = Ok bytes
      /\ WordsOnly.load (stream_of_bytes bytes)
           (WordsOnly.new WordsOnlyFacts.example_args) = Ok (d', s')
      /\ forall w, WordsOnly.getId d' w
                   = WordsOnly.getId WordsOnlyFacts.example_dictionary w)
  /\ (exists bytes d' s',
         LabelAware.save LabelAwareFacts.example_dictionary = Ok bytes
         /\ LabelAware.load (stream_of_bytes bytes)
              (LabelAware.new LabelAwareFacts.example_args 0) = Ok (d', s')
         /\ forall w, LabelAware.getId d' w
                      = LabelAware.getId LabelAwareFacts.example_dictionary w).
Proof.
  split.
  - apply (proj1 save_load_keeps_ids insertion_StdSort
             (open_stream WordsOnlyFacts.scenario) WordsOnlyFacts.example_rest
             WordsOnlyFacts.example_args).
    + unfold int64. vm_compute. split; [discriminate | reflexivity].
    + vm_compute. reflexivity.
    + reflexivity.
  - apply (proj2 save_load_keeps_ids insertion_StdSort
             (open_stream LabelAwareFacts.example_corpus) LabelAwareFacts.example_rest
             LabelAwareFacts.example_args).
    + unfold int64. vm_compute. split; [discriminate | reflexivity].
    + vm_compute. reflexivity.
    + reflexivity.
Defined.

(** X5: the index that [prune] rebuilds.  On a well-formed dictionary (laid
    out words first, in the label-aware variant) and a list whose ids below
    [nwords_] are non-negative and distinct, [prune] returns a dictionary in
    which every entry below the new counter is found at its position, and
    [getId] of any word returns [-1] or an id below the counter that holds
    this word: the stale entries behind the counter are never handed out. *)
Theorem prune_rebuilds_index `{StdSort} :
  (forall (d : WordsOnly.Dictionary) (idx : list Z),
      WordsOnlyFacts.well_formed d ->
      Forall (fun x => 0 <= x) (List.filter (fun x => x <? WordsOnly.nwords_ d) idx) ->
      NoDup (List.filter (fun x => x <? WordsOnly.nwords_ d) idx) ->
      exists d' kept,
        WordsOnly.prune idx d = Ok (d', kept)
        /\ (forall k e, 0 <= k < WordsOnly.nwords_ d' ->
              WordsOnly.words_ d' !! Z.to_nat k = Some e ->
              WordsOnly.getId d' (WordsOnly.word e) = Ok k)
        /\ (forall w, exists id,
              WordsOnly.getId d' w = Ok id
              /\ (id = -1 \/ (0 <= id < WordsOnly.nwords_ d'
                              /\ WordsOnly.getWord d' id = Ok w))))
  /\ (forall (d : LabelAware.Dictionary) (idx : list Z),
         LabelAwareFacts.well_formed d -> LabelAwareFacts.layout d ->
         Forall (fun x => 0 <= x)
                (List.filter (fun x => x <? LabelAware.nwords_ d) idx) ->
         NoDup (List.filter (fun x => x <? LabelAware.nwords_ d) idx) ->
         exists d' kept,
           LabelAware.prune idx d = Ok (d', kept)
           /\ (forall k e, 0 <= k < LabelAware.size_ d' ->
                 LabelAware.words_ d' !! Z.to_nat k = Some e ->
                 LabelAware.getId d' (LabelAware.word e) = Ok k)
           /\ (forall w, exists id,
                 LabelAware.getId d' w = Ok id
                 /\ (id = -1 \/ (0 <= id < LabelAware.size_ d'
                                 /\ LabelAware.getWord d' id = Ok w)))).
Proof.
  split.
  - intros d idx Hwf Hpos Hnd. exact (WordsOnlyFacts.prune_getId idx d Hwf Hpos Hnd).
  - intros d idx Hwf Hlay Hpos Hnd.
    exact (LabelAwareFacts.la_prune_getId idx d Hwf Hlay Hpos Hnd).
Qed.

Lemma prune_rebuilds_index_witness :
  (exists d' kept,
      @WordsOnly.prune insertion_StdSort [1; 0] WordsOnlyFacts.example_dictionary
      = Ok (d', kept)
      /\ (forall k e, 0 <= k < WordsOnly.nwords_ d' ->
            WordsOnly.words_ d' !! Z.to_nat k = Some e ->
            WordsOnly.getId d' (WordsOnly.word e) = Ok k)
      /\ (forall w, exists id,
            WordsOnly.getId d' w = Ok id
            /\ (id = -1 \/ (0 <= id < WordsOnly.nwords_ d'
                            /\ WordsOnly.getWord d' id = Ok w))))
  /\ (exists d' kept,
         @LabelAware.prune insertion_StdSort [2; 0] LabelAwareFacts.example_dictionary
         = Ok (d', kept)
         /\ (forall k e, 0 <= k < LabelAware.size_ d' ->
               LabelAware.words_ d' !! Z.to_nat k = Some e ->
               LabelAware.getId d' (LabelAware.word e) = Ok k)
         /\ (forall w, exists id,
               LabelAware.getId d' w = Ok id
               /\ (id = -1 \/ (0 <= id < LabelAware.size_ d'
                               /\ LabelAware.getWord d' id = Ok w)))).
Proof.
  split.
  - apply (proj1 (@prune_rebuilds_index insertion_StdSort)).
    + exact WordsOnlyFacts.example_dictionary_well_formed.
    + apply (bool_decide_unpack _). vm_compute. exact I.
    + apply (bool_decide_unpack _). vm_compute. exact I.
  - apply (proj2 (@prune_rebuilds_index insertion_StdSort)).
    + exact LabelAwareFacts.la_example_dictionary_well_formed.
    + exact LabelAwareFacts.la_example_dictionary_layout.
    + apply (bool_decide_unpack _). vm_compute. exact I.
    + apply (bool_decide_unpack _). vm_compute. exact I.
Defined.

(** ** What readFromFile counts *)

(** X6: the vocabulary of a corpus that cannot fill the table.  For a stream
    of at most 22,500,000 bytes, [readFromFile] on a fresh dictionary either
    leaves through [exit(EXIT_FAILURE)], and then no token stands often
    enough in the stream, or returns a dictionary whose [ntokens_] is the
    number of tokens [readWord] handed out and which holds exactly the
    tokens that stand at least [minCount] times in the stream (labels:
    [minCountLabel] times), each with the number of times it stands there
    (and, in the label-aware variant, the type its prefix gives it). With labels the start is a newly
    constructed dictionary whose [size_], which the constructor leaves
    uninitialised, is 0 ([LabelAware.new args 0]); from another start value
    the result differs ([readFromFile_start_size]). *)
Theorem readFromFile_counts_occurrences `{StdSort} :
  (forall (s : istream) (args : Args),
      Z.of_nat (length (unread s)) <= load_cap ->
      (WordsOnly.readFromFile s (WordsOnly.new args) = Err ExitFailure
       /\ forall w, w ∈ tokens s -> occ w (tokens s) < minCount args)
      \/ (exists d s',
             WordsOnly.readFromFile s (WordsOnly.new args) = Ok (d, s')
             /\ WordsOnly.ntokens_ d = Z.of_nat (length (tokens s))
             /\ forall w c, WordsOnly.mkEntry w c ∈ WordsOnly.words_ d
                  <-> (c = occ w (tokens s) /\ 1 <= c /\ minCount args <= c)))
  /\ (forall (s : istream) (args : Args),
         Z.of_nat (length (unread s)) <= load_cap ->
         (LabelAware.readFromFile s (LabelAware.new args 0) = Err ExitFailure
          /\ forall w, w ∈ tokens s ->
               if String.prefix (label args) w
               then occ w (tokens s) < minCountLabel args
               else occ w (tokens s) < minCount args)
         \/ (exists d s',
                LabelAware.readFromFile s (LabelAware.new args 0) = Ok (d, s')
                /\ LabelAware.ntokens_ d = Z.of_nat (length (tokens s))
                /\ forall w c ty, LabelAware.mkEntry w c ty ∈ LabelAware.words_ d
                     <-> (c = occ w (tokens s) /\ 1 <= c
                          /\ ty = (if String.prefix (label args) w
                                   then entry_type.label else entry_type.word)
                          /\ (if String.prefix (label args) w
                              then minCountLabel args <= c
                              else minCount args <= c)))).
Proof.
  split; intros s args Hlen.
  - exact (WordsOnlyFacts.readFromFile_counts s args Hlen).
  - destruct (LabelAwareFacts.la_readFromFile_counts s args Hlen)
      as [[Hexit Hlow]|(d & s' & Hread & Hnt & Hwords)].
    + left. split; [exact Hexit|]. intros w Hw. specialize (Hlow w Hw).
      unfold LabelAware.below_cutoff, LabelAware.getType_word in Hlow.
      cbn [LabelAware.new LabelAware.args_ LabelAware.type LabelAware.count] in Hlow.
      destruct (String.prefix (label args) w); cbn in Hlow.
      * apply Z.ltb_lt. exact Hlow.
      * rewrite orb_false_r in Hlow. apply Z.ltb_lt. exact Hlow.
    + right. exists d, s'. split; [exact Hread|]. split; [exact Hnt|].
      intros w c ty. rewrite Hwords, LabelAwareFacts.below_cutoff_false.
      unfold LabelAware.getType_word.
      cbn [LabelAware.new LabelAware.args_ LabelAware.type LabelAware.count].
      destruct (String.prefix (label args) w); split.
      * intros (-> & Hc & -> & _ & Hl). repeat split; auto.
      * intros (-> & Hc & -> & Hl). repeat split; auto. discriminate.
      * intros (-> & Hc & -> & Hl & _). repeat split; auto.
      * intros (-> & Hc & -> & Hl). repeat split; auto. discriminate.
Qed.

Lemma readFromFile_counts_occurrences_witness :
  ((@WordsOnly.readFromFile insertion_StdSort (open_stream WordsOnlyFacts.scenario)
      (WordsOnly.new WordsOnlyFacts.example_args) = Err ExitFailure
    /\ forall w, w ∈ tokens (open_stream WordsOnlyFacts.scenario) ->
         occ w (tokens (open_stream WordsOnlyFacts.scenario))
         < minCount WordsOnlyFacts.example_args)
   \/ (exists d s',
          @WordsOnly.readFromFile insertion_StdSort
            (open_stream WordsOnlyFacts.scenario)
            (WordsOnly.new WordsOnlyFacts.example_args) = Ok (d, s')
          /\ WordsOnly.ntokens_ d
             = Z.of_nat (length (tokens (open_stream WordsOnlyFacts.scenario)))
          /\ forall w c, WordsOnly.mkEntry w c ∈ WordsOnly.words_ d
               <-> (c = occ w (tokens (open_stream WordsOnlyFacts.scenario))
                    /\ 1 <= c /\ minCount WordsOnlyFacts.example_args <= c)))
  /\ tokens (open_stream WordsOnlyFacts.scenario)
     = ["a"; "a"; "a"; "b"; "b"; "c"; "</s>"; "a"; "b"].
Proof.
  split; [|vm_compute; reflexivity].
  apply (proj1 (@readFromFile_counts_occurrences insertion_StdSort)).
  vm_compute. discriminate.
Defined.

(** ** threshold on any dictionary *)

(** X7: [threshold] on a dictionary of fewer than [MAX_VOCAB_SIZE] entries,
    whatever its index and its counters held: it returns, the entries left
    are those whose count reaches the cutoff (of their type), sorted by
    falling count (words before labels, and by falling count within a
    type), the counters say how many there are, [ntokens_], [pdiscard_] and
    the prune map are as before, and if the words were distinct every entry
    is found by [getId] afterwards. *)
Theorem threshold_filters_and_sorts `{StdSort} :
  (forall (t : Z) (d : WordsOnly.Dictionary),
      Z.of_nat (length (WordsOnly.words_ d)) < MAX_VOCAB_SIZE ->
      exists d',
        WordsOnly.threshold t d = Ok d'
        /\ Permutation (WordsOnly.words_ d')
             (List.filter (fun e => t <=? WordsOnly.count e) (WordsOnly.words_ d))
        /\ StronglySorted (fun a b => WordsOnly.count b <= WordsOnly.count a)
             (WordsOnly.words_ d')
        /\ WordsOnly.nwords_ d' = Z.of_nat (length (WordsOnly.words_ d'))
        /\ WordsOnly.ntokens_ d' = WordsOnly.ntokens_ d
        /\ WordsOnly.pdiscard_ d' = WordsOnly.pdiscard_ d
        /\ WordsOnly.pruneidx_size_ d' = WordsOnly.pruneidx_size_ d
        /\ WordsOnly.pruneidx_ d' = WordsOnly.pruneidx_ d
        /\ (NoDup (map WordsOnly.word (WordsOnly.words_ d)) ->
            WordsOnlyFacts.well_formed d'))
  /\ (forall (t tl : Z) (d : LabelAware.Dictionary),
         Z.of_nat (length (LabelAware.words_ d)) < MAX_VOCAB_SIZE ->
         exists d',
           LabelAware.threshold t tl d = Ok d'
           /\ Permutation (LabelAware.words_ d')
                (List.filter (fun e => match LabelAware.type e with
                                       | entry_type.word => t <=? LabelAware.count e
                                       | entry_type.label => tl <=? LabelAware.count e
                                       end) (LabelAware.words_ d))
           /\ StronglySorted
                (fun a b =>
                   (LabelAware.type a = entry_type.label ->
                    LabelAware.type b = entry_type.label)
                   /\ (LabelAware.type a = LabelAware.type b ->
                       LabelAware.count b <= LabelAware.count a))
                (LabelAware.words_ d')
           /\ LabelAwareFacts.layout d'
           /\ LabelAware.ntokens_ d' = LabelAware.ntokens_ d
           /\ LabelAware.pdiscard_ d' = LabelAware.pdiscard_ d
           /\ LabelAware.pruneidx_size_ d' = LabelAware.pruneidx_size_ d
           /\ LabelAware.pruneidx_ d' = LabelAware.pruneidx_ d
           /\ (NoDup (map LabelAware.word (LabelAware.words_ d)) ->
               LabelAwareFacts.well_formed d')).
Proof.
  split.
  - intros t d Hroom. exact (WordsOnlyFacts.threshold_spec t d Hroom).
  - intros t tl d Hroom. exact (LabelAwareFacts.la_threshold_spec t tl d Hroom).
Qed.

Lemma threshold_filters_and_sorts_witness :
  exists d',
    @WordsOnly.threshold insertion_StdSort 4 WordsOnlyFacts.example_dictionary = Ok d'
    /\ Permutation (WordsOnly.words_ d')
         (List.filter (fun e => 4 <=? WordsOnly.count e)
                      (WordsOnly.words_ WordsOnlyFacts.example_dictionary))
    /\ StronglySorted (fun a b => WordsOnly.count b <= WordsOnly.count a)
         (WordsOnly.words_ d')
    /\ WordsOnly.nwords_ d' = Z.of_nat (length (WordsOnly.words_ d'))
    /\ WordsOnly.ntokens_ d' = WordsOnly.ntokens_ WordsOnlyFacts.example_dictionary
    /\ WordsOnly.pdiscard_ d' = WordsOnly.pdiscard_ WordsOnlyFacts.example_dictionary
    /\ WordsOnly.pruneidx_size_ d'
       = WordsOnly.pruneidx_size_ WordsOnlyFacts.example_dictionary
    /\ WordsOnly.pruneidx_ d' = WordsOnly.pruneidx_ WordsOnlyFacts.example_dictionary
    /\ (NoDup (map WordsOnly.word (WordsOnly.words_ WordsOnlyFacts.example_dictionary)) ->
        WordsOnlyFacts.well_formed d').
Proof.
  apply (proj1 (@threshold_filters_and_sorts insertion_StdSort)).
  vm_compute. reflexivity.
Defined.

(** * Reading a line: what is pushed *)

(** X8: on a usable words-only dictionary [getLine] returns.  The tokens it
    consumes are the first tokens the stream hands out after [reset], up to
    and including the first token of the vocabulary that is [</s>] or is
    the 1025th of the vocabulary (all tokens if there is none), and the
    stream is left right behind them.  The ids it pushes are those of the
    consumed tokens that are in the vocabulary, in the order of the line,
    less the ones [discard] rejects with the number drawn for them; each
    such id is below [nwords_]; the random source is drawn
    once per token of the vocabulary, whatever the model; for the
    supervised model nothing is discarded; and when [</s>] is in the
    vocabulary no token is consumed after the first [</s>]. *)
Theorem getLine_pushes_vocabulary_ids (d : WordsOnly.Dictionary) (s : istream)
    (rng : minstd_rand) :
  WordsOnlyFacts.usable d ->
  exists l,
    WordsOnly.getLine d s rng = Ok l
    /\ WordsOnly.consumed l
       = line_tokens (WordsOnlyFacts.in_vocabulary d) 0 (tokens (reset s))
    /\ WordsOnly.rest_in l
       = after_reads
           (length (WordsOnly.consumed l)
            + (if line_breaks (WordsOnlyFacts.in_vocabulary d) 0 (tokens (reset s))
               then 0 else 1)) (reset s)
    /\ WordsOnly.words l
       = WordsOnlyFacts.subsample d rng
           (WordsOnlyFacts.token_ids d (WordsOnly.consumed l))
    /\ sublist (WordsOnly.words l)
               (WordsOnlyFacts.token_ids d (WordsOnly.consumed l))
    /\ Forall (fun id => 0 <= id < WordsOnly.nwords_ d)
              (WordsOnlyFacts.token_ids d (WordsOnly.consumed l))
    /\ taken (WordsOnly.rest_rng l)
       = (taken rng
          + length (WordsOnlyFacts.token_ids d (WordsOnly.consumed l)))%nat
    /\ (model (WordsOnly.args_ d) = sup ->
        WordsOnly.words l = WordsOnlyFacts.token_ids d (WordsOnly.consumed l))
    /\ (WordsOnlyFacts.in_vocabulary d EOS = true ->
        forall pre post, WordsOnly.consumed l = pre ++ EOS :: post -> post = []).
Proof.
  intros Hu. destruct (WordsOnlyFacts.getLine_returns d s rng Hu) as [l Hl].
  exists l. split; [exact Hl|].
  destruct (WordsOnlyFacts.getLine_stream d s rng l Hl) as [Hcs Hrs].
  split; [exact Hcs|]. split; [rewrite Hcs; exact Hrs|]. clear Hcs Hrs.
  split; [exact (WordsOnlyFacts.getLine_exact d s rng l Hl)|].
  unfold WordsOnly.getLine in Hl.
  destruct (WordsOnlyFacts.getLine_loop_words _ _ _ _ _ _ _ _ Hl
              (WordsOnlyFacts.usable_nwords d Hu) (WordsOnlyFacts.usable_index d Hu))
    as (new & pushed & Hc & Hw & Hsub & HF & Ht & Hsup & He).
  cbn [app] in Hc, Hw. rewrite Hc, Hw.
  split; [exact Hsub|]. split; [exact HF|]. split; [exact Ht|].
  split; [exact Hsup | exact He].
Qed.

Lemma getLine_pushes_vocabulary_ids_witness :
  exists l,
    WordsOnly.getLine WordsOnlyFacts.example_dictionary (open_stream "a x b")
      (WordsOnlyFacts.constant_rng (S754_zero false)) = Ok l
    /\ WordsOnly.consumed l
       = line_tokens (WordsOnlyFacts.in_vocabulary WordsOnlyFacts.example_dictionary)
           0 (tokens (reset (open_stream "a x b")))
    /\ WordsOnly.rest_in l
       = after_reads
           (length (WordsOnly.consumed l)
            + (if line_breaks
                    (WordsOnlyFacts.in_vocabulary WordsOnlyFacts.example_dictionary)
                    0 (tokens (reset (open_stream "a x b")))
               then 0 else 1)) (reset (open_stream "a x b"))
    /\ WordsOnly.words l
       = WordsOnlyFacts.subsample WordsOnlyFacts.example_dictionary
           (WordsOnlyFacts.constant_rng (S754_zero false))
           (WordsOnlyFacts.token_ids WordsOnlyFacts.example_dictionary
              (WordsOnly.consumed l))
    /\ sublist (WordsOnly.words l)
               (WordsOnlyFacts.token_ids WordsOnlyFacts.example_dictionary
                  (WordsOnly.consumed l))
    /\ Forall (fun id => 0 <= id < WordsOnly.nwords_ WordsOnlyFacts.example_dictionary)
              (WordsOnlyFacts.token_ids WordsOnlyFacts.example_dictionary
                 (WordsOnly.consumed l))
    /\ taken (WordsOnly.rest_rng l)
       = (taken (WordsOnlyFacts.constant_rng (S754_zero false))
          + length (WordsOnlyFacts.token_ids WordsOnlyFacts.example_dictionary
                      (WordsOnly.consumed l)))%nat
    /\ (model (WordsOnly.args_ WordsOnlyFacts.example_dictionary) = sup ->
        WordsOnly.words l
        = WordsOnlyFacts.token_ids WordsOnlyFacts.example_dictionary
            (WordsOnly.consumed l))
    /\ (WordsOnlyFacts.in_vocabulary WordsOnlyFacts.example_dictionary EOS = true ->
        forall pre post, WordsOnly.consumed l = pre ++ EOS :: post -> post = []).
Proof.
  apply getLine_pushes_vocabulary_ids.
  exact WordsOnlyFacts.example_dictionary_usable.
Defined.

(** X9: the three-argument [getLine] of the dictionary with labels, on a
    dictionary whose words precede its labels: it returns; the tokens it
    consumes are the first tokens the stream hands out after [reset], up to
    and including the first token of the vocabulary that is [</s>] or is
    the 1025th of the vocabulary (all tokens if there is none), and the
    stream is left right behind them; the value returned counts every one
    of them that is in the vocabulary, labels included; the ids pushed
    are the word ids of those tokens, in order, less the ones [discard]
    rejects with the number drawn for them, and [labels] is left empty; the random source is drawn once per word of the vocabulary
    and never for a label; for the supervised model every word of the
    vocabulary is pushed. *)
Theorem getLine_counts_labels_pushes_words (d : LabelAware.Dictionary)
    (s : istream) (rng : minstd_rand) :
  LabelAwareFacts.usable d -> LabelAwareFacts.layout d ->
  LabelAware.nwords_ d <= Z.of_nat (length (LabelAware.pdiscard_ d)) ->
  exists l,
    LabelAware.getLine d s rng = Ok l
    /\ LabelAware.consumed l
       = line_tokens (LabelAwareFacts.in_vocabulary d) 0 (tokens (reset s))
    /\ LabelAware.rest_in l
       = after_reads
           (length (LabelAware.consumed l)
            + (if line_breaks (LabelAwareFacts.in_vocabulary d) 0 (tokens (reset s))
               then 0 else 1)) (reset s)
    /\ LabelAware.returned l
       = Z.of_nat (length (LabelAwareFacts.token_ids d (LabelAware.consumed l)))
    /\ Forall (fun id => 0 <= id < LabelAware.size_ d)
              (LabelAwareFacts.token_ids d (LabelAware.consumed l))
    /\ LabelAware.words l
       = LabelAwareFacts.subsample d rng
           (List.filter (fun id : Z => (id <? LabelAware.nwords_ d)%Z)
              (LabelAwareFacts.token_ids d (LabelAware.consumed l)))
    /\ sublist (LabelAware.words l)
               (List.filter (fun id : Z => (id <? LabelAware.nwords_ d)%Z)
                  (LabelAwareFacts.token_ids d (LabelAware.consumed l)))
    /\ LabelAware.labels l = []
    /\ taken (LabelAware.rest_rng l)
       = (taken rng
          + length (List.filter (fun id : Z => (id <? LabelAware.nwords_ d)%Z)
                      (LabelAwareFacts.token_ids d (LabelAware.consumed l))))%nat
    /\ (model (LabelAware.args_ d) = sup ->
        LabelAware.words l
        = List.filter (fun id : Z => (id <? LabelAware.nwords_ d)%Z)
            (LabelAwareFacts.token_ids d (LabelAware.consumed l))).
Proof.
  intros Hu Hlay Hpd. unfold LabelAware.getLine.
  destruct (LabelAwareFacts.la_getLine_loop_returns
              (Datatypes.S (length (unread (reset s)))) d (reset s) rng [] 0 []
              Hu Hlay Hpd) as [l Hl]; [lia|].
  exists l. split; [exact Hl|].
  destruct (LabelAwareFacts.la_getLine_loop_stream _ _ _ _ _ _ _ _ Hl) as [Hcs Hrs].
  cbn [app] in Hcs. fold (tokens (reset s)) in Hcs, Hrs.
  split; [exact Hcs|]. split; [rewrite Hcs; exact Hrs|]. clear Hcs Hrs.
  destruct (LabelAwareFacts.la_getLine_loop_words _ _ _ _ _ _ _ _ Hl Hlay
              (LabelAwareFacts.usable_index d Hu))
    as (new & pushed & Hc & Hw & Hlb & Hsub & HF & Hret & Ht & Hsup & _).
  destruct (LabelAwareFacts.la_getLine_loop_exact _ _ _ _ _ _ _ _ Hl Hlay
              (LabelAwareFacts.usable_index d Hu)) as (new' & Hc' & Hw').
  cbn [app] in Hc, Hw, Hc', Hw'. rewrite <- Hc', Hc in Hw'.
  rewrite Hc, Hret. split; [reflexivity|]. split; [exact HF|].
  split; [exact Hw'|]. rewrite Hw.
  split; [exact Hsub|].
  split; [exact Hlb|]. split; [exact Ht | exact Hsup].
Qed.

Lemma getLine_counts_labels_pushes_words_witness :
  exists l,
    LabelAware.getLine LabelAwareFacts.example_dictionary
      (open_stream LabelAwareFacts.example_corpus)
      (WordsOnlyFacts.constant_rng (S754_zero false)) = Ok l
    /\ LabelAware.consumed l
       = line_tokens (LabelAwareFacts.in_vocabulary LabelAwareFacts.example_dictionary)
           0 (tokens (reset (open_stream LabelAwareFacts.example_corpus)))
    /\ LabelAware.rest_in l
       = after_reads
           (length (LabelAware.consumed l)
            + (if line_breaks
                    (LabelAwareFacts.in_vocabulary LabelAwareFacts.example_dictionary)
                    0 (tokens (reset (open_stream LabelAwareFacts.example_corpus)))
               then 0 else 1))
           (reset (open_stream LabelAwareFacts.example_corpus))
    /\ LabelAware.returned l
       = Z.of_nat (length (LabelAwareFacts.token_ids LabelAwareFacts.example_dictionary
                             (LabelAware.consumed l)))
    /\ Forall (fun id => 0 <= id < LabelAware.size_ LabelAwareFacts.example_dictionary)
              (LabelAwareFacts.token_ids LabelAwareFacts.example_dictionary
                 (LabelAware.consumed l))
    /\ LabelAware.words l
       = LabelAwareFacts.subsample LabelAwareFacts.example_dictionary
           (WordsOnlyFacts.constant_rng (S754_zero false))
           (List.filter
              (fun id : Z =>
                 (id <? LabelAware.nwords_ LabelAwareFacts.example_dictionary)%Z)
              (LabelAwareFacts.token_ids LabelAwareFacts.example_dictionary
                 (LabelAware.consumed l)))
    /\ sublist (LabelAware.words l)
               (List.filter
                  (fun id : Z => (id <? LabelAware.nwords_ LabelAwareFacts.example_dictionary)%Z)
                  (LabelAwareFacts.token_ids LabelAwareFacts.example_dictionary
                     (LabelAware.consumed l)))
    /\ LabelAware.labels l = []
    /\ taken (LabelAware.rest_rng l)
       = (taken (WordsOnlyFacts.constant_rng (S754_zero false))
          + length (List.filter
                      (fun id : Z =>
                         (id <? LabelAware.nwords_ LabelAwareFacts.example_dictionary)%Z)
                      (LabelAwareFacts.token_ids LabelAwareFacts.example_dictionary
                         (LabelAware.consumed l))))%nat
    /\ (model (LabelAware.args_ LabelAwareFacts.example_dictionary) = sup ->
        LabelAware.words l
        = List.filter
            (fun id : Z => (id <? LabelAware.nwords_ LabelAwareFacts.example_dictionary)%Z)
            (LabelAwareFacts.token_ids LabelAwareFacts.example_dictionary
               (LabelAware.consumed l))).
Proof.
  apply getLine_counts_labels_pushes_words.
  - exact LabelAwareFacts.la_example_dictionary_usable.
  - exact LabelAwareFacts.la_example_dictionary_layout.
  - vm_compute. discriminate.
Defined.

(** * The reader: the next token *)

(** X10: what [readWord] does on any stream.  It skips the separators
    other than the newline that stand in front; then (1) a newline met
    first is consumed and the token is [</s>]; (2) otherwise the token is
    the longest run of bytes that are neither separators nor 0xFF, when a
    separator ends it: the call returns true, a newline that ends the
    token stays in the buffer and any other separator is consumed; (3) when
    the end of the buffer or a byte 0xFF (which is consumed) ends the run,
    the stream takes one more [get], and the call returns true exactly when
    the run is not empty. *)
Theorem readWord_yields_next_token (s : istream) :
  exists pre rest1,
    unread s = pre ++ rest1 /\ Forall skipped pre
    /\ ((exists tail,
            rest1 = newline :: tail
            /\ readWord s = (true, EOS, set_unread s tail))
        \/ (exists tok sep tail,
               tok <> [] /\ Forall token_byte tok
               /\ is_separator (to_char (byte_val sep)) = true
               /\ rest1 = tok ++ sep :: tail
               /\ readWord s
                  = (true, string_of_list_ascii tok,
                     set_unread s (if Ascii.eqb sep newline then sep :: tail
                                   else tail)))
        \/ (exists tok tail,
               Forall token_byte tok
               /\ (rest1 = tok /\ tail = []
                   \/ exists a, ~ plain a /\ rest1 = tok ++ a :: tail)
               /\ readWord s
                  = (match tok with [] => false | _ :: _ => true end,
                     string_of_list_ascii tok,
                     istream_get (set_unread s tail)))).
Proof.
  destruct (readWord_loop_start (unread s)) as (pre & rest1 & Hpre & Hrest & Hcase).
  exists pre, rest1. split; [exact Hrest|]. split; [exact Hpre|].
  unfold readWord.
  destruct Hcase as [(tail & Hr1 & Hl)|(Hfirst & tok & Htok & Hend)].
  - left. exists tail. split; [exact Hr1|]. rewrite Hl. reflexivity.
  - right. cbn [String.append] in Hend.
    destruct Hend as [(sep & tail & Hsep & Hr1 & Hl)|(tail & Hr1 & Hl)].
    + left. exists tok, sep, tail.
      split.
      { intros ->. cbn [app] in Hr1. rewrite (Hfirst _ _ Hr1) in Hsep.
        discriminate Hsep. }
      split; [exact Htok|]. split; [exact Hsep|]. split; [exact Hr1|].
      rewrite Hl. reflexivity.
    + right. exists tok, tail. split; [exact Htok|]. split; [exact Hr1|].
      rewrite Hl. destruct tok; reflexivity.
Qed.

(** * Labels of a line *)

(** X11: [getLabel] on a dictionary whose words precede its labels.  It
    throws exactly for the ids outside [0, nlabels_); for an id in range it
    returns the word of the entry at [nwords_ + lid], and that entry is a
    label.  It inverts the labels of a line: the ids that the four-argument
    [getLine] puts in [labels] are mapped by [getLabel], one by one and in
    order, to the tokens that are labels of the vocabulary among those the
    stream hands out after [reset] up to the first [</s>]. *)
Theorem getLabel_names_line_labels (d : LabelAware.Dictionary) :
  LabelAwareFacts.usable d -> LabelAwareFacts.layout d ->
  (forall lid, LabelAware.getLabel d lid = Err Throws
               <-> (lid < 0 \/ LabelAware.nlabels_ d <= lid))
  /\ (forall lid, 0 <= lid < LabelAware.nlabels_ d ->
        exists e,
          LabelAware.words_ d !! Z.to_nat (LabelAware.nwords_ d + lid) = Some e
          /\ LabelAware.type e = entry_type.label
          /\ LabelAware.getLabel d lid = Ok (LabelAware.word e))
  /\ (forall (s : istream) (rng : minstd_rand),
        exists l,
          LabelAware.getLine_labels d s rng = Ok l
          /\ Forall2 (fun lid w => LabelAware.getLabel d lid = Ok w)
               (LabelAware.labels l)
               (List.filter (LabelAwareFacts.vocabulary_label d)
                  (upto_eos (tokens (reset s))))
          /\ LabelAware.rest_in l
             = after_reads
                 (length (upto_eos (tokens (reset s)))
                  + (if has_eos (tokens (reset s)) then 0 else 1)) (reset s)).
Proof.
  intros Hu Hlay. split; [|split].
  - intros lid. split; [|apply LabelAwareFacts.getLabel_out_of_range].
    intros Hthrow.
    destruct (Z.lt_ge_cases lid 0) as [|H0]; [left; assumption|].
    destruct (Z.le_gt_cases (LabelAware.nlabels_ d) lid) as [|H1];
      [right; assumption|].
    destruct (LabelAwareFacts.getLabel_in_range d lid Hlay ltac:(lia))
      as (e & _ & _ & He).
    rewrite He in Hthrow. discriminate Hthrow.
  - intros lid Hr. exact (LabelAwareFacts.getLabel_in_range d lid Hlay Hr).
  - intros s rng. unfold LabelAware.getLine_labels.
    destruct (LabelAwareFacts.getLine_labels_loop_returns
                (Datatypes.S (length (unread (reset s)))) d (reset s) [] [] 0 [] Hu)
      as [[[[[n ws] ls] s1] seen] Hr]; [lia|].
    rewrite Hr, bind_Ok. eexists. split; [reflexivity|].
    destruct (LabelAwareFacts.getLine_labels_loop_spec _ _ _ _ _ _ _ _ _ _ _ _ Hr)
      as (new & Hs & _ & _ & Hls & _).
    destruct (LabelAwareFacts.getLine_labels_loop_stream _ _ _ _ _ _ _ _ _ _ _ _ Hr)
      as [Hc Hrest].
    fold (tokens (reset s)) in Hc, Hrest.
    cbn [LabelAware.labels LabelAware.rest_in app] in *.
    split; [|exact Hrest].
    rewrite Hls, <- Hc, Hs. cbn [app].
    apply LabelAwareFacts.flat_map_label_ids_getLabel;
      [exact Hlay | exact (LabelAwareFacts.usable_index d Hu)].
Qed.

Lemma getLabel_names_line_labels_witness :
  (forall lid, LabelAware.getLabel LabelAwareFacts.example_dictionary lid = Err Throws
               <-> (lid < 0
                    \/ LabelAware.nlabels_ LabelAwareFacts.example_dictionary <= lid))
  /\ (forall lid, 0 <= lid < LabelAware.nlabels_ LabelAwareFacts.example_dictionary ->
        exists e,
          LabelAware.words_ LabelAwareFacts.example_dictionary
            !! Z.to_nat (LabelAware.nwords_ LabelAwareFacts.example_dictionary + lid)
          = Some e
          /\ LabelAware.type e = entry_type.label
          /\ LabelAware.getLabel LabelAwareFacts.example_dictionary lid
             = Ok (LabelAware.word e))
  /\ (forall (s : istream) (rng : minstd_rand),
        exists l,
          LabelAware.getLine_labels LabelAwareFacts.example_dictionary s rng = Ok l
          /\ Forall2
               (fun lid w =>
                  LabelAware.getLabel LabelAwareFacts.example_dictionary lid = Ok w)
               (LabelAware.labels l)
               (List.filter
                  (LabelAwareFacts.vocabulary_label LabelAwareFacts.example_dictionary)
                  (upto_eos (tokens (reset s))))
          /\ LabelAware.rest_in l
             = after_reads
                 (length (upto_eos (tokens (reset s)))
                  + (if has_eos (tokens (reset s)) then 0 else 1)) (reset s)).
Proof.
  apply getLabel_names_line_labels.
  - exact LabelAwareFacts.la_example_dictionary_usable.
  - exact LabelAwareFacts.la_example_dictionary_layout.
Defined.

(** * pushHash before and after prune *)

(** X12: the prune map along the life of a dictionary.  [readFromFile]
    never touches it, so a dictionary built from one whose prune map is
    empty and whose [pruneidx_size_] is -1, as the constructor leaves them,
    is not pruned, and [pushHash] appends, for every [int32_t] id that is
    not negative, the [int32_t] sum [nwords_ + id] (with the wrap-around
    of [to_int32]), which is the integer [nwords_ + id] as long as that is
    below 2^31; for a negative id it appends nothing.  [prune] records the size of the
    map, which is zero: after it the dictionary counts as pruned and
    [pushHash] pushes nothing at all, whatever the id. *)
Theorem pushHash_before_and_after_prune `{StdSort} :
  (forall (s s' : istream) (d0 d d' : WordsOnly.Dictionary) (idx idx' : list Z),
      WordsOnly.pruneidx_size_ d0 = -1 -> WordsOnly.pruneidx_ d0 = ∅ ->
      WordsOnly.readFromFile s d0 = Ok (d, s') ->
      WordsOnly.prune idx d = Ok (d', idx') ->
      WordsOnly.isPruned d = false
      /\ 0 <= WordsOnly.nwords_ d
      /\ (forall hashes id, int32 id ->
            WordsOnly.pushHash d hashes id
            = if id <? 0 then hashes
              else hashes ++ [to_int32 (WordsOnly.nwords_ d + id)])
      /\ (forall id, 0 <= id -> WordsOnly.nwords_ d + id < 2 ^ 31 ->
            to_int32 (WordsOnly.nwords_ d + id) = WordsOnly.nwords_ d + id)
      /\ WordsOnly.isPruned d' = true
      /\ (forall hashes id, WordsOnly.pushHash d' hashes id = hashes))
  /\ (forall (s s' : istream) (d0 d d' : LabelAware.Dictionary)
             (idx idx' : list Z),
         LabelAware.pruneidx_size_ d0 = -1 -> LabelAware.pruneidx_ d0 = ∅ ->
         LabelAware.readFromFile s d0 = Ok (d, s') ->
         LabelAware.prune idx d = Ok (d', idx') ->
         0 <= LabelAware.nwords_ d
         /\ (forall hashes id, int32 id ->
               LabelAware.pushHash d hashes id
               = if id <? 0 then hashes
                 else hashes ++ [to_int32 (LabelAware.nwords_ d + id)])
         /\ (forall id, 0 <= id -> LabelAware.nwords_ d + id < 2 ^ 31 ->
               to_int32 (LabelAware.nwords_ d + id) = LabelAware.nwords_ d + id)
         /\ (forall hashes id, LabelAware.pushHash d' hashes id = hashes)).
Proof.
  assert (Hsmall : forall n id, 0 <= n -> 0 <= id -> n + id < 2 ^ 31 ->
                                to_int32 (n + id) = n + id).
  { intros n id Hn Hid Hlt. unfold to_int32.
    rewrite Z.mod_small by lia. lia. }
  split.
  - intros s s' d0 d d' idx idx' Hs0 Hm0 Hread Hprune.
    destruct (WordsOnlyFacts.readFromFile_prune_map _ _ _ _ Hread) as [Hs Hm].
    destruct (WordsOnlyFacts.prune_prune_map _ _ _ _ Hprune) as [Hs' _].
    destruct (WordsOnlyFacts.readFromFile_tabled _ _ _ _ Hread) as [Hn _].
    rewrite Hs0 in Hs. rewrite Hm, Hm0, map_size_empty in Hs'.
    unfold WordsOnly.isPruned, WordsOnly.pushHash. rewrite Hs, Hs'.
    split; [reflexivity|]. split; [lia|]. split; [|split; [|split]].
    + intros hashes id _. cbn [Z.eqb orb]. destruct (id <? 0); reflexivity.
    + intros id Hid Hlt. apply Hsmall; lia.
    + reflexivity.
    + intros hashes id. reflexivity.
  - intros s s' d0 d d' idx idx' Hs0 Hm0 Hread Hprune.
    destruct (LabelAwareFacts.la_readFromFile_prune_map _ _ _ _ Hread) as [Hs Hm].
    destruct (LabelAwareFacts.la_prune_prune_map _ _ _ _ Hprune) as [Hs' _].
    destruct (LabelAwareFacts.la_readFromFile_sorted _ _ _ _ Hread) as (_ & Hn & _).
    rewrite Hs0 in Hs. rewrite Hm, Hm0, map_size_empty in Hs'.
    unfold LabelAware.pushHash. rewrite Hs, Hs'.
    split; [lia|]. split; [|split].
    + intros hashes id _. cbn [Z.eqb orb]. destruct (id <? 0); reflexivity.
    + intros id Hid Hlt. apply Hsmall; lia.
    + intros hashes id. reflexivity.
Qed.

Lemma pushHash_before_and_after_prune_witness :
  (exists d' idx',
      @WordsOnly.prune insertion_StdSort [1; 0] WordsOnlyFacts.example_dictionary
      = Ok (d', idx')
      /\ WordsOnly.isPruned WordsOnlyFacts.example_dictionary = false
      /\ 0 <= WordsOnly.nwords_ WordsOnlyFacts.example_dictionary
      /\ (forall hashes id, int32 id ->
            WordsOnly.pushHash WordsOnlyFacts.example_dictionary hashes id
            = if id <? 0 then hashes
              else hashes
                   ++ [to_int32
                         (WordsOnly.nwords_ WordsOnlyFacts.example_dictionary + id)])
      /\ (forall id, 0 <= id ->
            WordsOnly.nwords_ WordsOnlyFacts.example_dictionary + id < 2 ^ 31 ->
            to_int32 (WordsOnly.nwords_ WordsOnlyFacts.example_dictionary + id)
            = WordsOnly.nwords_ WordsOnlyFacts.example_dictionary + id)
      /\ WordsOnly.isPruned d' = true
      /\ (forall hashes id, WordsOnly.pushHash d' hashes id = hashes))
  /\ (exists d' idx',
         @LabelAware.prune insertion_StdSort [2; 0] LabelAwareFacts.example_dictionary
         = Ok (d', idx')
         /\ 0 <= LabelAware.nwords_ LabelAwareFacts.example_dictionary
         /\ (forall hashes id, int32 id ->
               LabelAware.pushHash LabelAwareFacts.example_dictionary hashes id
               = if id <? 0 then hashes
                 else hashes
                      ++ [to_int32
                            (LabelAware.nwords_ LabelAwareFacts.example_dictionary
                             + id)])
         /\ (forall id, 0 <= id ->
               LabelAware.nwords_ LabelAwareFacts.example_dictionary + id < 2 ^ 31 ->
               to_int32 (LabelAware.nwords_ LabelAwareFacts.example_dictionary + id)
               = LabelAware.nwords_ LabelAwareFacts.example_dictionary + id)
         /\ (forall hashes id, LabelAware.pushHash d' hashes id = hashes)).
Proof.
  split.
  - do 2 eexists. split; [vm_compute; reflexivity|].
    eapply (proj1 (@pushHash_before_and_after_prune insertion_StdSort)
              (open_stream WordsOnlyFacts.scenario) WordsOnlyFacts.example_rest
              (WordsOnly.new WordsOnlyFacts.example_args)
              WordsOnlyFacts.example_dictionary _ [1; 0] _).
    + reflexivity.
    + reflexivity.
    + vm_compute. reflexivity.
    + vm_compute. reflexivity.
  - do 2 eexists. split; [vm_compute; reflexivity|].
    eapply (proj2 (@pushHash_before_and_after_prune insertion_StdSort)
              (open_stream LabelAwareFacts.example_corpus) LabelAwareFacts.example_rest
              (LabelAware.new LabelAwareFacts.example_args 0)
              LabelAwareFacts.example_dictionary _ [2; 0] _).
    + reflexivity.
    + reflexivity.
    + vm_compute. reflexivity.
    + vm_compute. reflexivity.
Defined.

(** * The end of the file *)

(** X13: [readFromFile] on a good stream without the byte 0xFF reads to the
    end of the buffer: the stream it leaves has [eofbit] set and nothing
    unread.  The first [getLine] on that stream therefore rewinds it: it
    behaves as on the file opened afresh, whatever the dictionary. *)
Theorem getLine_rewinds_after_readFromFile `{StdSort} :
  (forall (s s' : istream) (d0 d : WordsOnly.Dictionary),
      good s = true -> Forall plain (unread s) ->
      WordsOnly.readFromFile s d0 = Ok (d, s') ->
      content s' = content s /\ at_end s'
      /\ forall d1 rng,
           WordsOnly.getLine d1 s' rng
           = WordsOnly.getLine d1 (stream_of_bytes (content s)) rng)
  /\ (forall (s s' : istream) (d0 d : LabelAware.Dictionary),
         good s = true -> Forall plain (unread s) ->
         LabelAware.readFromFile s d0 = Ok (d, s') ->
         content s' = content s /\ at_end s'
         /\ forall d1 rng,
              LabelAware.getLine d1 s' rng
              = LabelAware.getLine d1 (stream_of_bytes (content s)) rng
              /\ LabelAware.getLine_labels d1 s' rng
                 = LabelAware.getLine_labels d1 (stream_of_bytes (content s)) rng).
Proof.
  split.
  - intros s s' d0 d Hg Hp Hread.
    destruct (WordsOnlyFacts.readFromFile_stream _ _ _ _ Hread
                (conj Hp (or_introl Hg))) as [Hc He].
    split; [exact Hc|]. split; [exact He|]. intros d1 rng.
    unfold WordsOnly.getLine. rewrite (reset_at_end s' He), Hc. reflexivity.
  - intros s s' d0 d Hg Hp Hread.
    destruct (LabelAwareFacts.la_readFromFile_stream _ _ _ _ Hread
                (conj Hp (or_introl Hg))) as [Hc He].
    split; [exact Hc|]. split; [exact He|]. intros d1 rng.
    unfold LabelAware.getLine, LabelAware.getLine_labels.
    rewrite (reset_at_end s' He), Hc. split; reflexivity.
Qed.

Lemma getLine_rewinds_after_readFromFile_witness :
  (content WordsOnlyFacts.example_rest
   = content (open_stream WordsOnlyFacts.scenario)
   /\ at_end WordsOnlyFacts.example_rest
   /\ forall d1 rng,
        WordsOnly.getLine d1 WordsOnlyFacts.example_rest rng
        = WordsOnly.getLine d1
            (stream_of_bytes (content (open_stream WordsOnlyFacts.scenario))) rng)
  /\ (content LabelAwareFacts.example_rest
      = content (open_stream LabelAwareFacts.example_corpus)
      /\ at_end LabelAwareFacts.example_rest
      /\ forall d1 rng,
           LabelAware.getLine d1 LabelAwareFacts.example_rest rng
           = LabelAware.getLine d1
               (stream_of_bytes (content (open_stream LabelAwareFacts.example_corpus)))
               rng
           /\ LabelAware.getLine_labels d1 LabelAwareFacts.example_rest rng
              = LabelAware.getLine_labels d1
                  (stream_of_bytes
                     (content (open_stream LabelAwareFacts.example_corpus)))
                  rng).
Proof.
  split.
  - apply (proj1 (@getLine_rewinds_after_readFromFile insertion_StdSort)
             (open_stream WordsOnlyFacts.scenario) WordsOnlyFacts.example_rest
             (WordsOnly.new WordsOnlyFacts.example_args)
             WordsOnlyFacts.example_dictionary).
    + reflexivity.
    + repeat (constructor; [intros Hx; vm_compute in Hx; discriminate Hx|]).
      constructor.
    + vm_compute. reflexivity.
  - apply (proj2 (@getLine_rewinds_after_readFromFile insertion_StdSort)
             (open_stream LabelAwareFacts.example_corpus) LabelAwareFacts.example_rest
             (LabelAware.new LabelAwareFacts.example_args 0)
             LabelAwareFacts.example_dictionary).
    + reflexivity.
    + repeat (constructor; [intros Hx; vm_compute in Hx; discriminate Hx|]).
      constructor.
    + vm_compute. reflexivity.
Defined.

(** X14: [getLine] where the text has run out.  On a good stream that holds
    nothing more than separators other than the newline (as just after the
    last newline of a file) every [getLine] returns 0, pushes nothing and
    draws no random number, and leaves the stream at its end with [eofbit]
    set; only the call after that rewinds, and behaves as on the file opened
    afresh. *)
Theorem getLine_empty_line_at_end_of_file :
  (forall (d : WordsOnly.Dictionary) (s : istream) (rng : minstd_rand),
      good s = true -> Forall skipped (unread s) ->
      exists s1,
        WordsOnly.getLine d s rng = Ok (WordsOnly.mkLine 0 [] s1 rng [])
        /\ at_end s1
        /\ forall d1 rng1,
             WordsOnly.getLine d1 s1 rng1
             = WordsOnly.getLine d1 (stream_of_bytes (content s)) rng1)
  /\ (forall (d : LabelAware.Dictionary) (s : istream) (rng : minstd_rand),
         good s = true -> Forall skipped (unread s) ->
         exists s1,
           LabelAware.getLine d s rng = Ok (LabelAware.mkLine 0 [] [] s1 rng [])
           /\ LabelAware.getLine_labels d s rng
              = Ok (LabelAware.mkLine 0 [] [] s1 rng [])
           /\ at_end s1
           /\ forall d1 rng1,
                LabelAware.getLine d1 s1 rng1
                = LabelAware.getLine d1 (stream_of_bytes (content s)) rng1
                /\ LabelAware.getLine_labels d1 s1 rng1
                   = LabelAware.getLine_labels d1 (stream_of_bytes (content s)) rng1).
Proof.
  split.
  - intros d s rng Hg Hb.
    destruct (WordsOnlyFacts.getLine_blank d s rng Hg Hb) as (s1 & Hl & Hc & He).
    exists s1. split; [exact Hl|]. split; [exact He|]. intros d1 rng1.
    unfold WordsOnly.getLine. rewrite (reset_at_end s1 He), Hc. reflexivity.
  - intros d s rng Hg Hb.
    destruct (LabelAwareFacts.la_getLine_blank d s rng Hg Hb)
      as (s1 & Hl & Hll & Hc & He).
    exists s1. split; [exact Hl|]. split; [exact Hll|]. split; [exact He|].
    intros d1 rng1. unfold LabelAware.getLine, LabelAware.getLine_labels.
    rewrite (reset_at_end s1 He), Hc. split; reflexivity.
Qed.

Lemma getLine_empty_line_at_end_of_file_witness :
  (exists s1,
      WordsOnly.getLine WordsOnlyFacts.example_dictionary (open_stream "  ")
        (WordsOnlyFacts.constant_rng (S754_zero false))
      = Ok (WordsOnly.mkLine 0 [] s1 (WordsOnlyFacts.constant_rng (S754_zero false)) [])
      /\ at_end s1
      /\ forall d1 rng1,
           WordsOnly.getLine d1 s1 rng1
           = WordsOnly.getLine d1 (stream_of_bytes (content (open_stream "  "))) rng1)
  /\ (exists s1,
         LabelAware.getLine LabelAwareFacts.example_dictionary (open_stream "  ")
           (WordsOnlyFacts.constant_rng (S754_zero false))
         = Ok (LabelAware.mkLine 0 [] [] s1
                 (WordsOnlyFacts.constant_rng (S754_zero false)) [])
         /\ LabelAware.getLine_labels LabelAwareFacts.example_dictionary
              (open_stream "  ") (WordsOnlyFacts.constant_rng (S754_zero false))
            = Ok (LabelAware.mkLine 0 [] [] s1
                    (WordsOnlyFacts.constant_rng (S754_zero false)) [])
         /\ at_end s1
         /\ forall d1 rng1,
              LabelAware.getLine d1 s1 rng1
              = LabelAware.getLine d1 (stream_of_bytes (content (open_stream "  ")))
                  rng1
              /\ LabelAware.getLine_labels d1 s1 rng1
                 = LabelAware.getLine_labels d1
                     (stream_of_bytes (content (open_stream "  "))) rng1).
Proof.
  split.
  - apply (proj1 getLine_empty_line_at_end_of_file).
    + reflexivity.
    + repeat (constructor; [split; [reflexivity | vm_compute; discriminate]|]).
      constructor.
  - apply (proj2 getLine_empty_line_at_end_of_file).
    + reflexivity.
    + repeat (constructor; [split; [reflexivity | vm_compute; discriminate]|]).
      constructor.
Defined.

(** * The counts of a built dictionary *)

(** X15: [getCounts] on the dictionary that [readFromFile] builds from a
    stream of at most 22,500,000 bytes.  It returns one count per entry
    ([nwords_] of them; with labels, [nwords_] for the words and [nlabels_]
    for the labels), in falling order, none below the cutoff of its kind;
    the counts add up to the number of tokens of the stream whose word was
    kept, so to at most [ntokens_], and to exactly [ntokens_] when the
    cutoffs are at most 1. With labels the start is a newly
    constructed dictionary whose [size_], which the constructor leaves
    uninitialised, is 0 ([LabelAware.new args 0]); from another start value
    the result differs ([readFromFile_start_size]). *)
Theorem getCounts_add_up_to_kept_tokens `{StdSort} :
  (forall (s s' : istream) (args : Args) (d : WordsOnly.Dictionary),
      Z.of_nat (length (unread s)) <= load_cap ->
      WordsOnly.readFromFile s (WordsOnly.new args) = Ok (d, s') ->
      Z.of_nat (length (WordsOnly.getCounts d)) = WordsOnly.nwords_ d
      /\ StronglySorted (fun a b => b <= a) (WordsOnly.getCounts d)
      /\ Forall (fun c => 1 <= c /\ minCount args <= c) (WordsOnly.getCounts d)
      /\ total (WordsOnly.getCounts d)
         = Z.of_nat (length (List.filter
                               (fun w => minCount args <=? occ w (tokens s))
                               (tokens s)))
      /\ total (WordsOnly.getCounts d) <= WordsOnly.ntokens_ d
      /\ (minCount args <= 1 ->
          total (WordsOnly.getCounts d) = WordsOnly.ntokens_ d))
  /\ (forall (s s' : istream) (args : Args) (d : LabelAware.Dictionary),
         Z.of_nat (length (unread s)) <= load_cap ->
         LabelAware.readFromFile s (LabelAware.new args 0) = Ok (d, s') ->
         Z.of_nat (length (LabelAware.getCounts d entry_type.word))
         = LabelAware.nwords_ d
         /\ Z.of_nat (length (LabelAware.getCounts d entry_type.label))
            = LabelAware.nlabels_ d
         /\ StronglySorted (fun a b => b <= a)
              (LabelAware.getCounts d entry_type.word)
         /\ StronglySorted (fun a b => b <= a)
              (LabelAware.getCounts d entry_type.label)
         /\ Forall (fun c => 1 <= c /\ minCount args <= c)
              (LabelAware.getCounts d entry_type.word)
         /\ Forall (fun c => 1 <= c /\ minCountLabel args <= c)
              (LabelAware.getCounts d entry_type.label)
         /\ total (LabelAware.getCounts d entry_type.word)
            + total (LabelAware.getCounts d entry_type.label)
            = Z.of_nat (length (List.filter
                                  (fun w => if String.prefix (label args) w
                                            then minCountLabel args
                                                 <=? occ w (tokens s)
                                            else minCount args <=? occ w (tokens s))
                                  (tokens s)))
         /\ total (LabelAware.getCounts d entry_type.word)
            + total (LabelAware.getCounts d entry_type.label)
            <= LabelAware.ntokens_ d
         /\ (minCount args <= 1 -> minCountLabel args <= 1 ->
             total (LabelAware.getCounts d entry_type.word)
             + total (LabelAware.getCounts d entry_type.label)
             = LabelAware.ntokens_ d)).
Proof.
  split.
  - intros s s' args d Hlen Hread.
    exact (WordsOnlyFacts.getCounts_built s s' args d Hlen Hread).
  - intros s s' args d Hlen Hread.
    exact (LabelAwareFacts.la_getCounts_built s s' args d Hlen Hread).
Qed.

Lemma getCounts_add_up_to_kept_tokens_witness :
  (let s := open_stream WordsOnlyFacts.scenario in
   let args := WordsOnlyFacts.example_args in
   let d := WordsOnlyFacts.example_dictionary in
   Z.of_nat (length (WordsOnly.getCounts d)) = WordsOnly.nwords_ d
   /\ StronglySorted (fun a b => b <= a) (WordsOnly.getCounts d)
   /\ Forall (fun c => 1 <= c /\ minCount args <= c) (WordsOnly.getCounts d)
   /\ total (WordsOnly.getCounts d)
      = Z.of_nat (length (List.filter
                            (fun w => minCount args <=? occ w (tokens s))
                            (tokens s)))
   /\ total (WordsOnly.getCounts d) <= WordsOnly.ntokens_ d
   /\ (minCount args <= 1 ->
       total (WordsOnly.getCounts d) = WordsOnly.ntokens_ d))
  /\ (let s := open_stream LabelAwareFacts.example_corpus in
      let args := LabelAwareFacts.example_args in
      let d := LabelAwareFacts.example_dictionary in
      Z.of_nat (length (LabelAware.getCounts d entry_type.word))
      = LabelAware.nwords_ d
      /\ Z.of_nat (length (LabelAware.getCounts d entry_type.label))
         = LabelAware.nlabels_ d
      /\ StronglySorted (fun a b => b <= a)
           (LabelAware.getCounts d entry_type.word)
      /\ StronglySorted (fun a b => b <= a)
           (LabelAware.getCounts d entry_type.label)
      /\ Forall (fun c => 1 <= c /\ minCount args <= c)
           (LabelAware.getCounts d entry_type.word)
      /\ Forall (fun c => 1 <= c /\ minCountLabel args <= c)
           (LabelAware.getCounts d entry_type.label)
      /\ total (LabelAware.getCounts d entry_type.word)
         + total (LabelAware.getCounts d entry_type.label)
         = Z.of_nat (length (List.filter
                               (fun w => if String.prefix (label args) w
                                         then minCountLabel args
                                              <=? occ w (tokens s)
                                         else minCount args <=? occ w (tokens s))
                               (tokens s)))
      /\ total (LabelAware.getCounts d entry_type.word)
         + total (LabelAware.getCounts d entry_type.label)
         <= LabelAware.ntokens_ d
      /\ (minCount args <= 1 -> minCountLabel args <= 1 ->
          total (LabelAware.getCounts d entry_type.word)
          + total (LabelAware.getCounts d entry_type.label)
          = LabelAware.ntokens_ d)).
Proof.
  split; cbv zeta.
  - apply (proj1 (@getCounts_add_up_to_kept_tokens insertion_StdSort)
             (open_stream WordsOnlyFacts.scenario) WordsOnlyFacts.example_rest
             WordsOnlyFacts.example_args WordsOnlyFacts.example_dictionary).
    + vm_compute. discriminate.
    + vm_compute. reflexivity.
  - apply (proj2 (@getCounts_add_up_to_kept_tokens insertion_StdSort)
             (open_stream LabelAwareFacts.example_corpus) LabelAwareFacts.example_rest
             LabelAwareFacts.example_args LabelAwareFacts.example_dictionary).
    + vm_compute. discriminate.
    + vm_compute. reflexivity.
Defined.

(** * The subsampling threshold of a word *)

(** X16: [discard] on a dictionary that [readFromFile] returned, or [load]
    from a stream that held every byte it asked for.
    Both end with [initTableDiscard], so for every word id in
    [0, nwords_) the entry exists and [discard(id, r)] returns, with no
    access out of the table: false for the supervised model, and otherwise
    whether [r] exceeds [sqrt(t / f) + t / f] for [f] the count of that entry
    over [ntokens_].  For any other id the assertion fails.  (For a loaded
    dictionary with labels the header must not claim more words than
    entries.) *)
Theorem discard_compares_with_word_frequency `{StdSort} :
  (forall (d : WordsOnly.Dictionary),
      (exists s s' d0, WordsOnly.readFromFile s d0 = Ok (d, s'))
      \/ (exists s s' d0, WordsOnly.load s d0 = Ok (d, s')) ->
      forall id r,
        (0 <= id < WordsOnly.nwords_ d ->
         exists e,
           WordsOnly.words_ d !! Z.to_nat id = Some e
           /\ WordsOnly.discard d id r
              = Ok (if model_name_eqb (model (WordsOnly.args_ d)) sup then false
                    else real_gt r
                           (discard_probability (t (WordsOnly.args_ d))
                              (real_of_ratio (WordsOnly.count e)
                                             (WordsOnly.ntokens_ d)))))
        /\ (id < 0 \/ WordsOnly.nwords_ d <= id ->
            WordsOnly.discard d id r = Err AssertionFailed))
  /\ (forall (d : LabelAware.Dictionary),
         (exists s s' d0, LabelAware.readFromFile s d0 = Ok (d, s'))
         \/ ((exists s s' d0, LabelAware.load s d0 = Ok (d, s'))
             /\ LabelAware.nwords_ d <= LabelAware.size_ d) ->
         forall id r,
           (0 <= id < LabelAware.nwords_ d ->
            exists e,
              LabelAware.words_ d !! Z.to_nat id = Some e
              /\ LabelAware.discard d id r
                 = Ok (if model_name_eqb (model (LabelAware.args_ d)) sup then false
                       else real_gt r
                              (discard_probability (t (LabelAware.args_ d))
                                 (real_of_ratio (LabelAware.count e)
                                                (LabelAware.ntokens_ d)))))
           /\ (id < 0 \/ LabelAware.nwords_ d <= id ->
               LabelAware.discard d id r = Err AssertionFailed)).
Proof.
  split.
  - intros d Hfrom id r. apply WordsOnlyFacts.discard_tabled.
    destruct Hfrom as [(s & s' & d0 & Hread)|(s & s' & d0 & Hload)].
    + exact (WordsOnlyFacts.readFromFile_tabled _ _ _ _ Hread).
    + exact (WordsOnlyFacts.load_tabled _ _ _ _ Hload).
  - intros d Hfrom id r.
    destruct Hfrom as [(s & s' & d0 & Hread)|[(s & s' & d0 & Hload) Hle]].
    + destruct (LabelAwareFacts.la_readFromFile_tabled _ _ _ _ Hread) as [Ht Hlay].
      apply LabelAwareFacts.la_discard_tabled; [exact Ht|].
      pose proof (LabelAwareFacts.layout_sum d Hlay).
      pose proof (LabelAwareFacts.layout_nlabels d Hlay). lia.
    + apply LabelAwareFacts.la_discard_tabled; [|exact Hle].
      exact (LabelAwareFacts.la_load_tabled _ _ _ _ Hload).
Qed.

Lemma discard_compares_with_word_frequency_witness :
  (forall id r,
      (0 <= id < WordsOnly.nwords_ WordsOnlyFacts.example_dictionary ->
       exists e,
         WordsOnly.words_ WordsOnlyFacts.example_dictionary !! Z.to_nat id = Some e
         /\ WordsOnly.discard WordsOnlyFacts.example_dictionary id r
            = Ok (if model_name_eqb
                       (model (WordsOnly.args_ WordsOnlyFacts.example_dictionary)) sup
                  then false
                  else real_gt r
                         (discard_probability
                            (t (WordsOnly.args_ WordsOnlyFacts.example_dictionary))
                            (real_of_ratio (WordsOnly.count e)
                               (WordsOnly.ntokens_ WordsOnlyFacts.example_dictionary)))))
      /\ (id < 0 \/ WordsOnly.nwords_ WordsOnlyFacts.example_dictionary <= id ->
          WordsOnly.discard WordsOnlyFacts.example_dictionary id r
          = Err AssertionFailed))
  /\ (exists d s',
         LabelAware.load
           (stream_of_bytes (LabelAwareFacts.image LabelAwareFacts.example_dictionary))
           (LabelAware.new LabelAwareFacts.example_args 0) = Ok (d, s')
         /\ forall id r,
              (0 <= id < LabelAware.nwords_ d ->
               exists e,
                 LabelAware.words_ d !! Z.to_nat id = Some e
                 /\ LabelAware.discard d id r
                    = Ok (if model_name_eqb (model (LabelAware.args_ d)) sup
                          then false
                          else real_gt r
                                 (discard_probability (t (LabelAware.args_ d))
                                    (real_of_ratio (LabelAware.count e)
                                                   (LabelAware.ntokens_ d)))))
              /\ (id < 0 \/ LabelAware.nwords_ d <= id ->
                  LabelAware.discard d id r = Err AssertionFailed)).
Proof.
  split.
  - apply (proj1 (@discard_compares_with_word_frequency insertion_StdSort)).
    left. exists (open_stream WordsOnlyFacts.scenario), WordsOnlyFacts.example_rest,
            (WordsOnly.new WordsOnlyFacts.example_args).
    vm_compute. reflexivity.
  - do 2 eexists. split; [vm_compute; reflexivity|].
    apply (proj2 (@discard_compares_with_word_frequency insertion_StdSort)).
    right. split.
    + exists (stream_of_bytes
                (LabelAwareFacts.image LabelAwareFacts.example_dictionary)).
      eexists. exists (LabelAware.new LabelAwareFacts.example_args 0).
      vm_compute. reflexivity.
    + vm_compute. discriminate.
Defined.

(** * What add counts *)

(** X17: [add] counts one occurrence.  On a well-formed dictionary with room
    for one more entry [add(w)] returns; [ntokens_] grows by one; the count
    recorded for [w] grows by one (from zero if [w] is new) and the count of
    every other word is unchanged; the number of entries grows by one exactly
    when [w] is new.  With labels, the new entry gets the type its prefix
    gives, the types of the other entries stay, and [nwords_] and [nlabels_]
    are not touched: they are only set by [threshold]. *)
Theorem add_counts_one_occurrence :
  (forall (d : WordsOnly.Dictionary) (w : string),
      WordsOnlyFacts.well_formed d ->
      Z.of_nat (length (WordsOnly.words_ d)) + 1 < MAX_VOCAB_SIZE ->
      exists d',
        WordsOnly.add w d = Ok d'
        /\ WordsOnly.ntokens_ d' = WordsOnly.ntokens_ d + 1
        /\ (forall w',
              WordsOnlyFacts.count_of d' w'
              = WordsOnlyFacts.count_of d w' + (if String.eqb w w' then 1 else 0))
        /\ WordsOnly.nwords_ d'
           = WordsOnly.nwords_ d
             + (if decide (w ∈ map WordsOnly.word (WordsOnly.words_ d))
                then 0 else 1))
  /\ (forall (d : LabelAware.Dictionary) (w : string),
         LabelAwareFacts.well_formed d ->
         Z.of_nat (length (LabelAware.words_ d)) + 1 < MAX_VOCAB_SIZE ->
         exists d',
           LabelAware.add w d = Ok d'
           /\ LabelAware.ntokens_ d' = LabelAware.ntokens_ d + 1
           /\ (forall w',
                 LabelAwareFacts.count_of d' w'
                 = LabelAwareFacts.count_of d w'
                   + (if String.eqb w w' then 1 else 0))
           /\ LabelAware.size_ d'
              = LabelAware.size_ d
                + (if decide (w ∈ map LabelAware.word (LabelAware.words_ d))
                   then 0 else 1)
           /\ map LabelAware.type (LabelAware.words_ d')
              = map LabelAware.type (LabelAware.words_ d)
                ++ (if decide (w ∈ map LabelAware.word (LabelAware.words_ d))
                    then [] else [LabelAware.getType_word d w])
           /\ LabelAware.nwords_ d' = LabelAware.nwords_ d
           /\ LabelAware.nlabels_ d' = LabelAware.nlabels_ d).
Proof.
  split.
  - intros d w Hwf Hroom. exact (WordsOnlyFacts.add_counts w d Hwf Hroom).
  - intros d w Hwf Hroom. exact (LabelAwareFacts.la_add_counts w d Hwf Hroom).
Qed.

Lemma add_counts_one_occurrence_witness :
  (let d := WordsOnlyFacts.example_dictionary in
   let w := "a"%string in
   exists d',
     WordsOnly.add w d = Ok d'
     /\ WordsOnly.ntokens_ d' = WordsOnly.ntokens_ d + 1
     /\ (forall w',
           WordsOnlyFacts.count_of d' w'
           = WordsOnlyFacts.count_of d w' + (if String.eqb w w' then 1 else 0))
     /\ WordsOnly.nwords_ d'
        = WordsOnly.nwords_ d
          + (if decide (w ∈ map WordsOnly.word (WordsOnly.words_ d))
             then 0 else 1))
  /\ (let d := LabelAwareFacts.example_dictionary in
      let w := "__label__new"%string in
      exists d',
        LabelAware.add w d = Ok d'
        /\ LabelAware.ntokens_ d' = LabelAware.ntokens_ d + 1
        /\ (forall w',
              LabelAwareFacts.count_of d' w'
              = LabelAwareFacts.count_of d w' + (if String.eqb w w' then 1 else 0))
        /\ LabelAware.size_ d'
           = LabelAware.size_ d
             + (if decide (w ∈ map LabelAware.word (LabelAware.words_ d))
                then 0 else 1)
        /\ map LabelAware.type (LabelAware.words_ d')
           = map LabelAware.type (LabelAware.words_ d)
             ++ (if decide (w ∈ map LabelAware.word (LabelAware.words_ d))
                 then [] else [LabelAware.getType_word d w])
        /\ LabelAware.nwords_ d' = LabelAware.nwords_ d
        /\ LabelAware.nlabels_ d' = LabelAware.nlabels_ d).
Proof.
  split; cbv zeta.
  - apply (proj1 add_counts_one_occurrence).
    + exact WordsOnlyFacts.example_dictionary_well_formed.
    + vm_compute. reflexivity.
  - apply (proj2 add_counts_one_occurrence).
    + exact LabelAwareFacts.la_example_dictionary_well_formed.
    + vm_compute. reflexivity.
Defined.

(** * The order of the probe *)

(** X18: [find] is a linear probe.  [hash] is a 32-bit value, [find(w)] is
    [find(w, hash(w))], and whenever [find(w, h)] returns slot [id], that
    slot is the first one, counting from [h % MAX_VOCAB_SIZE] upwards and
    wrapping around, that is empty or holds [w]: it lies [k] steps from the
    start for some [k] below [MAX_VOCAB_SIZE], and each of the [k] slots
    before it is occupied by an entry with another word. *)
Theorem find_returns_first_free_or_matching_slot :
  (forall w, 0 <= hash w < 2 ^ 32)
  /\ (forall (d : WordsOnly.Dictionary) (w : string) (h id : Z),
         WordsOnly.find_h d w h = Ok id ->
         exists k,
           0 <= k < MAX_VOCAB_SIZE
           /\ id = (h + k) mod MAX_VOCAB_SIZE
           /\ (slot_at (WordsOnly.word2int_ d) id = -1
               \/ WordsOnly.word_at d (slot_at (WordsOnly.word2int_ d) id) = Ok w)
           /\ forall j, 0 <= j < k ->
                slot_at (WordsOnly.word2int_ d) ((h + j) mod MAX_VOCAB_SIZE) <> -1
                /\ exists w',
                     WordsOnly.word_at d
                       (slot_at (WordsOnly.word2int_ d) ((h + j) mod MAX_VOCAB_SIZE))
                     = Ok w'
                     /\ w' <> w)
  /\ (forall (d : LabelAware.Dictionary) (w : string) (h id : Z),
         LabelAware.find_h d w h = Ok id ->
         exists k,
           0 <= k < MAX_VOCAB_SIZE
           /\ id = (h + k) mod MAX_VOCAB_SIZE
           /\ (slot_at (LabelAware.word2int_ d) id = -1
               \/ LabelAware.word_at d (slot_at (LabelAware.word2int_ d) id) = Ok w)
           /\ forall j, 0 <= j < k ->
                slot_at (LabelAware.word2int_ d) ((h + j) mod MAX_VOCAB_SIZE) <> -1
                /\ exists w',
                     LabelAware.word_at d
                       (slot_at (LabelAware.word2int_ d)
                          ((h + j) mod MAX_VOCAB_SIZE))
                     = Ok w'
                     /\ w' <> w)
  /\ (forall (d : WordsOnly.Dictionary) w,
         WordsOnly.find d w = WordsOnly.find_h d w (hash w))
  /\ (forall (d : LabelAware.Dictionary) w,
         LabelAware.find d w = LabelAware.find_h d w (hash w)).
Proof.
  split; [exact hash_range|]. split; [|split; [|split]].
  - intros d w h id Hf.
    destruct (WordsOnlyFacts.find_h_first d w h id Hf) as (k & Hk & Hid & Hstop & Hpath).
    exists k. split; [exact Hk|]. split; [exact Hid|]. split; [exact Hstop|].
    exact Hpath.
  - intros d w h id Hf.
    destruct (LabelAwareFacts.la_find_h_first d w h id Hf)
      as (k & Hk & Hid & Hstop & Hpath).
    exists k. split; [exact Hk|]. split; [exact Hid|]. split; [exact Hstop|].
    exact Hpath.
  - intros d w. apply WordsOnlyFacts.find_unfold.
  - intros d w. apply LabelAwareFacts.la_find_unfold.
Qed.

Lemma find_returns_first_free_or_matching_slot_witness :
  (exists id,
      WordsOnly.find_h WordsOnlyFacts.example_dictionary "b" (hash "b") = Ok id
      /\ exists k,
           0 <= k < MAX_VOCAB_SIZE
           /\ id = (hash "b" + k) mod MAX_VOCAB_SIZE
           /\ (slot_at (WordsOnly.word2int_ WordsOnlyFacts.example_dictionary) id = -1
               \/ WordsOnly.word_at WordsOnlyFacts.example_dictionary
                    (slot_at (WordsOnly.word2int_ WordsOnlyFacts.example_dictionary) id)
                  = Ok "b"%string)
           /\ forall j, 0 <= j < k ->
                slot_at (WordsOnly.word2int_ WordsOnlyFacts.example_dictionary)
                  ((hash "b" + j) mod MAX_VOCAB_SIZE) <> -1
                /\ exists w',
                     WordsOnly.word_at WordsOnlyFacts.example_dictionary
                       (slot_at (WordsOnly.word2int_ WordsOnlyFacts.example_dictionary)
                          ((hash "b" + j) mod MAX_VOCAB_SIZE))
                     = Ok w'
                     /\ w' <> "b"%string)
  /\ (exists id,
         LabelAware.find_h LabelAwareFacts.example_dictionary "film" (hash "film")
         = Ok id
         /\ exists k,
              0 <= k < MAX_VOCAB_SIZE
              /\ id = (hash "film" + k) mod MAX_VOCAB_SIZE
              /\ (slot_at (LabelAware.word2int_ LabelAwareFacts.example_dictionary) id
                  = -1
                  \/ LabelAware.word_at LabelAwareFacts.example_dictionary
                       (slot_at (LabelAware.word2int_ LabelAwareFacts.example_dictionary)
                          id)
                     = Ok "film"%string)
              /\ forall j, 0 <= j < k ->
                   slot_at (LabelAware.word2int_ LabelAwareFacts.example_dictionary)
                     ((hash "film" + j) mod MAX_VOCAB_SIZE) <> -1
                   /\ exists w',
                        LabelAware.word_at LabelAwareFacts.example_dictionary
                          (slot_at
                             (LabelAware.word2int_ LabelAwareFacts.example_dictionary)
                             ((hash "film" + j) mod MAX_VOCAB_SIZE))
                        = Ok w'
                        /\ w' <> "film"%string).
Proof.
  split.
  - eexists. split; [vm_compute; reflexivity|].
    apply (proj1 (proj2 find_returns_first_free_or_matching_slot)).
    vm_compute. reflexivity.
  - eexists. split; [vm_compute; reflexivity|].
    apply (proj1 (proj2 (proj2 find_returns_first_free_or_matching_slot))).
    vm_compute. reflexivity.
Defined.
